(** * Pathfinder: a shallow embedding of the path-finding core

    The development follows the Python sources of the repository:

    - [maze.py], [terrain_maze.py]: square grids and the terrain table;
    - [pathfinder.py], [terrain_pathfinder.py]: BFS and Dijkstra;
    - [equidistant_finder.py], [terrain_equidistant_finder.py]: the
      gathering-point finders;
    - [hex/hex_terrain_type.py], [hex/hex_cell.py], [hex/hex_map.py],
      [hex/hex_maze.py], [races/race.py], [pathfinding/hex_a_star.py]:
      the hexagonal map, the race modifiers and A*.

    Conventions of the embedding.

    - Python numbers that carry costs and times are exact rationals
      extended with [float('inf')] (type [num]).  The terrain table only
      holds multiples of [0.5], for which double-precision addition is
      exact, so Dijkstra on a terrain grid computes the same sums.
    - A Python call either returns, raises, or (for a [while] loop of the
      model) runs out of the fuel it was given: type [result].
    - Dictionaries whose iteration order is observed are insertion-ordered
      association lists ([odict]); the others are [gmap]s.
    - [heapq] is modelled by its contract: [heappop] removes and returns
      the smallest entry of the queue for the tuple order. *)

From Stdlib Require Import ZArith QArith Lqa Lia Ascii.
From stdpp Require Import gmap strings list sorting.

Open Scope Z_scope.

(** ** Results of calls *)

Inductive exn : Set :=
| AttributeError
| IndexError
| KeyError
| TypeError
| ValueError
| ZeroDivisionError.

Inductive result (A : Type) : Type :=
| Ok (a : A)
| Raise (e : exn)
| OutOfFuel.

Arguments Ok {A} a.
Arguments Raise {A} e.
Arguments OutOfFuel {A}.

#[global] Instance result_ret : MRet result := fun A a => Ok a.

#[global] Instance result_bind : MBind result := fun A B k r =>
  match r with
  | Ok a => k a
  | Raise e => Raise e
  | OutOfFuel => OutOfFuel
  end.

(** ** Numbers: rationals with [float('inf')] *)

Inductive num : Set :=
| Fin (q : Q)
| Inf.

Definition num_add (a b : num) : num :=
  match a, b with
  | Fin x, Fin y => Fin (x + y)
  | _, _ => Inf
  end.

(** [a < b], [a > b], [a == b] as Python evaluates them. *)
Definition Qltb (x y : Q) : bool :=
  match (x ?= y)%Q with Lt => true | _ => false end.

Definition num_ltb (a b : num) : bool :=
  match a, b with
  | Fin x, Fin y => Qltb x y
  | Fin _, Inf => true
  | Inf, _ => false
  end.

Definition num_eqb (a b : num) : bool :=
  match a, b with
  | Fin x, Fin y => Qeq_bool x y
  | Inf, Inf => true
  | _, _ => false
  end.

Definition num_le (a b : num) : Prop :=
  match a, b with
  | Fin x, Fin y => (x <= y)%Q
  | _, Inf => True
  | Inf, Fin _ => False
  end.

Definition num_lt (a b : num) : Prop :=
  match a, b with
  | Fin x, Fin y => (x < y)%Q
  | Fin _, Inf => True
  | Inf, _ => False
  end.

Definition num_eq (a b : num) : Prop :=
  match a, b with
  | Fin x, Fin y => (x == y)%Q
  | Inf, Inf => True
  | _, _ => False
  end.

Definition is_finite (a : num) : Prop :=
  match a with Fin _ => True | Inf => False end.

(** ** Positions and grid cells *)

Definition pos : Type := Z * Z.

(** A cell of a grid is a Python [int] or a [str]. *)
Inductive cell : Set :=
| CInt (n : Z)
| CStr (s : string).

Definition cell_eqb (a b : cell) : bool :=
  match a, b with
  | CInt x, CInt y => Z.eqb x y
  | CStr s, CStr t => bool_decide (s = t)
  | _, _ => false
  end.

(** [str.isdigit] on ASCII strings: non-empty, every character a digit. *)
Definition is_digit_char (c : ascii) : bool :=
  let n := nat_of_ascii c in (48 <=? n)%nat && (n <=? 57)%nat.

Fixpoint all_digits (s : string) : bool :=
  match s with
  | EmptyString => true
  | String c s' => is_digit_char c && all_digits s'
  end.

Definition isdigit (s : string) : bool :=
  match s with
  | EmptyString => false
  | _ => all_digits s
  end.

(** ** Insertion-ordered dictionaries *)

Section Odict.
Context {K V : Type} `{EqDecision K}.

Definition odict : Type := list (K * V).

Fixpoint od_get (d : odict) (k : K) : option V :=
  match d with
  | [] => None
  | (k', v) :: d' => if decide (k' = k) then Some v else od_get d' k
  end.

(** [d[k] = v]: an existing key keeps its place, a new one goes last. *)
Fixpoint od_set (d : odict) (k : K) (v : V) : odict :=
  match d with
  | [] => [(k, v)]
  | (k', v') :: d' =>
      if decide (k' = k) then (k, v) :: d' else (k', v') :: od_set d' k v
  end.

Definition od_keys (d : odict) : list K := map fst d.
Definition od_values (d : odict) : list V := map snd d.

End Odict.

Arguments odict : clear implicits.

(** ** The maze interface

    [PathFinder], [TerrainPathFinder] and the gathering-point finders only
    call methods of [self.maze]; any object with these methods will do. *)

Class MazeLike (M : Type) : Type := {
  is_valid_position : M -> pos -> bool;
  get_neighbors : M -> pos -> list pos;
  get_start_position : M -> option pos;
  get_end_position : M -> option pos;
  get_hero_positions : M -> odict string pos;
  get_all_valid_positions : M -> list pos
}.

(** What [TerrainPathFinder.__init__] checks with [hasattr]. *)
Class TerrainLike (M : Type) `{MazeLike M} : Type := {
  get_terrain_cost : M -> pos -> num;
  is_passable : M -> pos -> bool
}.

(** ** maze.py *)

Module Maze.

Record t : Type := mk {
  grid : list (list cell);
  height : Z;
  width : Z;
  heroes : odict string pos;
  end_ : option pos
}.

Definition default_grid : list (list cell) :=
  [ [CStr "1"; CInt 0; CInt 1; CInt 1; CInt 1; CInt 1];
    [CInt 0; CInt 0; CInt 0; CInt 0; CInt 0; CInt 1];
    [CInt 1; CInt 1; CInt 1; CInt 0; CInt 0; CInt 1];
    [CInt 1; CInt 0; CInt 0; CInt 0; CInt 1; CInt 1];
    [CInt 1; CInt 0; CInt 1; CInt 0; CInt 0; CStr "F"];
    [CInt 1; CInt 1; CInt 1; CInt 1; CInt 1; CInt 1] ].

(** [grid[row][col]] for non-negative indices. *)
Definition grid_at (g : list (list cell)) (p : pos) : option cell :=
  let '(row, col) := p in
  if (0 <=? row) && (0 <=? col)
  then r ← g !! Z.to_nat row; r !! Z.to_nat col
  else None.

(** The body of the two [for] loops of [__init__] for one cell. *)
Definition scan_cell (i j : Z) (c : cell)
    (st : odict string pos * option pos) : odict string pos * option pos :=
  match c with
  | CStr s =>
      if isdigit s then (od_set st.1 s (i, j), st.2)
      else if cell_eqb c (CStr "F") then (st.1, Some (i, j))
      else st
  | CInt _ => st
  end.

Definition scan_row (g : list (list cell)) (width : Z) (i : Z)
    (st : odict string pos * option pos) : result (odict string pos * option pos) :=
  foldl (fun acc j =>
           st ← acc;
           match grid_at g (i, j) with
           | Some c => Ok (scan_cell i j c st)
           | None => Raise IndexError
           end)
        (Ok st) (seqZ 0 width).

Definition scan (g : list (list cell)) (height width : Z)
    : result (odict string pos * option pos) :=
  foldl (fun acc i => st ← acc; scan_row g width i st)
        (Ok ([], None)) (seqZ 0 height).

Definition init (grid : option (list (list cell))) : result t :=
  let grid := default default_grid grid in
  let height := Z.of_nat (length grid) in
  let width := match grid with [] => 0 | r :: _ => Z.of_nat (length r) end in
  st ← scan grid height width;
  Ok {| grid := grid; height := height; width := width;
        heroes := st.1; end_ := st.2 |}.

(** Inside the bounds [grid[row][col]] exists for every maze that [init]
    returned; the [None] branch is there to keep the function total. *)
Definition is_valid_position (m : t) (position : pos) : bool :=
  let '(row, col) := position in
  if (0 <=? row) && (row <? height m) && (0 <=? col) && (col <? width m)
  then match grid_at (grid m) (row, col) with
       | Some c => negb (cell_eqb c (CInt 1))
       | None => false
       end
  else false.

Definition get_neighbors (m : t) (position : pos) : list pos :=
  let '(row, col) := position in
  let neighbors := [(row - 1, col); (row + 1, col); (row, col - 1); (row, col + 1)] in
  filter (fun p => is_valid_position m p = true) neighbors.

Definition get_start_position (m : t) : option pos := od_get (heroes m) "1"%string.

Definition get_end_position (m : t) : option pos := end_ m.

Definition get_hero_positions (m : t) : odict string pos := heroes m.

Definition get_all_valid_positions (m : t) : list pos :=
  i ← seqZ 0 (height m);
  j ← seqZ 0 (width m);
  if is_valid_position m (i, j) then [(i, j)] else [].

End Maze.

#[global] Instance Maze_MazeLike : MazeLike Maze.t := {
  is_valid_position := Maze.is_valid_position;
  get_neighbors := Maze.get_neighbors;
  get_start_position := Maze.get_start_position;
  get_end_position := Maze.get_end_position;
  get_hero_positions := Maze.get_hero_positions;
  get_all_valid_positions := Maze.get_all_valid_positions
}.

(** ** terrain_maze.py *)

Module TerrainMaze.

Record info : Type := mk_info {
  name : string;
  cost : num;
  passable : bool;
  color : string
}.

(** A dictionary display evaluates its items from left to right and a
    repeated key takes the later value. *)
Definition dict_display {V : Type} (items : list (string * V)) : gmap string V :=
  foldl (fun d kv => <[kv.1 := kv.2]> d) ∅ items.

(** The items of the [TERRAIN_TYPES] display, in the order of the source. *)
Definition TERRAIN_TYPES_items : list (string * info) :=
  [ ("R", mk_info "Road" (Fin (1 # 2)) true "gray");
    ("G", mk_info "Grass" (Fin 1) true "lightgreen");
    ("F", mk_info "Forest" (Fin 3) true "darkgreen");
    ("H", mk_info "Hill" (Fin 4) true "brown");
    ("S", mk_info "Swamp" (Fin 5) true "olive");
    ("W", mk_info "Water" Inf false "blue");
    ("M", mk_info "Mountain" Inf false "black");
    (" ", mk_info "Empty" Inf false "white");
    ("#", mk_info "Wall" Inf false "black");
    ("1", mk_info "Start" (Fin 1) true "lightgreen");
    ("F", mk_info "Finish" (Fin 1) true "lightgreen");
    ("2", mk_info "Hero2" (Fin 1) true "lightgreen");
    ("3", mk_info "Hero3" (Fin 1) true "lightgreen");
    ("4", mk_info "Hero4" (Fin 1) true "lightgreen");
    ("5", mk_info "Hero5" (Fin 1) true "lightgreen");
    ("6", mk_info "Hero6" (Fin 1) true "lightgreen");
    ("7", mk_info "Hero7" (Fin 1) true "lightgreen");
    ("8", mk_info "Hero8" (Fin 1) true "lightgreen");
    ("9", mk_info "Hero9" (Fin 1) true "lightgreen") ]%string.

Definition TERRAIN_TYPES : gmap string info := dict_display TERRAIN_TYPES_items.

Definition unknown_info : info := mk_info "Unknown" Inf false "white".

(** [TerrainMaze] adds no field to [Maze]. *)
Record t : Type := mk { base : Maze.t }.

(** A row written as one [str]: indexing it yields one-character strings. *)
Fixpoint letters (s : string) : list cell :=
  match s with
  | EmptyString => []
  | String c s' => CStr (String c EmptyString) :: letters s'
  end.

Definition default_grid : list (list cell) :=
  map letters
    [ "############"; "#1GGFFHHGGF#"; "#GGRRGGGGGG#"; "#FHWRGGWWGG#";
      "#FHRGGGWRRR#"; "#SSRGGGGRG2#"; "#SMMGGGGRGG#"; "#SSGGGFFRGG#";
      "#GGGGGFGRGG#"; "#GGWWGGGRGG#"; "#3GWGGGGRRR#"; "############" ]%string.

Definition init (grid : option (list (list cell))) : result t :=
  let grid := default default_grid grid in
  m ← Maze.init (Some grid);
  Ok (mk m).

Definition get_terrain_type (m : t) (position : pos) : cell :=
  if negb (Maze.is_valid_position (base m) position) then CStr " "
  else match Maze.grid_at (Maze.grid (base m)) position with
       | Some c => c
       | None => CStr " "
       end.

(** [TERRAIN_TYPES.get(terrain_type, default)]; an [int] is never a key. *)
Definition get_terrain_info (m : t) (position : pos) : info :=
  match get_terrain_type m position with
  | CStr s => default unknown_info (TERRAIN_TYPES !! s)
  | CInt _ => unknown_info
  end.

Definition get_terrain_cost (m : t) (position : pos) : num :=
  cost (get_terrain_info m position).

Definition is_passable (m : t) (position : pos) : bool :=
  if negb (Maze.is_valid_position (base m) position) then false
  else passable (get_terrain_info m position).

Definition get_neighbors (m : t) (position : pos) : list pos :=
  let '(row, col) := position in
  let potential_neighbors :=
    [(row - 1, col); (row + 1, col); (row, col - 1); (row, col + 1)] in
  filter (fun p => is_passable m p = true) potential_neighbors.

End TerrainMaze.

#[global] Instance TerrainMaze_MazeLike : MazeLike TerrainMaze.t := {
  is_valid_position m := Maze.is_valid_position (TerrainMaze.base m);
  get_neighbors := TerrainMaze.get_neighbors;
  get_start_position m := Maze.get_start_position (TerrainMaze.base m);
  get_end_position m := Maze.get_end_position (TerrainMaze.base m);
  get_hero_positions m := Maze.get_hero_positions (TerrainMaze.base m);
  get_all_valid_positions m := Maze.get_all_valid_positions (TerrainMaze.base m)
}.

#[global] Instance TerrainMaze_TerrainLike : TerrainLike TerrainMaze.t := {
  get_terrain_cost := TerrainMaze.get_terrain_cost;
  is_passable := TerrainMaze.is_passable
}.

(** ** heapq

    A queue is the list of its entries.  [heappush] adds an entry and
    [heappop] takes out the smallest one for the order [lt] of the
    entries; that is all the callers rely on. *)

Section Heapq.
Context {E : Type} (lt : E -> E -> bool).

(** The smallest of [x :: h] (the earliest one among equals) and the rest. *)
Fixpoint take_min (x : E) (h : list E) : E * list E :=
  match h with
  | [] => (x, [])
  | y :: h' =>
      let '(m, rest) := take_min y h' in
      if lt m x then (m, x :: rest) else (x, m :: rest)
  end.

Definition heappop (h : list E) : option (E * list E) :=
  match h with
  | [] => None
  | x :: h' => Some (take_min x h')
  end.

Definition heappush (h : list E) (e : E) : list E := e :: h.

End Heapq.

(** Tuple comparison: the first components that differ decide. *)
Definition pos_ltb (a b : pos) : bool :=
  if a.1 =? b.1 then a.2 <? b.2 else a.1 <? b.1.

Definition entry_ltb (a b : num * pos) : bool :=
  if num_eqb a.1 b.1 then pos_ltb a.2 b.2 else num_ltb a.1 b.1.

(** ** pathfinder.py *)

Section PathFinder.
Context {M : Type} `{MazeLike M}.

(** [while current: path.append(current); current = visited[current]] *)
Fixpoint walk_back (fuel : nat) (visited : gmap pos (option pos))
    (current : option pos) (path : list pos) : result (list pos) :=
  match current with
  | None => Ok path
  | Some c =>
      match fuel with
      | O => OutOfFuel
      | S fuel' =>
          match visited !! c with
          | Some previous => walk_back fuel' visited previous (path ++ [c])
          | None => Raise KeyError
          end
      end
  end.

(** The body of [for neighbor in self.maze.get_neighbors(current)]. *)
Definition bfs_visit (current : pos)
    (st : list pos * gmap pos (option pos)) (neighbor : pos)
    : list pos * gmap pos (option pos) :=
  match st.2 !! neighbor with
  | None => (st.1 ++ [neighbor], <[neighbor := Some current]> st.2)
  | Some _ => st
  end.

Fixpoint bfs_loop (fuel0 fuel : nat) (maze : M) (end_ : pos)
    (queue : list pos) (visited : gmap pos (option pos))
    : result (option (list pos)) :=
  match queue with
  | [] => Ok None
  | current :: queue =>
      match fuel with
      | O => OutOfFuel
      | S fuel' =>
          if decide (current = end_) then
            path ← walk_back fuel0 visited (Some current) [];
            Ok (Some (reverse path))
          else
            let st := foldl (bfs_visit current) (queue, visited)
                            (get_neighbors maze current) in
            bfs_loop fuel0 fuel' maze end_ st.1 st.2
      end
  end.

(** [PathFinder.bfs]; each [while] loop may run [fuel] times. *)
Definition bfs (fuel : nat) (maze : M) : result (option (list pos)) :=
  match get_start_position maze, get_end_position maze with
  | Some start, Some end_ =>
      bfs_loop fuel fuel maze end_ [start] {[start := None]}
  | _, _ => Ok None
  end.

End PathFinder.

(** ** terrain_pathfinder.py *)

Section TerrainPathFinder.
Context {M : Type} `{TerrainLike M}.

Definition dijkstra_state : Type :=
  list (num * pos) * gmap pos num * gmap pos (option pos).

(** The body of [for next_pos in self.maze.get_neighbors(current_pos)]. *)
Definition relax (maze : M) (current_cost : num) (current_pos : pos)
    (st : dijkstra_state) (next_pos : pos) : dijkstra_state :=
  let '(priority_queue, cost_so_far, came_from) := st in
  let new_cost := num_add current_cost (get_terrain_cost maze next_pos) in
  if match cost_so_far !! next_pos with
     | None => true
     | Some c => num_ltb new_cost c
     end
  then (heappush priority_queue (new_cost, next_pos),
        <[next_pos := new_cost]> cost_so_far,
        <[next_pos := Some current_pos]> came_from)
  else st.

(** The [while priority_queue] loop; it returns [came_from]. *)
Fixpoint dijkstra_loop (fuel : nat) (maze : M) (end_ : pos)
    (st : dijkstra_state) : result (gmap pos (option pos)) :=
  let '(priority_queue, cost_so_far, came_from) := st in
  match heappop entry_ltb priority_queue with
  | None => Ok came_from
  | Some ((current_cost, current_pos), priority_queue) =>
      match fuel with
      | O => OutOfFuel
      | S fuel' =>
          if decide (current_pos = end_) then Ok came_from
          else
            match cost_so_far !! current_pos with
            | None => Raise KeyError
            | Some known =>
                if num_ltb known current_cost then
                  dijkstra_loop fuel' maze end_
                    (priority_queue, cost_so_far, came_from)
                else
                  dijkstra_loop fuel' maze end_
                    (foldl (relax maze current_cost current_pos)
                           (priority_queue, cost_so_far, came_from)
                           (get_neighbors maze current_pos))
            end
      end
  end.

Definition dijkstra (fuel : nat) (maze : M) : result (option (list pos)) :=
  match get_start_position maze, get_end_position maze with
  | Some start, Some end_ =>
      came_from ← dijkstra_loop fuel maze end_
                    ([(Fin 0, start)], {[start := Fin 0]}, {[start := None]});
      match came_from !! end_ with
      | None => Ok None
      | Some _ =>
          path ← walk_back fuel came_from (Some end_) [];
          Ok (Some (reverse path))
      end
  | _, _ => Ok None
  end.

Definition get_path_cost (maze : M) (path : list pos) : num :=
  if (length path <? 2)%nat then Fin 0
  else foldl (fun total_cost p => num_add total_cost (get_terrain_cost maze p))
             (Fin 0) (tail path).

End TerrainPathFinder.

(** ** equidistant_finder.py *)

Definition num_of_Z (z : Z) : num := Fin (inject_Z z).

Section EquidistantFinder.
Context {M : Type} `{MazeLike M}.

Definition distance_visit (dist : Z)
    (st : list (pos * Z) * gmap pos Z) (neighbor : pos)
    : list (pos * Z) * gmap pos Z :=
  match st.2 !! neighbor with
  | None => (st.1 ++ [(neighbor, dist + 1)], <[neighbor := dist + 1]> st.2)
  | Some _ => st
  end.

Fixpoint distances_loop (fuel : nat) (maze : M)
    (queue : list (pos * Z)) (distances : gmap pos Z) : result (gmap pos Z) :=
  match queue with
  | [] => Ok distances
  | (p, dist) :: queue =>
      match fuel with
      | O => OutOfFuel
      | S fuel' =>
          let st := foldl (distance_visit dist) (queue, distances)
                          (get_neighbors maze p) in
          distances_loop fuel' maze st.1 st.2
      end
  end.

Definition calculate_distances (fuel : nat) (maze : M) (start_pos : option pos)
    : result (gmap pos Z) :=
  match start_pos with
  | None => Ok ∅
  | Some s => distances_loop fuel maze [(s, 0)] {[s := 0]}
  end.

(** [for hero_id, pos in heroes.items():
      hero_distances[hero_id] = self.calculate_distances(pos)] *)
Definition all_hero_distances (fuel : nat) (maze : M) (heroes : odict string pos)
    : result (odict string (gmap pos Z)) :=
  foldl (fun acc hero =>
           hero_distances ← acc;
           d ← calculate_distances fuel maze (Some hero.2);
           Ok (od_set hero_distances hero.1 d))
        (Ok []) heroes.

(** The distances of [p] from the heroes, unless one of them cannot reach it. *)
Fixpoint distances_to (hero_distances : odict string (gmap pos Z))
    (hero_ids : list string) (p : pos) : option (list Z) :=
  match hero_ids with
  | [] => Some []
  | hero_id :: ids =>
      d ← (od_get hero_distances hero_id ≫= fun dm => dm !! p);
      ds ← distances_to hero_distances ids p;
      Some (d :: ds)
  end.

Definition min_list (x : Z) (l : list Z) : Z := foldl Z.min x l.
Definition max_list (x : Z) (l : list Z) : Z := foldl Z.max x l.

(** One turn of [for pos in valid_positions]. *)
Definition consider (heroes : odict string pos)
    (hero_distances : odict string (gmap pos Z))
    (st : option pos * num) (p : pos) : option pos * num :=
  if bool_decide (p ∈ od_values heroes) then st
  else match distances_to hero_distances (od_keys heroes) p with
       | None | Some [] => st
       | Some (d :: ds) =>
           let min_dist := min_list d ds in
           let max_dist := max_list d ds in
           if (min_dist =? max_dist) && num_ltb (num_of_Z max_dist) st.2
           then (Some p, num_of_Z max_dist)
           else if num_ltb (num_of_Z max_dist) st.2
           then (Some p, num_of_Z max_dist)
           else st
       end.

Definition find_equidistant_point (fuel : nat) (maze : M)
    : result (option (pos * num)) :=
  let heroes := get_hero_positions maze in
  if (length heroes <? 2)%nat then Ok None
  else
    hero_distances ← all_hero_distances fuel maze heroes;
    let valid_positions := get_all_valid_positions maze in
    let st := foldl (consider heroes hero_distances) (None, Inf) valid_positions in
    match st.1 with
    | Some best_point => Ok (Some (best_point, st.2))
    | None => Ok None
    end.

End EquidistantFinder.

(** ** terrain_equidistant_finder.py *)

(** [terrain_cost / speed] for a finite speed.  An infinite cost stays
    infinite; no passable cell of a terrain grid has one. *)
Definition num_div (a : num) (speed : Q) : result num :=
  if Qeq_bool speed 0 then Raise ZeroDivisionError
  else Ok (match a with Fin x => Fin (x / speed) | Inf => Inf end).

Definition num_max (a b : num) : num := if num_ltb a b then b else a.

Section TerrainEquidistantFinder.
Context {M : Type} `{TerrainLike M}.

Definition times_state : Type := list (num * pos) * gmap pos num.

(** The body of [for next_pos in self.maze.get_neighbors(current_pos)]. *)
Definition relax_time (maze : M) (speed : Q) (current_time : num)
    (acc : result times_state) (next_pos : pos) : result times_state :=
  st ← acc;
  let terrain_cost := get_terrain_cost maze next_pos in
  time_to_move ← num_div terrain_cost speed;
  let new_time := num_add current_time time_to_move in
  if match st.2 !! next_pos with
     | None => true
     | Some t => num_ltb new_time t
     end
  then Ok (heappush st.1 (new_time, next_pos), <[next_pos := new_time]> st.2)
  else Ok st.

(** [distances[current_pos][idx] = current_time] on a [defaultdict(dict)]. *)
Definition record_time (distances : odict pos (odict nat num))
    (p : pos) (idx : nat) (t : num) : odict pos (odict nat num) :=
  od_set distances p (od_set (default [] (od_get distances p)) idx t).

(** The [while priority_queue] loop of one source. *)
Fixpoint source_loop (fuel : nat) (maze : M) (idx : nat) (speed : Q)
    (st : times_state) (distances : odict pos (odict nat num))
    : result (odict pos (odict nat num)) :=
  match heappop entry_ltb st.1 with
  | None => Ok distances
  | Some ((current_time, current_pos), priority_queue) =>
      match fuel with
      | O => OutOfFuel
      | S fuel' =>
          match st.2 !! current_pos with
          | None => Raise KeyError
          | Some known =>
              if num_ltb known current_time then
                source_loop fuel' maze idx speed (priority_queue, st.2) distances
              else
                st' ← foldl (relax_time maze speed current_time)
                            (Ok (priority_queue, st.2))
                            (get_neighbors maze current_pos);
                source_loop fuel' maze idx speed st'
                  (record_time distances current_pos idx current_time)
          end
      end
  end.

(** One turn of [for idx, (source, speed) in enumerate(zip(sources, speeds))]. *)
Definition from_source (fuel : nat) (maze : M)
    (acc : result (odict pos (odict nat num))) (item : nat * (pos * Q))
    : result (odict pos (odict nat num)) :=
  distances ← acc;
  let '(idx, (source, speed)) := item in
  if negb (is_valid_position maze source) then Ok distances
  else source_loop fuel maze idx speed
         ([(Fin 0, source)], {[source := Fin 0]}) distances.

Definition enumerate {A : Type} (l : list A) : list (nat * A) :=
  zip (seq 0 (length l)) l.

Definition compute_distances_with_costs (fuel : nat) (maze : M)
    (sources : list pos) (speeds : option (list Q))
    : result (odict pos (odict nat num)) :=
  match sources with
  | [] => Ok []
  | _ =>
      let speeds := default (replicate (length sources) 1%Q) speeds in
      if decide (length sources ≠ length speeds) then Raise ValueError
      else foldl (from_source fuel maze) (Ok []) (enumerate (zip sources speeds))
  end.

(** [max(times.values())] *)
Definition max_time_of (times : odict nat num) : result num :=
  match od_values times with
  | [] => Raise ValueError
  | t :: ts => Ok (foldl num_max t ts)
  end.

(** One turn of [for pos, times in distances.items()]. *)
Definition pick (n_heroes : nat) (acc : result (num * option pos))
    (item : pos * odict nat num) : result (num * option pos) :=
  st ← acc;
  if decide (length item.2 ≠ n_heroes) then Ok st
  else
    max_time ← max_time_of item.2;
    if num_ltb max_time st.1 then Ok (max_time, Some item.1) else Ok st.

Definition find_optimal_gathering_point (fuel : nat) (maze : M)
    (hero_positions : list pos) (hero_speeds : option (list Q))
    : result (option pos) :=
  match hero_positions with
  | [] => Ok None
  | _ =>
      distances ← compute_distances_with_costs fuel maze hero_positions hero_speeds;
      match distances with
      | [] => Ok None
      | _ =>
          st ← foldl (pick (length hero_positions)) (Ok (Inf, None)) distances;
          Ok st.2
      end
  end.

End TerrainEquidistantFinder.

(** ** hex/hex_terrain_type.py *)

(** Values that the class methods of the hex package return. *)
Inductive pyval : Type :=
| VNone
| VBool (b : bool)
| VNum (n : num)
| VStr (s : string).

(** Truth value of a Python value. *)
Definition truthy (v : pyval) : bool :=
  match v with
  | VNone => false
  | VBool b => b
  | VNum (Fin x) => negb (Qeq_bool x 0)
  | VNum Inf => true
  | VStr s => negb (bool_decide (s = EmptyString))
  end.

Module HexTerrainType.

(** [Enum] turns every plain attribute of the class body into a member,
    the two dictionaries [DESCRIPTIONS] and [COLORS] included. *)
Inductive t : Set :=
| GRASS | FOREST | HILLS | MOUNTAIN | WATER | SWAMP | DESERT | SNOW | LAVA
| ROAD | CASTLE | VILLAGE | CAVE | WALL
| START | END
| DESCRIPTIONS | COLORS.

#[global] Instance eq_dec : EqDecision t.
Proof. solve_decision. Defined.

(** [for t in HexTerrainType], in definition order. *)
Definition members : list t :=
  [GRASS; FOREST; HILLS; MOUNTAIN; WATER; SWAMP; DESERT; SNOW; LAVA;
   ROAD; CASTLE; VILLAGE; CAVE; WALL; START; END; DESCRIPTIONS; COLORS].

(** [cls.DESCRIPTIONS] and [cls.COLORS] are members, not dictionaries, and a
    member has no attribute [items]: both methods stop at their first line. *)
Definition get_description (terrain_type : option t) : result pyval :=
  Raise AttributeError.

Definition get_color (terrain_type : option t) : result pyval :=
  Raise AttributeError.

Inductive attribute : Type :=
| Member (m : t)
| ClassMethod (body : option t -> result pyval).

(** Every name the class defines. *)
Definition class_dict : odict string attribute :=
  [ ("GRASS", Member GRASS); ("FOREST", Member FOREST); ("HILLS", Member HILLS);
    ("MOUNTAIN", Member MOUNTAIN); ("WATER", Member WATER);
    ("SWAMP", Member SWAMP); ("DESERT", Member DESERT); ("SNOW", Member SNOW);
    ("LAVA", Member LAVA); ("ROAD", Member ROAD); ("CASTLE", Member CASTLE);
    ("VILLAGE", Member VILLAGE); ("CAVE", Member CAVE); ("WALL", Member WALL);
    ("START", Member START); ("END", Member END);
    ("DESCRIPTIONS", Member DESCRIPTIONS); ("COLORS", Member COLORS);
    ("get_description", ClassMethod get_description);
    ("get_color", ClassMethod get_color) ]%string.

(** [HexTerrainType.<name>] *)
Definition getattr (name : string) : result attribute :=
  match od_get class_dict name with
  | Some a => Ok a
  | None => Raise AttributeError
  end.

(** [HexTerrainType.<name>(arg)] *)
Definition call (name : string) (arg : option t) : result pyval :=
  a ← getattr name;
  match a with
  | ClassMethod body => body arg
  | Member _ => Raise TypeError
  end.

End HexTerrainType.

(** ** hex/hex_cell.py *)

Module HexCell.

(** [oid] is the identity of the object, what [id(cell)] returns. *)
Record t : Type := mk {
  q : Z;
  r : Z;
  terrain_type : HexTerrainType.t;
  oid : Z
}.

Definition s (c : t) : Z := - q c - r c.

Definition coords (c : t) : Z * Z := (q c, r c).

(** [__eq__]: same coordinates. *)
Definition eqb (a b : t) : bool := (q a =? q b) && (r a =? r b).

Definition distance (a b : t) : Z :=
  Z.max (Z.max (Z.abs (q a - q b)) (Z.abs (r a - r b))) (Z.abs (s a - s b)).

Definition directions : list (Z * Z) :=
  [(1, 0); (1, -1); (0, -1); (-1, 0); (-1, 1); (0, 1)].

Definition get_neighbors (c : t) : list (Z * Z) :=
  map (fun d => (q c + d.1, r c + d.2)) directions.

End HexCell.

(** ** hex/hex_map.py *)

Module HexMap.

Record t : Type := mk {
  cells : gmap (Z * Z) HexCell.t;
  start : option HexCell.t;
  end_ : option HexCell.t
}.

Definition empty : t := mk ∅ None None.

(** [add_cell] builds a new cell object; [addr] is the identity it gets. *)
Definition add_cell (m : t) (q r : Z) (terrain_type : HexTerrainType.t)
    (addr : Z) : t :=
  let cell := HexCell.mk q r terrain_type addr in
  let cells := <[(q, r) := cell]> (cells m) in
  if decide (terrain_type = HexTerrainType.START)
  then mk cells (Some cell) (end_ m)
  else if decide (terrain_type = HexTerrainType.END)
  then mk cells (start m) (Some cell)
  else mk cells (start m) (end_ m).

Definition get_cell (m : t) (q r : Z) : option HexCell.t := cells m !! (q, r).

Definition get_neighbors (m : t) (cell : HexCell.t) : list HexCell.t :=
  omap (fun qr => get_cell m qr.1 qr.2) (HexCell.get_neighbors cell).

End HexMap.

(** ** races/race.py *)

Module Race.

(** A race is its table of modifiers; subclasses replace the table. *)
Record t : Type := mk {
  name : string;
  terrain_modifiers : odict HexTerrainType.t num
}.

(** The table of the base class, [{t: 1.0 for t in HexTerrainType}]. *)
Definition base : t :=
  mk "Race" (map (fun k => (k, Fin 1)) HexTerrainType.members).

Definition get_movement_cost (race : t) (terrain_type : HexTerrainType.t) : num :=
  let modifier := default (Fin 1) (od_get (terrain_modifiers race) terrain_type) in
  if num_eqb modifier Inf then Inf else modifier.

Definition get_terrain_modifier (race : t) (terrain_type : HexTerrainType.t) : num :=
  default (Fin 1) (od_get (terrain_modifiers race) terrain_type).

Definition num_mul (a b : num) : num :=
  match a, b with
  | Fin x, Fin y => Fin (x * y)
  | _, _ => Inf
  end.

Definition get_modified_cost (race : t) (terrain_type : HexTerrainType.t)
    : result pyval :=
  base_cost ← HexTerrainType.call "get_cost" (Some terrain_type);
  let modifier := get_terrain_modifier race terrain_type in
  match base_cost with
  | VNum b => Ok (VNum (num_mul b modifier))
  | _ => Raise TypeError
  end.

Definition is_passable (race : t) (terrain_type : HexTerrainType.t)
    : result pyval :=
  passable ← HexTerrainType.call "is_passable" (Some terrain_type);
  if negb (truthy passable) then
    if bool_decide (terrain_type ∈ [HexTerrainType.WALL; HexTerrainType.LAVA;
                                    HexTerrainType.MOUNTAIN])
    then Ok (VBool false)
    else Ok (VBool (num_ltb (get_terrain_modifier race terrain_type) Inf))
  else Ok (VBool true).

End Race.

(** ** hex/hex_maze.py *)

Module HexMaze.

(** A [HexCoordinate] is its triple [(q, r, s)]. *)
Record t : Type := mk {
  terrain : gmap (Z * Z * Z) HexTerrainType.t;
  start_position : option (Z * Z * Z);
  end_position : option (Z * Z * Z)
}.

Definition is_valid_position (m : t) (position : Z * Z * Z) : bool :=
  bool_decide (is_Some (terrain m !! position)).

Definition get_terrain_type (m : t) (position : Z * Z * Z)
    : option HexTerrainType.t :=
  terrain m !! position.

Definition get_terrain_cost (m : t) (position : Z * Z * Z) : result pyval :=
  let terrain := get_terrain_type m position in
  HexTerrainType.call "get_cost" terrain.

Definition is_passable (m : t) (position : Z * Z * Z) : result pyval :=
  if negb (is_valid_position m position) then Ok (VBool false)
  else
    let terrain := get_terrain_type m position in
    HexTerrainType.call "is_passable" terrain.

End HexMaze.

(** ** pathfinding/hex_a_star.py *)

Module HexAStar.

(** Dictionaries and sets keyed by cells hash and compare the coordinates
    of the cell ([__hash__], [__eq__]); they are keyed by [(q, r)] here. *)
Record state : Type := mk {
  open_set : list (num * Z * HexCell.t);
  g_score : gmap (Z * Z) num;
  f_score : gmap (Z * Z) num;
  came_from : gmap (Z * Z) HexCell.t;
  closed_set : gset (Z * Z)
}.

(** Order of the entries [(f_score, id(node), node)].  Two entries with
    the same [id] hold the same object and compare equal. *)
Definition entry_ltb (a b : num * Z * HexCell.t) : bool :=
  if num_eqb a.1.1 b.1.1 then a.1.2 <? b.1.2 else num_ltb a.1.1 b.1.1.

(** [while current in came_from: path.append(current);
     current = came_from[current]] *)
Fixpoint walk_back (fuel : nat) (came_from : gmap (Z * Z) HexCell.t)
    (current : HexCell.t) (path : list HexCell.t) : result (list HexCell.t) :=
  match came_from !! HexCell.coords current with
  | None => Ok path
  | Some previous =>
      match fuel with
      | O => OutOfFuel
      | S fuel' => walk_back fuel' came_from previous (path ++ [current])
      end
  end.

(** The body of [for neighbor in hex_map.get_neighbors(current)]. *)
Definition visit (race : Race.t) (end_ current : HexCell.t)
    (acc : result state) (neighbor : HexCell.t) : result state :=
  st ← acc;
  if bool_decide (HexCell.coords neighbor ∈ closed_set st) then Ok st
  else
    let movement_cost :=
      Race.get_movement_cost race (HexCell.terrain_type neighbor) in
    if num_eqb movement_cost Inf then Ok st
    else
      match g_score st !! HexCell.coords current with
      | None => Raise KeyError
      | Some g_current =>
          let tentative_g_score := num_add g_current movement_cost in
          if match g_score st !! HexCell.coords neighbor with
             | Some g => negb (num_ltb tentative_g_score g)
             | None => false
             end
          then Ok st
          else
            let f := num_add tentative_g_score
                             (num_of_Z (HexCell.distance neighbor end_)) in
            Ok {| open_set :=
                    heappush (open_set st) (f, HexCell.oid neighbor, neighbor);
                  g_score :=
                    <[HexCell.coords neighbor := tentative_g_score]> (g_score st);
                  f_score := <[HexCell.coords neighbor := f]> (f_score st);
                  came_from :=
                    <[HexCell.coords neighbor := current]> (came_from st);
                  closed_set := closed_set st |}
      end.

Fixpoint loop (fuel0 fuel : nat) (hex_map : HexMap.t) (race : Race.t)
    (start end_ : HexCell.t) (st : state)
    : result (option (list HexCell.t) * num) :=
  match heappop entry_ltb (open_set st) with
  | None => Ok (None, Inf)
  | Some ((_, _, current), open_set') =>
      match fuel with
      | O => OutOfFuel
      | S fuel' =>
          if HexCell.eqb current end_ then
            path ← walk_back fuel0 (came_from st) current [];
            match g_score st !! HexCell.coords end_ with
            | Some g => Ok (Some (reverse (path ++ [start])), g)
            | None => Raise KeyError
            end
          else
            let st1 := {| open_set := open_set';
                          g_score := g_score st;
                          f_score := f_score st;
                          came_from := came_from st;
                          closed_set := {[HexCell.coords current]} ∪ closed_set st |} in
            st2 ← foldl (visit race end_ current) (Ok st1)
                        (HexMap.get_neighbors hex_map current);
            loop fuel0 fuel' hex_map race start end_ st2
      end
  end.

(** [find_path]; [start.distance(end)] needs both cells to be objects. *)
Definition find_path (fuel : nat) (hex_map : HexMap.t)
    (start end_ : option HexCell.t) (race : Race.t)
    : result (option (list HexCell.t) * num) :=
  match start, end_ with
  | Some start, Some end_ =>
      let h := num_of_Z (HexCell.distance start end_) in
      loop fuel fuel hex_map race start end_
        {| open_set := heappush [] (h, HexCell.oid start, start);
           g_score := {[HexCell.coords start := Fin 0]};
           f_score := {[HexCell.coords start := h]};
           came_from := ∅;
           closed_set := ∅ |}
  | _, _ => Raise AttributeError
  end.

End HexAStar.

(** ** Vocabulary of the statements *)

(** A cell token that the terrain table knows. *)
Definition token_known (c : cell) : Prop :=
  match c with
  | CStr s => is_Some (TerrainMaze.TERRAIN_TYPES !! s)
  | CInt _ => False
  end.

(** The value a call returned, or [d] if it did not return. *)
Definition returned {A : Type} (d : A) (r : result A) : A :=
  match r with
  | Ok a => a
  | _ => d
  end.

(** The permissive reading of an unknown token: a passable terrain of
    finite cost. *)
Definition unknown_token_is_permissive : Prop :=
  forall (m : TerrainMaze.t) (p : pos),
    ~ token_known (TerrainMaze.get_terrain_type m p) ->
    is_finite (TerrainMaze.get_terrain_cost m p)
    /\ TerrainMaze.is_passable m p = true.

(** ** Example inputs *)

Definition empty_maze : Maze.t := Maze.mk [] 0 0 [] None.

(** The default terrain maze, [TerrainMaze()]. *)
Definition default_terrain_maze : TerrainMaze.t :=
  Eval vm_compute in returned (TerrainMaze.mk empty_maze) (TerrainMaze.init None).

(** A row of three cells whose middle token is not in the table. *)
Definition maze_with_unknown : TerrainMaze.t :=
  Eval vm_compute in
    returned (TerrainMaze.mk empty_maze)
             (TerrainMaze.init (Some [TerrainMaze.letters "1XF"])).

(** A square of four hex cells: start, two grass cells side by side, end.
    [a1] and [a2] are the identities of the two grass cells. *)
Definition diamond (a1 a2 : Z) : HexMap.t :=
  let m := HexMap.add_cell HexMap.empty 0 0 HexTerrainType.START 10 in
  let m := HexMap.add_cell m 1 0 HexTerrainType.GRASS a1 in
  let m := HexMap.add_cell m 0 1 HexTerrainType.GRASS a2 in
  HexMap.add_cell m 1 1 HexTerrainType.END 40.

(** The coordinates of the cells of a search result. *)
Definition route (r : result (option (list HexCell.t) * num))
    : result (option (list (Z * Z)) * num) :=
  x ← r; Ok (fmap (M := option) (map HexCell.coords) x.1, x.2).

(** A base-cost table in which walls alone are impassable. *)
Definition walls_only (kind : HexTerrainType.t) : num :=
  if decide (kind = HexTerrainType.WALL) then Inf else Fin 1.

(** The state of A* when the loop starts. *)
Definition astar_initial (start end_ : HexCell.t) : HexAStar.state :=
  let h := num_of_Z (HexCell.distance start end_) in
  {| HexAStar.open_set := heappush [] (h, HexCell.oid start, start);
     HexAStar.g_score := {[HexCell.coords start := Fin 0]};
     HexAStar.f_score := {[HexCell.coords start := h]};
     HexAStar.came_from := ∅;
     HexAStar.closed_set := ∅ |}.

Definition cell_start : HexCell.t := HexCell.mk 0 0 HexTerrainType.START 10.
Definition cell_grass : HexCell.t := HexCell.mk 1 0 HexTerrainType.GRASS 20.
Definition cell_end : HexCell.t := HexCell.mk 1 1 HexTerrainType.END 40.

(** The charge of a search is the base cost times the modifier, for the
    base-cost table [base]. *)
Definition charge_is_base_times_modifier (base : HexTerrainType.t -> num) : Prop :=
  forall (race : Race.t) (kind : HexTerrainType.t),
    num_eq (Race.get_movement_cost race kind)
           (Race.num_mul (base kind) (Race.get_terrain_modifier race kind)).

(** The state after the start cell looked at its grass neighbour. *)
Definition astar_after_grass : HexAStar.state :=
  returned (astar_initial cell_start cell_end)
    (HexAStar.visit Race.base cell_end cell_start
       (Ok (astar_initial cell_start cell_end)) cell_grass).

(** A cell without its identity. *)
Definition erase (c : HexCell.t) : Z * Z * HexTerrainType.t :=
  (HexCell.q c, HexCell.r c, HexCell.terrain_type c).

(** Two maps that hold the same terrain at the same coordinates. *)
Definition same_content (m1 m2 : HexMap.t) : Prop :=
  erase <$> HexMap.cells m1 = erase <$> HexMap.cells m2
  /\ erase <$> HexMap.start m1 = erase <$> HexMap.start m2
  /\ erase <$> HexMap.end_ m1 = erase <$> HexMap.end_ m2.

(** A* returns the same route on maps of the same content, whatever the
    identities of their cell objects. *)
Definition astar_ignores_identity : Prop :=
  forall (fuel : nat) (m1 m2 : HexMap.t) (race : Race.t),
    same_content m1 m2 ->
    route (HexAStar.find_path fuel m1 (HexMap.start m1) (HexMap.end_ m1) race)
    = route (HexAStar.find_path fuel m2 (HexMap.start m2) (HexMap.end_ m2) race).

(** Each of the three searches returns an absent result on a map without
    a start or without an end. *)
Definition searches_absent_without_endpoints : Prop :=
  forall (fuel : nat) (maze : TerrainMaze.t) (hex_map : HexMap.t) (race : Race.t),
    (get_start_position maze = None \/ get_end_position maze = None) ->
    (HexMap.start hex_map = None \/ HexMap.end_ hex_map = None) ->
    bfs fuel maze = Ok None
    /\ dijkstra fuel maze = Ok None
    /\ HexAStar.find_path fuel hex_map (HexMap.start hex_map)
         (HexMap.end_ hex_map) race = Ok (None, Inf).

(** Both gathering-point finders return an absent result when there are
    fewer than two sources. *)
Definition finders_absent_below_two_sources : Prop :=
  forall (fuel : nat) (maze : TerrainMaze.t) (sources : list pos)
         (speeds : option (list Q)),
    (length sources < 2)%nat ->
    find_optimal_gathering_point fuel maze sources speeds = Ok None.

(** ** Paths *)

(** Every cell of [path] but the first is a neighbour of the one before. *)
Fixpoint is_walk (nbrs : pos -> list pos) (path : list pos) : Prop :=
  match path with
  | a :: (b :: _) as rest => b ∈ nbrs a /\ is_walk nbrs rest
  | _ => True
  end.

(** [path] leads from [s] to [e] through neighbouring cells of [maze]. *)
Definition path_between {M : Type} `{MazeLike M} (maze : M)
    (s e : pos) (path : list pos) : Prop :=
  head path = Some s /\ last path = Some e /\ is_walk (get_neighbors maze) path.

(** The number of steps of a path. *)
Definition edge_count (path : list pos) : nat := (length path - 1)%nat.

(** ** Invariant of the BFS loop

    [dist] is the depth at which a visited cell was found and [d] the depth
    of the cell taken from the queue last.  [cur] holds that cell and the
    neighbours it has looked at so far while its neighbour loop runs. *)
Record bfs_inv {M : Type} `{MazeLike M} (maze : M) (start : pos)
    (dist : pos -> nat) (d : nat) (cur : option (pos * list pos))
    (queue : list pos) (visited : gmap pos (option pos)) : Prop := {
  bi_start : visited !! start = Some None;
  bi_dist_start : dist start = 0%nat;
  bi_root : forall n, visited !! n = Some None -> n = start;
  bi_parent : forall n p, visited !! n = Some (Some p) ->
    is_Some (visited !! p) /\ n ∈ get_neighbors maze p /\ dist n = S (dist p);
  bi_queue : forall x, x ∈ queue ->
    is_Some (visited !! x) /\ (d <= dist x)%nat /\ (dist x <= S d)%nat;
  bi_sorted : forall i j x y, (i <= j)%nat ->
    queue !! i = Some x -> queue !! j = Some y -> (dist x <= dist y)%nat;
  bi_nodup : NoDup queue;
  bi_old : forall x, is_Some (visited !! x) -> x ∉ queue -> (dist x <= d)%nat;
  bi_expanded : forall x v, is_Some (visited !! x) -> x ∉ queue ->
    v ∈ get_neighbors maze x ->
    (forall ns, cur = Some (x, ns) -> v ∈ ns) ->
    is_Some (visited !! v) /\ (dist v <= S (dist x))%nat;
  bi_cur : forall u ns, cur = Some (u, ns) ->
    is_Some (visited !! u) /\ (u ∉ queue) /\ dist u = d
}.

(** The cells of [V] that are not visited yet. *)
Definition unvisited {A : Type} (V : list pos) (visited : gmap pos A) : list pos :=
  filter (fun v => visited !! v = None) V.

(** Depths stay below the number of visited cells of [V]. *)
Definition depth_bounded {A : Type} (V : list pos) (dist : pos -> nat)
    (visited : gmap pos A) : Prop :=
  forall x, is_Some (visited !! x) ->
    (dist x + length (unvisited V visited) <= length V)%nat.

(** The depths are bounded and [fuel] covers the queue and the cells of
    [V] that are left. *)
Definition bfs_budget (V : list pos) (fuel : nat) (dist : pos -> nat)
    (queue : list pos) (visited : gmap pos (option pos)) : Prop :=
  depth_bounded V dist visited
  /\ (length queue + length (unvisited V visited) <= fuel)%nat.

(** The default maze, [Maze()], the path BFS finds in it and a detour. *)
Definition default_maze : Maze.t :=
  Eval vm_compute in returned empty_maze (Maze.init None).

Definition default_maze_path : list pos :=
  [(0, 0); (1, 0); (1, 1); (1, 2); (1, 3); (2, 3); (3, 3); (4, 3); (4, 4); (4, 5)].

Definition default_maze_detour : list pos :=
  [(0, 0); (0, 1); (1, 1); (1, 2); (1, 3); (1, 4); (2, 4); (2, 3); (3, 3);
   (4, 3); (4, 4); (4, 5)].

(** ** Invariant of the Dijkstra loop

    [D] holds the cells that have been expanded, [lo] the cost of the entry
    taken from the queue last, [depth] the number of steps of the chain of
    [came_from] links of a cell.  [cur] holds the cell being expanded and
    the neighbours it has looked at so far while its neighbour loop runs. *)
Record dij_inv {M : Type} `{TerrainLike M} (maze : M) (start end_ : pos)
    (depth : pos -> nat) (D : gmap pos unit) (lo : num)
    (cur : option (pos * list pos))
    (pq : list (num * pos)) (cost_so_far : gmap pos num)
    (came_from : gmap pos (option pos)) : Prop := {
  di_start : cost_so_far !! start = Some (Fin 0) /\ came_from !! start = Some None;
  di_dom : forall n, is_Some (cost_so_far !! n) <-> is_Some (came_from !! n);
  di_root : forall n, came_from !! n = Some None -> n = start;
  di_parent : forall n p, came_from !! n = Some (Some p) ->
    is_Some (D !! p) /\ n ∈ get_neighbors maze p /\ depth n = S (depth p)
    /\ exists cn cp, cost_so_far !! n = Some cn /\ cost_so_far !! p = Some cp
                     /\ num_le (num_add cp (get_terrain_cost maze n)) cn;
  di_done : forall d, is_Some (D !! d) -> is_Some (cost_so_far !! d);
  di_end : D !! end_ = None;
  di_lo : num_le (Fin 0) lo;
  di_pq : forall c n, (c, n) ∈ pq ->
    num_le lo c /\ exists c', cost_so_far !! n = Some c' /\ num_le c' c;
  di_pending : forall n c, cost_so_far !! n = Some c -> D !! n = None -> (c, n) ∈ pq;
  di_final : forall d c, is_Some (D !! d) -> cost_so_far !! d = Some c -> num_le c lo;
  di_expanded : forall d v, is_Some (D !! d) -> v ∈ get_neighbors maze d ->
    (forall ns, cur = Some (d, ns) -> v ∈ ns) ->
    exists cd cv, cost_so_far !! d = Some cd /\ cost_so_far !! v = Some cv
                  /\ num_le cv (num_add cd (get_terrain_cost maze v));
  di_cur : forall u ns, cur = Some (u, ns) ->
    is_Some (D !! u) /\ exists cu, cost_so_far !! u = Some cu /\ num_le lo cu
}.

(** The cells with a cost are cells of [V], their depths are bounded, and
    [fuel] covers the queue and [k] entries for every cell of [V] that is
    not expanded yet. *)
Definition dij_budget (V : list pos) (k fuel : nat) (depth : pos -> nat)
    (D : gmap pos unit) (pq : list (num * pos)) (cost_so_far : gmap pos num)
    : Prop :=
  (forall n, is_Some (cost_so_far !! n) ->
             n ∈ V /\ (depth n + length (unvisited V D) <= length V)%nat)
  /\ (length pq + k * length (unvisited V D) <= fuel)%nat.

(** The same while the neighbour loop of [u] runs: [base] entries were in
    the queue when it began and [ns] are the neighbours looked at so far. *)
Definition dij_budget_cur (V : list pos) (u : pos) (base : nat)
    (D : gmap pos unit) (depth : pos -> nat) (ns : list pos)
    (pq : list (num * pos)) (cost_so_far : gmap pos num) : Prop :=
  (forall n, is_Some (cost_so_far !! n) ->
             n ∈ V /\ (depth n + length (unvisited V D) <= length V)%nat)
  /\ (S (depth u) + length (unvisited V D) <= length V)%nat
  /\ (length pq <= base + length ns)%nat.

(** The path Dijkstra finds in the default terrain maze, and the path BFS
    finds there. *)
Definition default_terrain_cheapest : list pos :=
  [(1, 1); (1, 2); (1, 3); (2, 3); (2, 4); (3, 4); (3, 5); (3, 6); (4, 6);
   (5, 6); (6, 6); (7, 6); (8, 6)].

Definition default_terrain_shortest : list pos :=
  [(1, 1); (2, 1); (3, 1); (4, 1); (5, 1); (6, 1); (7, 1); (8, 1); (8, 2);
   (8, 3); (8, 4); (8, 5); (8, 6)].

(** ** The maze at the pace of one hero

    [compute_distances_with_costs] runs, for a hero of speed [speed], the
    relaxation of Dijkstra on costs divided by that speed. *)

Definition scale (a : num) (speed : Q) : num :=
  match a with
  | Fin x => Fin (x / speed)
  | Inf => Inf
  end.

#[global] Instance paced_MazeLike {M : Type} `{MazeLike M} : MazeLike (M * Q) := {
  is_valid_position ms := is_valid_position ms.1;
  get_neighbors ms := get_neighbors ms.1;
  get_start_position ms := get_start_position ms.1;
  get_end_position ms := get_end_position ms.1;
  get_hero_positions ms := get_hero_positions ms.1;
  get_all_valid_positions ms := get_all_valid_positions ms.1
}.

#[global] Instance paced_TerrainLike {M : Type} `{TerrainLike M}
    : TerrainLike (M * Q) := {
  get_terrain_cost ms p := scale (get_terrain_cost ms.1 p) ms.2;
  is_passable ms := is_passable ms.1
}.

(** A position outside of [V]. *)
Definition fresh_pos (V : list pos) : pos :=
  (1 + foldr Z.max 0 (map fst V), 0).

(** ** Arrival times *)

(** [t] is the largest of the arrival times [times]. *)
Definition is_max_time (times : odict nat num) (t : num) : Prop :=
  t ∈ od_values times /\ forall v, v ∈ od_values times -> num_le v t.

(** The table [distances] has one row for each coordinate; a row has one
    entry for each of the sources below [n] that reach the coordinate, and
    its times are finite. *)
Definition well_formed_distances (n : nat)
    (distances : odict pos (odict nat num)) : Prop :=
  NoDup (od_keys distances)
  /\ forall p times, (p, times) ∈ distances ->
       NoDup (od_keys times)
       /\ forall i t, (i, t) ∈ times -> (i < n)%nat /\ is_finite t.

(** The queue and the costs of a Dijkstra state, without its links. *)
Definition times_of (st : dijkstra_state) : times_state := (st.1.1, st.1.2).

(** Every known arrival time is finite. *)
Definition finite_times (time_so_far : gmap pos num) : Prop :=
  forall p c, time_so_far !! p = Some c -> is_finite c.

(** The test of [find_optimal_gathering_point]: the row of [p] has as many
    entries as there are sources. *)
Definition considered (n : nat) (distances : odict pos (odict nat num))
    (p : pos) : Prop :=
  exists times, od_get distances p = Some times /\ length times = n.

(** The row of [p] has an arrival time from each of the [n] sources. *)
Definition has_all_entries (n : nat) (distances : odict pos (odict nat num))
    (p : pos) : Prop :=
  exists times, od_get distances p = Some times
                /\ forall idx, (idx < n)%nat -> is_Some (od_get times idx).

(** [t] is the largest arrival time at [p]. *)
Definition max_arrival (distances : odict pos (odict nat num))
    (p : pos) (t : num) : Prop :=
  exists times, od_get distances p = Some times /\ is_max_time times t.

(** What the selection loop knows after the rows [seen]: the best time
    [st.1] is at most the largest time of every row it considered, and it
    is the largest time of the row of the chosen coordinate. *)
Definition pick_inv (n : nat) (seen : list (pos * odict nat num))
    (st : num * option pos) : Prop :=
  (forall q times t, (q, times) ∈ seen -> length times = n ->
                     is_max_time times t -> num_le st.1 t)
  /\ match st.2 with
     | Some p => exists times, (p, times) ∈ seen /\ length times = n
                               /\ is_max_time times st.1
     | None => st.1 = Inf
     end.

(** ** A single source *)

(** The table of a search from one source, of index 0, once the source is
    recorded: the first row is the source's and its time is not above
    zero; every row has the one entry of index 0, with a time that is not
    below zero. *)
Definition solo_table (source : pos)
    (distances : odict pos (odict nat num)) : Prop :=
  match distances with
  | [] => False
  | (p, times) :: _ =>
      p = source
      /\ (exists t, times = [(0%nat, t)] /\ num_le t (Fin 0))
      /\ Forall (fun row : pos * odict nat num =>
                   exists t, row.2 = [(0%nat, t)] /\ num_le (Fin 0) t)
                distances
  end.

(** What the loop of the single source keeps: no queued time is below
    zero, the time known for the source is not above zero, and the table
    is either empty with the source alone in the queue, at the time known
    for it, or a [solo_table]. *)
Definition solo_inv (source : pos) (st : times_state)
    (distances : odict pos (odict nat num)) : Prop :=
  Forall (fun e : num * pos => num_le (Fin 0) e.1) st.1
  /\ (exists c, st.2 !! source = Some c /\ num_le c (Fin 0))
  /\ ((distances = [] /\ exists t, st.1 = [(t, source)] /\ st.2 !! source = Some t)
      \/ solo_table source distances).

(** ** Identities of cells *)

(** The cell [c] as an object of identity [rho (oid c)]. *)
Definition reidentify (rho : Z -> Z) (c : HexCell.t) : HexCell.t :=
  HexCell.mk (HexCell.q c) (HexCell.r c) (HexCell.terrain_type c)
             (rho (HexCell.oid c)).

(** The map [m] with its cell objects at the identities [rho] gives. *)
Definition reidentify_map (rho : Z -> Z) (m : HexMap.t) : HexMap.t :=
  HexMap.mk (reidentify rho <$> HexMap.cells m)
            (reidentify rho <$> HexMap.start m)
            (reidentify rho <$> HexMap.end_ m).

Definition reidentify_entry (rho : Z -> Z) (e : num * Z * HexCell.t)
    : num * Z * HexCell.t :=
  (e.1.1, rho e.1.2, reidentify rho e.2).

Definition reidentify_state (rho : Z -> Z) (st : HexAStar.state)
    : HexAStar.state :=
  {| HexAStar.open_set := map (reidentify_entry rho) (HexAStar.open_set st);
     HexAStar.g_score := HexAStar.g_score st;
     HexAStar.f_score := HexAStar.f_score st;
     HexAStar.came_from := reidentify rho <$> HexAStar.came_from st;
     HexAStar.closed_set := HexAStar.closed_set st |}.

(** The result of a call, with [f] applied to what it returned. *)
Definition result_map {A B : Type} (f : A -> B) (r : result A) : result B :=
  x ← r; Ok (f x).

(** A search result with its cells at the identities [rho] gives. *)
Definition reidentify_result (rho : Z -> Z)
    (r : result (option (list HexCell.t) * num))
    : result (option (list HexCell.t) * num) :=
  x ← r; Ok (fmap (M := option) (map (reidentify rho)) x.1, x.2).

(** [rho] keeps the order of identities. *)
Definition order_preserving (rho : Z -> Z) : Prop :=
  forall a b, a < b -> rho a < rho b.

(** The entry [a] of the open set is due no later than [b]: its f-score
    is smaller, or the scores are equal and its identity is not larger. *)
Definition due_before (a b : num * Z * HexCell.t) : Prop :=
  num_lt a.1.1 b.1.1 \/ (num_eq a.1.1 b.1.1 /\ a.1.2 <= b.1.2).

(** A row of three cells with a wall between the hero and the end. *)
Definition blocked_maze : Maze.t :=
  Eval vm_compute in
    returned empty_maze (Maze.init (Some [[CStr "1"; CInt 1; CStr "F"]])).

(** ** Directions of a path

    The direction names are Python [str] values; a literal here holds the
    UTF-8 encoding of the name. *)

(** The [if]/[elif] chain of [PathFinder.get_path_directions] for the step
    from [path[i-1]] to [path[i]]: what it appends to [directions]. *)
Definition direction_step (prev curr : pos) : list string :=
  let '(prev_row, prev_col) := prev in
  let '(curr_row, curr_col) := curr in
  if curr_row <? prev_row then ["вверх"%string]
  else if curr_row >? prev_row then ["вниз"%string]
  else if curr_col <? prev_col then ["влево"%string]
  else if curr_col >? prev_col then ["вправо"%string]
  else [].

(** [PathFinder.get_path_directions]; [zip path (tail path)] lists the
    pairs [(path[i-1], path[i])] for [i] in [range(1, len(path))]. *)
Definition get_path_directions (path : list pos) : list string :=
  if (length path <? 2)%nat then []
  else foldl (fun directions step => directions ++ direction_step step.1 step.2)
             [] (zip path (tail path)).

(** The direction of [TerrainPathFinder.get_path_directions_with_costs]
    for the step from [path[i]] to [path[i+1]]. *)
Definition arrow_step (current next : pos) : string :=
  let '(current_row, current_col) := current in
  let '(next_row, next_col) := next in
  if next_row <? current_row then "↑"
  else if next_row >? current_row then "↓"
  else if next_col <? current_col then "←"
  else "→".

Definition get_path_directions_with_costs {M : Type} `{TerrainLike M}
    (maze : M) (path : list pos) : list (string * num) :=
  if (length path <? 2)%nat then []
  else foldl (fun directions step =>
                directions ++ [(arrow_step step.1 step.2,
                                get_terrain_cost maze step.2)])
             [] (zip path (tail path)).

(** The cell that the direction [d] leads to from [p]. *)
Definition apply_direction (p : pos) (d : string) : pos :=
  if decide (d = "вверх"%string) then (p.1 - 1, p.2)
  else if decide (d = "вниз"%string) then (p.1 + 1, p.2)
  else if decide (d = "влево"%string) then (p.1, p.2 - 1)
  else if decide (d = "вправо"%string) then (p.1, p.2 + 1)
  else p.

(** The cells passed when following the directions [ds] from [p]. *)
Fixpoint follow (p : pos) (ds : list string) : list pos :=
  match ds with
  | [] => [p]
  | d :: ds' => p :: follow (apply_direction p d) ds'
  end.

(** ** Grids *)

(** The index pairs of the two [for] loops of [Maze.__init__], in the
    order in which the loops reach them. *)
Definition scan_order (height width : Z) : list pos :=
  i ← seqZ 0 height; j ← seqZ 0 width; [(i, j)].

(** [a] comes before [b] in row-major order. *)
Definition row_major_lt (a b : pos) : Prop :=
  a.1 < b.1 \/ (a.1 = b.1 /\ a.2 < b.2).

(** No row of the grid is shorter than the first. *)
Definition rows_cover (g : list (list cell)) : Prop :=
  Forall (fun row => (length (default [] (head g)) <= length row)%nat) g.

(** One turn of the inner loop of [Maze.__init__], at the cell [p]. *)
Definition scan_step (g : list (list cell))
    (acc : result (odict string pos * option pos)) (p : pos)
    : result (odict string pos * option pos) :=
  st ← acc;
  match Maze.grid_at g p with
  | Some c => Ok (Maze.scan_cell p.1 p.2 c st)
  | None => Raise IndexError
  end.

(** What the scan knows after the cells [seen]: every hero and the end it
    recorded are among these cells and hold the right token, and every
    hero token and end token among them is recorded. *)
Definition scan_inv (g : list (list cell)) (seen : list pos)
    (st : odict string pos * option pos) : Prop :=
  (forall k p, od_get st.1 k = Some p ->
     p ∈ seen /\ Maze.grid_at g p = Some (CStr k) /\ isdigit k = true)
  /\ (forall p, st.2 = Some p ->
        p ∈ seen /\ Maze.grid_at g p = Some (CStr "F"))
  /\ (forall p k, p ∈ seen -> Maze.grid_at g p = Some (CStr k) ->
        isdigit k = true -> is_Some (od_get st.1 k))
  /\ (forall p, p ∈ seen -> Maze.grid_at g p = Some (CStr "F") ->
        is_Some st.2).

(** ** Distances from a hero *)

(** [k] is the number of steps of a shortest path from [s] to [p]. *)
Definition shortest_distance {M : Type} `{MazeLike M} (maze : M)
    (s p : pos) (k : Z) : Prop :=
  exists path, path_between maze s p path
    /\ k = Z.of_nat (edge_count path)
    /\ forall other, path_between maze s p other ->
                     (edge_count path <= edge_count other)%nat.

(** The state of [calculate_distances] that goes with a state of the BFS
    of [PathFinder]: the same queue, each cell with its depth, and the
    depths of the visited cells. *)
Definition distances_match (dist : pos -> nat)
    (queue_d : list (pos * Z)) (distances : gmap pos Z)
    (queue : list pos) (visited : gmap pos (option pos)) : Prop :=
  queue_d = map (fun x => (x, Z.of_nat (dist x))) queue
  /\ forall x, distances !! x = (fun _ => Z.of_nat (dist x)) <$> (visited !! x).

(** ** The equidistant point *)

(** [t] is the largest of the numbers [ds]. *)
Definition is_max_of (ds : list Z) (t : Z) : Prop :=
  t ∈ ds /\ forall d, d ∈ ds -> d <= t.

(** [p] is a valid position where no hero stands and which every hero can
    reach, and [t] is the largest of the heroes' shortest distances to it. *)
Definition meeting_candidate {M : Type} `{MazeLike M} (maze : M)
    (p : pos) (t : Z) : Prop :=
  p ∈ get_all_valid_positions maze
  /\ (p ∉ od_values (get_hero_positions maze))
  /\ exists ds,
       Forall2 (fun (hero : string * pos) d => shortest_distance maze hero.2 p d)
               (get_hero_positions maze) ds
       /\ is_max_of ds t.

(** The same read off the distance maps of the heroes. *)
Definition listed_candidate (heroes : odict string pos)
    (hero_distances : odict string (gmap pos Z)) (p : pos) (k : Z) : Prop :=
  (p ∉ od_values heroes)
  /\ exists d ds, distances_to hero_distances (od_keys heroes) p = Some (d :: ds)
                  /\ k = max_list d ds.

(** What the loop over the valid positions knows after the positions
    [seen]. *)
Definition consider_inv (heroes : odict string pos)
    (hero_distances : odict string (gmap pos Z)) (seen : list pos)
    (st : option pos * num) : Prop :=
  match st.1 with
  | None => st.2 = Inf
            /\ forall q k, q ∈ seen -> ~ listed_candidate heroes hero_distances q k
  | Some p =>
      exists k, st.2 = num_of_Z k /\ p ∈ seen
        /\ listed_candidate heroes hero_distances p k
        /\ forall q k', q ∈ seen -> listed_candidate heroes hero_distances q k' -> k <= k'
  end.

(** A corridor of five cells with a hero at each end. *)
Definition corridor_maze : Maze.t :=
  Eval vm_compute in
    returned empty_maze
      (Maze.init (Some [[CStr "1"; CInt 0; CInt 0; CInt 0; CStr "2"]])).

(** ** Paths to the equidistant point *)

(** [EquidistantFinder._find_path]: the loop of [PathFinder.bfs] from
    [start] to [end]; the test [current is not None] of its path loop and
    the test [current] of [bfs] agree on positions, which are non-empty
    tuples. *)
Definition _find_path {M : Type} `{MazeLike M} (fuel : nat) (maze : M)
    (start end_ : pos) : result (option (list pos)) :=
  bfs_loop fuel fuel maze end_ [start] {[start := None]}.

(** [for hero_id, pos in heroes.items():
      paths[hero_id] = self._find_path(pos, equidistant_point)] *)
Definition get_paths_to_equidistant_point {M : Type} `{MazeLike M}
    (fuel : nat) (maze : M) (equidistant_point : pos)
    : result (odict string (option (list pos))) :=
  foldl (fun acc hero =>
           paths ← acc;
           path ← _find_path fuel maze hero.2 equidistant_point;
           Ok (od_set paths hero.1 path))
        (Ok []) (get_hero_positions maze).

(** ** Arrival times at a gathering point *)

Section ArrivalTimes.
Context {M : Type} `{TerrainLike M}.

(** [[times[idx] for idx in range(n)]] *)
Definition times_in_order (times : odict nat num) (n : nat) : result (list num) :=
  foldl (fun acc idx =>
           arrival_times ← acc;
           match od_get times idx with
           | Some t => Ok (arrival_times ++ [t])
           | None => Raise KeyError
           end)
        (Ok []) (seq 0 n).

(** [get_arrival_times]; a gathering point is a tuple or [None]. *)
Definition get_arrival_times (fuel : nat) (maze : M)
    (gathering_point : option pos) (hero_positions : list pos)
    (hero_speeds : option (list Q)) : result (list num) :=
  match gathering_point, hero_positions with
  | None, _ => Ok []
  | _, [] => Ok []
  | Some gathering_point, _ =>
      distances ← compute_distances_with_costs fuel maze hero_positions hero_speeds;
      match od_get distances gathering_point with
      | None => Ok []
      | Some times =>
          if decide (length times ≠ length hero_positions) then Ok []
          else times_in_order times (length hero_positions)
      end
  end.

Definition get_max_arrival_time (fuel : nat) (maze : M)
    (gathering_point : option pos) (hero_positions : list pos)
    (hero_speeds : option (list Q)) : result num :=
  arrival_times ← get_arrival_times fuel maze gathering_point hero_positions hero_speeds;
  match arrival_times with
  | [] => Ok Inf
  | t :: ts => Ok (foldl num_max t ts)
  end.

End ArrivalTimes.

(** ** Hexagonal coordinates *)

(** The hexagonal norm of the coordinate difference [(x, y, -x-y)]. *)
Definition hex_norm (x y : Z) : Z :=
  Z.max (Z.max (Z.abs x) (Z.abs y)) (Z.abs (- x - y)).

(** Every cell of the map is stored under its own coordinates, as in every
    map that [add_cell] built. *)
Definition well_keyed (m : HexMap.t) : Prop :=
  forall k c, HexMap.cells m !! k = Some c -> HexCell.coords c = k.

(** ** hex/hex_coordinate.py *)

(** [range(start, stop)] *)
Definition py_range (start stop : Z) : list Z := seqZ start (stop - start).

(** [lst[i]] for an [int] index: a negative index counts from the end. *)
Definition list_index {A : Type} (lst : list A) (i : Z) : result A :=
  let n := Z.of_nat (length lst) in
  let i := if i <? 0 then i + n else i in
  if (0 <=? i) && (i <? n)
  then match lst !! Z.to_nat i with
       | Some x => Ok x
       | None => Raise IndexError
       end
  else Raise IndexError.

Module HexCoordinate.

(** A coordinate is the triple of its attributes [(q, r, s)]. *)
Definition t : Type := Z * Z * Z.

Definition DIRECTIONS : list (Z * Z * Z) :=
  [(1, -1, 0); (0, -1, 1); (-1, 0, 1); (-1, 1, 0); (0, 1, -1); (1, 0, -1)].

(** [HexCoordinate(q, r, s)], [s] being [None] when it is left out. *)
Definition init (q r : Z) (s : option Z) : result t :=
  let s := match s with None => - q - r | Some s => s end in
  if decide (q + r + s <> 0) then Raise ValueError
  else Ok (q, r, s).

Definition eqb (a b : t) : bool :=
  (a.1.1 =? b.1.1) && (a.1.2 =? b.1.2) && (a.2 =? b.2).

Definition to_tuple (c : t) : Z * Z * Z := c.

Definition to_axial (c : t) : Z * Z := (c.1.1, c.1.2).

Definition to_offset (c : t) : Z * Z :=
  let '(q, r, _) := c in
  let col := q + (r - Z.land r 1) / 2 in
  let row := r in
  (col, row).

Definition from_offset (col row : Z) : result t :=
  let q := col - (row - Z.land row 1) / 2 in
  let r := row in
  let s := - q - r in
  init q r (Some s).

Definition distance (a b : t) : Z :=
  Z.max (Z.max (Z.abs (a.1.1 - b.1.1)) (Z.abs (a.1.2 - b.1.2)))
        (Z.abs (a.2 - b.2)).

Definition neighbor (c : t) (direction : Z) : result t :=
  d ← list_index DIRECTIONS direction;
  let '(dir_q, dir_r, dir_s) := d in
  init (c.1.1 + dir_q) (c.1.2 + dir_r) (Some (c.2 + dir_s)).

(** [[self.neighbor(i) for i in range(6)]] *)
Definition neighbors (c : t) : result (list t) :=
  foldl (fun acc i => l ← acc; n ← neighbor c i; Ok (l ++ [n]))
        (Ok []) (py_range 0 6).

(** The inner loop of [range] for one [q]. *)
Definition range_row (center : t) (radius q : Z) (results : list t)
    : result (list t) :=
  let r_min := Z.max (- radius) (- q - radius) in
  let r_max := Z.min radius (- q + radius) in
  foldl (fun acc r =>
           results ← acc;
           let s := - q - r in
           c ← init (center.1.1 + q) (center.1.2 + r) (Some (center.2 + s));
           Ok (results ++ [c]))
        (Ok results) (py_range r_min (r_max + 1)).

Definition range (center : t) (radius : Z) : result (list t) :=
  foldl (fun acc q => results ← acc; range_row center radius q results)
        (Ok []) (py_range (- radius) (radius + 1)).

End HexCoordinate.

(** A coordinate whose attributes add up to zero, as the constructor
    requires. *)
Definition cubic (c : HexCoordinate.t) : Prop := c.1.1 + c.1.2 + c.2 = 0.

(** ** hex/hex_maze.py, continued *)

(** [HexMaze.get_neighbors]; [and] evaluates [is_passable] only for a
    valid neighbour. *)
Definition HexMaze_get_neighbors (m : HexMaze.t) (position : HexCoordinate.t)
    : result (list HexCoordinate.t) :=
  foldl (fun acc i =>
           neighbors ← acc;
           neighbor ← HexCoordinate.neighbor position i;
           if HexMaze.is_valid_position m neighbor then
             passable ← HexMaze.is_passable m neighbor;
             if truthy passable
             then Ok (neighbors ++ [neighbor])
             else Ok neighbors
           else Ok neighbors)
        (Ok []) (py_range 0 6).

(** A hexagonal maze of one grass cell, east of the origin. *)
Definition one_cell_hex_maze : HexMaze.t :=
  HexMaze.mk {[ (1, -1, 0) := HexTerrainType.GRASS ]} None None.

(** ** Paths on a hex map *)

(** What A* charges for entering a cell. *)
Definition step_cost (race : Race.t) (c : HexCell.t) : num :=
  Race.get_movement_cost race (HexCell.terrain_type c).

(** Every cell of [path] but the first is a neighbour, on the map, of the
    cell before it, and the race can enter it. *)
Fixpoint is_hex_walk (m : HexMap.t) (race : Race.t) (path : list HexCell.t)
    : Prop :=
  match path with
  | a :: (b :: _) as rest =>
      b ∈ HexMap.get_neighbors m a
      /\ num_eqb (step_cost race b) Inf = false
      /\ is_hex_walk m race rest
  | _ => True
  end.

(** [path] begins with the object [start], ends in a cell that [__eq__]
    holds equal to [end_], and is a walk of the race on the map. *)
Definition hex_path_between (m : HexMap.t) (race : Race.t)
    (start end_ : HexCell.t) (path : list HexCell.t) : Prop :=
  head path = Some start
  /\ (exists l, last path = Some l /\ HexCell.eqb l end_ = true)
  /\ is_hex_walk m race path.

(** The charges for the cells of [path] after the first, added up in the
    order of the path. *)
Definition hex_path_cost (race : Race.t) (path : list HexCell.t) : num :=
  foldl (fun total c => num_add total (step_cost race c)) (Fin 0) (tail path).

(** ** Invariant of the A* loop *)

(** The objects the search handles: the start object, or the cell the map
    holds at its coordinates, once it has a [came_from] link. *)
Definition known_cell (m : HexMap.t) (start : HexCell.t)
    (came_from : gmap (Z * Z) HexCell.t) (c : HexCell.t) : Prop :=
  c = start
  \/ (HexMap.cells m !! HexCell.coords c = Some c
      /\ is_Some (came_from !! HexCell.coords c)).

(** Looking at [n] from the cell at [k] changes nothing. *)
Definition settled (race : Race.t) (st : HexAStar.state) (k : Z * Z)
    (n : HexCell.t) : Prop :=
  HexCell.coords n ∈ HexAStar.closed_set st
  \/ num_eqb (step_cost race n) Inf = true
  \/ exists gk gn,
       HexAStar.g_score st !! k = Some gk
       /\ HexAStar.g_score st !! HexCell.coords n = Some gn
       /\ num_ltb (num_add gk (step_cost race n)) gn = false.

(** [depth] is the number of [came_from] links from a cell back to the
    start.  [cur] holds the cell being expanded and the neighbours it has
    looked at so far while its neighbour loop runs. *)
Record astar_inv (m : HexMap.t) (race : Race.t) (start end_ : HexCell.t)
    (depth : Z * Z -> nat) (cur : option (HexCell.t * list HexCell.t))
    (st : HexAStar.state) : Prop := {
  ai_start :
    HexAStar.g_score st !! HexCell.coords start = Some (Fin 0)
    /\ HexAStar.came_from st !! HexCell.coords start = None
    /\ depth (HexCell.coords start) = 0%nat;
  ai_first :
    HexCell.coords start ∈ HexAStar.closed_set st
    \/ forall f i n, (f, i, n) ∈ HexAStar.open_set st -> n = start;
  ai_open : forall f i n, (f, i, n) ∈ HexAStar.open_set st ->
    known_cell m start (HexAStar.came_from st) n
    /\ is_Some (HexAStar.g_score st !! HexCell.coords n);
  ai_link : forall k prev, HexAStar.came_from st !! k = Some prev ->
    known_cell m start (HexAStar.came_from st) prev
    /\ HexCell.coords prev ∈ HexAStar.closed_set st
    /\ depth k = S (depth (HexCell.coords prev))
    /\ exists n gp,
         HexMap.cells m !! k = Some n
         /\ n ∈ HexMap.get_neighbors m prev
         /\ num_eqb (step_cost race n) Inf = false
         /\ HexAStar.g_score st !! HexCell.coords prev = Some gp
         /\ HexAStar.g_score st !! k = Some (num_add gp (step_cost race n));
  ai_closed : forall k, k ∈ HexAStar.closed_set st ->
    k <> HexCell.coords end_
    /\ (k = HexCell.coords start \/ is_Some (HexAStar.came_from st !! k))
    /\ (depth k < size (HexAStar.closed_set st))%nat;
  ai_frontier : forall k, is_Some (HexAStar.g_score st !! k) ->
    k ∈ HexAStar.closed_set st
    \/ exists f i n, (f, i, n) ∈ HexAStar.open_set st /\ HexCell.coords n = k;
  ai_expanded : forall c n,
    HexCell.coords c ∈ HexAStar.closed_set st ->
    n ∈ HexMap.get_neighbors m c ->
    (forall co ns, cur = Some (co, ns) ->
                   HexCell.coords co = HexCell.coords c -> n ∈ ns) ->
    settled race st (HexCell.coords c) n;
  ai_cur : forall co ns, cur = Some (co, ns) ->
    HexCell.coords co ∈ HexAStar.closed_set st
    /\ HexCell.coords start ∈ HexAStar.closed_set st
    /\ known_cell m start (HexAStar.came_from st) co
    /\ is_Some (HexAStar.g_score st !! HexCell.coords co)
}.

(** The coordinates a search can reach: those of the start and of the
    cells of the map. *)
Definition astar_universe (m : HexMap.t) (start : HexCell.t) : gset (Z * Z) :=
  {[HexCell.coords start]} ∪ dom (HexMap.cells m).

(** One turn of the loop for every queue entry and six entries for every
    coordinate that is not closed yet. *)
Definition astar_budget (m : HexMap.t) (start : HexCell.t)
    (st : HexAStar.state) : nat :=
  (length (HexAStar.open_set st)
   + 6 * size (astar_universe m start ∖ HexAStar.closed_set st))%nat.

(** What [find_path] promises about its result. *)
Definition astar_result_ok (m : HexMap.t) (race : Race.t)
    (start end_ : HexCell.t) (r : option (list HexCell.t) * num) : Prop :=
  match r with
  | (Some path, cost) =>
      hex_path_between m race start end_ path
      /\ cost = hex_path_cost race path
  | (None, cost) =>
      cost = Inf /\ forall path, ~ hex_path_between m race start end_ path
  end.

(** A row of three cells, the middle one a wall. *)
Definition walled_row : HexMap.t :=
  let m := HexMap.add_cell HexMap.empty 0 0 HexTerrainType.START 10 in
  let m := HexMap.add_cell m 1 0 HexTerrainType.WALL 20 in
  HexMap.add_cell m 2 0 HexTerrainType.END 30.

(** A race that cannot enter walls. *)
Definition wall_shy : Race.t :=
  Race.mk "wall-shy" [(HexTerrainType.WALL, Inf)].

(** ** hex/hex_map.py, [load_from_text] *)

(** [tt.value]; the two dictionaries have no integer value. *)
Definition HexTerrainType_value (tt : HexTerrainType.t) : option Z :=
  match tt with
  | HexTerrainType.GRASS => Some 0
  | HexTerrainType.FOREST => Some 1
  | HexTerrainType.HILLS => Some 2
  | HexTerrainType.MOUNTAIN => Some 3
  | HexTerrainType.WATER => Some 4
  | HexTerrainType.SWAMP => Some 5
  | HexTerrainType.DESERT => Some 6
  | HexTerrainType.SNOW => Some 7
  | HexTerrainType.LAVA => Some 8
  | HexTerrainType.ROAD => Some 9
  | HexTerrainType.CASTLE => Some 10
  | HexTerrainType.VILLAGE => Some 11
  | HexTerrainType.CAVE => Some 12
  | HexTerrainType.WALL => Some 13
  | HexTerrainType.START => Some 14
  | HexTerrainType.END => Some 15
  | HexTerrainType.DESCRIPTIONS | HexTerrainType.COLORS => None
  end.

Section Text.

(** A text is the list of its code points.  [isspace] tells the white
    space that [str.strip] removes, and [int_of_char] is [int(char)] for a
    string of one character, [None] when it raises [ValueError]. *)
Variable isspace : Z -> bool.
Variable int_of_char : Z -> option Z.

Fixpoint lstrip (s : list Z) : list Z :=
  match s with
  | c :: s' => if isspace c then lstrip s' else s
  | [] => []
  end.

Definition strip (s : list Z) : list Z :=
  reverse (lstrip (reverse (lstrip s))).

(** [s.split('\n')] *)
Fixpoint split_lines (s : list Z) : list (list Z) :=
  match s with
  | [] => [[]]
  | c :: s' =>
      if c =? 10 then [] :: split_lines s'
      else match split_lines s' with
           | line :: lines => (c :: line) :: lines
           | [] => [[c]]
           end
  end.

(** The [try] block: the first member whose value is [int(char)], and
    [GRASS] when there is none or when [int] raises [ValueError]. *)
Definition terrain_of_char (char : Z) : HexTerrainType.t :=
  match int_of_char char with
  | Some v =>
      default HexTerrainType.GRASS
        (List.find (fun tt => bool_decide (HexTerrainType_value tt = Some v))
                   HexTerrainType.members)
  | None => HexTerrainType.GRASS
  end.

(** The body of [for col, char in enumerate(line)]; the state is the map
    and the number of cells created so far. *)
Definition load_char (alloc : nat -> Z) (r : nat) (acc : HexMap.t * nat)
    (entry : nat * Z) : HexMap.t * nat :=
  let row_offset := Z.of_nat r / 2 in
  let '(col, char) := entry in
  if char =? 32 then acc
  else
    let q := Z.of_nat col - row_offset in
    (HexMap.add_cell acc.1 q (Z.of_nat r) (terrain_of_char char) (alloc acc.2),
     S acc.2).

(** The body of [for r, line in enumerate(lines)]. *)
Definition load_line (alloc : nat -> Z) (acc : HexMap.t * nat)
    (entry : nat * list Z) : HexMap.t * nat :=
  foldl (load_char alloc entry.1) acc (enumerate entry.2).

Definition text_lines (map_text : list Z) : list (list Z) :=
  map strip (split_lines (strip map_text)).

(** [HexMap.load_from_text]; [alloc n] is the identity of the [n]-th cell
    that is created. *)
Definition load_from_text (alloc : nat -> Z) (map_text : list Z) : HexMap.t :=
  (foldl (load_line alloc) (HexMap.empty, 0%nat)
         (enumerate (text_lines map_text))).1.

(** The character of [line] at column [col] that makes a cell. *)
Definition char_in_line (line : list Z) (col : Z) : option Z :=
  if col <? 0 then None
  else char ← line !! Z.to_nat col; if char =? 32 then None else Some char.

(** The character that decides on the cell at [(q, r)]. *)
Definition char_at (lines : list (list Z)) (q r : Z) : option Z :=
  if r <? 0 then None
  else line ← lines !! Z.to_nat r; char_in_line line (q + r / 2).

End Text.

(** The two tables on the ASCII characters. *)
Definition ascii_isspace (c : Z) : bool :=
  bool_decide (c ∈ [9; 10; 11; 12; 13; 28; 29; 30; 31; 32]).

Definition ascii_int_of_char (c : Z) : option Z :=
  if (48 <=? c) && (c <=? 57) then Some (c - 48) else None.

(** The text [" 14 0\n 29\nx3\n"]: three lines once it is stripped. *)
Definition sample_text : list Z :=
  [32; 49; 52; 32; 48; 10; 32; 50; 57; 10; 120; 51; 10].

(** * Properties *)

(** ** Dictionaries *)

Section OdictFacts.
Context {K V : Type} `{EqDecision K}.
Implicit Types (d : odict K V) (k : K) (v : V).

Lemma od_get_set_eq d k v : od_get (od_set d k v) k = Some v.
Proof.
  induction d as [|[k' v'] d IH]; simpl.
  - destruct (decide (k = k)); congruence.
  - destruct (decide (k' = k)) as [->|Hne]; simpl.
    + destruct (decide (k = k)); congruence.
    + destruct (decide (k' = k)); congruence.
Qed.

Lemma od_get_set_ne d k k' v : k ≠ k' -> od_get (od_set d k v) k' = od_get d k'.
Proof.
  intros Hne. induction d as [|[k0 v0] d IH]; simpl.
  - destruct (decide (k = k')); congruence.
  - destruct (decide (k0 = k)) as [->|Hne0]; simpl.
    + destruct (decide (k = k')); congruence.
    + destruct (decide (k0 = k')); congruence.
Qed.

Lemma od_get_Some_In d k v : od_get d k = Some v -> In (k, v) d.
Proof.
  induction d as [|[k0 v0] d IH]; simpl; [discriminate|].
  destruct (decide (k0 = k)) as [->|Hne]; intros H.
  - left. congruence.
  - right. auto.
Qed.

Lemma od_keys_set_NoDup d k v : NoDup (od_keys d) -> NoDup (od_keys (od_set d k v)).
Proof.
  unfold od_keys. induction d as [|[k0 v0] d IH]; simpl; intros Hnd.
  - constructor; [apply not_elem_of_nil | constructor].
  - inversion Hnd as [|? ? Hnotin Hnd']; subst.
    destruct (decide (k0 = k)) as [->|Hne]; simpl.
    + constructor; assumption.
    + constructor; [|auto].
      intros Hin. apply Hnotin. clear -Hin Hne.
      induction d as [|[k1 v1] d IH]; simpl in *.
      * apply list_elem_of_singleton in Hin. congruence.
      * destruct (decide (k1 = k)) as [->|Hne1]; simpl in *.
        -- exact Hin.
        -- apply elem_of_cons in Hin as [->|Hin]; [left | right; auto].
Qed.

Lemma od_get_In_NoDup d k v : NoDup (od_keys d) -> In (k, v) d -> od_get d k = Some v.
Proof.
  unfold od_keys. induction d as [|[k0 v0] d IH]; simpl; intros Hnd Hin; [tauto|].
  inversion Hnd as [|? ? Hnotin Hnd']; subst.
  destruct Hin as [Heq|Hin].
  - inversion Heq; subst. destruct (decide (k = k)); congruence.
  - destruct (decide (k0 = k)) as [->|Hne]; [|auto].
    exfalso. apply Hnotin. apply list_elem_of_In.
    change k with (fst (k, v)). apply in_map. exact Hin.
Qed.

End OdictFacts.

(** ** Numbers *)

Lemma Qltb_true x y : Qltb x y = true <-> (x < y)%Q.
Proof.
  unfold Qltb. rewrite Qlt_alt. destruct (x ?= y)%Q; split; congruence.
Qed.

Lemma Qltb_false x y : Qltb x y = false <-> (y <= x)%Q.
Proof.
  unfold Qltb. rewrite Qle_alt, <- Qgt_alt, Qlt_alt.
  destruct (x ?= y)%Q eqn:E; split; try congruence.
Qed.

Lemma num_ltb_true a b : num_ltb a b = true <-> num_lt a b.
Proof.
  destruct a, b; simpl; try apply Qltb_true; split; try tauto; try discriminate.
Qed.

Lemma num_ltb_false a b : num_ltb a b = false <-> num_le b a.
Proof.
  destruct a, b; simpl; try apply Qltb_false; split; try tauto; try discriminate.
Qed.

Lemma num_eqb_true a b : num_eqb a b = true <-> num_eq a b.
Proof.
  destruct a, b; simpl; try apply Qeq_bool_iff; split; try tauto; try discriminate.
Qed.

(** Turn the comparisons of the context into rational arithmetic. *)
Ltac num_prep :=
  repeat match goal with
    | H : num_ltb _ _ = true |- _ => apply num_ltb_true in H
    | H : num_ltb _ _ = false |- _ => apply num_ltb_false in H
    | H : num_eqb _ _ = true |- _ => apply num_eqb_true in H
    end.

Ltac num_solve :=
  num_prep;
  repeat match goal with
    | x : num |- _ => destruct x
    end;
  simpl in *; try tauto; try lra.

Lemma num_le_refl a : num_le a a.
Proof. num_solve. Qed.

Lemma num_le_trans a b c : num_le a b -> num_le b c -> num_le a c.
Proof. num_solve. Qed.

Lemma num_lt_le a b : num_lt a b -> num_le a b.
Proof. num_solve. Qed.

Lemma num_lt_not_le a b : num_lt a b -> num_le b a -> False.
Proof. num_solve. Qed.

Lemma num_add_mono a b c d :
  num_le a b -> num_le c d -> num_le (num_add a c) (num_add b d).
Proof. num_solve. Qed.

Lemma num_add_nonneg a c : num_le (Fin 0) c -> num_le a (num_add a c).
Proof. num_solve. Qed.

Lemma num_eq_le a b : num_eq a b -> num_le a b /\ num_le b a.
Proof. num_solve. Qed.

(** ** The priority queue *)

Section HeapFacts.
Context {E : Type} (lt : E -> E -> bool) (le : E -> E -> Prop).
Hypothesis lt_le : forall a b, lt a b = true -> le a b.
Hypothesis not_lt_le : forall a b, lt a b = false -> le b a.
Hypothesis le_trans : forall a b c, le a b -> le b c -> le a c.

Lemma take_min_spec x h m rest :
  take_min lt x h = (m, rest) ->
  x :: h ≡ₚ m :: rest /\ Forall (le m) rest.
Proof.
  revert x m rest. induction h as [|y h IH]; intros x m rest Htake; simpl in Htake.
  - injection Htake as <- <-. split; [reflexivity | constructor].
  - destruct (take_min lt y h) as [m' rest'] eqn:E'.
    destruct (IH y m' rest' E') as [Hperm Hall].
    destruct (lt m' x) eqn:Elt; injection Htake as <- <-.
    + split.
      * rewrite Hperm. apply perm_swap.
      * constructor; [apply lt_le; exact Elt | exact Hall].
    + split.
      * rewrite Hperm. reflexivity.
      * apply not_lt_le in Elt. constructor; [exact Elt|].
        eapply Forall_impl; [exact Hall|]. intros e He. eapply le_trans; eauto.
Qed.

Lemma heappop_spec h m rest :
  heappop lt h = Some (m, rest) ->
  h ≡ₚ m :: rest /\ Forall (le m) rest.
Proof.
  destruct h as [|x h]; [discriminate|]. simpl. intros [= Htake].
  apply take_min_spec. exact Htake.
Qed.

Lemma heappop_None h : heappop lt h = None -> h = [].
Proof. destruct h; [reflexivity | discriminate]. Qed.

End HeapFacts.

(** Entries [(cost, position)] come out in the order of their costs. *)
Lemma entry_pop (h : list (num * pos)) c u rest :
  heappop entry_ltb h = Some ((c, u), rest) ->
  h ≡ₚ (c, u) :: rest /\ Forall (fun e => num_le c e.1) rest.
Proof.
  intros Hpop.
  apply (heappop_spec entry_ltb (fun a b => num_le a.1 b.1)) in Hpop; [exact Hpop| | |].
  - intros [a pa] [b pb]. unfold entry_ltb. simpl.
    destruct (num_eqb a b) eqn:Eeq; intros Hlt; num_solve.
  - intros [a pa] [b pb]. unfold entry_ltb. simpl.
    destruct (num_eqb a b) eqn:Eeq; intros Hlt; num_solve.
  - intros a b c'. apply num_le_trans.
Qed.

(** ** The terrain table *)

Lemma TERRAIN_TYPES_F :
  TerrainMaze.TERRAIN_TYPES !! "F"%string
  = Some (TerrainMaze.mk_info "Finish" (Fin 1) true "lightgreen").
Proof. reflexivity. Qed.

Lemma TERRAIN_TYPES_passable_finite s i :
  TerrainMaze.TERRAIN_TYPES !! s = Some i ->
  TerrainMaze.passable i = true -> exists x, TerrainMaze.cost i = Fin x /\ (0 < x)%Q.
Proof.
  intros Hs Hp.
  assert (Hin : (s, i) ∈ map_to_list TerrainMaze.TERRAIN_TYPES)
    by (apply elem_of_map_to_list; exact Hs).
  revert Hin Hp. clear Hs.
  assert (Hall : Forall (fun kv : string * TerrainMaze.info =>
                           TerrainMaze.passable kv.2 = true ->
                           exists x, TerrainMaze.cost kv.2 = Fin x /\ (0 < x)%Q)
                        (map_to_list TerrainMaze.TERRAIN_TYPES)).
  { vm_compute map_to_list.
    repeat (constructor; [simpl; intros Hp; first [discriminate | eexists; split; [reflexivity | reflexivity]] |]).
    constructor. }
  intros Hin. rewrite Forall_forall in Hall. apply (Hall _ Hin).
Qed.

(** C10. The key ['F'] occurs twice in the display of [TERRAIN_TYPES],
    first bound to Forest (cost 3.0) and then to Finish (cost 1.0); the
    table keeps the Finish entry, so a cell whose token is ['F'] costs 1.0
    and never the Forest cost 3.0. *)
Theorem forest_token_costs_finish (m : TerrainMaze.t) (p : pos) :
  TerrainMaze.get_terrain_type m p = CStr "F" ->
  map (fun kv => TerrainMaze.name kv.2)
      (filter (fun kv => kv.1 = "F"%string) TerrainMaze.TERRAIN_TYPES_items)
    = ["Forest"; "Finish"]%string
  /\ TerrainMaze.name (TerrainMaze.get_terrain_info m p) = "Finish"%string
  /\ TerrainMaze.get_terrain_cost m p = Fin 1
  /\ ~ num_eq (TerrainMaze.get_terrain_cost m p) (Fin 3).
Proof.
  intros Htok. unfold TerrainMaze.get_terrain_cost, TerrainMaze.get_terrain_info.
  rewrite Htok, TERRAIN_TYPES_F. simpl.
  repeat split; try reflexivity.
  intros Heq. vm_compute in Heq. discriminate.
Qed.

Lemma forest_token_costs_finish_witness :
  TerrainMaze.get_terrain_type default_terrain_maze (1, 4) = CStr "F"
  /\ TerrainMaze.get_terrain_cost default_terrain_maze (1, 4) = Fin 1.
Proof.
  split; [reflexivity|].
  apply (forest_token_costs_finish default_terrain_maze (1, 4)).
  reflexivity.
Defined.

(** C7, counterexample: the token ['X'] of the row ["1XF"] is looked up as
    the entry Unknown, of infinite cost and not passable. *)
Lemma unknown_token_is_permissive_fails : ~ unknown_token_is_permissive.
Proof.
  intros Hclaim.
  destruct (Hclaim maze_with_unknown (0, 1)) as [Hfin _].
  - vm_compute. intros [x Hx]. discriminate.
  - vm_compute in Hfin. exact Hfin.
Qed.

(** C7, amended. The lookup of a token that the table does not hold never
    fails; it returns the entry Unknown, whose cost is infinite and which
    is not passable, and the cell is no neighbour of any cell.  The
    modifier of a kind missing from the table of a race is 1.0. *)
Theorem unknown_token_is_impassable
    (m : TerrainMaze.t) (p : pos) (race : Race.t) (kind : HexTerrainType.t) :
  ~ token_known (TerrainMaze.get_terrain_type m p) ->
  od_get (Race.terrain_modifiers race) kind = None ->
  TerrainMaze.get_terrain_info m p = TerrainMaze.unknown_info
  /\ TerrainMaze.get_terrain_cost m p = Inf
  /\ TerrainMaze.is_passable m p = false
  /\ (forall p', p ∉ TerrainMaze.get_neighbors m p')
  /\ Race.get_terrain_modifier race kind = Fin 1.
Proof.
  intros Hunk Hrace.
  assert (Hinfo : TerrainMaze.get_terrain_info m p = TerrainMaze.unknown_info).
  { unfold TerrainMaze.get_terrain_info.
    destruct (TerrainMaze.get_terrain_type m p) as [n|s]; [reflexivity|].
    simpl in Hunk. destruct (TerrainMaze.TERRAIN_TYPES !! s) eqn:Es; [|reflexivity].
    exfalso. apply Hunk. eauto. }
  assert (Hpass : TerrainMaze.is_passable m p = false).
  { unfold TerrainMaze.is_passable. rewrite Hinfo.
    destruct (negb _); reflexivity. }
  repeat split.
  - exact Hinfo.
  - unfold TerrainMaze.get_terrain_cost. rewrite Hinfo. reflexivity.
  - exact Hpass.
  - intros [row col] Hin. unfold TerrainMaze.get_neighbors in Hin.
    apply list_elem_of_filter in Hin as [Hp _]. congruence.
  - unfold Race.get_terrain_modifier. rewrite Hrace. reflexivity.
Qed.

Lemma unknown_token_is_impassable_witness :
  TerrainMaze.get_terrain_cost maze_with_unknown (0, 1) = Inf
  /\ TerrainMaze.is_passable maze_with_unknown (0, 1) = false.
Proof.
  destruct (unknown_token_is_impassable maze_with_unknown (0, 1)
              (Race.mk "Elf" [(HexTerrainType.FOREST, Fin (1 # 2))])
              HexTerrainType.GRASS) as (_ & Hc & Hp & _).
  - vm_compute. intros [x Hx]. discriminate.
  - reflexivity.
  - split; assumption.
Defined.

(** ** The hexagonal terrain kinds and the races *)

Lemma HexTerrainType_no_get_cost arg :
  HexTerrainType.call "get_cost" arg = Raise AttributeError.
Proof. reflexivity. Qed.

Lemma HexTerrainType_no_is_passable arg :
  HexTerrainType.call "is_passable" arg = Raise AttributeError.
Proof. reflexivity. Qed.

(** C9. [HexTerrainType] defines neither [get_cost] nor [is_passable]: the
    class dictionary has no such name.  Hence [HexMaze.get_terrain_cost],
    [Race.get_modified_cost] and [Race.is_passable] raise [AttributeError]
    on every input, and the base-cost lookup returns for no terrain kind. *)
Theorem hex_base_cost_lookup_always_raises :
  od_get HexTerrainType.class_dict "get_cost"%string = None
  /\ od_get HexTerrainType.class_dict "is_passable"%string = None
  /\ (forall (m : HexMaze.t) (position : Z * Z * Z),
        HexMaze.get_terrain_cost m position = Raise AttributeError)
  /\ (forall (race : Race.t) (kind : HexTerrainType.t),
        Race.get_modified_cost race kind = Raise AttributeError
        /\ Race.is_passable race kind = Raise AttributeError)
  /\ (forall kind : option HexTerrainType.t,
        HexTerrainType.call "get_cost" kind = Raise AttributeError).
Proof.
  split; [reflexivity|]. split; [reflexivity|].
  split; [|split].
  - intros m position. unfold HexMaze.get_terrain_cost.
    apply HexTerrainType_no_get_cost.
  - intros race kind. split.
    + unfold Race.get_modified_cost. rewrite HexTerrainType_no_get_cost. reflexivity.
    + unfold Race.is_passable. rewrite HexTerrainType_no_is_passable. reflexivity.
  - apply HexTerrainType_no_get_cost.
Qed.

Lemma get_movement_cost_modifier race kind :
  Race.get_movement_cost race kind = Race.get_terrain_modifier race kind.
Proof.
  unfold Race.get_movement_cost, Race.get_terrain_modifier.
  destruct (default (Fin 1) (od_get (Race.terrain_modifiers race) kind)); reflexivity.
Qed.

(** C4, counterexample: with a base-cost table in which a wall has an
    infinite cost, base cost times modifier is infinite for a wall, yet the
    base race is charged 1.0 for entering one. *)
Lemma charge_is_base_times_modifier_fails :
  ~ charge_is_base_times_modifier walls_only.
Proof.
  intros Hclaim.
  specialize (Hclaim Race.base HexTerrainType.WALL).
  vm_compute in Hclaim. exact Hclaim.
Qed.

(** C4, amended. For every terrain kind and every race, the cost that A*
    charges for entering a cell of that kind is the modifier of the race
    for the kind (1.0 for a kind its table does not hold); a cell whose
    modifier is infinite is left out; no base cost is multiplied in.  A
    turn of the neighbour loop either leaves the state as it is or sets the
    score of the neighbour to the score of the current cell plus the
    modifier. *)
Theorem astar_charges_modifier
    (race : Race.t) (end_ current neighbor : HexCell.t)
    (st st' : HexAStar.state) (g : num) :
  HexAStar.visit race end_ current (Ok st) neighbor = Ok st' ->
  HexAStar.g_score st !! HexCell.coords current = Some g ->
  let modifier := default (Fin 1) (od_get (Race.terrain_modifiers race)
                                          (HexCell.terrain_type neighbor)) in
  Race.get_movement_cost race (HexCell.terrain_type neighbor) = modifier
  /\ (st' = st
      \/ (is_finite modifier
          /\ HexAStar.g_score st' !! HexCell.coords neighbor
             = Some (num_add g modifier))).
Proof.
  intros Hvisit Hg modifier.
  assert (Hm : Race.get_movement_cost race (HexCell.terrain_type neighbor) = modifier)
    by apply get_movement_cost_modifier.
  split; [exact Hm|].
  unfold HexAStar.visit in Hvisit. simpl in Hvisit.
  destruct (bool_decide _); [left; congruence|].
  rewrite Hm in Hvisit.
  destruct (num_eqb modifier Inf) eqn:Einf; [left; congruence|].
  rewrite Hg in Hvisit.
  destruct (match HexAStar.g_score st !! HexCell.coords neighbor with
            | Some g0 => negb (num_ltb (num_add g modifier) g0)
            | None => false
            end); [left; congruence|].
  right. inversion Hvisit; subst; simpl. split.
  - destruct modifier; [exact I | discriminate].
  - apply lookup_insert_eq.
Qed.

Lemma astar_charges_modifier_witness :
  HexAStar.g_score astar_after_grass !! (1, 0) = Some (num_add (Fin 0) (Fin 1)).
Proof.
  destruct (astar_charges_modifier Race.base cell_end cell_start cell_grass
              (astar_initial cell_start cell_end) astar_after_grass (Fin 0))
    as [_ [Hsame | [_ Hg]]].
  - vm_compute. reflexivity.
  - reflexivity.
  - vm_compute in Hsame. discriminate Hsame.
  - exact Hg.
Defined.

(** ** Maps without a start or an end *)

(** C5, counterexample: on the empty hex map, which declares neither a
    start nor an end, [find_path] raises [AttributeError]. *)
Lemma searches_absent_without_endpoints_fails :
  ~ searches_absent_without_endpoints.
Proof.
  intros Hclaim.
  destruct (Hclaim 10%nat (TerrainMaze.mk empty_maze) HexMap.empty Race.base)
    as (_ & _ & Hastar).
  - left. reflexivity.
  - left. reflexivity.
  - discriminate Hastar.
Qed.

(** C5, amended. On a map that declares no start or no end, BFS and
    Dijkstra return an absent result at once, whatever the fuel, and raise
    nothing.  A* takes its start and end cells as arguments and has no such
    test: called with an absent start or end it raises [AttributeError]. *)
Theorem searches_without_endpoints
    {M : Type} `{TerrainLike M} (fuel : nat) (maze : M)
    (hex_map : HexMap.t) (start end_ : option HexCell.t) (race : Race.t) :
  get_start_position maze = None \/ get_end_position maze = None ->
  start = None \/ end_ = None ->
  bfs fuel maze = Ok None
  /\ dijkstra fuel maze = Ok None
  /\ HexAStar.find_path fuel hex_map start end_ race = Raise AttributeError.
Proof.
  intros Hmaze Hhex. unfold bfs, dijkstra, HexAStar.find_path.
  repeat split.
  - destruct Hmaze as [-> | ->]; [reflexivity|].
    destruct (get_start_position maze); reflexivity.
  - destruct Hmaze as [-> | ->]; [reflexivity|].
    destruct (get_start_position maze); reflexivity.
  - destruct Hhex as [-> | ->]; [reflexivity|].
    destruct start; reflexivity.
Qed.

Lemma searches_without_endpoints_witness :
  bfs 0 (TerrainMaze.mk empty_maze) = Ok None
  /\ dijkstra 0 (TerrainMaze.mk empty_maze) = Ok None
  /\ HexAStar.find_path 0 HexMap.empty None None Race.base = Raise AttributeError.
Proof.
  apply (searches_without_endpoints 0 (TerrainMaze.mk empty_maze)
           HexMap.empty None None Race.base).
  - left. reflexivity.
  - left. reflexivity.
Defined.

(** ** Identity of cells in A* *)


(** ** Paths *)

Lemma is_walk_snoc nbrs (l : list pos) (b : pos) :
  is_walk nbrs (l ++ [b]) <->
  is_walk nbrs l /\ (forall a, last l = Some a -> b ∈ nbrs a).
Proof.
  induction l as [|a [|a' l] IH]; simpl in *.
  - split; [intros _; split; [exact I | discriminate] | auto].
  - split.
    + intros [Hb _]. split; [exact I|]. intros ? [= <-]. exact Hb.
    + intros [_ Hb]. split; [apply Hb; reflexivity | exact I].
  - rewrite IH. tauto.
Qed.

Lemma is_walk_cons_inv nbrs a (l : list pos) :
  is_walk nbrs (a :: l) -> is_walk nbrs l.
Proof. destruct l; simpl; tauto. Qed.

(** ** Counting the cells that are left *)

Lemma unvisited_length {A} (V : list pos) (visited : gmap pos A) :
  (length (unvisited V visited) <= length V)%nat.
Proof. apply length_filter. Qed.

Lemma unvisited_insert_notin {A} (V : list pos) (visited : gmap pos A) v (y : A) :
  v ∉ V -> unvisited V (<[v := y]> visited) = unvisited V visited.
Proof.
  unfold unvisited. induction V as [|a V IH]; intros Hv; [reflexivity|].
  apply not_elem_of_cons in Hv as [Hne Hv].
  rewrite !filter_cons, lookup_insert_ne by congruence.
  rewrite IH by exact Hv. reflexivity.
Qed.

Lemma unvisited_insert {A} (V : list pos) (visited : gmap pos A) v (y : A) :
  NoDup V -> v ∈ V -> visited !! v = None ->
  S (length (unvisited V (<[v := y]> visited))) = length (unvisited V visited).
Proof.
  induction V as [|a V IH]; intros Hnd Hin Hv.
  - apply elem_of_nil in Hin. tauto.
  - apply NoDup_cons in Hnd as [Ha Hnd]. unfold unvisited in *.
    rewrite !filter_cons.
    destruct (decide (a = v)) as [->|Hne].
    + rewrite lookup_insert_eq, Hv.
      destruct (decide (Some y = None)) as [?|_]; [discriminate|].
      destruct (decide (@None A = None)) as [_|?]; [|tauto].
      simpl. f_equal.
      apply (f_equal length (unvisited_insert_notin V visited v y Ha)).
    + apply elem_of_cons in Hin as [?|Hin]; [congruence|].
      rewrite lookup_insert_ne by congruence.
      destruct (decide (visited !! a = None)); simpl; rewrite <- IH by auto; reflexivity.
Qed.

Lemma unvisited_insert_Some {A} (V : list pos) (visited : gmap pos A) v (y : A) :
  is_Some (visited !! v) ->
  unvisited V (<[v := y]> visited) = unvisited V visited.
Proof.
  intros [z Hz]. unfold unvisited. induction V as [|a V IH]; [reflexivity|].
  rewrite !filter_cons, IH.
  destruct (decide (a = v)) as [->|Hne].
  - rewrite lookup_insert_eq, Hz.
    destruct (decide (Some y = None)); [discriminate|].
    destruct (decide (Some z = None)); [discriminate|]. reflexivity.
  - rewrite lookup_insert_ne by congruence. reflexivity.
Qed.

(** ** BFS *)

Section BfsFacts.
Context {M : Type} `{MazeLike M} (maze : M) (start : pos).

Local Abbreviation nbrs := (get_neighbors maze).
Local Abbreviation inv := (bfs_inv maze start).

Lemma bfs_inv_init : inv (fun _ => 0%nat) 0 None [start] {[start := None]}.
Proof.
  constructor.
  - apply lookup_singleton_eq.
  - reflexivity.
  - intros n Hn. apply lookup_singleton_Some in Hn as [<- _]. reflexivity.
  - intros n p Hn. apply lookup_singleton_Some in Hn. destruct Hn; discriminate.
  - intros x Hx. apply list_elem_of_singleton in Hx as ->.
    rewrite lookup_singleton_eq. split; [eauto | lia].
  - intros. lia.
  - apply NoDup_singleton.
  - intros x [y Hx] Hnot. apply lookup_singleton_Some in Hx as [<- _].
    exfalso. apply Hnot. left.
  - intros x v [y Hx] Hnot. apply lookup_singleton_Some in Hx as [<- _].
    exfalso. apply Hnot. left.
  - discriminate.
Qed.

(** Taking the head out of the queue. *)
Lemma bfs_inv_pop dist d u queue visited :
  inv dist d None (u :: queue) visited ->
  inv dist (dist u) (Some (u, [])) queue visited.
Proof.
  intros I.
  assert (Hu : is_Some (visited !! u) /\ (d <= dist u)%nat /\ (dist u <= S d)%nat)
    by (apply (bi_queue _ _ _ _ _ _ _ I); left).
  assert (Hnd : (u ∉ queue) /\ NoDup queue)
    by (apply NoDup_cons; exact (bi_nodup _ _ _ _ _ _ _ I)).
  constructor.
  - exact (bi_start _ _ _ _ _ _ _ I).
  - exact (bi_dist_start _ _ _ _ _ _ _ I).
  - exact (bi_root _ _ _ _ _ _ _ I).
  - exact (bi_parent _ _ _ _ _ _ _ I).
  - intros x Hx.
    destruct (bi_queue _ _ _ _ _ _ _ I x) as (Hv & Hlo & Hhi); [right; exact Hx|].
    split; [exact Hv|]. split; [|lia].
    apply list_elem_of_lookup in Hx as [i Hi].
    apply (bi_sorted _ _ _ _ _ _ _ I 0%nat (S i)); [lia | reflexivity | exact Hi].
  - intros i j x y Hij Hi Hj.
    apply (bi_sorted _ _ _ _ _ _ _ I (S i) (S j)); [lia | exact Hi | exact Hj].
  - tauto.
  - intros x Hx Hnot. destruct (decide (x = u)) as [->|Hne]; [lia|].
    assert (dist x <= d)%nat; [|lia].
    apply (bi_old _ _ _ _ _ _ _ I); [exact Hx|].
    intros Hin. apply elem_of_cons in Hin as [?|?]; tauto.
  - intros x v Hx Hnot Hv Hcur.
    destruct (decide (x = u)) as [->|Hne].
    + specialize (Hcur [] eq_refl). apply elem_of_nil in Hcur. tauto.
    + apply (bi_expanded _ _ _ _ _ _ _ I); [exact Hx| |exact Hv|discriminate].
      intros Hin. apply elem_of_cons in Hin as [?|?]; tauto.
  - intros u' ns [= <- <-]. tauto.
Qed.

(** One turn of the neighbour loop. *)
Lemma bfs_inv_visit dist d u ns queue visited v :
  inv dist d (Some (u, ns)) queue visited ->
  v ∈ nbrs u ->
  exists dist',
    inv dist' d (Some (u, v :: ns))
        (bfs_visit u (queue, visited) v).1 (bfs_visit u (queue, visited) v).2
    /\ (forall x, is_Some (visited !! x) -> dist' x = dist x)
    /\ (visited !! v = None -> dist' v = S d).
Proof.
  intros I Hv.
  destruct (bi_cur _ _ _ _ _ _ _ I u ns eq_refl) as (Hu & Hunq & Hdu).
  assert (Hall : forall x, is_Some (visited !! x) -> (dist x <= S d)%nat).
  { intros x Hx. destruct (decide (x ∈ queue)) as [Hin|Hnin].
    - apply (bi_queue _ _ _ _ _ _ _ I) in Hin. lia.
    - pose proof (bi_old _ _ _ _ _ _ _ I x Hx Hnin). lia. }
  unfold bfs_visit. simpl.
  destruct (visited !! v) as [pv|] eqn:Ev; simpl.
  - (* already visited *)
    exists dist. split; [|split; [auto | discriminate]].
    constructor; try solve [apply I].
    + intros x w Hx Hnot Hw Hcur.
      destruct (decide (x = u)) as [->|Hne].
      * specialize (Hcur (v :: ns) eq_refl).
        apply elem_of_cons in Hcur as [->|Hin].
        -- split; [eauto|]. rewrite Hdu. apply Hall. eauto.
        -- apply (bi_expanded _ _ _ _ _ _ _ I); auto.
           intros ns' [= <-]. exact Hin.
      * apply (bi_expanded _ _ _ _ _ _ _ I); auto.
        intros ns' [= ? ?]. congruence.
    + intros u' ns' [= <- <-]. tauto.
  - (* a new cell *)
    set (dist' := fun x => if decide (x = v) then S d else dist x).
    assert (Hsame : forall x, is_Some (visited !! x) -> dist' x = dist x).
    { intros x [y Hx]. unfold dist'. destruct (decide (x = v)) as [->|]; congruence. }
    assert (Hvis : forall x, is_Some (<[v := Some u]> visited !! x) ->
                             x = v \/ (x <> v /\ is_Some (visited !! x))).
    { intros x Hx. destruct (decide (x = v)) as [->|Hne]; [tauto|].
      rewrite lookup_insert_ne in Hx by congruence. tauto. }
    assert (Hvq : v ∉ queue).
    { intros Hin. apply (bi_queue _ _ _ _ _ _ _ I) in Hin as ([y Hy] & _). congruence. }
    exists dist'. split; [|split; [exact Hsame|]].
    2:{ intros _. unfold dist'. destruct (decide (v = v)); congruence. }
    constructor.
    + rewrite lookup_insert_ne; [apply I|].
      intros ->. rewrite (bi_start _ _ _ _ _ _ _ I) in Ev. discriminate.
    + rewrite Hsame; [apply I|]. rewrite (bi_start _ _ _ _ _ _ _ I). eauto.
    + intros n Hn. destruct (decide (n = v)) as [->|Hne].
      * rewrite lookup_insert_eq in Hn. discriminate.
      * rewrite lookup_insert_ne in Hn by congruence. apply (bi_root _ _ _ _ _ _ _ I _ Hn).
    + intros n p Hn. destruct (decide (n = v)) as [->|Hne].
      * rewrite lookup_insert_eq in Hn. injection Hn as <-.
        split; [|split; [exact Hv|]].
        -- rewrite lookup_insert_ne; [exact Hu|]. intros ->.
           destruct Hu as [? ?]. congruence.
        -- rewrite (Hsame u Hu). unfold dist'.
           destruct (decide (v = v)); congruence.
      * rewrite lookup_insert_ne in Hn by congruence.
        destruct (bi_parent _ _ _ _ _ _ _ I _ _ Hn) as (Hp & Hnp & Hd).
        split; [|split; [exact Hnp|]].
        -- destruct (decide (p = v)) as [->|]; [rewrite lookup_insert_eq; eauto|].
           rewrite lookup_insert_ne by congruence. exact Hp.
        -- rewrite (Hsame p Hp). rewrite Hsame; [exact Hd|]. rewrite Hn. eauto.
    + intros x Hx. apply elem_of_app in Hx as [Hx|Hx].
      * destruct (bi_queue _ _ _ _ _ _ _ I x Hx) as (Hvx & Hb).
        rewrite (Hsame x Hvx). split; [|exact Hb].
        destruct (decide (x = v)) as [->|]; [rewrite lookup_insert_eq; eauto|].
        rewrite lookup_insert_ne by congruence. exact Hvx.
      * apply list_elem_of_singleton in Hx as ->. rewrite lookup_insert_eq.
        split; [eauto|]. unfold dist'. destruct (decide (v = v)); [lia|congruence].
    + intros i j x y Hij Hi Hj.
      assert (Hqd : forall k z, queue !! k = Some z -> dist' z = dist z /\ (dist z <= S d)%nat).
      { intros k z Hk. apply list_elem_of_lookup_2 in Hk.
        destruct (bi_queue _ _ _ _ _ _ _ I z Hk) as (Hvz & Hb). split; [auto | lia]. }
      destruct (decide (j < length queue)%nat) as [Hj'|Hj'].
      * rewrite lookup_app_l in Hj by exact Hj'.
        rewrite lookup_app_l in Hi by lia.
        destruct (Hqd _ _ Hi) as [-> _]. destruct (Hqd _ _ Hj) as [-> _].
        apply (bi_sorted _ _ _ _ _ _ _ I i j); auto.
      * rewrite lookup_app_r in Hj by lia.
        apply list_lookup_singleton_Some in Hj as [_ <-].
        assert (dist' v = S d) as -> by (unfold dist'; destruct (decide (v = v)); congruence).
        destruct (decide (i < length queue)%nat) as [Hi'|Hi'].
        -- rewrite lookup_app_l in Hi by exact Hi'.
           destruct (Hqd _ _ Hi) as [-> ?]. lia.
        -- rewrite lookup_app_r in Hi by lia.
           apply list_lookup_singleton_Some in Hi as [_ <-].
           unfold dist'. destruct (decide (v = v)); [lia|congruence].
    + apply NoDup_app. split; [apply I|]. split; [|apply NoDup_singleton].
      intros x Hx Hx'. apply list_elem_of_singleton in Hx' as ->. tauto.
    + intros x Hx Hnot.
      assert (x <> v) as Hne.
      { intros ->. apply Hnot. apply elem_of_app. right. left. }
      destruct (Hvis x Hx) as [?|[_ Hx']]; [tauto|].
      rewrite (Hsame x Hx'). apply (bi_old _ _ _ _ _ _ _ I x Hx').
      intros Hin. apply Hnot. apply elem_of_app. tauto.
    + intros x w Hx Hnot Hw Hcur.
      assert (x <> v) as Hne.
      { intros ->. apply Hnot. apply elem_of_app. right. left. }
      destruct (Hvis x Hx) as [?|[_ Hx']]; [tauto|].
      assert (Hxq : x ∉ queue).
      { intros Hin. apply Hnot. apply elem_of_app. tauto. }
      rewrite (Hsame x Hx').
      destruct (decide (w = v)) as [->|Hwv].
      * rewrite lookup_insert_eq. split; [eauto|].
        unfold dist'. destruct (decide (v = v)); [|congruence].
        destruct (decide (x = u)) as [->|Hxu]; [lia|].
        exfalso.
        destruct (bi_expanded _ _ _ _ _ _ _ I x v Hx' Hxq Hw) as ([y Hy] & _); [|congruence].
        intros ns' [= ? ?]. congruence.
      * rewrite lookup_insert_ne by congruence.
        assert (Hold : is_Some (visited !! w) /\ (dist w <= S (dist x))%nat).
        { apply (bi_expanded _ _ _ _ _ _ _ I x w Hx' Hxq Hw).
          intros ns' [= -> <-]. specialize (Hcur _ eq_refl).
          apply elem_of_cons in Hcur as [?|?]; tauto. }
        destruct Hold as [Hw' Hd]. rewrite (Hsame w Hw'). tauto.
    + intros u' ns' [= <- <-]. split; [|split].
      * destruct (decide (u = v)) as [->|]; [rewrite lookup_insert_eq; eauto|].
        rewrite lookup_insert_ne by congruence. exact Hu.
      * intros Hin. apply elem_of_app in Hin as [Hin|Hin]; [tauto|].
        apply list_elem_of_singleton in Hin as ->. destruct Hu; congruence.
      * rewrite (Hsame u Hu). exact Hdu.
Qed.


(** The neighbour loop keeps the invariant, and any property [P] of the
    depths, the queue and the visited cells that one turn keeps. *)
Lemma bfs_inv_fold (P : (pos -> nat) -> list pos -> gmap pos (option pos) -> Prop)
    d u :
  (forall dist ns queue visited v dist',
      inv dist d (Some (u, ns)) queue visited ->
      v ∈ nbrs u ->
      P dist queue visited ->
      (forall x, is_Some (visited !! x) -> dist' x = dist x) ->
      (visited !! v = None -> dist' v = S d) ->
      P dist' (bfs_visit u (queue, visited) v).1 (bfs_visit u (queue, visited) v).2) ->
  forall l dist ns queue visited,
    inv dist d (Some (u, ns)) queue visited ->
    P dist queue visited ->
    (forall v, v ∈ l -> v ∈ nbrs u) ->
    exists dist',
      inv dist' d (Some (u, reverse l ++ ns))
          (foldl (bfs_visit u) (queue, visited) l).1
          (foldl (bfs_visit u) (queue, visited) l).2
      /\ P dist' (foldl (bfs_visit u) (queue, visited) l).1
                 (foldl (bfs_visit u) (queue, visited) l).2.
Proof.
  intros HP. induction l as [|v l IH]; intros dist ns queue visited I HPs Hl; simpl.
  - exists dist. split; [exact I | exact HPs].
  - assert (Hv : v ∈ nbrs u) by (apply Hl; left).
    destruct (bfs_inv_visit dist d u ns queue visited v I Hv)
      as (dist1 & I1 & Hsame1 & Hnew1).
    pose proof (HP dist ns queue visited v dist1 I Hv HPs Hsame1 Hnew1) as HP1.
    destruct (bfs_visit u (queue, visited) v) as [q1 v1] eqn:E1. simpl in *.
    destruct (IH dist1 (v :: ns) q1 v1 I1 HP1) as (dist2 & I2 & HP2).
    { intros w Hw. apply Hl. right. exact Hw. }
    exists dist2. split; [|exact HP2].
    rewrite reverse_cons, <- app_assoc. exact I2.
Qed.

Lemma bfs_inv_done dist d u ns queue visited :
  inv dist d (Some (u, ns)) queue visited ->
  (forall v, v ∈ nbrs u -> v ∈ ns) ->
  inv dist d None queue visited.
Proof.
  intros I Hns. constructor; try solve [apply I].
  - intros x v Hx Hnot Hv _.
    apply (bi_expanded _ _ _ _ _ _ _ I); auto.
    intros ns' [= -> <-]. auto.
  - discriminate.
Qed.

(** One turn of the [while] loop that does not stop at the end cell. *)
Lemma bfs_inv_step (P : (pos -> nat) -> list pos -> gmap pos (option pos) -> Prop)
    dist d u queue visited :
  (forall dist ns queue visited v dist',
      inv dist (dist u) (Some (u, ns)) queue visited ->
      v ∈ nbrs u ->
      P dist queue visited ->
      (forall x, is_Some (visited !! x) -> dist' x = dist x) ->
      (visited !! v = None -> dist' v = S (dist u)) ->
      P dist' (bfs_visit u (queue, visited) v).1 (bfs_visit u (queue, visited) v).2) ->
  inv dist d None (u :: queue) visited ->
  P dist queue visited ->
  exists dist' d',
    inv dist' d' None
        (foldl (bfs_visit u) (queue, visited) (nbrs u)).1
        (foldl (bfs_visit u) (queue, visited) (nbrs u)).2
    /\ P dist' (foldl (bfs_visit u) (queue, visited) (nbrs u)).1
               (foldl (bfs_visit u) (queue, visited) (nbrs u)).2.
Proof.
  intros HP I HPs. apply bfs_inv_pop in I.
  destruct (bfs_inv_fold P (dist u) u) with (l := nbrs u) (dist := dist) (ns := @nil pos)
    (queue := queue) (visited := visited) as (dist' & I' & HP'); auto.
  { intros dist0 ns queue0 visited0 v dist0' I0 Hv HP0 Hsame Hnew.
    destruct (bi_cur _ _ _ _ _ _ _ I0 u ns eq_refl) as (Hu & _ & Hdu).
    apply (HP dist0 ns); auto. rewrite Hdu. exact I0. rewrite Hdu. exact Hnew. }
  exists dist', (dist u). split; [|exact HP'].
  eapply bfs_inv_done; [exact I'|].
  intros v Hv. apply elem_of_app. left. apply elem_of_reverse. exact Hv.
Qed.

(** A cell that a walk of at most [dist u] steps reaches is visited, at a
    depth that is at most the length of the walk. *)
Lemma bfs_walk_visited dist d u queue visited path :
  inv dist d None (u :: queue) visited ->
  forall w, path_between maze start w path ->
    (edge_count path <= dist u)%nat ->
    is_Some (visited !! w) /\ (dist w <= edge_count path)%nat.
Proof.
  intros I. induction path as [|w' path IH] using rev_ind; intros w (Hh & Hl & Hw) Hlen.
  - discriminate.
  - rewrite last_snoc in Hl. injection Hl as ->.
    destruct path as [|a path].
    + simpl in Hh. injection Hh as ->.
      rewrite (bi_start _ _ _ _ _ _ _ I), (bi_dist_start _ _ _ _ _ _ _ I).
      split; [eauto | lia].
    + apply is_walk_snoc in Hw as [Hw Hedge].
      destruct (last (a :: path)) as [b|] eqn:Eb.
      2:{ apply last_None in Eb. discriminate. }
      unfold edge_count in *. rewrite length_app in *. simpl in *.
      destruct (IH b) as [Hb Hdb].
      { split; [exact Hh|]. split; [exact Eb | exact Hw]. }
      { lia. }
      assert (Hbq : b ∉ u :: queue).
      { intros Hin. apply list_elem_of_lookup in Hin as [i Hi].
        pose proof (bi_sorted _ _ _ _ _ _ _ I 0%nat i u b ltac:(lia) eq_refl Hi). lia. }
      destruct (bi_expanded _ _ _ _ _ _ _ I b w Hb Hbq) as [Hvw Hdw].
      * apply Hedge. reflexivity.
      * discriminate.
      * split; [exact Hvw | lia].
Qed.

(** Walking back from a visited cell yields the cells of a path from the
    start, last cell first. *)
Lemma walk_back_chain dist d cur queue visited :
  inv dist d cur queue visited ->
  forall fuel n acc res,
    is_Some (visited !! n) ->
    walk_back fuel visited (Some n) acc = Ok res ->
    exists chain,
      res = acc ++ chain
      /\ length chain = S (dist n)
      /\ path_between maze start n (reverse chain).
Proof.
  intros I. induction fuel as [|fuel IH]; intros n acc res Hn Hres; [discriminate|].
  simpl in Hres. destruct (visited !! n) as [[p|]|] eqn:En.
  - destruct (bi_parent _ _ _ _ _ _ _ I n p En) as (Hp & Hnp & Hd).
    destruct (IH p (acc ++ [n]) res Hp Hres) as (chain & -> & Hlen & Hh & Hl & Hw).
    exists (n :: chain). split; [rewrite <- app_assoc; reflexivity|].
    split; [simpl; lia|].
    rewrite reverse_cons. split; [|split].
    + destruct (reverse chain) eqn:Er; [discriminate | exact Hh].
    + apply last_snoc.
    + apply is_walk_snoc. split; [exact Hw|].
      intros a Ha. rewrite Hl in Ha. injection Ha as <-. exact Hnp.
  - apply (bi_root _ _ _ _ _ _ _ I) in En as ->.
    destruct fuel; simpl in Hres; injection Hres as <-.
    + exists [start]. rewrite (bi_dist_start _ _ _ _ _ _ _ I).
      repeat split; reflexivity.
    + exists [start]. rewrite (bi_dist_start _ _ _ _ _ _ _ I).
      repeat split; reflexivity.
  - destruct Hn; discriminate.
Qed.

Lemma walk_back_returns dist d cur queue visited :
  inv dist d cur queue visited ->
  forall fuel n acc,
    is_Some (visited !! n) -> (dist n < fuel)%nat ->
    exists res, walk_back fuel visited (Some n) acc = Ok res.
Proof.
  intros I. induction fuel as [|fuel IH]; intros n acc Hn Hlt; [lia|].
  simpl. destruct (visited !! n) as [[p|]|] eqn:En.
  - destruct (bi_parent _ _ _ _ _ _ _ I n p En) as (Hp & Hnp & Hd).
    apply IH; [exact Hp | lia].
  - destruct fuel; simpl; eauto.
  - destruct Hn; discriminate.
Qed.

Section Loop.
Context (end_ : pos) (fuel0 : nat).

(** What the loop returns is a path to the end, and no path is shorter. *)
Lemma bfs_loop_correct :
  forall fuel dist d queue visited path,
    inv dist d None queue visited ->
    bfs_loop fuel0 fuel maze end_ queue visited = Ok (Some path) ->
    path_between maze start end_ path
    /\ forall other, path_between maze start end_ other ->
                     (edge_count path <= edge_count other)%nat.
Proof.
  induction fuel as [|fuel IH]; intros dist d queue visited path I Hrun.
  - destruct queue; discriminate.
  - destruct queue as [|u queue]; [discriminate|]. simpl in Hrun.
    destruct (decide (u = end_)) as [->|Hne].
    + destruct (walk_back fuel0 visited (Some end_) []) as [res| |] eqn:Ewb;
        simpl in Hrun; try discriminate.
      injection Hrun as <-.
      assert (Hend : is_Some (visited !! end_))
        by (apply (bi_queue _ _ _ _ _ _ _ I); left).
      destruct (walk_back_chain _ _ _ _ _ I _ _ _ _ Hend Ewb) as (chain & -> & Hlen & Hpath).
      simpl. split; [exact Hpath|].
      intros other Hother.
      assert (Hec : edge_count (reverse chain) = dist end_).
      { unfold edge_count. rewrite length_reverse. lia. }
      rewrite Hec.
      destruct (decide (edge_count other <= dist end_)%nat) as [Hle|Hgt]; [|lia].
      apply (bfs_walk_visited _ _ _ _ _ _ I end_ Hother Hle).
    + destruct (bfs_inv_step (fun _ _ _ => True) _ _ _ _ _ ltac:(auto) I Logic.I)
        as (dist' & d' & I' & _).
      apply (IH _ _ _ _ _ I' Hrun).
Qed.

(** *** Termination *)

Section Bounded.
Context (V : list pos).
Hypothesis V_NoDup : NoDup V.
Hypothesis V_closed : forall p n, n ∈ nbrs p -> n ∈ V.

Lemma bfs_budget_visit fuel dist d u ns queue visited v dist' :
  inv dist d (Some (u, ns)) queue visited ->
  v ∈ nbrs u ->
  bfs_budget V fuel dist queue visited ->
  (forall x, is_Some (visited !! x) -> dist' x = dist x) ->
  (visited !! v = None -> dist' v = S d) ->
  bfs_budget V fuel dist' (bfs_visit u (queue, visited) v).1
             (bfs_visit u (queue, visited) v).2.
Proof.
  intros I Hv [Hdepth Hfuel] Hsame Hnew.
  destruct (bi_cur _ _ _ _ _ _ _ I u ns eq_refl) as (Hu & _ & Hdu).
  unfold bfs_visit. simpl. destruct (visited !! v) eqn:Ev; simpl.
  - split; [|exact Hfuel]. intros x Hx. rewrite Hsame by exact Hx. auto.
  - pose proof (unvisited_insert V visited v (Some u) V_NoDup (V_closed _ _ Hv) Ev) as Hun.
    split.
    + intros x Hx. destruct (decide (x = v)) as [->|Hne].
      * rewrite Hnew by reflexivity. specialize (Hdepth u Hu). lia.
      * rewrite lookup_insert_ne in Hx by congruence.
        rewrite Hsame by exact Hx. specialize (Hdepth x Hx). lia.
    + rewrite length_app. simpl. lia.
Qed.

Lemma bfs_loop_returns :
  forall fuel dist d queue visited,
    inv dist d None queue visited ->
    bfs_budget V fuel dist queue visited ->
    (length V < fuel0)%nat ->
    exists r, bfs_loop fuel0 fuel maze end_ queue visited = Ok r.
Proof.
  induction fuel as [|fuel IH]; intros dist d queue visited I [Hdepth Hfuel] Hfuel0.
  - destruct queue; [eauto | simpl in Hfuel; lia].
  - destruct queue as [|u queue]; [eauto|]. simpl.
    destruct (decide (u = end_)) as [->|Hne].
    + assert (Hend : is_Some (visited !! end_))
        by (apply (bi_queue _ _ _ _ _ _ _ I); left).
      destruct (walk_back_returns _ _ _ _ _ I fuel0 end_ [] Hend) as [res ->].
      { specialize (Hdepth end_ Hend). lia. }
      simpl. eauto.
    + destruct (bfs_inv_step (bfs_budget V fuel) dist d u queue visited)
        as (dist' & d' & I' & HB'); auto.
      * intros. eapply bfs_budget_visit; eauto.
      * split; [exact Hdepth | simpl in Hfuel; lia].
      * eapply IH; eauto.
Qed.

End Bounded.

End Loop.

End BfsFacts.

Section BfsTop.
Context {M : Type} `{MazeLike M} (maze : M) (start end_ : pos).
Hypothesis Hstart : get_start_position maze = Some start.
Hypothesis Hend : get_end_position maze = Some end_.

Lemma bfs_correct fuel path :
  bfs fuel maze = Ok (Some path) ->
  path_between maze start end_ path
  /\ forall other, path_between maze start end_ other ->
                   (edge_count path <= edge_count other)%nat.
Proof.
  unfold bfs. rewrite Hstart, Hend.
  apply bfs_loop_correct with (dist := fun _ => 0%nat) (d := 0%nat).
  apply bfs_inv_init.
Qed.

Lemma bfs_returns (V : list pos) fuel :
  NoDup V ->
  (forall p n, n ∈ get_neighbors maze p -> n ∈ V) ->
  (length V < fuel)%nat ->
  exists r, bfs fuel maze = Ok r.
Proof.
  intros Hnd Hclosed Hfuel. unfold bfs. rewrite Hstart, Hend.
  apply bfs_loop_returns with (start := start) (V := V) (dist := fun _ => 0%nat) (d := 0%nat);
    auto.
  - apply bfs_inv_init.
  - split.
    + intros x _. simpl. apply unvisited_length.
    + simpl. pose proof (unvisited_length V ({[start := None]} : gmap pos (option pos))). lia.
Qed.

End BfsTop.

(** ** The cells of a maze *)

Lemma Maze_valid_in_bounds (m : Maze.t) (p : pos) :
  Maze.is_valid_position m p = true ->
  0 <= p.1 < Maze.height m /\ 0 <= p.2 < Maze.width m.
Proof.
  destruct p as [row col]. unfold Maze.is_valid_position. simpl.
  destruct (0 <=? row) eqn:E1; [|discriminate].
  destruct (row <? Maze.height m) eqn:E2; [|discriminate].
  destruct (0 <=? col) eqn:E3; [|discriminate].
  destruct (col <? Maze.width m) eqn:E4; [|discriminate].
  intros _. lia.
Qed.

Lemma Maze_all_valid_positions_spec (m : Maze.t) (p : pos) :
  p ∈ Maze.get_all_valid_positions m <-> Maze.is_valid_position m p = true.
Proof.
  unfold Maze.get_all_valid_positions. split.
  - intros Hin. apply list_elem_of_bind in Hin as (i & Hin & Hi).
    apply list_elem_of_bind in Hin as (j & Hin & Hj).
    destruct (Maze.is_valid_position m (i, j)) eqn:Ev.
    + apply list_elem_of_singleton in Hin as ->. exact Ev.
    + apply elem_of_nil in Hin. tauto.
  - intros Hv. pose proof (Maze_valid_in_bounds m p Hv) as [Hr Hc].
    destruct p as [row col]. simpl in *.
    apply list_elem_of_bind. exists row. split; [|apply elem_of_seqZ; lia].
    apply list_elem_of_bind. exists col. split; [|apply elem_of_seqZ; lia].
    rewrite Hv. left.
Qed.

Lemma Maze_all_valid_positions_NoDup (m : Maze.t) :
  NoDup (Maze.get_all_valid_positions m).
Proof.
  unfold Maze.get_all_valid_positions.
  apply NoDup_bind; [| |apply NoDup_seqZ].
  - intros i1 i2 p _ _ H1 H2.
    apply list_elem_of_bind in H1 as (j1 & H1 & _).
    apply list_elem_of_bind in H2 as (j2 & H2 & _).
    destruct (Maze.is_valid_position m (i1, j1)); [|apply elem_of_nil in H1; tauto].
    destruct (Maze.is_valid_position m (i2, j2)); [|apply elem_of_nil in H2; tauto].
    apply list_elem_of_singleton in H1, H2. congruence.
  - intros i _. apply NoDup_bind; [| |apply NoDup_seqZ].
    + intros j1 j2 p _ _ H1 H2.
      destruct (Maze.is_valid_position m (i, j1)); [|apply elem_of_nil in H1; tauto].
      destruct (Maze.is_valid_position m (i, j2)); [|apply elem_of_nil in H2; tauto].
      apply list_elem_of_singleton in H1, H2. congruence.
    + intros j _. destruct (Maze.is_valid_position m (i, j));
        [apply NoDup_singleton | apply NoDup_nil_2].
Qed.

(** The neighbours of a cell are the valid cells next to it. *)
Lemma Maze_get_neighbors_spec (m : Maze.t) (p n : pos) :
  n ∈ Maze.get_neighbors m p <->
  Maze.is_valid_position m n = true
  /\ (Z.abs (n.1 - p.1) + Z.abs (n.2 - p.2) = 1).
Proof.
  destruct p as [row col]. destruct n as [r c]. unfold Maze.get_neighbors.
  rewrite list_elem_of_filter. simpl.
  rewrite !elem_of_cons, elem_of_nil.
  split.
  - intros [Hv Hn]. split; [exact Hv|].
    destruct Hn as [[= -> ->]|[[= -> ->]|[[= -> ->]|[[= -> ->]|[]]]]]; lia.
  - intros [Hv Hadj]. split; [exact Hv|].
    assert (Hcases : (r = row - 1 /\ c = col) \/ (r = row + 1 /\ c = col)
                     \/ (r = row /\ c = col - 1) \/ (r = row /\ c = col + 1)) by lia.
    destruct Hcases as [[-> ->]|[[-> ->]|[[-> ->]|[-> ->]]]]; tauto.
Qed.

(** C2. On every grid with a declared start and end, a path that
    [PathFinder.bfs] returns leads from the start to the end through
    neighbouring valid cells, and its number of steps is at most that of
    every other such path.  The search returns once its fuel exceeds the
    number of valid cells. *)
Theorem bfs_path_is_shortest (m : Maze.t) (start end_ : pos) :
  get_start_position m = Some start ->
  get_end_position m = Some end_ ->
  (forall fuel path,
      bfs fuel m = Ok (Some path) ->
      path_between m start end_ path
      /\ forall other, path_between m start end_ other ->
                       (edge_count path <= edge_count other)%nat)
  /\ (forall fuel,
        (length (get_all_valid_positions m) < fuel)%nat ->
        exists r, bfs fuel m = Ok r).
Proof.
  intros Hstart Hend. split.
  - intros fuel path. apply bfs_correct; assumption.
  - intros fuel Hfuel.
    apply (bfs_returns m start end_ Hstart Hend (get_all_valid_positions m)).
    + apply Maze_all_valid_positions_NoDup.
    + intros p n Hn. apply Maze_all_valid_positions_spec.
      apply Maze_get_neighbors_spec in Hn. tauto.
    + exact Hfuel.
Qed.

Lemma bfs_path_is_shortest_witness :
  bfs 40 default_maze = Ok (Some default_maze_path)
  /\ (edge_count default_maze_path <= edge_count default_maze_detour)%nat.
Proof.
  split; [vm_compute; reflexivity|].
  destruct (bfs_path_is_shortest default_maze (0, 0) (4, 5) eq_refl eq_refl)
    as [Hshortest _].
  destruct (Hshortest 40%nat default_maze_path) as [_ Hmin];
    [vm_compute; reflexivity|].
  apply Hmin. split; [reflexivity|]. split; [reflexivity|].
  simpl; repeat split; refine (bool_decide_unpack _ _); vm_compute; exact Logic.I.
Defined.

(** ** Dijkstra *)

Section DijkstraFacts.
Context {M : Type} `{TerrainLike M} (maze : M) (start end_ : pos).
Hypothesis cost_nonneg : forall p, num_le (Fin 0) (get_terrain_cost maze p).

Local Abbreviation nbrs := (get_neighbors maze).
Local Abbreviation cost := (get_terrain_cost maze).
Local Abbreviation inv := (dij_inv maze start end_).

Lemma dij_inv_init :
  inv (fun _ => 0%nat) ∅ (Fin 0) None
      [(Fin 0, start)] {[start := Fin 0]} {[start := None]}.
Proof.
  constructor.
  - split; apply lookup_singleton_eq.
  - intros n. destruct (decide (n = start)) as [->|Hne].
    + rewrite !lookup_singleton_eq. split; eauto.
    + rewrite !lookup_singleton_ne by congruence. split; intros [? ?]; discriminate.
  - intros n Hn. apply lookup_singleton_Some in Hn as [<- _]. reflexivity.
  - intros n p Hn. apply lookup_singleton_Some in Hn as [_ ?]. discriminate.
  - intros d [? Hd]. rewrite lookup_empty in Hd. discriminate.
  - apply lookup_empty.
  - apply num_le_refl.
  - intros c n Hin. apply list_elem_of_singleton in Hin as [= -> ->].
    split; [apply num_le_refl|]. exists (Fin 0).
    split; [apply lookup_singleton_eq | apply num_le_refl].
  - intros n c Hn _. apply lookup_singleton_Some in Hn as [<- <-]. left.
  - intros d c [? Hd]. rewrite lookup_empty in Hd. discriminate.
  - intros d v [? Hd]. rewrite lookup_empty in Hd. discriminate.
  - discriminate.
Qed.

(** Dropping from the queue an entry that is stale or whose cell has been
    expanded already. *)
Lemma dij_inv_drop depth D lo pq csf cf c u rest known :
  inv depth D lo None pq csf cf ->
  pq ≡ₚ (c, u) :: rest ->
  Forall (fun e => num_le c e.1) rest ->
  csf !! u = Some known ->
  num_lt known c \/ is_Some (D !! u) ->
  inv depth D c None rest csf cf.
Proof.
  intros I Hperm Hmin Hu Hwhy.
  assert (Hcu : (c, u) ∈ pq) by (rewrite Hperm; left).
  destruct (di_pq _ _ _ _ _ _ _ _ _ _ I c u Hcu) as (Hlo & known' & Hk' & Hkc).
  constructor; try solve [apply I].
  - eapply num_le_trans; [apply I | exact Hlo].
  - intros c' n Hin. split.
    + rewrite Forall_forall in Hmin. apply (Hmin (c', n) Hin).
    + apply (di_pq _ _ _ _ _ _ _ _ _ _ I). rewrite Hperm. right. exact Hin.
  - intros n cn Hn HD.
    pose proof (di_pending _ _ _ _ _ _ _ _ _ _ I n cn Hn HD) as Hin.
    rewrite Hperm in Hin. apply elem_of_cons in Hin as [[= -> ->]|Hin]; [|exact Hin].
    exfalso. destruct Hwhy as [Hlt|[? HDu]]; [|congruence].
    rewrite Hu in Hn. injection Hn as ->. clear -Hlt. num_solve.
  - intros d cd Hd Hcd. eapply num_le_trans; [|exact Hlo].
    apply (di_final _ _ _ _ _ _ _ _ _ _ I d cd Hd Hcd).
  - discriminate.
Qed.

(** Taking out of the queue a fresh entry of a cell that is expanded now. *)
Lemma dij_inv_pop depth D lo pq csf cf c u rest known :
  inv depth D lo None pq csf cf ->
  pq ≡ₚ (c, u) :: rest ->
  Forall (fun e => num_le c e.1) rest ->
  csf !! u = Some known ->
  num_le c known ->
  D !! u = None ->
  u <> end_ ->
  inv depth (<[u := tt]> D) c (Some (u, [])) rest csf cf.
Proof.
  intros I Hperm Hmin Hu Hfresh HDu Hne.
  assert (Hcu : (c, u) ∈ pq) by (rewrite Hperm; left).
  destruct (di_pq _ _ _ _ _ _ _ _ _ _ I c u Hcu) as (Hlo & known' & Hk' & Hkc).
  rewrite Hu in Hk'. injection Hk' as <-.
  assert (HD : forall d, is_Some (<[u := tt]> D !! d) -> d = u \/ (d <> u /\ is_Some (D !! d))).
  { intros d Hd. destruct (decide (d = u)) as [->|Hdu]; [tauto|].
    rewrite lookup_insert_ne in Hd by congruence. tauto. }
  constructor; try solve [apply I].
  - intros n p Hn. destruct (di_parent _ _ _ _ _ _ _ _ _ _ I n p Hn) as (Hp & Hrest).
    split; [|exact Hrest].
    destruct (decide (p = u)) as [->|Hpu]; [rewrite lookup_insert_eq; eauto|].
    rewrite lookup_insert_ne by congruence. exact Hp.
  - intros d Hd. destruct (HD d Hd) as [->|[_ Hd']]; [eauto|].
    apply (di_done _ _ _ _ _ _ _ _ _ _ I d Hd').
  - rewrite lookup_insert_ne by congruence. apply I.
  - eapply num_le_trans; [apply I | exact Hlo].
  - intros c' n Hin. split.
    + rewrite Forall_forall in Hmin. apply (Hmin (c', n) Hin).
    + apply (di_pq _ _ _ _ _ _ _ _ _ _ I). rewrite Hperm. right. exact Hin.
  - intros n cn Hn HDn.
    destruct (decide (n = u)) as [->|Hnu]; [rewrite lookup_insert_eq in HDn; discriminate|].
    rewrite lookup_insert_ne in HDn by congruence.
    pose proof (di_pending _ _ _ _ _ _ _ _ _ _ I n cn Hn HDn) as Hin.
    rewrite Hperm in Hin. apply elem_of_cons in Hin as [[= ? ?]|Hin]; [congruence | exact Hin].
  - intros d cd Hd Hcd. destruct (HD d Hd) as [->|[_ Hd']].
    + rewrite Hu in Hcd. injection Hcd as <-. exact Hkc.
    + eapply num_le_trans; [|exact Hlo].
      apply (di_final _ _ _ _ _ _ _ _ _ _ I d cd Hd' Hcd).
  - intros d v Hd Hv Hcur. destruct (HD d Hd) as [->|[_ Hd']].
    + specialize (Hcur [] eq_refl). apply elem_of_nil in Hcur. tauto.
    + apply (di_expanded _ _ _ _ _ _ _ _ _ _ I d v Hd' Hv). discriminate.
  - intros u' ns [= <- <-]. split; [rewrite lookup_insert_eq; eauto|].
    exists known. tauto.
Qed.

(** A neighbour whose cost is not improved leaves the state as it is. *)
Lemma relax_same c u pq csf cf v cv :
  csf !! v = Some cv -> num_le cv (num_add c (cost v)) ->
  relax maze c u (pq, csf, cf) v = (pq, csf, cf).
Proof.
  intros Hv Hle. unfold relax. rewrite Hv.
  destruct (num_ltb (num_add c (cost v)) cv) eqn:Elt; [|reflexivity].
  exfalso. apply num_ltb_true in Elt. eapply num_lt_not_le; eauto.
Qed.

Lemma relax_fold_same c u pq csf cf l :
  (forall v, v ∈ l -> exists cv, csf !! v = Some cv /\ num_le cv (num_add c (cost v))) ->
  foldl (relax maze c u) (pq, csf, cf) l = (pq, csf, cf).
Proof.
  induction l as [|v l IH]; intros Hl; [reflexivity|]. cbn [foldl].
  destruct (Hl v) as (cv & Hv & Hle); [left|].
  rewrite (relax_same c u pq csf cf v cv Hv Hle).
  apply IH. intros w Hw. apply Hl. right. exact Hw.
Qed.

(** Expanding once more a cell that has been expanded changes nothing. *)
Lemma relax_fold_done depth D lo pq csf cf c u pq' :
  inv depth D lo None pq csf cf ->
  is_Some (D !! u) -> num_le lo c ->
  foldl (relax maze c u) (pq', csf, cf) (nbrs u) = (pq', csf, cf).
Proof.
  intros I HDu Hlo. apply relax_fold_same. intros v Hv.
  destruct (di_expanded _ _ _ _ _ _ _ _ _ _ I u v HDu Hv) as (cu & cv & Hcu & Hcv & Hle);
    [discriminate|].
  exists cv. split; [exact Hcv|].
  eapply num_le_trans; [exact Hle|].
  apply num_add_mono; [|apply num_le_refl].
  eapply num_le_trans; [|exact Hlo].
  apply (di_final _ _ _ _ _ _ _ _ _ _ I u cu HDu Hcu).
Qed.


(** One turn of the neighbour loop. *)
Lemma dij_inv_visit depth D lo u ns pq csf cf v :
  inv depth D lo (Some (u, ns)) pq csf cf ->
  v ∈ nbrs u ->
  let st' := relax maze lo u (pq, csf, cf) v in
  let nc := num_add lo (cost v) in
  exists depth',
    inv depth' D lo (Some (u, v :: ns)) st'.1.1 st'.1.2 st'.2
    /\ ((st' = (pq, csf, cf) /\ depth' = depth)
        \/ (st' = ((nc, v) :: pq, <[v := nc]> csf, <[v := Some u]> cf)
            /\ D !! v = None
            /\ depth' v = S (depth u)
            /\ forall x, x <> v -> depth' x = depth x)).
Proof.
  intros I Hv st' nc.
  destruct (di_cur _ _ _ _ _ _ _ _ _ _ I u ns eq_refl) as (HDu & cu & Hcu & Hlocu).
  assert (Hculo : num_le cu lo) by (apply (di_final _ _ _ _ _ _ _ _ _ _ I u cu HDu Hcu)).
  assert (Hnc : num_le lo nc) by (apply num_add_nonneg, cost_nonneg).
  assert (Hedge : num_le nc (num_add cu (cost v))).
  { apply num_add_mono; [exact Hlocu | apply num_le_refl]. }
  assert (Hkeep : forall cv, csf !! v = Some cv -> num_le cv nc ->
            inv depth D lo (Some (u, v :: ns)) pq csf cf).
  { intros cv Hcv Hle. constructor; try solve [apply I].
    - intros d w Hd Hw Hcur. destruct (decide (d = u)) as [->|Hdu].
      + specialize (Hcur _ eq_refl). apply elem_of_cons in Hcur as [->|Hin].
        * exists cu, cv. split; [exact Hcu|]. split; [exact Hcv|].
          eapply num_le_trans; eauto.
        * apply (di_expanded _ _ _ _ _ _ _ _ _ _ I u w Hd Hw).
          intros ns' [= <-]. exact Hin.
      + apply (di_expanded _ _ _ _ _ _ _ _ _ _ I d w Hd Hw).
        intros ns' [= ? ?]. congruence.
    - intros u' ns' [= <- <-]. split; [exact HDu|]. exists cu. tauto. }
  subst st'. unfold relax. fold nc.
  destruct (match csf !! v with Some c => num_ltb nc c | None => true end) eqn:Eupd.
  2:{ destruct (csf !! v) as [cv|] eqn:Ecv; [|discriminate].
      apply num_ltb_false in Eupd.
      exists depth. split; [apply (Hkeep cv); auto | left; tauto]. }
  (* the cost of [v] improves *)
  assert (Hold : forall cv, csf !! v = Some cv -> num_lt nc cv).
  { intros cv Hcv. rewrite Hcv in Eupd. apply num_ltb_true. exact Eupd. }
  assert (HDv : D !! v = None).
  { destruct (D !! v) as [[]|] eqn:EDv; [|reflexivity]. exfalso.
    destruct (di_done _ _ _ _ _ _ _ _ _ _ I v) as [cv Hcv]; [eauto|].
    pose proof (di_final _ _ _ _ _ _ _ _ _ _ I v cv ltac:(eauto) Hcv) as Hfin.
    pose proof (Hold cv Hcv) as Hlt.
    eapply num_lt_not_le; [exact Hlt|]. eapply num_le_trans; eauto. }
  assert (Hvs : v <> start).
  { intros ->. destruct (di_start _ _ _ _ _ _ _ _ _ _ I) as [Hs _].
    pose proof (Hold _ Hs) as Hlt. pose proof (di_lo _ _ _ _ _ _ _ _ _ _ I) as Hlo0.
    eapply num_lt_not_le; [exact Hlt|]. eapply num_le_trans; eauto. }
  assert (Hvu : v <> u) by (intros ->; destruct HDu; congruence).
  set (depth' := fun x => if decide (x = v) then S (depth u) else depth x).
  assert (Hdv : depth' v = S (depth u))
    by (unfold depth'; destruct (decide (v = v)); congruence).
  assert (Hdx : forall x, x <> v -> depth' x = depth x)
    by (intros x Hx; unfold depth'; destruct (decide (x = v)); congruence).
  assert (HDne : forall d, is_Some (D !! d) -> d <> v)
    by (intros d [? Hd] ->; congruence).
  exists depth'. simpl. split; [|right; tauto].
  constructor.
  - destruct (di_start _ _ _ _ _ _ _ _ _ _ I) as [Hs Hs'].
    rewrite !lookup_insert_ne by congruence. tauto.
  - intros n. destruct (decide (n = v)) as [->|Hne].
    + rewrite !lookup_insert_eq. split; eauto.
    + rewrite !lookup_insert_ne by congruence. apply I.
  - intros n Hn. destruct (decide (n = v)) as [->|Hne].
    + rewrite lookup_insert_eq in Hn. discriminate.
    + rewrite lookup_insert_ne in Hn by congruence.
      apply (di_root _ _ _ _ _ _ _ _ _ _ I n Hn).
  - intros n p Hn. destruct (decide (n = v)) as [->|Hne].
    + rewrite lookup_insert_eq in Hn. injection Hn as <-.
      split; [exact HDu|]. split; [exact Hv|]. split; [rewrite Hdv, Hdx by congruence; reflexivity|].
      exists nc, cu. rewrite lookup_insert_eq, lookup_insert_ne by congruence.
      split; [reflexivity|]. split; [exact Hcu|].
      apply num_add_mono; [exact Hculo | apply num_le_refl].
    + rewrite lookup_insert_ne in Hn by congruence.
      destruct (di_parent _ _ _ _ _ _ _ _ _ _ I n p Hn) as (Hp & Hnp & Hd & cn & cp & Hcn & Hcp & Hle).
      pose proof (HDne p Hp) as Hpv.
      split; [exact Hp|]. split; [exact Hnp|]. split; [rewrite !Hdx by congruence; exact Hd|].
      exists cn, cp. rewrite !lookup_insert_ne by congruence. tauto.
  - intros d Hd. rewrite lookup_insert_ne by (apply not_eq_sym, HDne; exact Hd).
    apply (di_done _ _ _ _ _ _ _ _ _ _ I d Hd).
  - apply I.
  - apply I.
  - intros c n Hin. apply elem_of_cons in Hin as [[= -> ->]|Hin].
    + split; [exact Hnc|]. exists nc. rewrite lookup_insert_eq.
      split; [reflexivity | apply num_le_refl].
    + destruct (di_pq _ _ _ _ _ _ _ _ _ _ I c n Hin) as (Hlo & c' & Hc' & Hle).
      split; [exact Hlo|]. destruct (decide (n = v)) as [->|Hne].
      * exists nc. rewrite lookup_insert_eq. split; [reflexivity|].
        eapply num_le_trans; [apply num_lt_le, (Hold c' Hc') | exact Hle].
      * exists c'. rewrite lookup_insert_ne by congruence. tauto.
  - intros n c Hn HDn. destruct (decide (n = v)) as [->|Hne].
    + rewrite lookup_insert_eq in Hn. injection Hn as <-. left.
    + rewrite lookup_insert_ne in Hn by congruence. right.
      apply (di_pending _ _ _ _ _ _ _ _ _ _ I n c Hn HDn).
  - intros d c Hd Hc. rewrite lookup_insert_ne in Hc by (apply not_eq_sym, HDne; exact Hd).
    apply (di_final _ _ _ _ _ _ _ _ _ _ I d c Hd Hc).
  - intros d w Hd Hw Hcur. pose proof (HDne d Hd) as Hdv'.
    destruct (decide (w = v)) as [->|Hwv].
    + destruct (decide (d = u)) as [->|Hdu].
      * exists cu, nc. rewrite lookup_insert_eq, lookup_insert_ne by congruence.
        split; [exact Hcu|]. split; [reflexivity | exact Hedge].
      * destruct (di_expanded _ _ _ _ _ _ _ _ _ _ I d v Hd Hw) as (cd & cv & Hcd & Hcv & Hle).
        { intros ns' [= ? ?]. congruence. }
        exists cd, nc. rewrite lookup_insert_eq, lookup_insert_ne by congruence.
        split; [exact Hcd|]. split; [reflexivity|].
        eapply num_le_trans; [apply num_lt_le, (Hold cv Hcv) | exact Hle].
    + destruct (di_expanded _ _ _ _ _ _ _ _ _ _ I d w Hd Hw) as (cd & cw & Hcd & Hcw & Hle).
      { intros ns' [= -> <-]. specialize (Hcur _ eq_refl).
        apply elem_of_cons in Hcur as [?|?]; tauto. }
      exists cd, cw. rewrite !lookup_insert_ne by congruence. tauto.
  - intros u' ns' [= <- <-]. split; [exact HDu|]. exists cu.
    rewrite lookup_insert_ne by congruence. tauto.
Qed.


(** The neighbour loop keeps the invariant, and any property [P] that one
    turn keeps. *)
Lemma dij_inv_fold
    (P : (pos -> nat) -> list pos -> list (num * pos) -> gmap pos num -> Prop)
    D lo u :
  (forall depth ns pq csf cf v depth',
      inv depth D lo (Some (u, ns)) pq csf cf ->
      v ∈ nbrs u ->
      P depth ns pq csf ->
      let st' := relax maze lo u (pq, csf, cf) v in
      let nc := num_add lo (cost v) in
      ((st' = (pq, csf, cf) /\ depth' = depth)
       \/ (st' = ((nc, v) :: pq, <[v := nc]> csf, <[v := Some u]> cf)
           /\ D !! v = None
           /\ depth' v = S (depth u)
           /\ forall x, x <> v -> depth' x = depth x)) ->
      P depth' (v :: ns) st'.1.1 st'.1.2) ->
  forall l depth ns pq csf cf,
    inv depth D lo (Some (u, ns)) pq csf cf ->
    P depth ns pq csf ->
    (forall v, v ∈ l -> v ∈ nbrs u) ->
    let st' := foldl (relax maze lo u) (pq, csf, cf) l in
    exists depth',
      inv depth' D lo (Some (u, reverse l ++ ns)) st'.1.1 st'.1.2 st'.2
      /\ P depth' (reverse l ++ ns) st'.1.1 st'.1.2.
Proof.
  intros HP. induction l as [|v l IH]; intros depth ns pq csf cf I HPs Hl; cbn [foldl].
  - exists depth. split; [exact I | exact HPs].
  - assert (Hv : v ∈ nbrs u) by (apply Hl; left).
    destruct (dij_inv_visit depth D lo u ns pq csf cf v I Hv) as (depth1 & I1 & Hcase).
    pose proof (HP depth ns pq csf cf v depth1 I Hv HPs Hcase) as HP1.
    destruct (relax maze lo u (pq, csf, cf) v) as [[pq1 csf1] cf1]. simpl in I1, HP1.
    destruct (IH depth1 (v :: ns) pq1 csf1 cf1 I1 HP1) as (depth2 & I2 & HP2).
    { intros w Hw. apply Hl. right. exact Hw. }
    exists depth2. rewrite reverse_cons, <- app_assoc. split; [exact I2 | exact HP2].
Qed.

Lemma dij_inv_done depth D lo u ns pq csf cf :
  inv depth D lo (Some (u, ns)) pq csf cf ->
  (forall v, v ∈ nbrs u -> v ∈ ns) ->
  inv depth D lo None pq csf cf.
Proof.
  intros I Hns. constructor; try solve [apply I].
  - intros d v Hd Hv _. apply (di_expanded _ _ _ _ _ _ _ _ _ _ I d v Hd Hv).
    intros ns' [= -> <-]. auto.
  - discriminate.
Qed.

(** *** Costs of paths *)

Lemma get_path_cost_single a : get_path_cost maze [a] = Fin 0.
Proof. reflexivity. Qed.

Lemma get_path_cost_snoc a l w :
  get_path_cost maze ((a :: l) ++ [w])
  = num_add (get_path_cost maze (a :: l)) (cost w).
Proof.
  unfold get_path_cost. simpl length. rewrite length_app. simpl length.
  replace (S (length l + 1) <? 2)%nat with false by (symmetry; apply Nat.ltb_ge; lia).
  simpl tail. rewrite foldl_app. simpl.
  destruct l as [|b l]; reflexivity.
Qed.

Lemma get_path_cost_nonneg path : num_le (Fin 0) (get_path_cost maze path).
Proof.
  induction path as [|w path IH] using rev_ind; [apply num_le_refl|].
  destruct path as [|a l]; [apply num_le_refl|].
  rewrite get_path_cost_snoc.
  eapply num_le_trans; [exact IH | apply num_add_nonneg, cost_nonneg].
Qed.

(** A path from the start costs at least what its last cell is known to
    cost, or at least what the cheapest entry of the queue costs. *)
Lemma dij_walk_bound depth D lo pq csf cf c :
  inv depth D lo None pq csf cf ->
  (forall e, e ∈ pq -> num_le c e.1) ->
  forall path w, path_between maze start w path ->
    (exists cw, csf !! w = Some cw /\ num_le cw (get_path_cost maze path))
    \/ num_le c (get_path_cost maze path).
Proof.
  intros I Hmin. induction path as [|w' path IH] using rev_ind; intros w (Hh & Hl & Hw).
  - discriminate.
  - rewrite last_snoc in Hl. injection Hl as ->.
    destruct path as [|a path].
    + simpl in Hh. injection Hh as ->. left. exists (Fin 0).
      split; [apply I | apply num_le_refl].
    + apply is_walk_snoc in Hw as [Hw Hedge].
      destruct (last (a :: path)) as [b|] eqn:Eb.
      2:{ apply last_None in Eb. discriminate. }
      specialize (Hedge b eq_refl).
      rewrite get_path_cost_snoc.
      assert (Hstep : num_le (get_path_cost maze (a :: path))
                             (num_add (get_path_cost maze (a :: path)) (cost w)))
        by apply num_add_nonneg, cost_nonneg.
      destruct (IH b) as [(cb & Hcb & Hle)|Hle].
      { split; [exact Hh|]. split; [exact Eb | exact Hw]. }
      * destruct (D !! b) as [[]|] eqn:EDb.
        -- destruct (di_expanded _ _ _ _ _ _ _ _ _ _ I b w ltac:(eauto) Hedge)
             as (cb' & cw & Hcb' & Hcw & Hle'); [discriminate|].
           rewrite Hcb in Hcb'. injection Hcb' as <-.
           left. exists cw. split; [exact Hcw|].
           eapply num_le_trans; [exact Hle'|].
           apply num_add_mono; [exact Hle | apply num_le_refl].
        -- right. pose proof (di_pending _ _ _ _ _ _ _ _ _ _ I b cb Hcb EDb) as Hin.
           apply Hmin in Hin. simpl in Hin.
           eapply num_le_trans; [exact Hin|]. eapply num_le_trans; eauto.
      * right. eapply num_le_trans; eauto.
Qed.

(** Walking back from a cell with a cost yields the cells of a path from
    the start, last cell first, that costs no more than the cell. *)
Lemma dij_walk_back_chain depth D lo cur pq csf cf :
  inv depth D lo cur pq csf cf ->
  forall fuel n acc res,
    is_Some (cf !! n) ->
    walk_back fuel cf (Some n) acc = Ok res ->
    exists chain,
      res = acc ++ chain
      /\ path_between maze start n (reverse chain)
      /\ exists cn, csf !! n = Some cn
                    /\ num_le (get_path_cost maze (reverse chain)) cn.
Proof.
  intros I. induction fuel as [|fuel IH]; intros n acc res Hn Hres; [discriminate|].
  simpl in Hres. destruct (cf !! n) as [[p|]|] eqn:En.
  - destruct (di_parent _ _ _ _ _ _ _ _ _ _ I n p En)
      as (HDp & Hnp & Hd & cn & cp & Hcn & Hcp & Hle).
    assert (Hp : is_Some (cf !! p)) by (apply (di_dom _ _ _ _ _ _ _ _ _ _ I); eauto).
    destruct (IH p (acc ++ [n]) res Hp Hres)
      as (chain & -> & (Hh & Hl & Hw) & cp' & Hcp' & Hcost).
    rewrite Hcp in Hcp'. injection Hcp' as <-.
    exists (n :: chain). split; [rewrite <- app_assoc; reflexivity|].
    rewrite reverse_cons.
    destruct (reverse chain) as [|a l] eqn:Er; [discriminate|].
    split; [split; [exact Hh | split; [apply last_snoc|]]|].
    + apply is_walk_snoc. split; [exact Hw|].
      intros b Hb. rewrite Hl in Hb. injection Hb as <-. exact Hnp.
    + exists cn. split; [exact Hcn|]. rewrite get_path_cost_snoc.
      eapply num_le_trans; [|exact Hle].
      apply num_add_mono; [exact Hcost | apply num_le_refl].
  - apply (di_root _ _ _ _ _ _ _ _ _ _ I) in En as ->.
    assert (res = acc ++ [start]) as ->.
    { destruct fuel; simpl in Hres; injection Hres as <-; reflexivity. }
    exists [start]. split; [reflexivity|].
    split; [repeat split; reflexivity|].
    exists (Fin 0). split; [apply I | apply num_le_refl].
  - destruct Hn; discriminate.
Qed.

Lemma dij_walk_back_returns depth D lo cur pq csf cf :
  inv depth D lo cur pq csf cf ->
  forall fuel n acc,
    is_Some (cf !! n) -> (depth n < fuel)%nat ->
    exists res, walk_back fuel cf (Some n) acc = Ok res.
Proof.
  intros I. induction fuel as [|fuel IH]; intros n acc Hn Hlt; [lia|].
  simpl. destruct (cf !! n) as [[p|]|] eqn:En.
  - destruct (di_parent _ _ _ _ _ _ _ _ _ _ I n p En) as (HDp & _ & Hd & _).
    apply IH; [|lia]. apply (di_dom _ _ _ _ _ _ _ _ _ _ I).
    apply (di_done _ _ _ _ _ _ _ _ _ _ I). exact HDp.
  - destruct fuel; simpl; eauto.
  - destruct Hn; discriminate.
Qed.

(** *** The loop *)

(** The path read off the links that the loop returns leads to the end and
    no path costs less. *)
Lemma dijkstra_loop_correct :
  forall fuel depth D lo pq csf cf cf',
    inv depth D lo None pq csf cf ->
    dijkstra_loop fuel maze end_ (pq, csf, cf) = Ok cf' ->
    is_Some (cf' !! end_) ->
    forall fuel' path,
      walk_back fuel' cf' (Some end_) [] = Ok path ->
      path_between maze start end_ (reverse path)
      /\ forall other, path_between maze start end_ other ->
           num_le (get_path_cost maze (reverse path)) (get_path_cost maze other).
Proof.
  induction fuel as [|fuel IH]; intros depth D lo pq csf cf cf' I Hrun Hend fuel' path Hwb.
  - exfalso. simpl in Hrun.
    destruct (heappop entry_ltb pq) as [[[c u] rest]|] eqn:Epop; [discriminate|].
    injection Hrun as <-. apply heappop_None in Epop as ->.
    apply (di_dom _ _ _ _ _ _ _ _ _ _ I) in Hend as [ce Hce].
    pose proof (di_pending _ _ _ _ _ _ _ _ _ _ I end_ ce Hce (di_end _ _ _ _ _ _ _ _ _ _ I)) as Hin.
    apply elem_of_nil in Hin. exact Hin.
  - simpl in Hrun.
    destruct (heappop entry_ltb pq) as [[[c u] rest]|] eqn:Epop.
    2:{ exfalso. injection Hrun as <-. apply heappop_None in Epop as ->.
        apply (di_dom _ _ _ _ _ _ _ _ _ _ I) in Hend as [ce Hce].
        pose proof (di_pending _ _ _ _ _ _ _ _ _ _ I end_ ce Hce (di_end _ _ _ _ _ _ _ _ _ _ I)) as Hin.
        apply elem_of_nil in Hin. exact Hin. }
    apply entry_pop in Epop as [Hperm Hmin].
    assert (Hcu : (c, u) ∈ pq) by (rewrite Hperm; left).
    destruct (di_pq _ _ _ _ _ _ _ _ _ _ I c u Hcu) as (Hlo & known & Hknown & Hkc).
    destruct (decide (u = end_)) as [->|Hne].
    + injection Hrun as <-.
      destruct (dij_walk_back_chain _ _ _ _ _ _ _ I _ _ _ _ Hend Hwb)
        as (chain & -> & Hpath & ce & Hce & Hcost).
      rewrite Hknown in Hce. injection Hce as <-.
      simpl. split; [exact Hpath|]. intros other Hother.
      eapply num_le_trans; [exact Hcost|].
      destruct (dij_walk_bound _ _ _ _ _ _ c I) with (path := other) (w := end_)
        as [(ce & Hce & Hle)|Hle]; auto.
      * intros e He. rewrite Hperm in He. apply elem_of_cons in He as [->|He].
        -- apply num_le_refl.
        -- rewrite Forall_forall in Hmin. apply Hmin. exact He.
      * rewrite Hknown in Hce. injection Hce as <-. exact Hle.
      * eapply num_le_trans; eauto.
    + rewrite Hknown in Hrun.
      destruct (num_ltb known c) eqn:Estale.
      * apply num_ltb_true in Estale.
        assert (I1 : inv depth D c None rest csf cf)
          by (eapply dij_inv_drop; eauto).
        exact (IH _ _ _ _ _ _ _ I1 Hrun Hend fuel' path Hwb).
      * apply num_ltb_false in Estale.
        destruct (D !! u) as [[]|] eqn:EDu.
        -- rewrite (relax_fold_done depth D lo pq csf cf c u rest I) in Hrun by eauto.
           assert (I1 : inv depth D c None rest csf cf)
             by (eapply dij_inv_drop; eauto).
           exact (IH _ _ _ _ _ _ _ I1 Hrun Hend fuel' path Hwb).
        -- pose proof (dij_inv_pop _ _ _ _ _ _ _ _ _ _ I Hperm Hmin Hknown Estale EDu Hne) as I1.
           destruct (dij_inv_fold (fun _ _ _ _ => True) (<[u := tt]> D) c u)
             with (l := nbrs u) (depth := depth) (ns := @nil pos) (pq := rest)
                  (csf := csf) (cf := cf) as (depth' & I' & _); auto.
           destruct (foldl (relax maze c u) (rest, csf, cf) (nbrs u)) as [[pq' csf'] cf''].
           simpl in I'.
           assert (I2 : inv depth' (<[u := tt]> D) c None pq' csf' cf'').
           { eapply dij_inv_done; [exact I'|].
             intros v Hv. apply elem_of_app. left. apply elem_of_reverse. exact Hv. }
           exact (IH _ _ _ _ _ _ _ I2 Hrun Hend fuel' path Hwb).
Qed.


(** *** Termination *)

Section Bounded.
Context (V : list pos) (k : nat).
Hypothesis V_NoDup : NoDup V.
Hypothesis V_closed : forall p n, n ∈ nbrs p -> n ∈ V.
Hypothesis V_degree : forall p, (length (nbrs p) <= k)%nat.

Lemma dij_budget_visit u base D lo depth ns pq csf cf v depth' :
  inv depth D lo (Some (u, ns)) pq csf cf ->
  v ∈ nbrs u ->
  dij_budget_cur V u base D depth ns pq csf ->
  let st' := relax maze lo u (pq, csf, cf) v in
  let nc := num_add lo (cost v) in
  ((st' = (pq, csf, cf) /\ depth' = depth)
   \/ (st' = ((nc, v) :: pq, <[v := nc]> csf, <[v := Some u]> cf)
       /\ D !! v = None
       /\ depth' v = S (depth u)
       /\ forall x, x <> v -> depth' x = depth x)) ->
  dij_budget_cur V u base D depth' (v :: ns) st'.1.1 st'.1.2.
Proof.
  intros I Hv (Hcells & Hu & Hlen) st' nc Hcase. subst st' nc.
  destruct Hcase as [[Heq ->]|(Heq & HDv & Hdv & Hdx)]; rewrite Heq; simpl.
  - split; [exact Hcells|]. split; [exact Hu | simpl; lia].
  - assert (Huv : u <> v).
    { intros ->. destruct (di_cur _ _ _ _ _ _ _ _ _ _ I v ns eq_refl) as [[? HD] _]. congruence. }
    split; [|split; [rewrite Hdx by exact Huv; exact Hu | simpl; lia]].
    intros n Hn. destruct (decide (n = v)) as [->|Hne].
    + split; [apply (V_closed u v Hv)|]. rewrite Hdv. exact Hu.
    + rewrite lookup_insert_ne in Hn by congruence. rewrite Hdx by exact Hne.
      apply Hcells. exact Hn.
Qed.

(** With a budget that covers the queue the loop returns, and the
    invariant holds for the links it returns. *)
Lemma dijkstra_loop_returns :
  forall fuel depth D lo pq csf cf,
    inv depth D lo None pq csf cf ->
    dij_budget V k fuel depth D pq csf ->
    exists cf' depth' D' lo' pq' csf',
      dijkstra_loop fuel maze end_ (pq, csf, cf) = Ok cf'
      /\ inv depth' D' lo' None pq' csf' cf'
      /\ forall n, is_Some (csf' !! n) -> (depth' n <= length V)%nat.
Proof.
  assert (Hstop : forall depth D lo pq csf cf fuel,
             inv depth D lo None pq csf cf ->
             dij_budget V k fuel depth D pq csf ->
             exists cf' depth' D' lo' pq' csf',
               @Ok (gmap pos (option pos)) cf = Ok cf'
               /\ inv depth' D' lo' None pq' csf' cf'
               /\ forall n, is_Some (csf' !! n) -> (depth' n <= length V)%nat).
  { intros depth D lo pq csf cf fuel I [Hcells _].
    exists cf, depth, D, lo, pq, csf. split; [reflexivity|]. split; [exact I|].
    intros n Hn. destruct (Hcells n Hn). lia. }
  induction fuel as [|fuel IH]; intros depth D lo pq csf cf I HB.
  - simpl. destruct pq as [|e pq]; [simpl; eapply Hstop; eauto|].
    destruct HB as [_ Hlen]. cbn [length] in Hlen. lia.
  - simpl. destruct (heappop entry_ltb pq) as [[[c u] rest]|] eqn:Epop;
      [|eapply Hstop; eauto].
    apply entry_pop in Epop as [Hperm Hmin].
    assert (Hcu : (c, u) ∈ pq) by (rewrite Hperm; left).
    destruct (di_pq _ _ _ _ _ _ _ _ _ _ I c u Hcu) as (Hlo & known & Hknown & Hkc).
    destruct (decide (u = end_)) as [->|Hne]; [eapply Hstop; eauto|].
    rewrite Hknown.
    destruct HB as [Hcells Hlen].
    apply Permutation_length in Hperm as Hplen. cbn [length] in Hplen.
    assert (HB1 : dij_budget V k fuel depth D rest csf) by (split; [exact Hcells | lia]).
    destruct (num_ltb known c) eqn:Estale.
    + apply num_ltb_true in Estale.
      apply (IH depth D c rest csf cf); [|exact HB1].
      eapply dij_inv_drop; eauto.
    + apply num_ltb_false in Estale.
      destruct (D !! u) as [[]|] eqn:EDu.
      * rewrite (relax_fold_done depth D lo pq csf cf c u rest I) by eauto.
        apply (IH depth D c rest csf cf); [|exact HB1].
        eapply dij_inv_drop; eauto.
      * pose proof (dij_inv_pop _ _ _ _ _ _ _ _ _ _ I Hperm Hmin Hknown Estale EDu Hne) as I1.
        destruct (Hcells u ltac:(eauto)) as [HuV Hdu].
        pose proof (unvisited_insert V D u tt V_NoDup HuV EDu) as Hun.
        destruct (dij_inv_fold (dij_budget_cur V u (length rest) (<[u := tt]> D))
                    (<[u := tt]> D) c u)
          with (l := nbrs u) (depth := depth) (ns := @nil pos) (pq := rest)
               (csf := csf) (cf := cf) as (depth' & I' & Hcells' & _ & Hlen'); auto.
        { intros. eapply dij_budget_visit; eauto. }
        { split; [|split; [lia | simpl; lia]].
          intros n Hn. destruct (Hcells n Hn). split; [assumption | lia]. }
        destruct (foldl (relax maze c u) (rest, csf, cf) (nbrs u)) as [[pq' csf'] cf''].
        simpl in I', Hcells', Hlen'.
        apply (IH depth' (<[u := tt]> D) c pq' csf' cf'').
        -- eapply dij_inv_done; [exact I'|].
           intros v Hv. apply elem_of_app. left. apply elem_of_reverse. exact Hv.
        -- split; [exact Hcells'|].
           rewrite length_app, length_reverse in Hlen'. simpl in Hlen'.
           pose proof (V_degree u). nia.
Qed.

End Bounded.

End DijkstraFacts.

Section DijkstraTop.
Context {M : Type} `{TerrainLike M} (maze : M) (start end_ : pos).
Hypothesis cost_nonneg : forall p, num_le (Fin 0) (get_terrain_cost maze p).
Hypothesis Hstart : get_start_position maze = Some start.
Hypothesis Hend : get_end_position maze = Some end_.

Lemma dijkstra_correct fuel path :
  dijkstra fuel maze = Ok (Some path) ->
  path_between maze start end_ path
  /\ forall other, path_between maze start end_ other ->
       num_le (get_path_cost maze path) (get_path_cost maze other).
Proof.
  unfold dijkstra. rewrite Hstart, Hend.
  destruct (dijkstra_loop fuel maze end_ _) as [cf'| |] eqn:Eloop; simpl; try discriminate.
  destruct (cf' !! end_) eqn:Ecf; [|discriminate].
  destruct (walk_back fuel cf' (Some end_) []) as [res| |] eqn:Ewb; simpl; try discriminate.
  intros [= <-].
  eapply (dijkstra_loop_correct maze start end_ cost_nonneg); eauto.
  apply dij_inv_init.
Qed.

Lemma dijkstra_returns (V : list pos) (k fuel : nat) :
  NoDup V -> start ∈ V ->
  (forall p n, n ∈ get_neighbors maze p -> n ∈ V) ->
  (forall p, (length (get_neighbors maze p) <= k)%nat) ->
  (k * length V < fuel)%nat -> (length V < fuel)%nat ->
  exists r, dijkstra fuel maze = Ok r.
Proof.
  intros Hnd HsV Hclosed Hdeg Hfuel Hfuel'. unfold dijkstra. rewrite Hstart, Hend.
  destruct (dijkstra_loop_returns maze start end_ cost_nonneg V k Hnd Hclosed Hdeg fuel
              (fun _ => 0%nat) ∅ (Fin 0) [(Fin 0, start)] {[start := Fin 0]} {[start := None]})
    as (cf' & depth' & D' & lo' & pq' & csf' & -> & I' & Hdepth).
  - apply dij_inv_init.
  - split.
    + intros n Hn. destruct (decide (n = start)) as [->|Hne].
      * split; [exact HsV | simpl; apply unvisited_length].
      * rewrite lookup_singleton_ne in Hn by congruence. destruct Hn; discriminate.
    + simpl. pose proof (unvisited_length V (∅ : gmap pos unit)). nia.
  - simpl. destruct (cf' !! end_) eqn:Ecf; [|eauto].
    destruct (dij_walk_back_returns maze start end_ _ _ _ _ _ _ _ I' fuel end_ [])
      as [res ->]; [eauto| |simpl; eauto].
    assert (Hce : is_Some (csf' !! end_)) by (apply (di_dom _ _ _ _ _ _ _ _ _ _ I'); eauto).
    specialize (Hdepth end_ Hce). lia.
Qed.

End DijkstraTop.

(** ** Terrain grids *)

Lemma TERRAIN_TYPES_cost_nonneg s i :
  TerrainMaze.TERRAIN_TYPES !! s = Some i -> num_le (Fin 0) (TerrainMaze.cost i).
Proof.
  intros Hs.
  assert (Hin : (s, i) ∈ map_to_list TerrainMaze.TERRAIN_TYPES)
    by (apply elem_of_map_to_list; exact Hs).
  revert Hin. clear Hs.
  assert (Hall : Forall (fun kv : string * TerrainMaze.info =>
                           num_le (Fin 0) (TerrainMaze.cost kv.2))
                        (map_to_list TerrainMaze.TERRAIN_TYPES)).
  { vm_compute map_to_list.
    repeat (constructor; [simpl; first [exact Logic.I | discriminate] |]).
    constructor. }
  intros Hin. rewrite Forall_forall in Hall. apply (Hall _ Hin).
Qed.

Lemma TerrainMaze_cost_nonneg (m : TerrainMaze.t) (p : pos) :
  num_le (Fin 0) (get_terrain_cost m p).
Proof.
  simpl. unfold TerrainMaze.get_terrain_cost, TerrainMaze.get_terrain_info.
  destruct (TerrainMaze.get_terrain_type m p) as [n|s]; [exact Logic.I|].
  destruct (TerrainMaze.TERRAIN_TYPES !! s) as [i|] eqn:Es; [|exact Logic.I].
  simpl. eapply TERRAIN_TYPES_cost_nonneg; eauto.
Qed.

Lemma TerrainMaze_neighbors_valid (m : TerrainMaze.t) (p n : pos) :
  n ∈ TerrainMaze.get_neighbors m p ->
  Maze.is_valid_position (TerrainMaze.base m) n = true.
Proof.
  destruct p as [row col]. unfold TerrainMaze.get_neighbors.
  rewrite list_elem_of_filter. intros [Hpass _].
  unfold TerrainMaze.is_passable in Hpass.
  destruct (Maze.is_valid_position (TerrainMaze.base m) n); [reflexivity | discriminate].
Qed.

Lemma TerrainMaze_degree (m : TerrainMaze.t) (p : pos) :
  (length (TerrainMaze.get_neighbors m p) <= 4)%nat.
Proof.
  destruct p as [row col]. unfold TerrainMaze.get_neighbors.
  etransitivity; [apply length_filter | reflexivity].
Qed.

(** Dijkstra returns on every terrain grid once its fuel exceeds four
    entries for every valid cell and for the start. *)
Lemma TerrainMaze_dijkstra_returns (m : TerrainMaze.t) (fuel : nat) :
  (4 * (length (get_all_valid_positions m) + 1) < fuel)%nat ->
  exists r, dijkstra fuel m = Ok r.
Proof.
  intros Hfuel.
  destruct (get_start_position m) as [start|] eqn:Hstart;
    [|unfold dijkstra; rewrite Hstart; eauto].
  destruct (get_end_position m) as [end_|] eqn:Hend;
    [|unfold dijkstra; rewrite Hstart, Hend; eauto].
  set (V0 := Maze.get_all_valid_positions (TerrainMaze.base m)).
  set (V := if decide (start ∈ V0) then V0 else start :: V0).
  assert (HV0 : forall x, x ∈ V0 -> x ∈ V).
  { intros x Hx. unfold V. destruct (decide (start ∈ V0)); [exact Hx | right; exact Hx]. }
  assert (Hlen : (length V <= length V0 + 1)%nat).
  { unfold V. destruct (decide (start ∈ V0)); simpl; lia. }
  simpl in Hfuel. fold V0 in Hfuel.
  apply (dijkstra_returns m start end_ (TerrainMaze_cost_nonneg m) Hstart Hend V 4).
  - unfold V. destruct (decide (start ∈ V0)) as [|Hnot].
    + apply Maze_all_valid_positions_NoDup.
    + apply NoDup_cons. split; [exact Hnot | apply Maze_all_valid_positions_NoDup].
  - unfold V. destruct (decide (start ∈ V0)); [assumption | left].
  - intros p n Hn. apply HV0. apply Maze_all_valid_positions_spec.
    eapply TerrainMaze_neighbors_valid. exact Hn.
  - apply TerrainMaze_degree.
  - lia.
  - lia.
Qed.

(** C1. On every grid whose cells have non-negative costs and which
    declares a start and an end, a path that [TerrainPathFinder.dijkstra]
    returns leads from the start to the end through neighbouring passable
    cells, and its cost, as [get_path_cost] computes it (the costs of all
    its cells but the first), is at most the cost of every other such
    path.  The search returns once its fuel covers the cells that can be
    reached, [k] entries for each when no cell has more than [k]
    neighbours. *)
Theorem dijkstra_path_is_cheapest
    {M : Type} `{TerrainLike M} (maze : M) (start end_ : pos) :
  (forall p, num_le (Fin 0) (get_terrain_cost maze p)) ->
  get_start_position maze = Some start ->
  get_end_position maze = Some end_ ->
  (forall fuel path,
      dijkstra fuel maze = Ok (Some path) ->
      path_between maze start end_ path
      /\ forall other, path_between maze start end_ other ->
           num_le (get_path_cost maze path) (get_path_cost maze other))
  /\ (forall (V : list pos) (k fuel : nat),
        NoDup V -> start ∈ V ->
        (forall p n, n ∈ get_neighbors maze p -> n ∈ V) ->
        (forall p, (length (get_neighbors maze p) <= k)%nat) ->
        (k * length V < fuel)%nat -> (length V < fuel)%nat ->
        exists r, dijkstra fuel maze = Ok r).
Proof.
  intros Hnonneg Hstart Hend. split.
  - intros fuel path. apply dijkstra_correct; assumption.
  - intros V k fuel. apply dijkstra_returns with (start := start) (end_ := end_); assumption.
Qed.

Lemma dijkstra_path_is_cheapest_witness :
  dijkstra 600 default_terrain_maze = Ok (Some default_terrain_cheapest)
  /\ num_le (get_path_cost default_terrain_maze default_terrain_cheapest)
            (get_path_cost default_terrain_maze default_terrain_shortest).
Proof.
  split; [vm_compute; reflexivity|].
  destruct (dijkstra_path_is_cheapest default_terrain_maze (1, 1) (8, 6)
              (TerrainMaze_cost_nonneg default_terrain_maze) eq_refl eq_refl)
    as [Hcheapest _].
  destruct (Hcheapest 600%nat default_terrain_cheapest) as [_ Hmin];
    [vm_compute; reflexivity|].
  apply Hmin. split; [reflexivity|]. split; [reflexivity|].
  simpl; repeat split; refine (bool_decide_unpack _ _); vm_compute; exact Logic.I.
Defined.

(** ** Arrival times *)

Lemma fresh_pos_fresh (V : list pos) : fresh_pos V ∉ V.
Proof.
  assert (Hmax : forall p, p ∈ V -> p.1 <= foldr Z.max 0 (map fst V)).
  { induction V as [|a V IH]; intros p Hp.
    - apply elem_of_nil in Hp. tauto.
    - simpl. apply elem_of_cons in Hp as [->|Hp]; [lia|].
      specialize (IH p Hp). lia. }
  intros Hin. apply Hmax in Hin. unfold fresh_pos in Hin. simpl in Hin. lia.
Qed.

Lemma num_div_scale a speed :
  (0 < speed)%Q -> num_div a speed = Ok (scale a speed).
Proof.
  intros Hpos. unfold num_div.
  destruct (Qeq_bool speed 0) eqn:E; [|reflexivity].
  apply Qeq_bool_iff in E. lra.
Qed.

Lemma scale_nonneg a speed :
  (0 < speed)%Q -> num_le (Fin 0) a -> num_le (Fin 0) (scale a speed).
Proof.
  intros Hpos. destruct a as [x|]; simpl; [|tauto]. intros Hx.
  apply Qle_shift_div_l; [exact Hpos | lra].
Qed.

Section PacedFacts.
Context {M : Type} `{TerrainLike M} (maze : M) (speed : Q).
Hypothesis speed_pos : (0 < speed)%Q.

Lemma relax_time_relax t u pq tsf cf v :
  relax_time maze speed t (Ok (pq, tsf)) v
  = Ok (times_of (relax (maze, speed) t u (pq, tsf, cf) v)).
Proof.
  unfold relax_time, relax. simpl.
  rewrite (num_div_scale _ _ speed_pos). simpl.
  destruct (match tsf !! v with Some t0 => _ | None => true end); reflexivity.
Qed.

Lemma relax_time_fold t u l :
  forall pq tsf cf,
    foldl (relax_time maze speed t) (Ok (pq, tsf)) l
    = Ok (times_of (foldl (relax (maze, speed) t u) (pq, tsf, cf) l)).
Proof.
  induction l as [|v l IH]; intros pq tsf cf; [reflexivity|]. cbn [foldl].
  rewrite (relax_time_relax t u pq tsf cf v).
  destruct (relax (maze, speed) t u (pq, tsf, cf) v) as [[pq1 tsf1] cf1].
  apply IH.
Qed.


Hypothesis cost_nonneg : forall p, num_le (Fin 0) (get_terrain_cost maze p).

Lemma paced_cost_nonneg p : num_le (Fin 0) (get_terrain_cost (maze, speed) p).
Proof. simpl. apply scale_nonneg; [exact speed_pos | apply cost_nonneg]. Qed.

Section Bounded.
Context (V : list pos) (k : nat) (source : pos) (idx : nat).
Hypothesis V_NoDup : NoDup V.
Hypothesis V_closed : forall p n, n ∈ get_neighbors maze p -> n ∈ V.
Hypothesis V_degree : forall p, (length (get_neighbors maze p) <= k)%nat.

Local Abbreviation inv := (dij_inv (maze, speed) source (fresh_pos V)).

(** With a budget that covers the queue the loop of one source returns. *)
Lemma source_loop_returns :
  forall fuel depth D lo pq tsf cf distances,
    inv depth D lo None pq tsf cf ->
    dij_budget V k fuel depth D pq tsf ->
    exists distances',
      source_loop fuel maze idx speed (pq, tsf) distances = Ok distances'.
Proof.
  induction fuel as [|fuel IH]; intros depth D lo pq tsf cf distances I HB.
  - simpl. destruct pq as [|e pq]; [simpl; eauto|].
    destruct HB as [_ Hlen]. cbn [length] in Hlen. lia.
  - simpl. destruct (heappop entry_ltb pq) as [[[c u] rest]|] eqn:Epop; [|eauto].
    apply entry_pop in Epop as [Hperm Hmin].
    assert (Hcu : (c, u) ∈ pq) by (rewrite Hperm; left).
    destruct (di_pq _ _ _ _ _ _ _ _ _ _ I c u Hcu) as (Hlo & known & Hknown & Hkc).
    rewrite Hknown.
    destruct HB as [Hcells Hlen].
    apply Permutation_length in Hperm as Hplen. cbn [length] in Hplen.
    assert (HB1 : dij_budget V k fuel depth D rest tsf) by (split; [exact Hcells | lia]).
    destruct (num_ltb known c) eqn:Estale.
    + apply num_ltb_true in Estale.
      apply (IH depth D c rest tsf cf); [|exact HB1].
      eapply dij_inv_drop; eauto.
    + apply num_ltb_false in Estale.
      rewrite (relax_time_fold c u (get_neighbors maze u) rest tsf cf).
      destruct (D !! u) as [[]|] eqn:EDu.
      * pose proof (relax_fold_done (maze, speed) source (fresh_pos V)
                      depth D lo pq tsf cf c u rest I ltac:(eauto) Hlo) as Hsame.
        simpl in Hsame. rewrite Hsame. simpl.
        apply (IH depth D c rest tsf cf); [|exact HB1].
        eapply dij_inv_drop; eauto.
      * destruct (Hcells u ltac:(eauto)) as [HuV Hdu].
        assert (Hne : u <> fresh_pos V).
        { intros ->. apply (fresh_pos_fresh V). exact HuV. }
        pose proof (dij_inv_pop (maze, speed) source (fresh_pos V)
                      _ _ _ _ _ _ _ _ _ _ I Hperm Hmin Hknown Estale EDu Hne) as I1.
        pose proof (unvisited_insert V D u tt V_NoDup HuV EDu) as Hun.
        destruct (dij_inv_fold (maze, speed) source (fresh_pos V) paced_cost_nonneg
                    (dij_budget_cur V u (length rest) (<[u := tt]> D))
                    (<[u := tt]> D) c u)
          with (l := get_neighbors maze u) (depth := depth) (ns := @nil pos) (pq := rest)
               (csf := tsf) (cf := cf) as (depth' & I' & Hcells' & _ & Hlen'); auto.
        { intros. eapply (dij_budget_visit (maze, speed)); eauto. }
        { split; [|split; [lia | simpl; lia]].
          intros n Hn. destruct (Hcells n Hn). split; [assumption | lia]. }
        simpl in I', Hcells', Hlen'.
        destruct (foldl (relax (maze, speed) c u) (rest, tsf, cf) (get_neighbors maze u))
          as [[pq' tsf'] cf''].
        simpl in *.
        apply (IH depth' (<[u := tt]> D) c pq' tsf' cf'').
        -- eapply dij_inv_done; [exact I'|].
           intros v Hv. apply elem_of_app. left. apply elem_of_reverse. exact Hv.
        -- split; [exact Hcells'|].
           rewrite length_app, length_reverse in Hlen'. simpl in Hlen'.
           pose proof (V_degree u). nia.
Qed.

End Bounded.

End PacedFacts.

(** *** The table of arrival times *)

Section OdictElems.
Context {K V : Type} `{EqDecision K}.
Implicit Types (d : odict K V) (k : K) (v : V).

Lemma od_set_elem d k v k' v' :
  (k', v') ∈ od_set d k v -> (k' = k /\ v' = v) \/ (k', v') ∈ d.
Proof.
  induction d as [|[k0 v0] d IH]; simpl.
  - intros Hin. apply list_elem_of_singleton in Hin as [= -> ->]. tauto.
  - destruct (decide (k0 = k)) as [->|Hne]; intros Hin.
    + apply elem_of_cons in Hin as [[= -> ->]|Hin]; [tauto|].
      right. right. exact Hin.
    + apply elem_of_cons in Hin as [[= -> ->]|Hin]; [right; left|].
      destruct (IH Hin) as [?|?]; [tauto|]. right. right. assumption.
Qed.

Lemma od_get_elem d k v : NoDup (od_keys d) -> od_get d k = Some v <-> (k, v) ∈ d.
Proof.
  intros Hnd. rewrite list_elem_of_In. split.
  - apply od_get_Some_In.
  - apply od_get_In_NoDup. exact Hnd.
Qed.

Lemma od_get_key d k : k ∈ od_keys d -> is_Some (od_get d k).
Proof.
  unfold od_keys. induction d as [|[k0 v0] d IH]; simpl; intros Hin.
  - apply elem_of_nil in Hin. tauto.
  - destruct (decide (k0 = k)); [eauto|].
    apply elem_of_cons in Hin as [?|Hin]; [congruence | auto].
Qed.

Lemma od_elem_key d k v : (k, v) ∈ d -> k ∈ od_keys d.
Proof.
  intros Hin. unfold od_keys. apply list_elem_of_fmap. exists (k, v). tauto.
Qed.

End OdictElems.

Lemma record_time_wf n d p idx t :
  well_formed_distances n d -> (idx < n)%nat -> is_finite t ->
  well_formed_distances n (record_time d p idx t).
Proof.
  intros [Hnd Hrows] Hidx Ht. unfold record_time. split.
  - apply od_keys_set_NoDup. exact Hnd.
  - intros q times Hin.
    apply od_set_elem in Hin as [[-> ->]|Hin]; [|exact (Hrows q times Hin)].
    assert (Hrow : NoDup (od_keys (default [] (od_get d p)))
                   /\ forall i t', (i, t') ∈ default [] (od_get d p) ->
                                   (i < n)%nat /\ is_finite t').
    { destruct (od_get d p) as [row|] eqn:Erow; simpl.
      - apply Hrows with (p := p). apply od_get_elem; assumption.
      - split; [constructor|]. intros i t' Hi. apply elem_of_nil in Hi. tauto. }
    destruct Hrow as [Hrnd Hrow]. split.
    + apply od_keys_set_NoDup. exact Hrnd.
    + intros i t' Hi.
      apply od_set_elem in Hi as [[-> ->]|Hi]; [tauto | exact (Hrow i t' Hi)].
Qed.

Section Records.
Context {M : Type} `{TerrainLike M} (maze : M) (n idx : nat) (speed : Q).
Hypothesis finite_neighbors :
  forall p v, v ∈ get_neighbors maze p -> is_finite (get_terrain_cost maze v).
Hypothesis idx_lt : (idx < n)%nat.

Lemma relax_time_fold_not_Ok t l (acc : result times_state) :
  (forall st, acc <> Ok st) ->
  forall st, foldl (relax_time maze speed t) acc l <> Ok st.
Proof.
  revert acc. induction l as [|v l IH]; intros acc Hacc; [exact Hacc|]. cbn [foldl].
  apply IH. intros st. destruct acc as [st0| |]; [destruct (Hacc st0); reflexivity| |];
    simpl; discriminate.
Qed.

Lemma relax_time_finite t st v st' :
  is_finite t -> is_finite (get_terrain_cost maze v) -> finite_times st.2 ->
  relax_time maze speed t (Ok st) v = Ok st' -> finite_times st'.2.
Proof.
  intros Ht Hc Hfin. unfold relax_time, num_div. simpl.
  destruct (Qeq_bool speed 0); [discriminate|]. simpl.
  destruct (match st.2 !! v with Some t0 => _ | None => true end);
    intros [= <-]; [|exact Hfin].
  simpl. intros p c Hp. destruct (decide (p = v)) as [->|Hne].
  - rewrite lookup_insert_eq in Hp. injection Hp as <-.
    destruct t, (get_terrain_cost maze v); simpl in *; tauto.
  - rewrite lookup_insert_ne in Hp by congruence. eapply Hfin; eauto.
Qed.

Lemma relax_time_fold_finite t l :
  is_finite t ->
  (forall v, v ∈ l -> is_finite (get_terrain_cost maze v)) ->
  forall st st', finite_times st.2 ->
    foldl (relax_time maze speed t) (Ok st) l = Ok st' -> finite_times st'.2.
Proof.
  intros Ht. induction l as [|v l IH]; intros Hl st st' Hfin Hrun.
  - injection Hrun as <-. exact Hfin.
  - cbn [foldl] in Hrun.
    destruct (relax_time maze speed t (Ok st) v) as [st1| |] eqn:E1.
    + apply (IH ltac:(intros w Hw; apply Hl; right; exact Hw) st1 st'); [|exact Hrun].
      eapply relax_time_finite; eauto. apply Hl. left.
    + exfalso. eapply relax_time_fold_not_Ok; [|exact Hrun]. discriminate.
    + exfalso. eapply relax_time_fold_not_Ok; [|exact Hrun]. discriminate.
Qed.

(** The loop of one source keeps the table well formed. *)
Lemma source_loop_wf :
  forall fuel st d d',
    finite_times st.2 ->
    well_formed_distances n d ->
    source_loop fuel maze idx speed st d = Ok d' ->
    well_formed_distances n d'.
Proof.
  induction fuel as [|fuel IH]; intros [pq tsf] d d' Hfin Hwf Hrun; simpl in Hrun.
  - destruct (heappop entry_ltb pq) as [[[c u] rest]|]; [discriminate|].
    injection Hrun as <-. exact Hwf.
  - destruct (heappop entry_ltb pq) as [[[c u] rest]|]; [|injection Hrun as <-; exact Hwf].
    destruct (tsf !! u) as [known|] eqn:Eknown; [|discriminate].
    destruct (num_ltb known c) eqn:Estale.
    + apply (IH (rest, tsf) d d'); assumption.
    + apply num_ltb_false in Estale.
      assert (Hc : is_finite c).
      { pose proof (Hfin u known Eknown). destruct c, known; simpl in *; tauto. }
      destruct (foldl (relax_time maze speed c) (Ok (rest, tsf)) (get_neighbors maze u))
        as [st1| |] eqn:Efold; simpl in Hrun; try discriminate.
      apply (IH st1 (record_time d u idx c) d'); [| |exact Hrun].
      * apply (relax_time_fold_finite c (get_neighbors maze u) Hc) with (st := (rest, tsf));
          [|exact Hfin|exact Efold].
        intros v Hv. eapply finite_neighbors; eauto.
      * apply record_time_wf; assumption.
Qed.

End Records.

(** *** All sources *)

Lemma enumerate_lt {A} (l : list A) i x : (i, x) ∈ enumerate l -> (i < length l)%nat.
Proof.
  unfold enumerate. intros Hin. apply elem_of_zip_l in Hin.
  apply elem_of_seq in Hin. lia.
Qed.

Lemma enumerate_elem {A} (l : list A) i x : (i, x) ∈ enumerate l -> x ∈ l.
Proof. unfold enumerate. apply elem_of_zip_r. Qed.

Section AllSources.
Context {M : Type} `{TerrainLike M} (maze : M) (fuel : nat).

Lemma from_source_fold_not_Ok items (acc : result (odict pos (odict nat num))) :
  (forall d, acc <> Ok d) ->
  forall d, foldl (from_source fuel maze) acc items <> Ok d.
Proof.
  revert acc. induction items as [|item items IH]; intros acc Hacc; [exact Hacc|].
  cbn [foldl]. apply IH. intros d.
  destruct acc as [d0| |]; [destruct (Hacc d0); reflexivity| |]; simpl; discriminate.
Qed.

Lemma from_source_fold_wf n :
  (forall p v, v ∈ get_neighbors maze p -> is_finite (get_terrain_cost maze v)) ->
  forall items d d',
    (forall item, item ∈ items -> (item.1 < n)%nat) ->
    well_formed_distances n d ->
    foldl (from_source fuel maze) (Ok d) items = Ok d' ->
    well_formed_distances n d'.
Proof.
  intros Hfin. induction items as [|[idx [s sp]] items IH]; intros d d' Hidx Hwf Hrun.
  - injection Hrun as <-. exact Hwf.
  - cbn [foldl] in Hrun.
    destruct (from_source fuel maze (Ok d) (idx, (s, sp))) as [d1| |] eqn:E1.
    + apply (IH d1 d'); [intros item Hi; apply Hidx; right; exact Hi| |exact Hrun].
      unfold from_source in E1. simpl in E1.
      destruct (negb (is_valid_position maze s)); [injection E1 as <-; exact Hwf|].
      eapply (source_loop_wf maze n idx sp Hfin); [| | |exact E1]; [|simpl|exact Hwf].
      * specialize (Hidx (idx, (s, sp))). apply Hidx. left.
      * intros p c Hp. apply lookup_singleton_Some in Hp as [_ <-]. exact Logic.I.
    + exfalso. eapply from_source_fold_not_Ok; [|exact Hrun]. discriminate.
    + exfalso. eapply from_source_fold_not_Ok; [|exact Hrun]. discriminate.
Qed.

Lemma compute_distances_wf sources speeds distances :
  (forall p v, v ∈ get_neighbors maze p -> is_finite (get_terrain_cost maze v)) ->
  compute_distances_with_costs fuel maze sources speeds = Ok distances ->
  well_formed_distances (length sources) distances.
Proof.
  intros Hfin. unfold compute_distances_with_costs.
  destruct sources as [|s0 sources'] eqn:Es.
  - intros [= <-]. split; [constructor|]. intros p times Hin.
    apply elem_of_nil in Hin. tauto.
  - rewrite <- Es. destruct (decide _); [discriminate|].
    apply from_source_fold_wf; [exact Hfin| |].
    + intros [i x] Hin. apply enumerate_lt in Hin. rewrite length_zip in Hin. simpl. lia.
    + split; [constructor|]. intros p times Hin. apply elem_of_nil in Hin. tauto.
Qed.

Section Returns.
Context (V : list pos) (k : nat).
Hypothesis cost_nonneg : forall p, num_le (Fin 0) (get_terrain_cost maze p).
Hypothesis V_NoDup : NoDup V.
Hypothesis V_closed : forall p n, n ∈ get_neighbors maze p -> n ∈ V.
Hypothesis V_degree : forall p, (length (get_neighbors maze p) <= k)%nat.
Hypothesis V_valid : forall p, is_valid_position maze p = true -> p ∈ V.
Hypothesis fuel_enough : (k * length V < fuel)%nat.

Lemma from_source_returns d idx s sp :
  (0 < sp)%Q -> exists d', from_source fuel maze (Ok d) (idx, (s, sp)) = Ok d'.
Proof.
  intros Hsp. unfold from_source. simpl.
  destruct (is_valid_position maze s) eqn:Ev; simpl; [|eauto].
  apply (source_loop_returns maze sp Hsp cost_nonneg V k s idx V_NoDup V_closed V_degree
           fuel (fun _ => 0%nat) ∅ (Fin 0) [(Fin 0, s)] {[s := Fin 0]} {[s := None]}).
  - apply (dij_inv_init (maze, sp)).
  - split.
    + intros n Hn. destruct (decide (n = s)) as [->|Hne].
      * split; [apply V_valid; exact Ev | simpl; apply unvisited_length].
      * rewrite lookup_singleton_ne in Hn by congruence. destruct Hn; discriminate.
    + simpl. pose proof (unvisited_length V (∅ : gmap pos unit)). nia.
Qed.

Lemma from_source_fold_returns items :
  (forall item, item ∈ items -> (0 < item.2.2)%Q) ->
  forall d, exists d', foldl (from_source fuel maze) (Ok d) items = Ok d'.
Proof.
  induction items as [|[idx [s sp]] items IH]; intros Hsp d; [simpl; eauto|].
  cbn [foldl].
  destruct (from_source_returns d idx s sp) as [d1 ->].
  { apply (Hsp (idx, (s, sp))). left. }
  apply IH. intros item Hi. apply Hsp. right. exact Hi.
Qed.

Lemma compute_distances_returns sources speeds :
  (forall l, speeds = Some l ->
             length l = length sources /\ forall sp, sp ∈ l -> (0 < sp)%Q) ->
  exists distances, compute_distances_with_costs fuel maze sources speeds = Ok distances.
Proof.
  intros Hspeeds. unfold compute_distances_with_costs.
  destruct sources as [|s0 sources'] eqn:Es; [eauto|]. rewrite <- Es.
  set (speeds' := default (replicate (length sources) 1%Q) speeds).
  assert (Hlen : length sources = length speeds'
                 /\ forall sp, sp ∈ speeds' -> (0 < sp)%Q).
  { unfold speeds'. destruct speeds as [l|]; simpl.
    - destruct (Hspeeds l eq_refl) as [Hl Hp]. rewrite Es in *. split; [auto | exact Hp].
    - rewrite length_replicate. split; [reflexivity|].
      intros sp Hin. apply elem_of_replicate_inv in Hin as ->. reflexivity. }
  destruct Hlen as [Hlen Hpos].
  destruct (decide (length sources ≠ length speeds')); [tauto|].
  apply from_source_fold_returns. intros [i [s sp]] Hin. simpl.
  apply enumerate_elem in Hin. apply elem_of_zip_r in Hin. auto.
Qed.

End Returns.

End AllSources.

(** *** The selection *)

Lemma num_max_foldl ts :
  forall t, foldl num_max t ts ∈ t :: ts
            /\ forall v, v ∈ t :: ts -> num_le v (foldl num_max t ts).
Proof.
  induction ts as [|a ts IH]; intros t; simpl.
  - split; [left|]. intros v Hv. apply list_elem_of_singleton in Hv as ->.
    apply num_le_refl.
  - destruct (IH (num_max t a)) as [Hin Hle].
    assert (Hta : num_le t (num_max t a) /\ num_le a (num_max t a)
                  /\ (num_max t a = t \/ num_max t a = a)).
    { unfold num_max. destruct (num_ltb t a) eqn:E.
      - apply num_ltb_true in E. split; [apply num_lt_le; exact E|].
        split; [apply num_le_refl | tauto].
      - apply num_ltb_false in E. split; [apply num_le_refl|]. tauto. }
    destruct Hta as (Ht & Ha & Hor). split.
    + apply elem_of_cons in Hin as [Hin|Hin]; [|right; right; exact Hin].
      rewrite Hin. destruct Hor as [->| ->]; [left | right; left].
    + intros v Hv. apply elem_of_cons in Hv as [->|Hv].
      * eapply num_le_trans; [exact Ht|]. apply Hle. left.
      * apply elem_of_cons in Hv as [->|Hv].
        -- eapply num_le_trans; [exact Ha|]. apply Hle. left.
        -- apply Hle. right. exact Hv.
Qed.

Lemma max_time_of_spec times t :
  max_time_of times = Ok t -> is_max_time times t.
Proof.
  unfold max_time_of, is_max_time.
  destruct (od_values times) as [|t0 ts]; [discriminate|].
  intros [= <-]. apply num_max_foldl.
Qed.

Lemma max_time_of_returns times :
  times <> [] -> exists t, max_time_of times = Ok t.
Proof.
  unfold max_time_of, od_values. destruct times; [congruence|]. simpl. eauto.
Qed.

Lemma is_max_time_le times t t' :
  is_max_time times t -> is_max_time times t' -> num_le t t'.
Proof. intros [Hin _] [_ Hmax]. apply Hmax. exact Hin. Qed.

Section Pick.
Context (n : nat).
Hypothesis n_pos : (1 <= n)%nat.

Lemma pick_step seen st item :
  pick_inv n seen st ->
  exists st', pick n (Ok st) item = Ok st' /\ pick_inv n (seen ++ [item]) st'.
Proof.
  intros [Hbest Hopt]. unfold pick. simpl.
  assert (Hkeep : length item.2 <> n \/
                  (exists m, is_max_time item.2 m /\ num_le st.1 m) ->
                  pick_inv n (seen ++ [item]) st).
  { intros Hwhy. split.
    - intros q times t Hin Hlen Ht. apply elem_of_app in Hin as [Hin|Hin]; [eauto|].
      apply list_elem_of_singleton in Hin as <-. simpl in *.
      destruct Hwhy as [?|(m & Hm & Hle)]; [tauto|].
      eapply num_le_trans; [exact Hle|]. eapply is_max_time_le; eauto.
    - destruct st.2 as [p|]; [|exact Hopt].
      destruct Hopt as (times & Hin & Hrest). exists times.
      split; [apply elem_of_app; left; exact Hin | exact Hrest]. }
  destruct (decide (length item.2 ≠ n)) as [Hne|Heq].
  - exists st. split; [reflexivity | apply Hkeep; tauto].
  - assert (Hlen : length item.2 = n) by lia.
    destruct (max_time_of_returns item.2) as [m Hm].
    { intros E. rewrite E in Hlen. simpl in Hlen. lia. }
    rewrite Hm. simpl. apply max_time_of_spec in Hm.
    destruct (num_ltb m st.1) eqn:Elt.
    + apply num_ltb_true in Elt. eexists. split; [reflexivity|]. split; simpl.
      * intros q times t Hin Hlen' Ht. apply elem_of_app in Hin as [Hin|Hin].
        -- eapply num_le_trans; [apply num_lt_le; exact Elt|]. eauto.
        -- apply list_elem_of_singleton in Hin as <-. simpl in *.
           eapply is_max_time_le; eauto.
      * exists item.2. split; [|tauto].
        apply elem_of_app. right. destruct item. left.
    + apply num_ltb_false in Elt. exists st. split; [reflexivity|].
      apply Hkeep. right. eauto.
Qed.

Lemma pick_fold items :
  forall seen st,
    pick_inv n seen st ->
    exists st', foldl (pick n) (Ok st) items = Ok st'
                /\ pick_inv n (seen ++ items) st'.
Proof.
  induction items as [|item items IH]; intros seen st Hinv.
  - exists st. rewrite app_nil_r. split; [reflexivity | exact Hinv].
  - cbn [foldl]. destruct (pick_step seen st item Hinv) as (st1 & -> & Hinv1).
    destruct (IH _ _ Hinv1) as (st' & Hrun & Hinv').
    exists st'. split; [exact Hrun|]. rewrite <- app_assoc in Hinv'. exact Hinv'.
Qed.

End Pick.

(** A row of a well-formed table has an entry for each source exactly when
    it has as many entries as there are sources. *)
Lemma considered_iff_all_entries n distances p :
  well_formed_distances n distances ->
  considered n distances p <-> has_all_entries n distances p.
Proof.
  intros [Hnd Hrows]. unfold considered, has_all_entries.
  split; intros (times & Hget & Hprop); exists times; (split; [exact Hget|]).
  - destruct (Hrows p times) as [Hknd Hlt]; [apply od_get_elem; assumption|].
    intros idx Hidx. apply od_get_key.
    assert (Hincl : incl (seq 0 n) (od_keys times)).
    { apply NoDup_length_incl.
      - apply NoDup_ListNoDup. exact Hknd.
      - rewrite length_seq. unfold od_keys. rewrite length_map. lia.
      - intros i Hi. apply list_elem_of_In in Hi. unfold od_keys in Hi.
        apply list_elem_of_fmap in Hi as ([i' t] & -> & Hin). simpl.
        apply in_seq. destruct (Hlt i' t Hin). lia. }
    apply list_elem_of_In. apply Hincl. apply in_seq. lia.
  - destruct (Hrows p times) as [Hknd Hlt]; [apply od_get_elem; assumption|].
    assert (Hperm : od_keys times ≡ₚ seq 0 n).
    { apply NoDup_Permutation; [exact Hknd | apply NoDup_seq|].
      intros i. rewrite elem_of_seq. split.
      - intros Hi. unfold od_keys in Hi.
        apply list_elem_of_fmap in Hi as ([i' t] & -> & Hin). simpl.
        destruct (Hlt i' t Hin). lia.
      - intros Hi. destruct (Hprop i ltac:(lia)) as [t Ht].
        apply od_get_Some_In in Ht. apply list_elem_of_In in Ht.
        eapply od_elem_key; eauto. }
    apply Permutation_length in Hperm. rewrite length_seq in Hperm.
    unfold od_keys in Hperm. rewrite length_map in Hperm. exact Hperm.
Qed.

(** *** Terrain grids *)

Lemma TerrainMaze_neighbors_finite (m : TerrainMaze.t) (p v : pos) :
  v ∈ get_neighbors m p -> is_finite (get_terrain_cost m v).
Proof.
  destruct p as [row col]. simpl. unfold TerrainMaze.get_neighbors.
  rewrite list_elem_of_filter. intros [Hpass _].
  unfold TerrainMaze.is_passable in Hpass.
  destruct (Maze.is_valid_position (TerrainMaze.base m) v); [|discriminate].
  simpl in Hpass.
  unfold TerrainMaze.get_terrain_cost.
  unfold TerrainMaze.get_terrain_info in *.
  destruct (TerrainMaze.get_terrain_type m v) as [z|s]; [discriminate|].
  destruct (TerrainMaze.TERRAIN_TYPES !! s) as [i|] eqn:Es; [|discriminate].
  simpl in *.
  destruct (TERRAIN_TYPES_passable_finite s i Es Hpass) as (x & -> & _).
  exact Logic.I.
Qed.



(** ** Fewer than two sources *)

Lemma record_time_solo source d u c :
  solo_table source d ->
  num_le (Fin 0) c -> (u = source -> num_le c (Fin 0)) ->
  solo_table source (record_time d u 0 c).
Proof.
  destruct d as [|[p times] rest]; [intros []|].
  intros (-> & (t0 & -> & Ht0) & Hrows) Hc Hsrc.
  unfold record_time. simpl.
  destruct (decide (source = u)) as [<-|Hne].
  - simpl. destruct (decide (0%nat = 0%nat)); [|congruence].
    split; [reflexivity|]. split; [eauto|].
    inversion Hrows as [|? ? _ Hrest]; subst. constructor; [simpl; eauto | exact Hrest].
  - split; [reflexivity|]. split; [eauto|].
    inversion Hrows as [|? ? Hhead Hrest]; subst. constructor; [exact Hhead|].
    apply Forall_forall. intros [q row] Hin.
    apply od_set_elem in Hin as [[-> ->]|Hin].
    + simpl. exists c. split; [|exact Hc].
      destruct (od_get rest u) as [old|] eqn:Eold; simpl; [|reflexivity].
      apply od_get_Some_In in Eold. apply list_elem_of_In in Eold.
      rewrite Forall_forall in Hrest. destruct (Hrest _ Eold) as (t & Hrow & _).
      simpl in Hrow. subst old. simpl.
      destruct (decide (0%nat = 0%nat)); [reflexivity | congruence].
    + rewrite Forall_forall in Hrest. exact (Hrest _ Hin).
Qed.

Section Solo.
Context {M : Type} `{TerrainLike M} (maze : M) (source : pos) (speed : Q).
Hypothesis speed_pos : (0 < speed)%Q.
Hypothesis cost_nonneg : forall p, num_le (Fin 0) (get_terrain_cost maze p).

Lemma relax_time_solo c st v st' :
  num_le (Fin 0) c ->
  Forall (fun e : num * pos => num_le (Fin 0) e.1) st.1 ->
  (exists c0, st.2 !! source = Some c0 /\ num_le c0 (Fin 0)) ->
  relax_time maze speed c (Ok st) v = Ok st' ->
  Forall (fun e : num * pos => num_le (Fin 0) e.1) st'.1
  /\ (exists c0, st'.2 !! source = Some c0 /\ num_le c0 (Fin 0))
  /\ (st.1 = [] -> st = st' \/ st'.1 <> []).
Proof.
  intros Hc Hpq (c0 & Hsrc & Hc0). unfold relax_time. simpl.
  rewrite (num_div_scale _ _ speed_pos). simpl.
  set (new_time := num_add c (scale (get_terrain_cost maze v) speed)).
  assert (Hnew : num_le (Fin 0) new_time).
  { apply num_le_trans with c; [exact Hc|]. apply num_add_nonneg.
    apply scale_nonneg; [exact speed_pos | apply cost_nonneg]. }
  destruct (match st.2 !! v with Some t => _ | None => true end) eqn:Etest;
    intros [= <-]; [|eauto 10].
  simpl. split; [constructor; [exact Hnew | exact Hpq]|]. split.
  - destruct (decide (v = source)) as [->|Hne].
    + rewrite Hsrc in Etest. apply num_ltb_true in Etest.
      exfalso. apply (num_lt_not_le _ _ Etest).
      apply num_le_trans with (Fin 0); assumption.
    + exists c0. rewrite lookup_insert_ne by congruence. tauto.
  - intros _. right. unfold heappush. discriminate.
Qed.

Lemma relax_time_fold_solo c l :
  num_le (Fin 0) c ->
  forall st st',
    Forall (fun e : num * pos => num_le (Fin 0) e.1) st.1 ->
    (exists c0, st.2 !! source = Some c0 /\ num_le c0 (Fin 0)) ->
    foldl (relax_time maze speed c) (Ok st) l = Ok st' ->
    Forall (fun e : num * pos => num_le (Fin 0) e.1) st'.1
    /\ (exists c0, st'.2 !! source = Some c0 /\ num_le c0 (Fin 0)).
Proof.
  intros Hc. induction l as [|v l IH]; intros st st' Hpq Hsrc Hrun.
  - injection Hrun as <-. tauto.
  - cbn [foldl] in Hrun.
    destruct (relax_time maze speed c (Ok st) v) as [st1| |] eqn:E1.
    + destruct (relax_time_solo c st v st1 Hc Hpq Hsrc E1) as (Hpq1 & Hsrc1 & _).
      exact (IH st1 st' Hpq1 Hsrc1 Hrun).
    + exfalso. eapply (relax_time_fold_not_Ok maze speed); [|exact Hrun]. discriminate.
    + exfalso. eapply (relax_time_fold_not_Ok maze speed); [|exact Hrun]. discriminate.
Qed.

(** The loop of the single source ends with the source in the first row. *)
Lemma source_loop_solo :
  forall fuel st d d',
    solo_inv source st d ->
    source_loop fuel maze 0 speed st d = Ok d' ->
    solo_table source d'.
Proof.
  induction fuel as [|fuel IH]; intros [pq tsf] d d' (Hpq & Hsrc & Htable) Hrun;
    simpl in Hrun, Hpq, Hsrc, Htable.
  - destruct (heappop entry_ltb pq) as [[[c u] rest]|] eqn:Epop; [discriminate|].
    injection Hrun as <-. apply heappop_None in Epop. subst pq.
    destruct Htable as [(_ & t & Hq & _)|Htable]; [discriminate | exact Htable].
  - destruct (heappop entry_ltb pq) as [[[c u] rest]|] eqn:Epop.
    2:{ injection Hrun as <-. apply heappop_None in Epop. subst pq.
        destruct Htable as [(_ & t & Hq & _)|Htable]; [discriminate | exact Htable]. }
    destruct (entry_pop pq c u rest Epop) as [Hperm _].
    assert (Hall : Forall (fun e : num * pos => num_le (Fin 0) e.1) ((c, u) :: rest))
      by (rewrite <- Hperm; exact Hpq).
    inversion Hall as [|? ? Hc Hrest]; subst. simpl in Hc.
    destruct (tsf !! u) as [known|] eqn:Eknown; [|discriminate].
    destruct (num_ltb known c) eqn:Estale.
    + apply (IH (rest, tsf) d d'); [|exact Hrun].
      split; [exact Hrest|]. split; [exact Hsrc|].
      destruct Htable as [(-> & t & -> & Ht)|Htable]; [|right; exact Htable].
      exfalso. simpl in Epop. injection Epop as -> -> <-.
      rewrite Ht in Eknown. injection Eknown as ->.
      apply num_ltb_true in Estale. apply (num_lt_not_le _ _ Estale).
      apply num_le_refl.
    + apply num_ltb_false in Estale.
      destruct (foldl (relax_time maze speed c) (Ok (rest, tsf)) (get_neighbors maze u))
        as [st1| |] eqn:Efold; simpl in Hrun; try discriminate.
      destruct (relax_time_fold_solo c (get_neighbors maze u) Hc (rest, tsf) st1
                  Hrest Hsrc Efold) as [Hpq1 Hsrc1].
      apply (IH st1 (record_time d u 0 c) d'); [|exact Hrun].
      split; [exact Hpq1|]. split; [exact Hsrc1|]. right.
      assert (Hu : u = source -> num_le c (Fin 0)).
      { intros ->. destruct Hsrc as (c0 & Hc0 & Hle0).
        rewrite Hc0 in Eknown. injection Eknown as ->.
        apply num_le_trans with known; assumption. }
      destruct Htable as [(-> & t & -> & _)|Htable].
      * simpl in Epop. injection Epop as -> -> <-.
        unfold record_time. simpl. split; [reflexivity|].
        split; [exists c; split; [reflexivity | apply Hu; reflexivity]|].
        constructor; [simpl; eauto | constructor].
      * apply record_time_solo; assumption.
Qed.

End Solo.

(** The selection over the table of a single source keeps the source. *)
Lemma pick_solo source d :
  solo_table source d ->
  exists t, foldl (pick 1) (Ok (Inf, None)) d = Ok (t, Some source).
Proof.
  destruct d as [|[p times] rest]; [intros []|].
  intros (-> & (t0 & -> & Ht0) & Hrows).
  inversion Hrows as [|? ? _ Hrest]; subst. cbn [foldl].
  exists t0.
  match goal with
  | |- foldl _ ?first _ = _ => replace first with (Ok (t0, Some source) : result (num * option pos))
  end.
  2:{ unfold pick. simpl. destruct (decide (1%nat <> 1%nat)); [congruence|].
      simpl. destruct t0; [reflexivity | destruct Ht0]. }
  clear Hrows.
  induction Hrest as [|[q row] rest (t & Hrow & Ht) _ IH]; [reflexivity|].
  cbn [foldl]. simpl in Hrow. subst row.
  match goal with
  | |- foldl _ ?next _ = _ => replace next with (Ok (t0, Some source) : result (num * option pos))
  end; [exact IH|].
  unfold pick. simpl. destruct (decide (1%nat <> 1%nat)); [congruence|].
  simpl. assert (Hf : num_ltb t t0 = false).
  { apply num_ltb_false. apply num_le_trans with (Fin 0); assumption. }
  rewrite Hf. reflexivity.
Qed.

(** C6, counterexample: from the single source (1, 1) on the default
    terrain grid, [find_optimal_gathering_point] returns (1, 1). *)
Lemma finders_absent_below_two_sources_fails :
  ~ finders_absent_below_two_sources.
Proof.
  intros Hclaim.
  assert (Hnone : find_optimal_gathering_point 600 default_terrain_maze [(1, 1)] None
                  = Ok None) by (apply Hclaim; simpl; lia).
  vm_compute in Hnone. discriminate Hnone.
Qed.

(** C6, amended. [EquidistantFinder.find_equidistant_point] returns an
    absent result when the maze has fewer than two heroes, and
    [find_optimal_gathering_point] returns one for an empty list of
    sources; neither raises.  [find_optimal_gathering_point] has no test
    for a single source: given one source with a positive speed, on a grid
    without negative costs, it returns that source when the source is a
    valid position, and an absent result only when it is not. *)
Theorem finders_below_two_sources {M : Type} `{TerrainLike M} (maze : M) :
  (forall fuel,
      (length (get_hero_positions maze) < 2)%nat ->
      find_equidistant_point fuel maze = Ok None)
  /\ (forall fuel speeds,
        find_optimal_gathering_point fuel maze [] speeds = Ok None)
  /\ (forall (fuel : nat) (source : pos) (speeds : option (list Q))
             (V : list pos) (k : nat),
        (forall l, speeds = Some l -> exists sp, l = [sp] /\ (0 < sp)%Q) ->
        (forall p, num_le (Fin 0) (get_terrain_cost maze p)) ->
        NoDup V ->
        (forall p v, v ∈ get_neighbors maze p -> v ∈ V) ->
        (forall p, (length (get_neighbors maze p) <= k)%nat) ->
        (forall p, is_valid_position maze p = true -> p ∈ V) ->
        (k * length V < fuel)%nat ->
        find_optimal_gathering_point fuel maze [source] speeds
        = Ok (if is_valid_position maze source then Some source else None)).
Proof.
  split; [|split].
  - intros fuel Hlen. unfold find_equidistant_point.
    apply Nat.ltb_lt in Hlen. rewrite Hlen. reflexivity.
  - reflexivity.
  - intros fuel source speeds V k Hspeeds Hnonneg Hnd Hclosed Hdeg Hvalid Hfuel.
    assert (Hsp : exists sp, default (replicate 1 1%Q) speeds = [sp] /\ (0 < sp)%Q).
    { destruct speeds as [l|]; simpl.
      - destruct (Hspeeds l eq_refl) as (sp & -> & Hpos). eauto.
      - exists 1%Q. split; [reflexivity | reflexivity]. }
    destruct Hsp as (sp & Hdef & Hpos).
    destruct (from_source_returns maze fuel V k Hnonneg Hnd Hclosed Hdeg Hvalid Hfuel
                [] 0%nat source sp Hpos) as [d Hd].
    assert (Hcompute : compute_distances_with_costs fuel maze [source] speeds = Ok d).
    { rewrite <- Hd. unfold compute_distances_with_costs. cbn [length]. rewrite Hdef.
      destruct (decide (length [source] <> length [sp])) as [Hne|_];
        [simpl in Hne; congruence | reflexivity]. }
    unfold find_optimal_gathering_point. rewrite Hcompute.
    unfold from_source in Hd. simpl in Hd.
    destruct (is_valid_position maze source) eqn:Evalid; simpl in Hd.
    + assert (Htable : solo_table source d).
      { apply (source_loop_solo maze source sp Hpos Hnonneg fuel
                 ([(Fin 0, source)], {[source := Fin 0]}) [] d); [|exact Hd].
        unfold solo_inv. cbn [fst snd]. rewrite lookup_singleton_eq.
        split; [constructor; [simpl; lra | constructor]|].
        split; [exists (Fin 0); split; [reflexivity | simpl; lra]|].
        left. split; [reflexivity|]. exists (Fin 0). split; reflexivity. }
      destruct (pick_solo source d Htable) as [t Hpick].
      destruct d as [|row d]; [destruct Htable|].
      simpl. simpl in Hpick. rewrite Hpick. reflexivity.
    + injection Hd as <-. reflexivity.
Qed.

Lemma finders_below_two_sources_witness :
  find_equidistant_point 0 (TerrainMaze.mk empty_maze) = Ok None
  /\ find_optimal_gathering_point 0 default_terrain_maze [] None = Ok None
  /\ find_optimal_gathering_point 600 default_terrain_maze [(1, 1)] (Some [2%Q])
     = Ok (Some (1, 1)).
Proof.
  destruct (finders_below_two_sources (TerrainMaze.mk empty_maze)) as (Hfew & _ & _).
  destruct (finders_below_two_sources default_terrain_maze) as (_ & Hnone & Hone).
  split; [apply Hfew; vm_compute; lia|]. split; [apply Hnone|].
  apply (Hone 600%nat (1, 1) (Some [2%Q])
           (get_all_valid_positions default_terrain_maze) 4%nat).
  - intros l [= <-]. exists 2%Q. split; [reflexivity | reflexivity].
  - apply TerrainMaze_cost_nonneg.
  - apply Maze_all_valid_positions_NoDup.
  - intros p v Hv. apply Maze_all_valid_positions_spec.
    eapply TerrainMaze_neighbors_valid. exact Hv.
  - apply TerrainMaze_degree.
  - intros p Hp. apply Maze_all_valid_positions_spec. exact Hp.
  - vm_compute. lia.
Defined.

(** ** The order of identities *)

Section HeapMap.
Context {E : Type} (lt : E -> E -> bool) (f : E -> E).
Hypothesis lt_f : forall a b, lt (f a) (f b) = lt a b.

Lemma take_min_map x h :
  take_min lt (f x) (map f h) = (f (take_min lt x h).1, map f (take_min lt x h).2).
Proof.
  revert x. induction h as [|y h IH]; intros x; [reflexivity|].
  simpl. rewrite IH. destruct (take_min lt y h) as [m rest]. simpl.
  rewrite lt_f. destruct (lt m x); reflexivity.
Qed.

Lemma heappop_map h :
  heappop lt (map f h) = prod_map f (map f) <$> heappop lt h.
Proof.
  destruct h as [|x h]; [reflexivity|]. simpl. rewrite take_min_map.
  destruct (take_min lt x h); reflexivity.
Qed.

End HeapMap.

Section Reidentify.
Variable rho : Z -> Z.
Hypothesis rho_order : order_preserving rho.

Lemma rho_ltb a b : (rho a <? rho b) = (a <? b).
Proof.
  destruct (Z.ltb_spec a b) as [Hlt|Hge].
  - apply Z.ltb_lt. apply rho_order. exact Hlt.
  - apply Z.ltb_ge. destruct (decide (a = b)) as [->|Hne]; [lia|].
    assert (Hlt : b < a) by lia. apply rho_order in Hlt. lia.
Qed.

Lemma entry_ltb_reidentify a b :
  HexAStar.entry_ltb (reidentify_entry rho a) (reidentify_entry rho b)
  = HexAStar.entry_ltb a b.
Proof.
  unfold HexAStar.entry_ltb, reidentify_entry. simpl. rewrite rho_ltb. reflexivity.
Qed.

Lemma coords_reidentify c : HexCell.coords (reidentify rho c) = HexCell.coords c.
Proof. reflexivity. Qed.

Lemma get_neighbors_reidentify m c :
  HexMap.get_neighbors (reidentify_map rho m) (reidentify rho c)
  = map (reidentify rho) (HexMap.get_neighbors m c).
Proof.
  unfold HexMap.get_neighbors.
  change (HexCell.get_neighbors (reidentify rho c)) with (HexCell.get_neighbors c).
  induction (HexCell.get_neighbors c) as [|qr l IH]; [reflexivity|].
  csimpl. rewrite IH. unfold HexMap.get_cell. simpl.
  rewrite lookup_fmap. destruct (HexMap.cells m !! (qr.1, qr.2)); reflexivity.
Qed.

Lemma walk_back_reidentify fuel came_from current path :
  HexAStar.walk_back fuel (reidentify rho <$> came_from) (reidentify rho current)
    (map (reidentify rho) path)
  = result_map (map (reidentify rho)) (HexAStar.walk_back fuel came_from current path).
Proof.
  revert current path. induction fuel as [|fuel IH]; intros current path; simpl;
    rewrite lookup_fmap;
    change (HexCell.coords (reidentify rho current)) with (HexCell.coords current);
    destruct (came_from !! HexCell.coords current) as [previous|]; simpl;
    try reflexivity.
  rewrite <- IH. rewrite map_app. reflexivity.
Qed.

Lemma visit_reidentify race end_ current st neighbor :
  HexAStar.visit race (reidentify rho end_) (reidentify rho current)
    (Ok (reidentify_state rho st)) (reidentify rho neighbor)
  = result_map (reidentify_state rho)
      (HexAStar.visit race end_ current (Ok st) neighbor).
Proof.
  unfold HexAStar.visit. simpl.
  change (HexCell.coords (reidentify rho neighbor)) with (HexCell.coords neighbor).
  change (HexCell.coords (reidentify rho current)) with (HexCell.coords current).
  destruct (bool_decide (HexCell.coords neighbor ∈ HexAStar.closed_set st));
    [reflexivity|].
  destruct (num_eqb _ Inf); [reflexivity|].
  destruct (HexAStar.g_score st !! HexCell.coords current) as [g_current|];
    [|reflexivity].
  destruct (match HexAStar.g_score st !! HexCell.coords neighbor with
            | Some g => _ | None => false end); [reflexivity|].
  simpl. unfold reidentify_state. simpl. rewrite fmap_insert. reflexivity.
Qed.

Lemma visit_fold_reidentify race end_ current l :
  forall acc,
    foldl (HexAStar.visit race (reidentify rho end_) (reidentify rho current))
          (result_map (reidentify_state rho) acc) (map (reidentify rho) l)
    = result_map (reidentify_state rho) (foldl (HexAStar.visit race end_ current) acc l).
Proof.
  induction l as [|v l IH]; intros acc; [reflexivity|]. cbn [map foldl].
  rewrite <- IH. f_equal.
  destruct acc as [st| |]; [apply visit_reidentify | reflexivity | reflexivity].
Qed.

Lemma loop_reidentify fuel0 m race start end_ :
  forall fuel st,
    HexAStar.loop fuel0 fuel (reidentify_map rho m) race
      (reidentify rho start) (reidentify rho end_) (reidentify_state rho st)
    = reidentify_result rho (HexAStar.loop fuel0 fuel m race start end_ st).
Proof.
  induction fuel as [|fuel IH]; intros st; simpl;
    rewrite (heappop_map HexAStar.entry_ltb (reidentify_entry rho)
               entry_ltb_reidentify);
    destruct (heappop HexAStar.entry_ltb (HexAStar.open_set st))
      as [[[[f i] current] open_set']|]; simpl; try reflexivity.
  change (HexCell.eqb (reidentify rho current) (reidentify rho end_))
    with (HexCell.eqb current end_).
  destruct (HexCell.eqb current end_).
  - pose proof (walk_back_reidentify fuel0 (HexAStar.came_from st) current []) as Hwb.
    simpl in Hwb. rewrite Hwb.
    destruct (HexAStar.walk_back fuel0 (HexAStar.came_from st) current [])
      as [path| |]; simpl; try reflexivity.
    change (HexCell.coords (reidentify rho end_)) with (HexCell.coords end_).
    destruct (HexAStar.g_score st !! HexCell.coords end_); simpl; [|reflexivity].
    do 3 f_equal.
    change (map (reidentify rho) path ++ [reidentify rho start])
      with (map (reidentify rho) path ++ map (reidentify rho) [start]).
    rewrite <- map_app. symmetry. apply (fmap_reverse (reidentify rho)).
  - rewrite get_neighbors_reidentify.
    pose proof (visit_fold_reidentify race end_ current
                  (HexMap.get_neighbors m current)
                  (Ok {| HexAStar.open_set := open_set';
                         HexAStar.g_score := HexAStar.g_score st;
                         HexAStar.f_score := HexAStar.f_score st;
                         HexAStar.came_from := HexAStar.came_from st;
                         HexAStar.closed_set :=
                           {[HexCell.coords current]} ∪ HexAStar.closed_set st |}))
      as Hfold.
    simpl in Hfold. unfold reidentify_state at 1 in Hfold. simpl in Hfold.
    change (HexCell.coords (reidentify rho current)) with (HexCell.coords current).
    rewrite Hfold.
    destruct (foldl _ _ (HexMap.get_neighbors m current)) as [st2| |];
      simpl; try reflexivity.
    apply IH.
Qed.

End Reidentify.

Lemma find_path_reidentify rho fuel hex_map start end_ race :
  order_preserving rho ->
  HexAStar.find_path fuel (reidentify_map rho hex_map)
    (reidentify rho <$> start) (reidentify rho <$> end_) race
  = reidentify_result rho (HexAStar.find_path fuel hex_map start end_ race).
Proof.
  intros Hrho. destruct start as [start|]; [|reflexivity].
  destruct end_ as [end_|]; [|reflexivity].
  exact (loop_reidentify rho Hrho fuel hex_map race start end_ fuel
           (astar_initial start end_)).
Qed.

Lemma route_reidentify rho r : route (reidentify_result rho r) = route r.
Proof.
  destruct r as [[[path|] cost]| |]; try reflexivity.
  unfold route, reidentify_result. simpl. do 3 f_equal.
  induction path as [|c path IH]; [reflexivity|]. simpl. rewrite IH. reflexivity.
Qed.

Lemma entry_pop_due h e rest :
  heappop HexAStar.entry_ltb h = Some (e, rest) -> Forall (due_before e) rest.
Proof.
  intros Hpop.
  apply (heappop_spec HexAStar.entry_ltb due_before) in Hpop; [tauto| | |].
  - intros [[a ia] ca] [[b ib] cb]. unfold HexAStar.entry_ltb, due_before. simpl.
    destruct (num_eqb a b) eqn:Eeq.
    + intros Hlt. apply Z.ltb_lt in Hlt. apply num_eqb_true in Eeq. right. split; [tauto | lia].
    + intros Hlt. apply num_ltb_true in Hlt. tauto.
  - intros [[a ia] ca] [[b ib] cb]. unfold HexAStar.entry_ltb, due_before. simpl.
    destruct (num_eqb a b) eqn:Eeq.
    + intros Hlt. apply Z.ltb_ge in Hlt. apply num_eqb_true in Eeq. right.
      split; [destruct a, b; simpl in *; try tauto; lra | lia].
    + intros Hlt. apply num_ltb_false in Hlt. left.
      destruct a, b; simpl in *; try tauto; try discriminate.
      destruct (Qlt_le_dec q0 q) as [Hlt'|Hle]; [exact Hlt'|].
      assert (Heq : (q == q0)%Q) by lra.
      apply Qeq_bool_iff in Heq. congruence.
  - intros [[a ia] ca] [[b ib] cb] [[c ic] cc]. unfold due_before. simpl.
    intros [Hab|[Hab Hi]] [Hbc|[Hbc Hj]].
    + left. destruct a, b, c; simpl in *; try tauto; lra.
    + left. destruct a, b, c; simpl in *; try tauto; lra.
    + left. destruct a, b, c; simpl in *; try tauto; lra.
    + right. split; [destruct a, b, c; simpl in *; try tauto; lra | lia].
Qed.



(** ** Searches that find nothing *)

Section BfsNone.
Context {M : Type} `{MazeLike M} (maze : M) (start end_ : pos).

(** Once the queue is empty every cell a walk from the start reaches is
    visited. *)
Lemma bfs_inv_closed dist d visited path w :
  bfs_inv maze start dist d None [] visited ->
  path_between maze start w path ->
  is_Some (visited !! w).
Proof.
  intros I. revert w. induction path as [|b l IH] using rev_ind; intros w (Hhead & Hlast & Hwalk).
  - discriminate.
  - rewrite last_snoc in Hlast. injection Hlast as ->.
    destruct l as [|a l'] eqn:El.
    + simpl in Hhead. injection Hhead as ->.
      rewrite (bi_start _ _ _ _ _ _ _ I). eauto.
    + rewrite <- El in *. apply is_walk_snoc in Hwalk as [Hwalk Hstep].
      assert (Hl : exists p, last l = Some p).
      { subst l. destruct (last (a :: l')) eqn:E; [eauto|].
        apply last_None in E. discriminate. }
      destruct Hl as [p Hp].
      assert (Hvis : is_Some (visited !! p)).
      { apply IH. split; [|split; [exact Hp | exact Hwalk]].
        subst l. exact Hhead. }
      apply (bi_expanded _ _ _ _ _ _ _ I p w Hvis); [apply not_elem_of_nil| |discriminate].
      apply Hstep. exact Hp.
Qed.

Lemma bfs_loop_None fuel0 :
  forall fuel dist d queue visited,
    bfs_inv maze start dist d None queue visited ->
    (forall x, is_Some (visited !! x) -> x ∉ queue -> x <> end_) ->
    bfs_loop fuel0 fuel maze end_ queue visited = Ok None ->
    forall path, ~ path_between maze start end_ path.
Proof.
  induction fuel as [|fuel IH]; intros dist d queue visited I HP Hrun path Hpath.
  - destruct queue; [|discriminate].
    apply (HP end_); [|apply not_elem_of_nil|reflexivity]. eapply bfs_inv_closed; eauto.
  - destruct queue as [|u queue].
    { apply (HP end_); [|apply not_elem_of_nil|reflexivity]. eapply bfs_inv_closed; eauto. }
    simpl in Hrun. destruct (decide (u = end_)) as [->|Hne].
    { destruct (walk_back fuel0 visited (Some end_) []); discriminate. }
    destruct (bfs_inv_step maze start
                (fun _ queue visited =>
                   forall x, is_Some (visited !! x) -> x ∉ queue -> x <> end_)
                dist d u queue visited) as (dist' & d' & I' & HP'); auto.
    + intros dist0 ns queue0 visited0 v dist0' I0 Hv HP0 _ _ x.
      unfold bfs_visit. simpl. destruct (visited0 !! v) eqn:Ev; simpl; [apply HP0|].
      intros Hx Hnot. destruct (decide (x = v)) as [->|Hxv].
      * exfalso. apply Hnot. apply elem_of_app. right. left.
      * rewrite lookup_insert_ne in Hx by congruence. apply HP0; [exact Hx|].
        intros Hin. apply Hnot. apply elem_of_app. left. exact Hin.
    + intros x Hx Hnot. destruct (decide (x = u)) as [->|Hxu]; [exact Hne|].
      apply HP; [exact Hx|]. intros Hin. apply elem_of_cons in Hin as [?|?]; tauto.
    + exact (IH _ _ _ _ I' HP' Hrun path Hpath).
Qed.

End BfsNone.

Section DijkstraNone.
Context {M : Type} `{TerrainLike M} (maze : M) (start end_ : pos).
Hypothesis cost_nonneg : forall p, num_le (Fin 0) (get_terrain_cost maze p).

(** Once the queue is empty every cell a walk from the start reaches has a
    cost. *)
Lemma dij_inv_closed depth D lo csf cf path w :
  dij_inv maze start end_ depth D lo None [] csf cf ->
  path_between maze start w path ->
  is_Some (csf !! w).
Proof.
  intros I. revert w.
  induction path as [|b l IH] using rev_ind; intros w (Hhead & Hlast & Hwalk).
  - discriminate.
  - rewrite last_snoc in Hlast. injection Hlast as ->.
    destruct l as [|a l'] eqn:El.
    + simpl in Hhead. injection Hhead as ->.
      destruct (di_start _ _ _ _ _ _ _ _ _ _ I) as [-> _]. eauto.
    + rewrite <- El in *. apply is_walk_snoc in Hwalk as [Hwalk Hstep].
      assert (Hl : exists p, last l = Some p).
      { subst l. destruct (last (a :: l')) eqn:E; [eauto|].
        apply last_None in E. discriminate. }
      destruct Hl as [p Hp].
      assert (Hknown : is_Some (csf !! p)).
      { apply IH. split; [|split; [exact Hp | exact Hwalk]].
        subst l. exact Hhead. }
      assert (Hdone : is_Some (D !! p)).
      { destruct Hknown as [c Hc]. destruct (D !! p) eqn:ED; [eauto|].
        pose proof (di_pending _ _ _ _ _ _ _ _ _ _ I p c Hc ED) as Hin.
        apply elem_of_nil in Hin. destruct Hin. }
      destruct (di_expanded _ _ _ _ _ _ _ _ _ _ I p w Hdone (Hstep p Hp))
        as (cd & cv & _ & Hcv & _); [discriminate|].
      eauto.
Qed.

Lemma dijkstra_loop_None :
  forall fuel depth D lo pq csf cf cf',
    dij_inv maze start end_ depth D lo None pq csf cf ->
    dijkstra_loop fuel maze end_ (pq, csf, cf) = Ok cf' ->
    cf' !! end_ = None ->
    forall path, ~ path_between maze start end_ path.
Proof.
  assert (Hempty : forall depth D lo csf cf,
             dij_inv maze start end_ depth D lo None [] csf cf ->
             cf !! end_ = None ->
             forall path, ~ path_between maze start end_ path).
  { intros depth D lo csf cf I Hnone path Hpath.
    pose proof (dij_inv_closed _ _ _ _ _ _ _ I Hpath) as Hknown.
    apply (di_dom _ _ _ _ _ _ _ _ _ _ I) in Hknown as [x Hx]. congruence. }
  induction fuel as [|fuel IH]; intros depth D lo pq csf cf cf' I Hrun Hnone.
  - simpl in Hrun.
    destruct (heappop entry_ltb pq) as [[[c u] rest]|] eqn:Epop; [discriminate|].
    injection Hrun as <-. apply heappop_None in Epop as ->. eapply Hempty; eauto.
  - simpl in Hrun.
    destruct (heappop entry_ltb pq) as [[[c u] rest]|] eqn:Epop.
    2:{ injection Hrun as <-. apply heappop_None in Epop as ->. eapply Hempty; eauto. }
    apply entry_pop in Epop as [Hperm Hmin].
    assert (Hcu : (c, u) ∈ pq) by (rewrite Hperm; left).
    destruct (di_pq _ _ _ _ _ _ _ _ _ _ I c u Hcu) as (Hlo & known & Hknown & Hkc).
    destruct (decide (u = end_)) as [->|Hne].
    + injection Hrun as <-. exfalso.
      assert (Hcf : is_Some (cf !! end_))
        by (apply (di_dom _ _ _ _ _ _ _ _ _ _ I); eauto).
      destruct Hcf as [x Hx]. congruence.
    + rewrite Hknown in Hrun.
      destruct (num_ltb known c) eqn:Estale.
      * apply num_ltb_true in Estale.
        assert (I1 : dij_inv maze start end_ depth D c None rest csf cf)
          by (eapply dij_inv_drop; eauto).
        exact (IH _ _ _ _ _ _ _ I1 Hrun Hnone).
      * apply num_ltb_false in Estale.
        destruct (D !! u) as [[]|] eqn:EDu.
        -- rewrite (relax_fold_done maze start end_ depth D lo pq csf cf c u rest I)
             in Hrun by eauto.
           assert (I1 : dij_inv maze start end_ depth D c None rest csf cf)
             by (eapply dij_inv_drop; eauto).
           exact (IH _ _ _ _ _ _ _ I1 Hrun Hnone).
        -- pose proof (dij_inv_pop maze start end_ _ _ _ _ _ _ _ _ _ _ I Hperm Hmin
                         Hknown Estale EDu Hne) as I1.
           destruct (dij_inv_fold maze start end_ cost_nonneg (fun _ _ _ _ => True)
                       (<[u := tt]> D) c u)
             with (l := get_neighbors maze u) (depth := depth) (ns := @nil pos)
                  (pq := rest) (csf := csf) (cf := cf) as (depth' & I' & _); auto.
           destruct (foldl (relax maze c u) (rest, csf, cf) (get_neighbors maze u))
             as [[pq' csf'] cf''].
           simpl in I'.
           assert (I2 : dij_inv maze start end_ depth' (<[u := tt]> D) c None pq' csf' cf'').
           { eapply dij_inv_done; [exact I'|].
             intros v Hv. apply elem_of_app. left. apply elem_of_reverse. exact Hv. }
           exact (IH _ _ _ _ _ _ _ I2 Hrun Hnone).
Qed.

End DijkstraNone.

(** X1. On a grid with a start and an end, [PathFinder.bfs] returns [None]
    exactly when no sequence of neighbouring valid cells leads from the
    start to the end, once its fuel exceeds the number of valid cells. *)
Theorem bfs_absent_iff_unreachable (m : Maze.t) (start end_ : pos) (fuel : nat) :
  get_start_position m = Some start ->
  get_end_position m = Some end_ ->
  (length (get_all_valid_positions m) < fuel)%nat ->
  bfs fuel m = Ok None <-> forall path, ~ path_between m start end_ path.
Proof.
  intros Hstart Hend Hfuel. split.
  - intros Hrun. unfold bfs in Hrun. rewrite Hstart, Hend in Hrun.
    apply (bfs_loop_None m start end_ fuel fuel (fun _ => 0%nat) 0%nat
             [start] {[start := None]}); [apply bfs_inv_init| |exact Hrun].
    intros x [y Hx] Hnot. apply lookup_singleton_Some in Hx as [<- _].
    exfalso. apply Hnot. left.
  - intros Hnone.
    assert (Hret : exists r, bfs fuel m = Ok r).
    { apply (bfs_returns m start end_ Hstart Hend (get_all_valid_positions m) fuel).
      - apply Maze_all_valid_positions_NoDup.
      - intros p n Hn. apply Maze_all_valid_positions_spec.
        apply Maze_get_neighbors_spec in Hn. tauto.
      - exact Hfuel. }
    destruct Hret as [[path|] Hr]; [|exact Hr].
    exfalso. apply (Hnone path).
    apply (bfs_correct m start end_ Hstart Hend fuel path Hr).
Qed.

Lemma bfs_absent_iff_unreachable_witness :
  bfs 4 blocked_maze = Ok None
  /\ forall path, ~ path_between blocked_maze (0, 0) (0, 2) path.
Proof.
  split; [vm_compute; reflexivity|].
  apply (bfs_absent_iff_unreachable blocked_maze (0, 0) (0, 2) 4).
  - reflexivity.
  - reflexivity.
  - vm_compute. lia.
  - vm_compute. reflexivity.
Defined.

(** X2. On a terrain grid with a start and an end, [dijkstra] returns
    [None] exactly when no sequence of neighbouring passable cells leads
    from the start to the end, once its fuel covers four queue entries for
    every cell. *)
Theorem dijkstra_absent_iff_unreachable
    (m : TerrainMaze.t) (start end_ : pos) (fuel : nat) :
  get_start_position m = Some start ->
  get_end_position m = Some end_ ->
  (4 * (length (get_all_valid_positions m) + 1) < fuel)%nat ->
  dijkstra fuel m = Ok None <-> forall path, ~ path_between m start end_ path.
Proof.
  intros Hstart Hend Hfuel. split.
  - intros Hrun. unfold dijkstra in Hrun. rewrite Hstart, Hend in Hrun.
    destruct (dijkstra_loop fuel m end_ _) as [cf'| |] eqn:Eloop;
      simpl in Hrun; try discriminate.
    destruct (cf' !! end_) eqn:Ecf.
    { destruct (walk_back fuel cf' (Some end_) []); discriminate. }
    eapply (dijkstra_loop_None m start end_ (TerrainMaze_cost_nonneg m));
      [apply dij_inv_init|exact Eloop|exact Ecf].
  - intros Hnone.
    destruct (TerrainMaze_dijkstra_returns m fuel Hfuel) as [[path|] Hr]; [|exact Hr].
    exfalso. apply (Hnone path).
    apply (dijkstra_correct m start end_ (TerrainMaze_cost_nonneg m) Hstart Hend fuel path Hr).
Qed.

Lemma dijkstra_absent_iff_unreachable_witness :
  dijkstra 20 maze_with_unknown = Ok None
  /\ forall path, ~ path_between maze_with_unknown (0, 0) (0, 2) path.
Proof.
  split; [vm_compute; reflexivity|].
  apply (dijkstra_absent_iff_unreachable maze_with_unknown (0, 0) (0, 2) 20).
  - reflexivity.
  - reflexivity.
  - vm_compute. lia.
  - vm_compute. reflexivity.
Defined.

(** ** Directions of a path *)

Lemma foldl_app_bind {A B : Type} (f : A -> list B) (l : list A) (acc : list B) :
  foldl (fun ds x => ds ++ f x) acc l = acc ++ (l ≫= f).
Proof.
  revert acc. induction l as [|x l IH]; intros acc; simpl.
  - rewrite app_nil_r. reflexivity.
  - rewrite IH, <- app_assoc. reflexivity.
Qed.

Lemma get_path_directions_bind path :
  get_path_directions path
  = zip path (tail path) ≫= (fun step => direction_step step.1 step.2).
Proof.
  unfold get_path_directions.
  destruct path as [|a [|b l]]; [reflexivity | reflexivity |].
  cbn [length Nat.ltb Nat.leb].
  exact (foldl_app_bind (fun step : pos * pos => direction_step step.1 step.2) _ []).
Qed.

Lemma get_path_directions_cons a b l :
  get_path_directions (a :: b :: l)
  = direction_step a b ++ get_path_directions (b :: l).
Proof. rewrite !get_path_directions_bind. reflexivity. Qed.

Lemma direction_step_length a b : (length (direction_step a b) <= 1)%nat.
Proof.
  destruct a as [pr pc], b as [cr cc]. unfold direction_step.
  destruct (cr <? pr); [simpl; lia|]. destruct (cr >? pr); [simpl; lia|].
  destruct (cc <? pc); [simpl; lia|]. destruct (cc >? pc); simpl; lia.
Qed.

Lemma apply_direction_names p :
  apply_direction p "вверх" = (p.1 - 1, p.2)
  /\ apply_direction p "вниз" = (p.1 + 1, p.2)
  /\ apply_direction p "влево" = (p.1, p.2 - 1)
  /\ apply_direction p "вправо" = (p.1, p.2 + 1).
Proof. repeat split. Qed.

Lemma direction_step_adjacent a b :
  Z.abs (b.1 - a.1) + Z.abs (b.2 - a.2) = 1 ->
  exists d, direction_step a b = [d] /\ apply_direction a d = b.
Proof.
  destruct (apply_direction_names a) as (Hup & Hdown & Hleft & Hright).
  destruct a as [pr pc], b as [cr cc]. simpl in *. intros Hadj. unfold direction_step.
  destruct (Z.ltb_spec cr pr).
  { eexists. split; [reflexivity|]. rewrite Hup. f_equal; lia. }
  destruct (Z.gtb_spec cr pr).
  { eexists. split; [reflexivity|]. rewrite Hdown. f_equal; lia. }
  destruct (Z.ltb_spec cc pc).
  { eexists. split; [reflexivity|]. rewrite Hleft. f_equal; lia. }
  destruct (Z.gtb_spec cc pc).
  { eexists. split; [reflexivity|]. rewrite Hright. f_equal; lia. }
  lia.
Qed.

(** X3. [get_path_directions] never lists more directions than the path
    has steps.  For a path through neighbouring cells of a maze it lists
    one direction for each step, and following them from the first cell
    (up and down change the row by one, left and right the column) leads
    through the cells of the path again. *)
Theorem path_directions_replay :
  (forall path, (length (get_path_directions path) <= edge_count path)%nat)
  /\ (forall (m : Maze.t) (path : list pos) (s : pos),
        head path = Some s ->
        is_walk (get_neighbors m) path ->
        length (get_path_directions path) = edge_count path
        /\ follow s (get_path_directions path) = path).
Proof.
  split.
  - intros path. unfold edge_count.
    induction path as [|a [|b l] IH]; [simpl; lia | simpl; lia |].
    rewrite get_path_directions_cons, length_app.
    pose proof (direction_step_length a b). simpl in *. lia.
  - intros m path. unfold edge_count.
    induction path as [|a [|b l] IH]; intros s Hhead Hwalk.
    + discriminate.
    + injection Hhead as ->. split; reflexivity.
    + injection Hhead as ->. destruct Hwalk as [Hab Hwalk].
      apply Maze_get_neighbors_spec in Hab as [_ Hadj].
      destruct (direction_step_adjacent s b Hadj) as (d & Hd & Hmove).
      rewrite get_path_directions_cons, Hd.
      destruct (IH b eq_refl Hwalk) as [Hlen Hfollow].
      split.
      * simpl in *. lia.
      * cbn [app follow]. rewrite Hmove, Hfollow. reflexivity.
Qed.

Lemma path_directions_replay_witness :
  get_path_directions default_maze_path
  = ["вниз"; "вправо"; "вправо"; "вправо"; "вниз"; "вниз"; "вниз";
     "вправо"; "вправо"]%string
  /\ follow (0, 0) (get_path_directions default_maze_path) = default_maze_path.
Proof.
  split; [vm_compute; reflexivity|].
  destruct path_directions_replay as [_ Hreplay].
  apply (Hreplay default_maze default_maze_path (0, 0)); [reflexivity|].
  simpl; repeat split; refine (bool_decide_unpack _ _); vm_compute; exact Logic.I.
Defined.

Lemma get_path_directions_with_costs_bind {M : Type} `{TerrainLike M}
    (maze : M) (path : list pos) :
  get_path_directions_with_costs maze path
  = map (fun step : pos * pos =>
           (arrow_step step.1 step.2, get_terrain_cost maze step.2))
        (zip path (tail path)).
Proof.
  unfold get_path_directions_with_costs.
  destruct path as [|a [|b l]]; [reflexivity | reflexivity |].
  cbn [length Nat.ltb Nat.leb].
  rewrite (foldl_app_bind
             (fun step : pos * pos =>
                [(arrow_step step.1 step.2, get_terrain_cost maze step.2)]) _ []).
  cbn [app]. generalize (zip (a :: b :: l) (tail (a :: b :: l))). intros z.
  induction z as [|x z IH]; [reflexivity|]. cbn [map]. rewrite <- IH. reflexivity.
Qed.


(** ** Grids *)

(** X5. The neighbours [Maze.get_neighbors] lists are the valid cells
    next to the given cell, whether or not the cell itself is valid. *)
Theorem maze_neighbors_adjacent_valid (m : Maze.t) (p n : pos) :
  (n ∈ Maze.get_neighbors m p <->
   Maze.is_valid_position m n = true
   /\ Z.abs (n.1 - p.1) + Z.abs (n.2 - p.2) = 1)
  /\ NoDup (Maze.get_neighbors m p)
  /\ (length (Maze.get_neighbors m p) <= 4)%nat
  /\ (Maze.is_valid_position m p = true ->
      n ∈ Maze.get_neighbors m p -> p ∈ Maze.get_neighbors m n).
Proof.
  split; [apply Maze_get_neighbors_spec|]. split; [|split].
  - destruct p as [row col]. unfold Maze.get_neighbors.
    apply NoDup_filter.
    repeat (apply NoDup_cons_2;
            [intros Hin;
             repeat (apply elem_of_cons in Hin as [Heq|Hin]; [injection Heq; lia|]);
             apply elem_of_nil in Hin; exact Hin|]).
    apply NoDup_nil_2.
  - destruct p as [row col]. unfold Maze.get_neighbors.
    etransitivity; [apply length_filter | reflexivity].
  - intros Hp Hn. apply Maze_get_neighbors_spec in Hn as [_ Hadj].
    apply Maze_get_neighbors_spec. split; [exact Hp | lia].
Qed.

Lemma StronglySorted_seqZ m n : StronglySorted Z.lt (seqZ m n).
Proof.
  remember (Z.to_nat n) as k eqn:Hk. revert m n Hk.
  induction k as [|k IH]; intros m n Hk.
  - rewrite seqZ_nil by lia. constructor.
  - rewrite seqZ_cons by lia. constructor.
    + apply IH. lia.
    + apply Forall_seqZ. intros m' Hm'. lia.
Qed.

Lemma StronglySorted_bind {A B : Type} (RA : relation A) (R : relation B)
    (f : A -> list B) (l : list A) :
  StronglySorted RA l ->
  (forall x, x ∈ l -> StronglySorted R (f x)) ->
  (forall x y a b, RA x y -> a ∈ f x -> b ∈ f y -> R a b) ->
  StronglySorted R (l ≫= f).
Proof.
  intros Hl Hf Hcross. induction Hl as [|x l Hl IH Hx]; [constructor|].
  change ((x :: l) ≫= f) with (f x ++ (l ≫= f)).
  apply StronglySorted_app. split; [|split].
  - intros a b Ha Hb. apply list_elem_of_bind in Hb as (y & Hb & Hy).
    rewrite Forall_forall in Hx. apply (Hcross x y); auto.
  - apply Hf. left.
  - apply IH. intros y Hy. apply Hf. right. exact Hy.
Qed.

(** X6. [get_all_valid_positions] lists the valid positions, all of them
    and nothing else, in row-major order; in particular it lists no
    position twice. *)
Theorem maze_valid_positions_row_major (m : Maze.t) :
  (forall p, p ∈ Maze.get_all_valid_positions m
             <-> Maze.is_valid_position m p = true)
  /\ StronglySorted row_major_lt (Maze.get_all_valid_positions m)
  /\ NoDup (Maze.get_all_valid_positions m).
Proof.
  split; [apply Maze_all_valid_positions_spec|].
  split; [|apply Maze_all_valid_positions_NoDup].
  unfold Maze.get_all_valid_positions.
  apply (StronglySorted_bind Z.lt); [apply StronglySorted_seqZ| |].
  - intros i _. apply (StronglySorted_bind Z.lt); [apply StronglySorted_seqZ| |].
    + intros j _. destruct (Maze.is_valid_position m (i, j));
        [repeat constructor | constructor].
    + intros j1 j2 a b Hlt Ha Hb.
      destruct (Maze.is_valid_position m (i, j1)); [|apply elem_of_nil in Ha; tauto].
      destruct (Maze.is_valid_position m (i, j2)); [|apply elem_of_nil in Hb; tauto].
      apply list_elem_of_singleton in Ha as ->.
      apply list_elem_of_singleton in Hb as ->. right. simpl. lia.
  - intros i1 i2 a b Hlt Ha Hb.
    apply list_elem_of_bind in Ha as (j1 & Ha & _).
    apply list_elem_of_bind in Hb as (j2 & Hb & _).
    destruct (Maze.is_valid_position m (i1, j1)); [|apply elem_of_nil in Ha; tauto].
    destruct (Maze.is_valid_position m (i2, j2)); [|apply elem_of_nil in Hb; tauto].
    apply list_elem_of_singleton in Ha as ->.
    apply list_elem_of_singleton in Hb as ->. left. simpl. lia.
Qed.

(** *** The scan of [Maze.__init__] *)

Lemma foldl_bind {A B C : Type} (f : C -> B -> C) (g : A -> list B) (l : list A) (c : C) :
  foldl f c (l ≫= g) = foldl (fun c x => foldl f c (g x)) c l.
Proof.
  revert c. induction l as [|x l IH]; intros c; [reflexivity|].
  change ((x :: l) ≫= g) with (g x ++ (l ≫= g)).
  rewrite foldl_app. apply IH.
Qed.

Lemma scan_step_error g e l : foldl (scan_step g) (Raise e) l = Raise e.
Proof. induction l as [|p l IH]; [reflexivity | exact IH]. Qed.

Lemma scan_step_fuel g l : foldl (scan_step g) OutOfFuel l = OutOfFuel.
Proof. induction l as [|p l IH]; [reflexivity | exact IH]. Qed.

Lemma scan_row_flat g width i st :
  Maze.scan_row g width i st
  = foldl (scan_step g) (Ok st) (seqZ 0 width ≫= (fun j => [(i, j)])).
Proof.
  unfold Maze.scan_row.
  generalize (Ok st : result (odict string pos * option pos)).
  induction (seqZ 0 width) as [|j cols IHc]; intros acc; [reflexivity|].
  cbn [foldl]. change ((j :: cols) ≫= (fun j => [(i, j)]))
    with ((i, j) :: (cols ≫= (fun j => [(i, j)]))).
  cbn [foldl]. apply IHc.
Qed.

Lemma scan_flat g height width :
  Maze.scan g height width
  = foldl (scan_step g) (Ok ([], None)) (scan_order height width).
Proof.
  unfold Maze.scan, scan_order. rewrite foldl_bind.
  generalize (Ok ([], None) : result (odict string pos * option pos)).
  induction (seqZ 0 height) as [|i rows IH]; intros acc; [reflexivity|].
  cbn [foldl]. rewrite IH. f_equal.
  destruct acc as [st|e|]; simpl;
    [|symmetry; apply scan_step_error|symmetry; apply scan_step_fuel].
  apply scan_row_flat.
Qed.

Lemma scan_cell_inv g seen st p c :
  Maze.grid_at g p = Some c ->
  scan_inv g seen st ->
  scan_inv g (seen ++ [p]) (Maze.scan_cell p.1 p.2 c st).
Proof.
  intros Hc (Hheroes & Hend & Hall & HallF).
  assert (Hp : p ∈ seen ++ [p]) by (apply elem_of_app; right; left).
  assert (Hseen : forall q, q ∈ seen -> q ∈ seen ++ [p])
    by (intros q Hq; apply elem_of_app; left; exact Hq).
  assert (Hsplit : forall q, q ∈ seen ++ [p] -> q ∈ seen \/ q = p).
  { intros q Hq. apply elem_of_app in Hq as [Hq|Hq]; [left; exact Hq|].
    apply list_elem_of_singleton in Hq. right. exact Hq. }
  assert (Hold : forall k q, od_get st.1 k = Some q ->
            q ∈ seen ++ [p] /\ Maze.grid_at g q = Some (CStr k) /\ isdigit k = true).
  { intros k q Hk. destruct (Hheroes k q Hk) as (? & ? & ?). auto. }
  assert (Holdend : forall q, st.2 = Some q ->
            q ∈ seen ++ [p] /\ Maze.grid_at g q = Some (CStr "F")).
  { intros q Hq. destruct (Hend q Hq). auto. }
  assert (HF : isdigit "F" = false) by reflexivity.
  unfold Maze.scan_cell.
  destruct c as [n|s].
  { split; [exact Hold|]. split; [exact Holdend|]. split.
    - intros q k Hq Hk Hd. destruct (Hsplit q Hq) as [Hq'| ->]; [eauto|congruence].
    - intros q Hq Hk. destruct (Hsplit q Hq) as [Hq'| ->]; [eauto|congruence]. }
  destruct (isdigit s) eqn:Ed.
  { split; [|split; [exact Holdend|split]]; cbn [fst snd].
    - intros k q Hk. destruct (decide (s = k)) as [->|Hne].
      + rewrite od_get_set_eq in Hk. injection Hk as <-.
        destruct p; simpl in *. auto.
      + rewrite od_get_set_ne in Hk by exact Hne. auto.
    - intros q k Hq Hk Hd. destruct (decide (s = k)) as [->|Hne].
      + rewrite od_get_set_eq. eauto.
      + rewrite od_get_set_ne by exact Hne.
        destruct (Hsplit q Hq) as [Hq'| ->]; [eauto|congruence].
    - intros q Hq Hk. destruct (Hsplit q Hq) as [Hq'| ->]; [eauto|congruence]. }
  unfold cell_eqb. destruct (bool_decide (s = "F"%string)) eqn:EF.
  { apply bool_decide_eq_true in EF. subst s.
    split; [exact Hold|]. split; [|split]; cbn [fst snd].
    - intros q [= <-]. destruct p; simpl in *. auto.
    - intros q k Hq Hk Hd. destruct (Hsplit q Hq) as [Hq'| ->]; [eauto|congruence].
    - eauto. }
  apply bool_decide_eq_false in EF.
  split; [exact Hold|]. split; [exact Holdend|]. split.
  - intros q k Hq Hk Hd. destruct (Hsplit q Hq) as [Hq'| ->]; [eauto|congruence].
  - intros q Hq Hk. destruct (Hsplit q Hq) as [Hq'| ->]; [eauto|congruence].
Qed.

Lemma scan_fold_spec g l :
  match foldl (scan_step g) (Ok ([], None)) l with
  | Ok st => Forall (fun p => is_Some (Maze.grid_at g p)) l /\ scan_inv g l st
  | Raise e => e = IndexError /\ Exists (fun p => Maze.grid_at g p = None) l
  | OutOfFuel => False
  end.
Proof.
  induction l as [|p l IH] using rev_ind.
  - simpl. split; [constructor|]. split; [|split; [|split]].
    + intros k p Hk. discriminate Hk.
    + intros p Hp. discriminate Hp.
    + intros p k Hp. apply elem_of_nil in Hp. destruct Hp.
    + intros p Hp. apply elem_of_nil in Hp. destruct Hp.
  - rewrite foldl_app. cbn [foldl].
    destruct (foldl (scan_step g) (Ok ([], None)) l) as [st|e|]; simpl.
    + destruct IH as [Hall Hinv].
      destruct (Maze.grid_at g p) as [c|] eqn:Ec.
      * split; [apply Forall_app; split; [exact Hall|]; repeat constructor; rewrite Ec; eauto|].
        apply scan_cell_inv; assumption.
      * split; [reflexivity|]. apply Exists_app. right. constructor. exact Ec.
    + destruct IH as [-> Hex]. split; [reflexivity|]. apply Exists_app. left. exact Hex.
    + exact IH.
Qed.

Lemma elem_of_scan_order height width p :
  p ∈ scan_order height width <-> (0 <= p.1 < height /\ 0 <= p.2 < width).
Proof.
  unfold scan_order. destruct p as [i j]. simpl. split.
  - intros Hin. apply list_elem_of_bind in Hin as (i' & Hin & Hi).
    apply list_elem_of_bind in Hin as (j' & Hin & Hj).
    apply list_elem_of_singleton in Hin. injection Hin as -> ->.
    apply elem_of_seqZ in Hi, Hj. lia.
  - intros [Hi Hj]. apply list_elem_of_bind. exists i.
    split; [|apply elem_of_seqZ; lia].
    apply list_elem_of_bind. exists j. split; [left | apply elem_of_seqZ; lia].
Qed.

Lemma grid_at_row g i j row :
  0 <= i -> 0 <= j -> g !! Z.to_nat i = Some row ->
  Maze.grid_at g (i, j) = row !! Z.to_nat j.
Proof.
  intros Hi Hj Hrow. unfold Maze.grid_at.
  destruct (Z.leb_spec 0 i); [|lia]. destruct (Z.leb_spec 0 j); [|lia].
  simpl. rewrite Hrow. reflexivity.
Qed.

Lemma scan_order_covered g :
  Forall (fun p => is_Some (Maze.grid_at g p))
         (scan_order (Z.of_nat (length g)) (Z.of_nat (length (default [] (head g)))))
  <-> rows_cover g.
Proof.
  unfold rows_cover. set (w := length (default [] (head g))).
  rewrite !Forall_forall. split.
  - intros Hall row Hrow. apply list_elem_of_lookup in Hrow as [i Hi].
    destruct w as [|w'] eqn:Ew; [lia|].
    pose proof (lookup_lt_Some _ _ _ Hi) as Hlt.
    assert (Hin : (Z.of_nat i, Z.of_nat w') ∈ scan_order (Z.of_nat (length g)) (Z.of_nat (S w')))
      by (apply elem_of_scan_order; simpl; lia).
    apply Hall in Hin.
    rewrite (grid_at_row g _ _ row) in Hin; [|lia|lia|rewrite Nat2Z.id; exact Hi].
    rewrite Nat2Z.id in Hin. apply lookup_lt_is_Some in Hin. lia.
  - intros Hall [i j] Hin. apply elem_of_scan_order in Hin as [Hi Hj]. simpl in Hi, Hj.
    destruct (lookup_lt_is_Some_2 g (Z.to_nat i)) as [row Hrow]; [lia|].
    rewrite (grid_at_row g i j row) by (lia || exact Hrow).
    apply lookup_lt_is_Some.
    assert (Hrow' : row ∈ g) by (apply list_elem_of_lookup; eauto).
    specialize (Hall row Hrow'). lia.
Qed.

Lemma scan_spec g height width :
  match Maze.scan g height width with
  | Ok st => Forall (fun p => is_Some (Maze.grid_at g p)) (scan_order height width)
             /\ scan_inv g (scan_order height width) st
  | Raise e => e = IndexError
               /\ Exists (fun p => Maze.grid_at g p = None) (scan_order height width)
  | OutOfFuel => False
  end.
Proof. rewrite scan_flat. apply scan_fold_spec. Qed.

Lemma Maze_init_width (g : list (list cell)) :
  match g with [] => 0 | r :: _ => Z.of_nat (length r) end
  = Z.of_nat (length (default [] (head g))).
Proof. destruct g; reflexivity. Qed.

Lemma is_valid_of_token (m : Maze.t) p s :
  0 <= p.1 < Maze.height m -> 0 <= p.2 < Maze.width m ->
  Maze.grid_at (Maze.grid m) p = Some (CStr s) ->
  Maze.is_valid_position m p = true.
Proof.
  destruct p as [i j]. cbn [fst snd]. intros Hi Hj Hc. unfold Maze.is_valid_position.
  destruct (Z.leb_spec 0 i); [|lia]. destruct (Z.ltb_spec i (Maze.height m)); [|lia].
  destruct (Z.leb_spec 0 j); [|lia]. destruct (Z.ltb_spec j (Maze.width m)); [|lia].
  cbn [andb]. rewrite Hc. reflexivity.
Qed.



(** *** Terrain grids *)

Lemma TERRAIN_TYPES_passable_range s i :
  TerrainMaze.TERRAIN_TYPES !! s = Some i ->
  TerrainMaze.passable i = true ->
  exists x, TerrainMaze.cost i = Fin x /\ (1 # 2 <= x)%Q /\ (x <= 5)%Q.
Proof.
  intros Hs Hp.
  assert (Hin : (s, i) ∈ map_to_list TerrainMaze.TERRAIN_TYPES)
    by (apply elem_of_map_to_list; exact Hs).
  revert Hin Hp. clear Hs.
  assert (Hall : Forall (fun kv : string * TerrainMaze.info =>
                           TerrainMaze.passable kv.2 = true ->
                           exists x, TerrainMaze.cost kv.2 = Fin x
                                     /\ (1 # 2 <= x)%Q /\ (x <= 5)%Q)
                        (map_to_list TerrainMaze.TERRAIN_TYPES)).
  { vm_compute map_to_list.
    repeat (constructor;
            [simpl; first [discriminate
                          | intros _; eexists; split; [reflexivity|]; split; lra] |]).
    constructor. }
  intros Hin. rewrite Forall_forall in Hall. apply (Hall _ Hin).
Qed.

(** X8. The neighbours of a position of a terrain grid are the passable
    cells next to it.  A passable cell is a valid position and costs
    between 0.5 and 5; a position that is not valid reads as the empty
    token, costs infinity and is not passable. *)
Theorem terrain_neighbors_passable (m : TerrainMaze.t) (p n : pos) :
  (n ∈ TerrainMaze.get_neighbors m p <->
   TerrainMaze.is_passable m n = true
   /\ Z.abs (n.1 - p.1) + Z.abs (n.2 - p.2) = 1)
  /\ (TerrainMaze.is_passable m n = true ->
      Maze.is_valid_position (TerrainMaze.base m) n = true
      /\ exists x, TerrainMaze.get_terrain_cost m n = Fin x
                   /\ (1 # 2 <= x)%Q /\ (x <= 5)%Q)
  /\ (Maze.is_valid_position (TerrainMaze.base m) n = false ->
      TerrainMaze.get_terrain_type m n = CStr " "
      /\ TerrainMaze.get_terrain_cost m n = Inf
      /\ TerrainMaze.is_passable m n = false).
Proof.
  split; [|split].
  - destruct p as [row col]. destruct n as [r c]. unfold TerrainMaze.get_neighbors.
    rewrite list_elem_of_filter. simpl. rewrite !elem_of_cons, elem_of_nil.
    split.
    + intros [Hv Hn]. split; [exact Hv|].
      destruct Hn as [[= -> ->]|[[= -> ->]|[[= -> ->]|[[= -> ->]|[]]]]]; lia.
    + intros [Hv Hadj]. split; [exact Hv|].
      assert (Hcases : (r = row - 1 /\ c = col) \/ (r = row + 1 /\ c = col)
                       \/ (r = row /\ c = col - 1) \/ (r = row /\ c = col + 1)) by lia.
      destruct Hcases as [[-> ->]|[[-> ->]|[[-> ->]|[-> ->]]]]; tauto.
  - unfold TerrainMaze.is_passable, TerrainMaze.get_terrain_cost,
      TerrainMaze.get_terrain_info.
    destruct (Maze.is_valid_position (TerrainMaze.base m) n); [|discriminate].
    cbn [negb]. intros Hpass. split; [reflexivity|].
    destruct (TerrainMaze.get_terrain_type m n) as [z|s]; [discriminate|].
    destruct (TerrainMaze.TERRAIN_TYPES !! s) as [i|] eqn:Es; [|discriminate].
    simpl in *. exact (TERRAIN_TYPES_passable_range s i Es Hpass).
  - intros Hv. unfold TerrainMaze.is_passable, TerrainMaze.get_terrain_cost,
      TerrainMaze.get_terrain_info, TerrainMaze.get_terrain_type.
    rewrite Hv. cbn [negb].
    split; [reflexivity|split; vm_compute; reflexivity].
Qed.

(** ** Distances from a hero *)

Section Distances.
Context {M : Type} `{MazeLike M} (maze : M) (start : pos).

Local Abbreviation nbrs := (get_neighbors maze).
Local Abbreviation inv := (bfs_inv maze start).

(** A visited cell is reached by a path of as many steps as its depth. *)
Lemma bfs_inv_chain dist d cur queue visited :
  inv dist d cur queue visited ->
  forall n x, dist x = n -> is_Some (visited !! x) ->
    exists path, path_between maze start x path /\ edge_count path = n.
Proof.
  intros I. induction n as [|n IH]; intros x Hn [[p|] Hx].
  - destruct (bi_parent _ _ _ _ _ _ _ I x p Hx) as (_ & _ & Hd). lia.
  - apply (bi_root _ _ _ _ _ _ _ I) in Hx as ->.
    exists [start]. repeat split.
  - destruct (bi_parent _ _ _ _ _ _ _ I x p Hx) as (Hp & Hnb & Hd).
    destruct (IH p ltac:(lia) Hp) as (path & (Hhead & Hlast & Hwalk) & Hlen).
    exists (path ++ [x]). split; [split; [|split]|].
    + destruct path; [discriminate | exact Hhead].
    + apply last_snoc.
    + apply is_walk_snoc. split; [exact Hwalk|].
      intros a Ha. rewrite Hlast in Ha. injection Ha as <-. exact Hnb.
    + unfold edge_count in *. rewrite length_app. simpl.
      destruct path; [discriminate | simpl in *; lia].
  - apply (bi_root _ _ _ _ _ _ _ I) in Hx as ->.
    rewrite (bi_dist_start _ _ _ _ _ _ _ I) in Hn. discriminate.
Qed.

(** Once the queue is empty, a cell that a path reaches is visited and its
    depth is at most the number of steps of the path. *)
Lemma bfs_inv_closed_depth dist d visited path w :
  inv dist d None [] visited ->
  path_between maze start w path ->
  is_Some (visited !! w) /\ (dist w <= edge_count path)%nat.
Proof.
  intros I. revert w. unfold edge_count.
  induction path as [|b l IH] using rev_ind; intros w (Hhead & Hlast & Hwalk).
  - discriminate.
  - rewrite last_snoc in Hlast. injection Hlast as ->.
    destruct l as [|a l'] eqn:El.
    + simpl in Hhead. injection Hhead as ->.
      rewrite (bi_start _ _ _ _ _ _ _ I), (bi_dist_start _ _ _ _ _ _ _ I).
      split; [eauto | lia].
    + rewrite <- El in *. apply is_walk_snoc in Hwalk as [Hwalk Hstep].
      assert (Hl : exists p, last l = Some p).
      { subst l. destruct (last (a :: l')) eqn:E; [eauto|].
        apply last_None in E. discriminate. }
      destruct Hl as [p Hp].
      destruct (IH p) as [Hvis Hdp].
      { split; [|split; [exact Hp | exact Hwalk]]. subst l. exact Hhead. }
      destruct (bi_expanded _ _ _ _ _ _ _ I p w Hvis) as [Hw Hdw];
        [apply not_elem_of_nil|apply Hstep; exact Hp|discriminate|].
      split; [exact Hw|]. rewrite length_app. simpl.
      assert (length l <> 0)%nat by (subst l; discriminate). lia.
Qed.

Lemma distances_match_visit dist dist' d u ns qd dm queue visited v :
  inv dist d (Some (u, ns)) queue visited ->
  distances_match dist qd dm queue visited ->
  (forall x, is_Some (visited !! x) -> dist' x = dist x) ->
  (visited !! v = None -> dist' v = S d) ->
  distances_match dist'
    (distance_visit (Z.of_nat d) (qd, dm) v).1
    (distance_visit (Z.of_nat d) (qd, dm) v).2
    (bfs_visit u (queue, visited) v).1 (bfs_visit u (queue, visited) v).2.
Proof.
  intros I [Hq Hm] Hsame Hnew.
  assert (Hq' : qd = map (fun x => (x, Z.of_nat (dist' x))) queue).
  { rewrite Hq. apply map_ext_in. intros x Hx. apply list_elem_of_In in Hx.
    rewrite Hsame; [reflexivity|]. apply (bi_queue _ _ _ _ _ _ _ I x Hx). }
  assert (Hm' : forall x, dm !! x = (fun _ => Z.of_nat (dist' x)) <$> (visited !! x)).
  { intros x. rewrite Hm. destruct (visited !! x) eqn:Ex; [|reflexivity].
    simpl. rewrite Hsame by eauto. reflexivity. }
  unfold distance_visit, bfs_visit. cbn [fst snd].
  rewrite (Hm v). destruct (visited !! v) eqn:Ev; simpl.
  - split; assumption.
  - split.
    + rewrite map_app, <- Hq'. simpl. rewrite Hnew by reflexivity.
      do 3 f_equal. lia.
    + intros x. destruct (decide (x = v)) as [->|Hne].
      * rewrite !lookup_insert_eq. simpl. rewrite Hnew by reflexivity. f_equal. lia.
      * rewrite !lookup_insert_ne by congruence. apply Hm'.
Qed.

(** The neighbour loops of the two searches run side by side. *)
Lemma distances_match_fold
    (P : (pos -> nat) -> list pos -> gmap pos (option pos) -> Prop) d u :
  (forall dist ns queue visited v dist',
      inv dist d (Some (u, ns)) queue visited ->
      v ∈ nbrs u ->
      P dist queue visited ->
      (forall x, is_Some (visited !! x) -> dist' x = dist x) ->
      (visited !! v = None -> dist' v = S d) ->
      P dist' (bfs_visit u (queue, visited) v).1 (bfs_visit u (queue, visited) v).2) ->
  forall l dist ns qd dm queue visited,
    inv dist d (Some (u, ns)) queue visited ->
    distances_match dist qd dm queue visited ->
    P dist queue visited ->
    (forall v, v ∈ l -> v ∈ nbrs u) ->
    exists dist' queue' visited',
      inv dist' d (Some (u, reverse l ++ ns)) queue' visited'
      /\ distances_match dist'
           (foldl (distance_visit (Z.of_nat d)) (qd, dm) l).1
           (foldl (distance_visit (Z.of_nat d)) (qd, dm) l).2 queue' visited'
      /\ P dist' queue' visited'.
Proof.
  intros HP. induction l as [|v l IH]; intros dist ns qd dm queue visited I HR HPs Hl.
  - exists dist, queue, visited. auto.
  - assert (Hv : v ∈ nbrs u) by (apply Hl; left).
    destruct (bfs_inv_visit maze start dist d u ns queue visited v I Hv)
      as (dist1 & I1 & Hsame1 & Hnew1).
    pose proof (distances_match_visit dist dist1 d u ns qd dm queue visited v
                  I HR Hsame1 Hnew1) as HR1.
    pose proof (HP dist ns queue visited v dist1 I Hv HPs Hsame1 Hnew1) as HP1.
    cbn [foldl].
    destruct (distance_visit (Z.of_nat d) (qd, dm) v) as [qd1 dm1].
    destruct (bfs_visit u (queue, visited) v) as [q1 v1]. cbn [fst snd] in *.
    destruct (IH dist1 (v :: ns) qd1 dm1 q1 v1 I1 HR1 HP1)
      as (dist2 & q2 & v2 & I2 & HR2 & HP2).
    { intros w Hw. apply Hl. right. exact Hw. }
    exists dist2, q2, v2. rewrite reverse_cons, <- app_assoc. auto.
Qed.

(** One turn of the [while] loop of [calculate_distances]. *)
Lemma distances_match_step
    (P : (pos -> nat) -> list pos -> gmap pos (option pos) -> Prop)
    dist d u queue visited qd dm :
  (forall dist ns queue visited v dist',
      inv dist (dist u) (Some (u, ns)) queue visited ->
      v ∈ nbrs u ->
      P dist queue visited ->
      (forall x, is_Some (visited !! x) -> dist' x = dist x) ->
      (visited !! v = None -> dist' v = S (dist u)) ->
      P dist' (bfs_visit u (queue, visited) v).1 (bfs_visit u (queue, visited) v).2) ->
  inv dist d None (u :: queue) visited ->
  distances_match dist qd dm queue visited ->
  P dist queue visited ->
  exists dist' d' queue' visited',
    inv dist' d' None queue' visited'
    /\ distances_match dist'
         (foldl (distance_visit (Z.of_nat (dist u))) (qd, dm) (nbrs u)).1
         (foldl (distance_visit (Z.of_nat (dist u))) (qd, dm) (nbrs u)).2
         queue' visited'
    /\ P dist' queue' visited'.
Proof.
  intros HP I HR HPs. apply bfs_inv_pop in I.
  destruct (distances_match_fold P (dist u) u) with (l := nbrs u) (dist := dist)
    (ns := @nil pos) (qd := qd) (dm := dm) (queue := queue) (visited := visited)
    as (dist' & queue' & visited' & I' & HR' & HP'); auto.
  { intros dist0 ns queue0 visited0 v dist0' I0 Hv HP0 Hsame Hnew.
    destruct (bi_cur _ _ _ _ _ _ _ I0 u ns eq_refl) as (Hu & _ & Hdu).
    apply (HP dist0 ns); auto.
    - rewrite Hdu. exact I0.
    - rewrite Hdu. exact Hnew. }
  exists dist', (dist u), queue', visited'. split; [|auto].
  eapply bfs_inv_done; [exact I'|].
  intros v Hv. apply elem_of_app. left. apply elem_of_reverse. exact Hv.
Qed.

(** What the loop returns goes with a finished BFS. *)
Lemma distances_loop_match :
  forall fuel dist d queue visited qd dm dm',
    inv dist d None queue visited ->
    distances_match dist qd dm queue visited ->
    distances_loop fuel maze qd dm = Ok dm' ->
    exists dist' d' visited',
      inv dist' d' None [] visited'
      /\ distances_match dist' [] dm' [] visited'.
Proof.
  induction fuel as [|fuel IH]; intros dist d queue visited qd dm dm' I HR Hrun.
  - destruct HR as [Hq Hm]. destruct queue as [|u queue]; simpl in Hq; subst qd.
    + injection Hrun as <-. exists dist, d, visited. split; [exact I|]. split; auto.
    + discriminate.
  - destruct HR as [Hq Hm]. destruct queue as [|u queue]; simpl in Hq; subst qd.
    + injection Hrun as <-. exists dist, d, visited. split; [exact I|]. split; auto.
    + simpl in Hrun.
      destruct (distances_match_step (fun _ _ _ => True) dist d u queue visited
                  (map (fun x => (x, Z.of_nat (dist x))) queue) dm)
        as (dist' & d' & queue' & visited' & I' & HR' & _); auto.
      { split; [reflexivity | exact Hm]. }
      exact (IH _ _ _ _ _ _ _ I' HR' Hrun).
Qed.

Section Bounded.
Context (V : list pos).
Hypothesis V_NoDup : NoDup V.
Hypothesis V_closed : forall p n, n ∈ nbrs p -> n ∈ V.

Lemma distances_loop_returns :
  forall fuel dist d queue visited qd dm,
    inv dist d None queue visited ->
    distances_match dist qd dm queue visited ->
    bfs_budget V fuel dist queue visited ->
    exists dm', distances_loop fuel maze qd dm = Ok dm'.
Proof.
  induction fuel as [|fuel IH]; intros dist d queue visited qd dm I HR [Hdepth Hfuel].
  - destruct HR as [Hq Hm]. destruct queue as [|u queue]; simpl in Hq; subst qd.
    + simpl. eauto.
    + simpl in Hfuel. lia.
  - destruct HR as [Hq Hm]. destruct queue as [|u queue]; simpl in Hq; subst qd.
    + simpl. eauto.
    + simpl.
      destruct (distances_match_step (bfs_budget V fuel) dist d u queue visited
                  (map (fun x => (x, Z.of_nat (dist x))) queue) dm)
        as (dist' & d' & queue' & visited' & I' & HR' & HB'); auto.
      * intros. eapply (bfs_budget_visit maze start V V_NoDup V_closed); eauto.
      * split; [reflexivity | exact Hm].
      * split; [exact Hdepth | simpl in Hfuel; lia].
      * exact (IH _ _ _ _ _ _ I' HR' HB').
Qed.

End Bounded.

End Distances.

Lemma distances_match_init (s : pos) :
  distances_match (fun _ => 0%nat) [(s, 0)] {[s := 0]} [s] {[s := None]}.
Proof.
  split; [reflexivity|]. intros x. destruct (decide (x = s)) as [->|Hne].
  - rewrite !lookup_singleton_eq. reflexivity.
  - rewrite !lookup_singleton_ne by congruence. reflexivity.
Qed.

Lemma calculate_distances_spec {M : Type} `{MazeLike M} (maze : M) (s : pos)
    fuel distances :
  calculate_distances fuel maze (Some s) = Ok distances ->
  forall p k, distances !! p = Some k <-> shortest_distance maze s p k.
Proof.
  intros Hrun. simpl in Hrun.
  destruct (distances_loop_match maze s fuel (fun _ => 0%nat) 0%nat [s] {[s := None]}
              [(s, 0)] {[s := 0]} distances (bfs_inv_init maze s)
              (distances_match_init s) Hrun)
    as (dist & d & visited & I & _ & Hm).
  intros p k. rewrite Hm. split.
  - intros Hk. destruct (visited !! p) as [x|] eqn:Ep; [|discriminate].
    injection Hk as <-.
    destruct (bfs_inv_chain maze s dist d None [] visited I (dist p) p eq_refl)
      as (path & Hpath & Hlen); [eauto|].
    exists path. split; [exact Hpath|]. split; [rewrite Hlen; reflexivity|].
    intros other Hother. rewrite Hlen.
    apply (bfs_inv_closed_depth maze s dist d visited other p I Hother).
  - intros (path & Hpath & -> & Hmin).
    destruct (bfs_inv_closed_depth maze s dist d visited path p I Hpath) as [[x Hx] Hle].
    rewrite Hx. simpl. f_equal.
    destruct (bfs_inv_chain maze s dist d None [] visited I (dist p) p eq_refl)
      as (path' & Hpath' & Hlen'); [eauto|].
    specialize (Hmin path' Hpath'). lia.
Qed.

Lemma calculate_distances_returns {M : Type} `{MazeLike M} (maze : M) (s : pos)
    (V : list pos) (fuel : nat) :
  NoDup V ->
  (forall p n, n ∈ get_neighbors maze p -> n ∈ V) ->
  (length V < fuel)%nat ->
  exists distances, calculate_distances fuel maze (Some s) = Ok distances.
Proof.
  intros Hnd Hclosed Hfuel. simpl.
  apply (distances_loop_returns maze s V Hnd Hclosed fuel (fun _ => 0%nat) 0%nat
           [s] {[s := None]}); [apply bfs_inv_init|apply distances_match_init|].
  split.
  - intros x _. simpl. apply unvisited_length.
  - simpl. pose proof (unvisited_length V ({[s := None]} : gmap pos (option pos))). lia.
Qed.

(** X9. [calculate_distances] maps a cell to a number exactly when a path
    through neighbouring cells leads from the start position to the cell,
    and the number is then the number of steps of a shortest such path.
    Without a start position it returns the empty dictionary.  It returns
    once its fuel exceeds the number of cells that neighbour lists hold. *)
Theorem distances_are_shortest {M : Type} `{MazeLike M} (maze : M) (s : pos) :
  (forall fuel, calculate_distances fuel maze None = Ok ∅)
  /\ (forall fuel distances,
        calculate_distances fuel maze (Some s) = Ok distances ->
        forall p k, distances !! p = Some k <-> shortest_distance maze s p k)
  /\ (forall (V : list pos) (fuel : nat),
        NoDup V ->
        (forall p n, n ∈ get_neighbors maze p -> n ∈ V) ->
        (length V < fuel)%nat ->
        exists distances, calculate_distances fuel maze (Some s) = Ok distances).
Proof.
  split; [reflexivity|]. split.
  - intros fuel distances. apply calculate_distances_spec.
  - intros V fuel. apply calculate_distances_returns.
Qed.

Lemma distances_are_shortest_witness :
  exists distances,
    calculate_distances 40 default_maze (Some (0, 0)) = Ok distances
    /\ distances !! (4, 5) = Some 9
    /\ shortest_distance default_maze (0, 0) (4, 5) 9.
Proof.
  destruct (distances_are_shortest default_maze (0, 0)) as (_ & Hshort & Hret).
  destruct (Hret (get_all_valid_positions default_maze) 40%nat) as [distances Hrun].
  - apply Maze_all_valid_positions_NoDup.
  - intros p n Hn. apply Maze_all_valid_positions_spec.
    apply Maze_get_neighbors_spec in Hn. tauto.
  - vm_compute. lia.
  - exists distances. split; [exact Hrun|].
    assert (Hk : distances !! (4, 5) = Some 9).
    { assert (Hval : forall r, r = calculate_distances 40 default_maze (Some (0, 0)) ->
                       (d ← r; Ok (d !! (4, 5))) = Ok (Some 9))
        by (intros r ->; vm_compute; reflexivity).
      specialize (Hval (Ok distances) (eq_sym Hrun)). simpl in Hval. congruence. }
    split; [exact Hk|]. apply (Hshort 40%nat distances Hrun). exact Hk.
Defined.

(** ** The equidistant point *)

Lemma max_list_spec d ds : is_max_of (d :: ds) (max_list d ds).
Proof.
  unfold max_list. revert d. induction ds as [|x ds IH]; intros d; simpl.
  - split; [left|]. intros y Hy. apply list_elem_of_singleton in Hy. lia.
  - destruct (IH (Z.max d x)) as [Hin Hle]. split.
    + apply elem_of_cons in Hin as [Heq|Hin]; [|right; right; exact Hin].
      rewrite Heq. destruct (Z.max_spec d x) as [[_ ->]|[_ ->]]; [right; left | left].
    + intros y Hy. apply elem_of_cons in Hy as [->|Hy].
      * specialize (Hle (Z.max d x) ltac:(left)). lia.
      * apply elem_of_cons in Hy as [->|Hy].
        -- specialize (Hle (Z.max d x) ltac:(left)). lia.
        -- apply Hle. right. exact Hy.
Qed.

Lemma is_max_of_unique ds t t' : is_max_of ds t -> is_max_of ds t' -> t = t'.
Proof. intros [Hin Hle] [Hin' Hle']. specialize (Hle t' Hin'). specialize (Hle' t Hin). lia. Qed.

Lemma shortest_distance_unique {M : Type} `{MazeLike M} (maze : M) s p k k' :
  shortest_distance maze s p k -> shortest_distance maze s p k' -> k = k'.
Proof.
  intros (path & Hpath & -> & Hmin) (path' & Hpath' & -> & Hmin').
  specialize (Hmin path' Hpath'). specialize (Hmin' path Hpath). lia.
Qed.

Lemma num_ltb_of_Z a b : num_ltb (num_of_Z a) (num_of_Z b) = (a <? b).
Proof.
  unfold num_of_Z. simpl. destruct (Z.ltb_spec a b) as [Hlt|Hge].
  - apply Qltb_true. rewrite <- Zlt_Qlt. exact Hlt.
  - apply Qltb_false. rewrite <- Zle_Qle. exact Hge.
Qed.

Section Equidistant.
Context {M : Type} `{MazeLike M} (maze : M) (fuel : nat).

Lemma all_hero_distances_spec :
  forall heroes hero_distances,
    NoDup (od_keys heroes) ->
    all_hero_distances fuel maze heroes = Ok hero_distances ->
    forall id p, (id, p) ∈ heroes ->
      exists dm, od_get hero_distances id = Some dm
                 /\ calculate_distances fuel maze (Some p) = Ok dm.
Proof.
  unfold all_hero_distances.
  induction heroes as [|[id0 p0] heroes IH] using rev_ind;
    intros hd Hnd Hrun id p Hin.
  - apply elem_of_nil in Hin. destruct Hin.
  - rewrite foldl_app in Hrun. cbn [foldl] in Hrun.
    unfold od_keys in Hnd. rewrite map_app in Hnd. simpl in Hnd.
    apply NoDup_app in Hnd as (Hnd & Hfresh & _).
    match type of Hrun with
    | context [foldl ?f ?a heroes] =>
        destruct (foldl f a heroes) as [hd0| |] eqn:Efold
    end; cbn [mbind result_bind fst snd] in Hrun; try discriminate.
    destruct (calculate_distances fuel maze (Some p0)) as [d0| |] eqn:Ecalc;
      cbn [mbind result_bind fst snd] in Hrun; try discriminate.
    injection Hrun as <-.
    apply elem_of_app in Hin as [Hin|Hin].
    + destruct (IH hd0 Hnd eq_refl id p Hin) as (dm & Hget & Hcalc).
      exists dm. split; [|exact Hcalc].
      rewrite od_get_set_ne; [exact Hget|].
      intros <-. apply (Hfresh id0); [|left].
      apply list_elem_of_fmap. exists (id0, p). split; [reflexivity | exact Hin].
    + apply list_elem_of_singleton in Hin. injection Hin as -> ->.
      exists d0. split; [apply od_get_set_eq | exact Ecalc].
Qed.

Lemma all_hero_distances_returns (V : list pos) :
  NoDup V ->
  (forall p n, n ∈ get_neighbors maze p -> n ∈ V) ->
  (length V < fuel)%nat ->
  forall heroes, exists hero_distances,
    all_hero_distances fuel maze heroes = Ok hero_distances.
Proof.
  intros Hnd Hclosed Hfuel. unfold all_hero_distances.
  induction heroes as [|[id0 p0] heroes IH] using rev_ind; [simpl; eauto|].
  rewrite foldl_app. cbn [foldl]. destruct IH as [hd0 ->]. simpl.
  destruct (calculate_distances_returns maze p0 V fuel Hnd Hclosed Hfuel) as [d0 Hd0].
  simpl in Hd0. rewrite Hd0. simpl. eauto.
Qed.

Lemma distances_to_spec (hero_distances : odict string (gmap pos Z)) p :
  forall heroes : odict string pos,
    (forall id q, (id, q) ∈ heroes ->
       exists dm, od_get hero_distances id = Some dm
                  /\ calculate_distances fuel maze (Some q) = Ok dm) ->
    forall ds,
      distances_to hero_distances (od_keys heroes) p = Some ds
      <-> Forall2 (fun (hero : string * pos) d => shortest_distance maze hero.2 p d)
                  heroes ds.
Proof.
  induction heroes as [|[id q] heroes IH]; intros Hmaps ds.
  - simpl. split.
    + intros [= <-]. constructor.
    + intros Hall. inversion Hall. reflexivity.
  - destruct (Hmaps id q ltac:(left)) as (dm & Hget & Hcalc).
    assert (Hmaps' : forall id' q', (id', q') ∈ heroes ->
              exists dm', od_get hero_distances id' = Some dm'
                          /\ calculate_distances fuel maze (Some q') = Ok dm')
      by (intros id' q' Hin; apply Hmaps; right; exact Hin).
    specialize (IH Hmaps').
    pose proof (calculate_distances_spec maze q fuel dm Hcalc p) as Hspec.
    cbn [od_keys map fst distances_to]. rewrite Hget. cbn [mbind option_bind].
    split.
    + destruct (dm !! p) as [d|] eqn:Ed; simpl; [|discriminate].
      destruct (distances_to hero_distances (map fst heroes) p) as [ds0|] eqn:Eds;
        simpl; [|discriminate].
      intros [= <-]. constructor; [apply Hspec; reflexivity | apply IH; exact Eds].
    + intros Hall. inversion Hall as [|? d ? ds0 Hd Hrest]; subst.
      apply Hspec in Hd. simpl in Hd. rewrite Hd. simpl.
      apply IH in Hrest. unfold od_keys in Hrest. rewrite Hrest. reflexivity.
Qed.

Lemma listed_candidate_unique heroes hero_distances p k k' :
  listed_candidate heroes hero_distances p k ->
  listed_candidate heroes hero_distances p k' -> k = k'.
Proof.
  intros (_ & d & ds & Hd & ->) (_ & d' & ds' & Hd' & ->). congruence.
Qed.

Lemma consider_step heroes hero_distances seen st p :
  consider_inv heroes hero_distances seen st ->
  consider_inv heroes hero_distances (seen ++ [p])
               (consider heroes hero_distances st p).
Proof.
  intros Hinv.
  assert (Hsplit : forall q, q ∈ seen ++ [p] -> q ∈ seen \/ q = p).
  { intros q Hq. apply elem_of_app in Hq as [Hq|Hq]; [left; exact Hq|].
    apply list_elem_of_singleton in Hq. right. exact Hq. }
  assert (Hkeep : (forall k, ~ listed_candidate heroes hero_distances p k) ->
                  consider_inv heroes hero_distances (seen ++ [p]) st).
  { intros Hno. unfold consider_inv in *. destruct st.1 as [p0|].
    - destruct Hinv as (k & Hk & Hin & Hcand & Hmin). exists k.
      split; [exact Hk|]. split; [apply elem_of_app; left; exact Hin|].
      split; [exact Hcand|]. intros q k' Hq Hq'.
      destruct (Hsplit q Hq) as [Hs| ->]; [eauto | destruct (Hno k' Hq')].
    - destruct Hinv as [Hinf Hnone]. split; [exact Hinf|]. intros q k Hq Hq'.
      destruct (Hsplit q Hq) as [Hs| ->]; [exact (Hnone q k Hs Hq') | exact (Hno k Hq')]. }
  unfold consider.
  destruct (bool_decide (p ∈ od_values heroes)) eqn:Ehero.
  { apply Hkeep. intros k [Hnot _]. apply bool_decide_eq_true in Ehero. tauto. }
  apply bool_decide_eq_false in Ehero.
  destruct (distances_to hero_distances (od_keys heroes) p) as [[|d ds]|] eqn:Eds.
  { apply Hkeep. intros k (_ & d & ds & Hd & _). congruence. }
  2:{ apply Hkeep. intros k (_ & d & ds & Hd & _). congruence. }
  set (k := max_list d ds).
  assert (Hcand : listed_candidate heroes hero_distances p k).
  { split; [exact Ehero|]. exists d, ds. split; [exact Eds | reflexivity]. }
  assert (Hnew : num_ltb (num_of_Z k) st.2 = true ->
                 (forall q k', q ∈ seen ->
                    listed_candidate heroes hero_distances q k' -> k <= k') ->
                 consider_inv heroes hero_distances (seen ++ [p]) (Some p, num_of_Z k)).
  { intros _ Hmin. exists k. split; [reflexivity|].
    split; [apply elem_of_app; right; left|]. split; [exact Hcand|].
    intros q k' Hq Hq'. destruct (Hsplit q Hq) as [Hs| ->]; [eauto|].
    rewrite (listed_candidate_unique _ _ _ _ _ Hcand Hq'). lia. }
  assert (Hmin : num_ltb (num_of_Z k) st.2 = true ->
                 forall q k', q ∈ seen ->
                   listed_candidate heroes hero_distances q k' -> k <= k').
  { intros Hlt q k' Hq Hq'. unfold consider_inv in Hinv. destruct st.1 as [p0|].
    - destruct Hinv as (k0 & Hk0 & _ & _ & Hmin0). rewrite Hk0, num_ltb_of_Z in Hlt.
      apply Z.ltb_lt in Hlt. specialize (Hmin0 q k' Hq Hq'). lia.
    - destruct Hinv as [_ Hnone]. destruct (Hnone q k' Hq Hq'). }
  assert (Hold : num_ltb (num_of_Z k) st.2 = false ->
                 consider_inv heroes hero_distances (seen ++ [p]) st).
  { intros Hge. unfold consider_inv in *. destruct st.1 as [p0|].
    - destruct Hinv as (k0 & Hk0 & Hin & Hcand0 & Hmin0). exists k0.
      split; [exact Hk0|]. split; [apply elem_of_app; left; exact Hin|].
      split; [exact Hcand0|]. intros q k' Hq Hq'.
      destruct (Hsplit q Hq) as [Hs| ->]; [eauto|].
      rewrite <- (listed_candidate_unique _ _ _ _ _ Hcand Hq').
      rewrite Hk0, num_ltb_of_Z in Hge. apply Z.ltb_ge in Hge. exact Hge.
    - destruct Hinv as [Hinf _]. rewrite Hinf in Hge. discriminate Hge. }
  fold k. destruct (num_ltb (num_of_Z k) st.2) eqn:Elt.
  - destruct (min_list d ds =? k); simpl;
      (apply Hnew; [reflexivity | apply Hmin; reflexivity]).
  - rewrite andb_false_r. apply Hold. reflexivity.
Qed.

Lemma consider_fold heroes hero_distances l :
  consider_inv heroes hero_distances l
               (foldl (consider heroes hero_distances) (None, Inf) l).
Proof.
  induction l as [|p l IH] using rev_ind.
  - split; [reflexivity|]. intros q k Hq. apply elem_of_nil in Hq. destruct Hq.
  - rewrite foldl_app. apply consider_step. exact IH.
Qed.

Lemma listed_candidate_meeting hero_distances p k :
  (forall id q, (id, q) ∈ get_hero_positions maze ->
     exists dm, od_get hero_distances id = Some dm
                /\ calculate_distances fuel maze (Some q) = Ok dm) ->
  p ∈ get_all_valid_positions maze ->
  listed_candidate (get_hero_positions maze) hero_distances p k
  <-> meeting_candidate maze p k.
Proof.
  intros Hmaps Hvalid. unfold listed_candidate, meeting_candidate. split.
  - intros (Hnot & d & ds & Hd & ->). split; [exact Hvalid|]. split; [exact Hnot|].
    exists (d :: ds). split; [|apply max_list_spec].
    apply (distances_to_spec hero_distances p _ Hmaps). exact Hd.
  - intros (_ & Hnot & ds & Hall & Hmax). split; [exact Hnot|].
    apply (distances_to_spec hero_distances p _ Hmaps) in Hall.
    destruct ds as [|d ds]; [destruct Hmax as [Hin _]; apply elem_of_nil in Hin; tauto|].
    exists d, ds. split; [exact Hall|].
    apply (is_max_of_unique (d :: ds)); [exact Hmax | apply max_list_spec].
Qed.

End Equidistant.

Lemma find_equidistant_point_spec {M : Type} `{MazeLike M} (maze : M) fuel r :
  NoDup (od_keys (get_hero_positions maze)) ->
  (2 <= length (get_hero_positions maze))%nat ->
  find_equidistant_point fuel maze = Ok r ->
  match r with
  | Some (p, t) =>
      exists k, t = num_of_Z k /\ meeting_candidate maze p k
                /\ forall q k', meeting_candidate maze q k' -> k <= k'
  | None => forall q k, ~ meeting_candidate maze q k
  end.
Proof.
  intros Hnd Hlen.
  assert (Hguard : (length (get_hero_positions maze) <? 2)%nat = false)
    by (apply Nat.ltb_ge; exact Hlen).
  unfold find_equidistant_point. rewrite Hguard.
  destruct (all_hero_distances fuel maze (get_hero_positions maze))
    as [hd| |] eqn:Ehd; simpl; try discriminate.
  pose proof (all_hero_distances_spec maze fuel _ hd Hnd Ehd) as Hmaps.
  pose proof (consider_fold (get_hero_positions maze) hd
                (get_all_valid_positions maze)) as Hinv.
  unfold consider_inv in Hinv.
  destruct (foldl _ _ (get_all_valid_positions maze)) as [best t]. simpl in *.
  destruct best as [p|]; intros [= <-].
  - destruct Hinv as (k & -> & Hin & Hcand & Hmin). exists k.
    split; [reflexivity|].
    split; [apply (listed_candidate_meeting maze fuel hd p k Hmaps Hin); exact Hcand|].
    intros q k' Hq. pose proof Hq as (Hqv & _).
    apply (Hmin q k' Hqv).
    apply (listed_candidate_meeting maze fuel hd q k' Hmaps Hqv). exact Hq.
  - destruct Hinv as [_ Hnone]. intros q k Hq. pose proof Hq as (Hqv & _).
    apply (Hnone q k Hqv).
    apply (listed_candidate_meeting maze fuel hd q k Hmaps Hqv). exact Hq.
Qed.

(** X10. With two heroes or more (under distinct identifiers, as in any
    dictionary), the point [find_equidistant_point] returns is a valid
    position where no hero stands and that every hero can reach, the
    distance it returns is the largest of the heroes' shortest distances
    to it, and no such position has a smaller largest distance.  It
    returns [None] only when there is no such position.  It returns once
    its fuel exceeds the number of cells that neighbour lists hold. *)
Theorem equidistant_point_is_minimax {M : Type} `{MazeLike M} (maze : M) :
  NoDup (od_keys (get_hero_positions maze)) ->
  (2 <= length (get_hero_positions maze))%nat ->
  (forall fuel r,
      find_equidistant_point fuel maze = Ok r ->
      match r with
      | Some (p, t) =>
          exists k, t = num_of_Z k /\ meeting_candidate maze p k
                    /\ forall q k', meeting_candidate maze q k' -> k <= k'
      | None => forall q k, ~ meeting_candidate maze q k
      end)
  /\ (forall (V : list pos) (fuel : nat),
        NoDup V ->
        (forall p n, n ∈ get_neighbors maze p -> n ∈ V) ->
        (length V < fuel)%nat ->
        exists r, find_equidistant_point fuel maze = Ok r).
Proof.
  intros Hnd Hlen. split.
  - intros fuel r. apply find_equidistant_point_spec; assumption.
  - intros V fuel HV Hclosed Hfuel. unfold find_equidistant_point.
    assert (Hguard : (length (get_hero_positions maze) <? 2)%nat = false)
      by (apply Nat.ltb_ge; exact Hlen).
    rewrite Hguard.
    destruct (all_hero_distances_returns maze fuel V HV Hclosed Hfuel
                (get_hero_positions maze)) as [hd ->].
    simpl. destruct (foldl _ _ _).1; eauto.
Qed.

Lemma equidistant_point_is_minimax_witness :
  find_equidistant_point 10 corridor_maze = Ok (Some ((0, 2), num_of_Z 2))
  /\ meeting_candidate corridor_maze (0, 2) 2
  /\ forall q k', meeting_candidate corridor_maze q k' -> 2 <= k'.
Proof.
  assert (Hrun : find_equidistant_point 10 corridor_maze
                 = Ok (Some ((0, 2), num_of_Z 2))) by (vm_compute; reflexivity).
  split; [exact Hrun|].
  destruct (equidistant_point_is_minimax corridor_maze) as [Hpoint _].
  - refine (bool_decide_unpack _ _). vm_compute. exact Logic.I.
  - vm_compute. lia.
  - destruct (Hpoint 10%nat _ Hrun) as (k & Hk & Hcand & Hmin).
    assert (k = 2) as ->.
    { unfold num_of_Z, inject_Z in Hk. injection Hk as Hk. lia. }
    split; assumption.
Defined.

(** ** Paths to the equidistant point *)

Section FindPath.
Context {M : Type} `{MazeLike M} (maze : M).

Lemma _find_path_Some fuel s e path :
  _find_path fuel maze s e = Ok (Some path) ->
  path_between maze s e path
  /\ shortest_distance maze s e (Z.of_nat (edge_count path)).
Proof.
  intros Hrun.
  destruct (bfs_loop_correct maze s e fuel fuel (fun _ => 0%nat) 0%nat [s] {[s := None]}
              path (bfs_inv_init maze s) Hrun) as [Hpath Hmin].
  split; [exact Hpath|]. exists path. auto.
Qed.

Lemma _find_path_None fuel s e :
  _find_path fuel maze s e = Ok None ->
  forall path, ~ path_between maze s e path.
Proof.
  intros Hrun.
  apply (bfs_loop_None maze s e fuel fuel (fun _ => 0%nat) 0%nat [s] {[s := None]});
    [apply bfs_inv_init| |exact Hrun].
  intros x [y Hx] Hnot. apply lookup_singleton_Some in Hx as [<- _].
  exfalso. apply Hnot. left.
Qed.

Lemma _find_path_returns (V : list pos) fuel s e :
  NoDup V ->
  (forall p n, n ∈ get_neighbors maze p -> n ∈ V) ->
  (length V < fuel)%nat ->
  exists r, _find_path fuel maze s e = Ok r.
Proof.
  intros Hnd Hclosed Hfuel.
  apply (bfs_loop_returns maze s e fuel V Hnd Hclosed fuel (fun _ => 0%nat) 0%nat);
    [apply bfs_inv_init| |exact Hfuel].
  split.
  - intros x _. simpl. apply unvisited_length.
  - simpl. pose proof (unvisited_length V ({[s := None]} : gmap pos (option pos))). lia.
Qed.

End FindPath.

(** X11. The two breadth-first searches of [EquidistantFinder] agree:
    [_find_path] returns a path from [start] to [end] exactly when
    [calculate_distances] from [start] has an entry for [end], the path
    leads from [start] to [end] through neighbouring cells, and its number
    of steps is that entry.  It returns once its fuel exceeds the number
    of cells that neighbour lists hold. *)
Theorem find_path_agrees_with_distances {M : Type} `{MazeLike M} (maze : M)
    (fuel fuel' : nat) (s e : pos) (distances : gmap pos Z) :
  calculate_distances fuel' maze (Some s) = Ok distances ->
  (forall path,
      _find_path fuel maze s e = Ok (Some path) ->
      path_between maze s e path
      /\ distances !! e = Some (Z.of_nat (edge_count path)))
  /\ (_find_path fuel maze s e = Ok None -> distances !! e = None)
  /\ (forall V : list pos,
        NoDup V ->
        (forall p n, n ∈ get_neighbors maze p -> n ∈ V) ->
        (length V < fuel)%nat ->
        exists r, _find_path fuel maze s e = Ok r).
Proof.
  intros Hcalc. split; [|split].
  - intros path Hrun. destruct (_find_path_Some maze fuel s e path Hrun) as [Hpath Hshort].
    split; [exact Hpath|].
    apply (calculate_distances_spec maze s fuel' distances Hcalc). exact Hshort.
  - intros Hrun. destruct (distances !! e) as [k|] eqn:Ek; [|reflexivity].
    apply (calculate_distances_spec maze s fuel' distances Hcalc) in Ek
      as (path & Hpath & _).
    destruct (_find_path_None maze fuel s e Hrun path Hpath).
  - intros V HV Hclosed Hfuel.
    exact (_find_path_returns maze V fuel s e HV Hclosed Hfuel).
Qed.

Lemma find_path_agrees_with_distances_witness :
  exists distances,
    calculate_distances 40 default_maze (Some (0, 0)) = Ok distances
    /\ _find_path 40 default_maze (0, 0) (4, 5) = Ok (Some default_maze_path)
    /\ distances !! (4, 5) = Some 9.
Proof.
  destruct (calculate_distances_returns default_maze (0, 0)
              (get_all_valid_positions default_maze) 40) as [distances Hcalc].
  - apply Maze_all_valid_positions_NoDup.
  - intros p n Hn. apply Maze_all_valid_positions_spec.
    apply Maze_get_neighbors_spec in Hn. tauto.
  - vm_compute. lia.
  - exists distances. split; [exact Hcalc|].
    assert (Hrun : _find_path 40 default_maze (0, 0) (4, 5) = Ok (Some default_maze_path))
      by (vm_compute; reflexivity).
    split; [exact Hrun|].
    destruct (find_path_agrees_with_distances default_maze 40 40 (0, 0) (4, 5)
                distances Hcalc) as [Hsome _].
    destruct (Hsome default_maze_path Hrun) as [_ Hd]. exact Hd.
Defined.

Lemma get_paths_fold {M : Type} `{MazeLike M} (maze : M) fuel p :
  forall heroes : odict string pos,
    NoDup (od_keys heroes) ->
    (forall id q, (id, q) ∈ heroes -> exists r, _find_path fuel maze q p = Ok r) ->
    exists paths,
      foldl (fun acc (hero : string * pos) =>
               paths ← acc;
               path ← _find_path fuel maze hero.2 p;
               Ok (od_set paths hero.1 path))
            (Ok []) heroes = Ok paths
      /\ forall id q, (id, q) ∈ heroes ->
           exists r, _find_path fuel maze q p = Ok r /\ od_get paths id = Some r.
Proof.
  induction heroes as [|[id0 q0] heroes IH] using rev_ind; intros Hnd Hret.
  - exists []. split; [reflexivity|]. intros id q Hin. apply elem_of_nil in Hin. tauto.
  - unfold od_keys in Hnd. rewrite map_app in Hnd. simpl in Hnd.
    apply NoDup_app in Hnd as (Hnd & Hfresh & _).
    destruct (IH Hnd) as (paths0 & Hfold & Hspec).
    { intros id q Hin. apply (Hret id q). apply elem_of_app. left. exact Hin. }
    destruct (Hret id0 q0) as [r0 Hr0]; [apply elem_of_app; right; left|].
    exists (od_set paths0 id0 r0). split.
    + rewrite foldl_app. cbn [foldl]. rewrite Hfold.
      cbn [mbind result_bind fst snd]. rewrite Hr0. reflexivity.
    + intros id q Hin. apply elem_of_app in Hin as [Hin|Hin].
      * destruct (Hspec id q Hin) as (r & Hr & Hget). exists r. split; [exact Hr|].
        rewrite od_get_set_ne; [exact Hget|].
        intros <-. apply (Hfresh id0); [|left].
        apply list_elem_of_fmap. exists (id0, q). split; [reflexivity | exact Hin].
      * apply list_elem_of_singleton in Hin. injection Hin as -> ->.
        exists r0. split; [exact Hr0 | apply od_get_set_eq].
Qed.

(** X12. When [find_equidistant_point] returns a point and a distance,
    [get_paths_to_equidistant_point] gives every hero a path to that
    point, never [None]: the path leads from the hero's position to the
    point through neighbouring cells and has no more steps than the
    distance returned. *)
Theorem paths_reach_equidistant_point {M : Type} `{MazeLike M} (maze : M)
    (V : list pos) (fuel : nat) (p : pos) (t : num) :
  NoDup (od_keys (get_hero_positions maze)) ->
  (2 <= length (get_hero_positions maze))%nat ->
  NoDup V ->
  (forall p n, n ∈ get_neighbors maze p -> n ∈ V) ->
  (length V < fuel)%nat ->
  find_equidistant_point fuel maze = Ok (Some (p, t)) ->
  exists paths,
    get_paths_to_equidistant_point fuel maze p = Ok paths
    /\ forall id q, (id, q) ∈ get_hero_positions maze ->
         exists path, od_get paths id = Some (Some path)
                      /\ path_between maze q p path
                      /\ num_le (num_of_Z (Z.of_nat (edge_count path))) t.
Proof.
  intros Hnd Hlen HV Hclosed Hfuel Hrun.
  destruct (find_equidistant_point_spec maze fuel _ Hnd Hlen Hrun)
    as (k & -> & (_ & _ & ds & Hall & Hmax) & _).
  destruct (get_paths_fold maze fuel p (get_hero_positions maze) Hnd)
    as (paths & Hfold & Hspec).
  { intros id q _. apply (_find_path_returns maze V fuel q p HV Hclosed Hfuel). }
  exists paths. split; [exact Hfold|]. intros id q Hin.
  destruct (Hspec id q Hin) as (r & Hr & Hget).
  apply list_elem_of_lookup in Hin as [i Hi].
  destruct (Forall2_lookup_l _ _ _ _ _ Hall Hi) as (d & Hd & Hshort).
  simpl in Hshort.
  destruct r as [path|].
  - exists path. split; [exact Hget|].
    destruct (_find_path_Some maze fuel q p path Hr) as [Hpath Hshort'].
    split; [exact Hpath|].
    rewrite (shortest_distance_unique maze q p _ _ Hshort' Hshort).
    destruct Hmax as [_ Hle]. specialize (Hle d ltac:(eapply list_elem_of_lookup_2; eauto)).
    unfold num_of_Z. simpl. rewrite <- Zle_Qle. exact Hle.
  - destruct Hshort as (path & Hpath & _).
    destruct (_find_path_None maze fuel q p Hr path Hpath).
Qed.

Lemma paths_reach_equidistant_point_witness :
  exists paths,
    get_paths_to_equidistant_point 10 corridor_maze (0, 2) = Ok paths
    /\ exists path, od_get paths "2"%string = Some (Some path)
                    /\ path_between corridor_maze (0, 4) (0, 2) path.
Proof.
  destruct (paths_reach_equidistant_point corridor_maze
              (get_all_valid_positions corridor_maze) 10 (0, 2) (num_of_Z 2))
    as (paths & Hpaths & Hall).
  - refine (bool_decide_unpack _ _). vm_compute. exact Logic.I.
  - vm_compute. lia.
  - apply Maze_all_valid_positions_NoDup.
  - intros p n Hn. apply Maze_all_valid_positions_spec.
    apply Maze_get_neighbors_spec in Hn. tauto.
  - vm_compute. lia.
  - vm_compute. reflexivity.
  - exists paths. split; [exact Hpaths|].
    destruct (Hall "2"%string (0, 4)) as (path & Hget & Hpath & _).
    + right. left.
    + exists path. split; assumption.
Defined.

(** ** Arrival times at a gathering point *)

Lemma times_in_order_spec (times : odict nat num) :
  forall n,
    (forall idx, (idx < n)%nat -> is_Some (od_get times idx)) ->
    exists l, times_in_order times n = Ok l
              /\ length l = n
              /\ forall idx, (idx < n)%nat -> od_get times idx = l !! idx.
Proof.
  unfold times_in_order. induction n as [|n IH]; intros Hall.
  - exists []. split; [reflexivity|]. split; [reflexivity|]. intros idx Hidx. lia.
  - destruct IH as (l & Hrun & Hlen & Hl); [intros idx Hidx; apply Hall; lia|].
    destruct (Hall n) as [t Ht]; [lia|].
    exists (l ++ [t]). rewrite seq_S, foldl_app. cbn [foldl]. rewrite Hrun.
    cbn [mbind result_bind]. simpl. rewrite Ht.
    split; [reflexivity|]. split; [rewrite length_app; simpl; lia|].
    intros idx Hidx. destruct (decide (idx = n)) as [->|Hne].
    + rewrite lookup_app_r by lia. rewrite Hlen, Nat.sub_diag. exact Ht.
    + rewrite lookup_app_l by lia. apply Hl. lia.
Qed.

Lemma get_arrival_times_spec {M : Type} `{TerrainLike M} (maze : M)
    (fuel : nat) (sources : list pos) (speeds : option (list Q))
    (distances : odict pos (odict nat num)) (gp : pos) :
  (forall p v, v ∈ get_neighbors maze p -> is_finite (get_terrain_cost maze v)) ->
  compute_distances_with_costs fuel maze sources speeds = Ok distances ->
  exists l,
    get_arrival_times fuel maze (Some gp) sources speeds = Ok l
    /\ ((has_all_entries (length sources) distances gp
         /\ length l = length sources
         /\ exists times, od_get distances gp = Some times
              /\ forall idx, (idx < length sources)%nat ->
                             od_get times idx = l !! idx)
        \/ (~ has_all_entries (length sources) distances gp /\ l = [])).
Proof.
  intros finite_neighbors Hcompute.
  pose proof (compute_distances_wf maze fuel sources speeds distances
                finite_neighbors Hcompute) as Hwf.
  unfold get_arrival_times.
  destruct sources as [|s0 sources'].
  { exists []. split; [reflexivity|]. right. split; [|reflexivity].
    intros (times & Hget & _).
    unfold compute_distances_with_costs in Hcompute. injection Hcompute as <-.
    discriminate Hget. }
  rewrite Hcompute. cbn [mbind result_bind].
  set (n := length (s0 :: sources')) in *.
  change (od_get (V := list (nat * num)) distances gp)
    with (od_get (V := odict nat num) distances gp).
  destruct (od_get distances gp) as [times|] eqn:Eget.
  2:{ exists []. split; [reflexivity|]. right. split; [|reflexivity].
      intros (times & Hget & _). congruence. }
  destruct (decide (length times ≠ n)) as [Hne|Heq].
  { exists []. split; [reflexivity|]. right. split; [|reflexivity].
    intros Hall. apply (considered_iff_all_entries _ _ _ Hwf) in Hall
      as (times' & Hget' & Hlen). congruence. }
  assert (Hall : has_all_entries n distances gp).
  { apply (considered_iff_all_entries _ _ _ Hwf). exists times. split; [exact Eget | lia]. }
  pose proof Hall as (times' & Hget' & Hidx).
  rewrite Eget in Hget'. injection Hget' as <-.
  destruct (times_in_order_spec times n Hidx) as (l & Hrun & Hlen & Hl).
  exists l. split; [exact Hrun|]. left. split; [exact Hall|]. split; [exact Hlen|].
  exists times. split; [reflexivity | exact Hl].
Qed.

(** X13. When the table of arrival times is computed, [get_arrival_times]
    raises nothing, in particular no [KeyError]: for a gathering point
    with an arrival time from every source it returns these times in the
    order of the sources, and for every other point the empty list. *)
Theorem arrival_times_in_source_order {M : Type} `{TerrainLike M} (maze : M)
    (fuel : nat) (sources : list pos) (speeds : option (list Q))
    (distances : odict pos (odict nat num)) (gathering_point : pos) :
  (forall p v, v ∈ get_neighbors maze p -> is_finite (get_terrain_cost maze v)) ->
  compute_distances_with_costs fuel maze sources speeds = Ok distances ->
  exists l,
    get_arrival_times fuel maze (Some gathering_point) sources speeds = Ok l
    /\ ((has_all_entries (length sources) distances gathering_point
         /\ length l = length sources
         /\ exists times, od_get distances gathering_point = Some times
              /\ forall idx, (idx < length sources)%nat ->
                             od_get times idx = l !! idx)
        \/ (~ has_all_entries (length sources) distances gathering_point
            /\ l = [])).
Proof. intros Hfin Hcompute. eapply get_arrival_times_spec; eauto. Qed.

Lemma arrival_times_in_source_order_witness :
  get_arrival_times 600 default_terrain_maze (Some (6, 4))
    [(1, 1); (5, 10); (10, 1)] None
  = Ok [Fin (52 # 8); Fin (24 # 4); Fin 7].
Proof.
  destruct (compute_distances_with_costs 600 default_terrain_maze
              [(1, 1); (5, 10); (10, 1)] None) as [distances| |] eqn:Ecompute.
  - destruct (arrival_times_in_source_order default_terrain_maze 600
                [(1, 1); (5, 10); (10, 1)] None distances (6, 4)
                (TerrainMaze_neighbors_finite default_terrain_maze) Ecompute)
      as (l & Hrun & _).
    vm_compute. reflexivity.
  - vm_compute in Ecompute. discriminate Ecompute.
  - vm_compute in Ecompute. discriminate Ecompute.
Defined.

Lemma get_max_arrival_time_spec {M : Type} `{TerrainLike M} (maze : M)
    (fuel : nat) (sources : list pos) (speeds : option (list Q))
    (distances : odict pos (odict nat num)) (gp : pos) :
  (forall p v, v ∈ get_neighbors maze p -> is_finite (get_terrain_cost maze v)) ->
  compute_distances_with_costs fuel maze sources speeds = Ok distances ->
  exists t,
    get_max_arrival_time fuel maze (Some gp) sources speeds = Ok t
    /\ ((exists times, od_get distances gp = Some times
           /\ length times = length sources /\ is_max_time times t)
        \/ (~ considered (length sources) distances gp /\ t = Inf)).
Proof.
  intros Hfin Hcompute.
  pose proof (compute_distances_wf maze fuel sources speeds distances Hfin Hcompute)
    as Hwf.
  destruct (get_arrival_times_spec maze fuel sources speeds distances gp Hfin Hcompute)
    as (l & Hrun & Hcase).
  unfold get_max_arrival_time. rewrite Hrun. cbn [mbind result_bind].
  destruct Hcase as [(Hall & Hlen & times & Hget & Hl)|[Hnot ->]].
  2:{ exists Inf. split; [reflexivity|]. right. split; [|reflexivity].
      intros Hc. apply Hnot. apply (considered_iff_all_entries _ _ _ Hwf). exact Hc. }
  apply (considered_iff_all_entries _ _ _ Hwf) in Hall as (times' & Hget' & Hlen').
  rewrite Hget in Hget'. injection Hget' as <-.
  destruct Hwf as [Hnd Hrows].
  destruct (Hrows gp times) as [Hknd Hentries]; [apply od_get_elem; assumption|].
  destruct l as [|t0 ts].
  { exfalso. destruct times as [|e times]; [|simpl in *; lia].
    destruct sources; [|simpl in *; lia].
    unfold compute_distances_with_costs in Hcompute. injection Hcompute as <-.
    discriminate Hget. }
  exists (foldl num_max t0 ts). split; [reflexivity|]. left.
  exists times. split; [exact Hget|]. split; [exact Hlen'|].
  destruct (num_max_foldl ts t0) as [Hin Hmax]. split.
  - apply list_elem_of_lookup in Hin as [idx Hidx].
    assert (Hlt : (idx < length sources)%nat)
      by (rewrite <- Hlen; eapply lookup_lt_Some; eauto).
    rewrite <- (Hl idx Hlt) in Hidx.
    apply od_get_Some_In in Hidx. apply list_elem_of_In in Hidx.
    unfold od_values. apply list_elem_of_fmap. exists (idx, foldl num_max t0 ts).
    split; [reflexivity | exact Hidx].
  - intros v Hv. unfold od_values in Hv.
    apply list_elem_of_fmap in Hv as ([i t] & -> & Hit). simpl.
    destruct (Hentries i t Hit) as [Hi _].
    apply Hmax. apply list_elem_of_lookup. exists i.
    rewrite <- (Hl i Hi). apply od_get_elem; assumption.
Qed.

Lemma find_optimal_pick {M : Type} `{TerrainLike M} (maze : M)
    (fuel : nat) (sources : list pos) (speeds : option (list Q)) (p : pos) :
  find_optimal_gathering_point fuel maze sources speeds = Ok (Some p) ->
  exists distances best,
    compute_distances_with_costs fuel maze sources speeds = Ok distances
    /\ pick_inv (length sources) distances (best, Some p).
Proof.
  unfold find_optimal_gathering_point.
  destruct sources as [|s0 sources']; [discriminate|].
  destruct (compute_distances_with_costs fuel maze (s0 :: sources') speeds)
    as [distances| |]; cbn [mbind result_bind]; try discriminate.
  set (n := length (s0 :: sources')).
  assert (Hn : (1 <= n)%nat) by (unfold n; simpl; lia).
  destruct (pick_fold n Hn distances [] (Inf, None)) as ([best opt] & Hrun & Hinv).
  { split; [|reflexivity]. intros q times t Hin. apply elem_of_nil in Hin. tauto. }
  destruct distances as [|row rows]; [discriminate|].
  rewrite Hrun. cbn [mbind result_bind snd]. intros [= ->].
  exists (row :: rows), best. split; [reflexivity | exact Hinv].
Qed.

(** X14. The point [find_optimal_gathering_point] returns has a finite
    [get_max_arrival_time], and no gathering point, reachable by all
    sources or not, has a smaller one. *)
Theorem optimal_point_has_least_max_arrival {M : Type} `{TerrainLike M}
    (maze : M) (fuel : nat) (sources : list pos) (speeds : option (list Q))
    (p : pos) :
  (forall p v, v ∈ get_neighbors maze p -> is_finite (get_terrain_cost maze v)) ->
  find_optimal_gathering_point fuel maze sources speeds = Ok (Some p) ->
  exists t,
    get_max_arrival_time fuel maze (Some p) sources speeds = Ok t
    /\ is_finite t
    /\ forall q t',
         get_max_arrival_time fuel maze q sources speeds = Ok t' -> num_le t t'.
Proof.
  intros Hfin Hrun.
  destruct (find_optimal_pick maze fuel sources speeds p Hrun)
    as (distances & best & Hcompute & [Hbest Hopt]).
  simpl in Hbest, Hopt. destruct Hopt as (times & Hin & Hlen & Hmax).
  pose proof (compute_distances_wf maze fuel sources speeds distances Hfin Hcompute)
    as [Hnd Hrows].
  assert (Hget : od_get distances p = Some times) by (apply od_get_elem; assumption).
  destruct (get_max_arrival_time_spec maze fuel sources speeds distances p Hfin Hcompute)
    as (t & Ht & [(times' & Hget' & _ & Hmax')|[Hnot _]]).
  2:{ exfalso. apply Hnot. exists times. tauto. }
  rewrite Hget in Hget'. injection Hget' as <-.
  exists t. split; [exact Ht|]. split.
  - destruct Hmax' as [Hint _]. unfold od_values in Hint.
    apply list_elem_of_fmap in Hint as ([i t0] & -> & Hit).
    destruct (Hrows p times Hin) as [_ Hentries]. apply (Hentries i t0 Hit).
  - intros q t' Hq.
    assert (Hle : num_le t best) by (apply (is_max_time_le times); assumption).
    destruct q as [q|].
    2:{ unfold get_max_arrival_time, get_arrival_times in Hq.
        cbn [mbind result_bind] in Hq. injection Hq as <-. destruct t; exact Logic.I. }
    destruct (get_max_arrival_time_spec maze fuel sources speeds distances q Hfin Hcompute)
      as (t'' & Ht'' & Hcase).
    rewrite Hq in Ht''. injection Ht'' as <-.
    destruct Hcase as [(timesq & Hgetq & Hlenq & Hmaxq)|[_ ->]].
    + eapply num_le_trans; [exact Hle|].
      apply (Hbest q timesq t'); [|exact Hlenq|exact Hmaxq].
      apply od_get_elem; assumption.
    + destruct t; exact Logic.I.
Qed.

Lemma optimal_point_has_least_max_arrival_witness :
  get_max_arrival_time 600 default_terrain_maze (Some (6, 4))
    [(1, 1); (5, 10); (10, 1)] None = Ok (Fin 7)
  /\ forall q t',
       get_max_arrival_time 600 default_terrain_maze q
         [(1, 1); (5, 10); (10, 1)] None = Ok t' ->
       num_le (Fin 7) t'.
Proof.
  destruct (optimal_point_has_least_max_arrival default_terrain_maze 600
              [(1, 1); (5, 10); (10, 1)] None (6, 4)
              (TerrainMaze_neighbors_finite default_terrain_maze))
    as (t & Ht & _ & Hmin); [vm_compute; reflexivity|].
  assert (Hval : get_max_arrival_time 600 default_terrain_maze (Some (6, 4))
                   [(1, 1); (5, 10); (10, 1)] None = Ok (Fin 7))
    by (vm_compute; reflexivity).
  split; [exact Hval|].
  pose proof (eq_trans (eq_sym Ht) Hval) as Heq. injection Heq as ->. exact Hmin.
Defined.

(** ** Sources and speeds that cannot be used *)

Section BadInputs.
Context {M : Type} `{TerrainLike M} (maze : M) (fuel : nat).

Lemma relax_time_fold_Raise speed t e l :
  foldl (relax_time maze speed t) (Raise e) l = Raise e.
Proof. induction l as [|v l IH]; [reflexivity | exact IH]. Qed.

Lemma from_source_fold_Raise e items :
  foldl (from_source fuel maze) (Raise e) items = Raise e.
Proof. induction items as [|x items IH]; [reflexivity | exact IH]. Qed.

Lemma from_source_fold_invalid items distances :
  (forall idx s sp, (idx, (s, sp)) ∈ items -> is_valid_position maze s = false) ->
  foldl (from_source fuel maze) (Ok distances) items = Ok distances.
Proof.
  induction items as [|[idx [s sp]] items IH]; intros Hinv; [reflexivity|].
  cbn [foldl]. unfold from_source at 2. cbn [mbind result_bind].
  rewrite (Hinv idx s sp) by left. simpl. apply IH.
  intros idx' s' sp' Hin. apply (Hinv idx' s' sp'). right. exact Hin.
Qed.

End BadInputs.

(** X15. [compute_distances_with_costs] returns the empty table for an
    empty list of sources, whatever the speeds; for other sources it
    raises [ValueError] when the number of speeds differs from the number
    of sources; it skips sources that are not valid positions, so that
    with no valid source the table is empty and
    [find_optimal_gathering_point] returns [None]; and it raises
    [ZeroDivisionError] when the first source is valid, has a neighbour
    and has speed zero. *)
Theorem compute_distances_bad_inputs {M : Type} `{TerrainLike M} (maze : M) :
  (forall fuel speeds, compute_distances_with_costs fuel maze [] speeds = Ok [])
  /\ (forall fuel sources l,
        sources <> [] -> length sources <> length l ->
        compute_distances_with_costs fuel maze sources (Some l) = Raise ValueError)
  /\ (forall fuel sources speeds,
        sources <> [] ->
        (forall l, speeds = Some l -> length l = length sources) ->
        (forall s, s ∈ sources -> is_valid_position maze s = false) ->
        compute_distances_with_costs fuel maze sources speeds = Ok []
        /\ find_optimal_gathering_point fuel maze sources speeds = Ok None)
  /\ (forall fuel s sources sp l,
        length sources = length l ->
        is_valid_position maze s = true ->
        get_neighbors maze s <> [] ->
        (sp == 0)%Q ->
        compute_distances_with_costs (S fuel) maze (s :: sources) (Some (sp :: l))
        = Raise ZeroDivisionError).
Proof.
  split; [reflexivity|]. split; [|split].
  - intros fuel sources l Hne Hlen. unfold compute_distances_with_costs.
    destruct sources as [|s sources]; [congruence|]. cbn [default from_option id].
    destruct (decide (length (s :: sources) <> length l)); [reflexivity | tauto].
  - intros fuel sources speeds Hne Hlen Hinv.
    assert (Hcompute : compute_distances_with_costs fuel maze sources speeds = Ok []).
    { unfold compute_distances_with_costs.
      destruct sources as [|s sources]; [congruence|].
      set (sps := default (replicate (length (s :: sources)) 1%Q) speeds).
      assert (Hsps : length (s :: sources) = length sps).
      { unfold sps. destruct speeds as [l|]; simpl.
        - symmetry. apply (Hlen l eq_refl).
        - rewrite length_replicate. reflexivity. }
      destruct (decide (length (s :: sources) <> length sps)); [tauto|].
      apply from_source_fold_invalid. intros idx s' sp' Hin.
      apply Hinv. apply enumerate_elem in Hin.
      apply elem_of_zip_l in Hin. exact Hin. }
    split; [exact Hcompute|].
    unfold find_optimal_gathering_point. rewrite Hcompute.
    destruct sources; [congruence | reflexivity].
  - intros fuel s sources sp l Hlen Hvalid Hnbrs Hsp.
    unfold compute_distances_with_costs. cbn [default from_option id].
    destruct (decide (length (s :: sources) <> length (sp :: l))) as [Hne|_];
      [simpl in Hne; lia|].
    unfold enumerate. cbn [zip zip_with length seq foldl].
    unfold from_source at 2. cbn [mbind result_bind]. rewrite Hvalid.
    cbn [negb source_loop heappop take_min fst snd].
    rewrite lookup_singleton_eq.
    assert (Hstale : num_ltb (Fin 0) (Fin 0) = false) by reflexivity.
    rewrite Hstale.
    destruct (get_neighbors maze s) as [|v vs]; [congruence|].
    cbn [foldl]. unfold relax_time at 2. cbn [mbind result_bind].
    unfold num_div. apply Qeq_bool_iff in Hsp. rewrite Hsp.
    cbn [mbind result_bind]. rewrite relax_time_fold_Raise.
    cbn [mbind result_bind]. apply from_source_fold_Raise.
Qed.

Lemma compute_distances_bad_inputs_witness :
  compute_distances_with_costs 5 default_terrain_maze [(1, 1); (5, 10)] (Some [1%Q])
  = Raise ValueError
  /\ find_optimal_gathering_point 5 default_terrain_maze [(0, -1); (20, 20)] None
     = Ok None
  /\ compute_distances_with_costs 5 default_terrain_maze [(1, 1)] (Some [0%Q])
     = Raise ZeroDivisionError.
Proof.
  destruct (compute_distances_bad_inputs default_terrain_maze)
    as (_ & Hvalue & Hskip & Hzero).
  split; [apply Hvalue; [discriminate | simpl; lia]|]. split.
  - apply Hskip; [discriminate|discriminate|].
    intros s Hs. apply elem_of_cons in Hs as [->|Hs]; [reflexivity|].
    apply list_elem_of_singleton in Hs as ->. reflexivity.
  - apply (Hzero 4%nat (1, 1) [] 0%Q []); [reflexivity|reflexivity|discriminate|reflexivity].
Defined.

(** ** Hexagonal cells and maps *)

Lemma hex_norm_triangle x y x' y' :
  hex_norm (x + x') (y + y') <= hex_norm x y + hex_norm x' y'.
Proof.
  unfold hex_norm.
  pose proof (Z.le_max_l (Z.max (Z.abs x) (Z.abs y)) (Z.abs (- x - y))).
  pose proof (Z.le_max_r (Z.max (Z.abs x) (Z.abs y)) (Z.abs (- x - y))).
  pose proof (Z.le_max_l (Z.abs x) (Z.abs y)).
  pose proof (Z.le_max_r (Z.abs x) (Z.abs y)).
  pose proof (Z.le_max_l (Z.max (Z.abs x') (Z.abs y')) (Z.abs (- x' - y'))).
  pose proof (Z.le_max_r (Z.max (Z.abs x') (Z.abs y')) (Z.abs (- x' - y'))).
  pose proof (Z.le_max_l (Z.abs x') (Z.abs y')).
  pose proof (Z.le_max_r (Z.abs x') (Z.abs y')).
  pose proof (Z.abs_triangle x x'). pose proof (Z.abs_triangle y y').
  pose proof (Z.abs_triangle (- x - y) (- x' - y')).
  replace (- (x + x') - (y + y')) with ((- x - y) + (- x' - y')) by ring.
  repeat apply Z.max_lub; etransitivity; [eassumption | | eassumption | | eassumption |];
    apply Z.add_le_mono; etransitivity; eassumption || reflexivity.
Qed.

Lemma hex_norm_opp x y : hex_norm (- x) (- y) = hex_norm x y.
Proof. unfold hex_norm. lia. Qed.

Lemma hex_norm_zero x y : hex_norm x y = 0 <-> x = 0 /\ y = 0.
Proof. unfold hex_norm. lia. Qed.

Lemma hex_norm_half x y : 2 * hex_norm x y = Z.abs x + Z.abs y + Z.abs (- x - y).
Proof. unfold hex_norm. lia. Qed.

Lemma hex_norm_one x y :
  hex_norm x y = 1 <->
  (x = 1 /\ y = 0) \/ (x = 1 /\ y = -1) \/ (x = 0 /\ y = -1)
  \/ (x = -1 /\ y = 0) \/ (x = -1 /\ y = 1) \/ (x = 0 /\ y = 1).
Proof. unfold hex_norm. lia. Qed.

Lemma HexCell_distance_norm a b :
  HexCell.distance a b
  = hex_norm (HexCell.q a - HexCell.q b) (HexCell.r a - HexCell.r b).
Proof.
  unfold HexCell.distance, hex_norm, HexCell.s. do 2 f_equal. ring.
Qed.

Lemma HexCell_eqb_coords a b :
  HexCell.eqb a b = true <-> HexCell.coords a = HexCell.coords b.
Proof.
  unfold HexCell.eqb, HexCell.coords. rewrite andb_true_iff, !Z.eqb_eq.
  split; [intros [-> ->]; reflexivity | intros [= -> ->]; tauto].
Qed.

(** X16. [HexCell.distance] is a metric on coordinates: it is symmetric,
    never negative, zero exactly between cells that [__eq__] holds equal
    (cells of the same coordinates, whatever their terrain), and it obeys
    the triangle inequality.  It is half the sum of the three coordinate
    differences. *)
Theorem hex_cell_distance_metric (a b c : HexCell.t) :
  HexCell.distance a b = HexCell.distance b a
  /\ 0 <= HexCell.distance a b
  /\ (HexCell.distance a b = 0 <-> HexCell.eqb a b = true)
  /\ (HexCell.eqb a b = true <-> HexCell.coords a = HexCell.coords b)
  /\ HexCell.distance a c <= HexCell.distance a b + HexCell.distance b c
  /\ 2 * HexCell.distance a b
     = Z.abs (HexCell.q a - HexCell.q b) + Z.abs (HexCell.r a - HexCell.r b)
       + Z.abs (HexCell.s a - HexCell.s b).
Proof.
  rewrite !HexCell_distance_norm.
  split; [|split; [|split; [|split; [|split]]]].
  - rewrite <- hex_norm_opp. f_equal; ring.
  - unfold hex_norm. lia.
  - rewrite hex_norm_zero, HexCell_eqb_coords. unfold HexCell.coords.
    split; [intros [Hq Hr]; f_equal; lia | intros [= -> ->]; lia].
  - apply HexCell_eqb_coords.
  - replace (HexCell.q a - HexCell.q c)
      with ((HexCell.q a - HexCell.q b) + (HexCell.q b - HexCell.q c)) by ring.
    replace (HexCell.r a - HexCell.r c)
      with ((HexCell.r a - HexCell.r b) + (HexCell.r b - HexCell.r c)) by ring.
    apply hex_norm_triangle.
  - rewrite hex_norm_half. unfold HexCell.s. do 2 f_equal. ring.
Qed.

Lemma hex_cell_neighbors_spec (c : HexCell.t) :
  length (HexCell.get_neighbors c) = 6%nat
  /\ NoDup (HexCell.get_neighbors c)
  /\ forall n, HexCell.coords n ∈ HexCell.get_neighbors c
               <-> HexCell.distance c n = 1.
Proof.
  split; [reflexivity|]. split.
  - unfold HexCell.get_neighbors, HexCell.directions. destruct c as [q r t i]. simpl.
    repeat (apply NoDup_cons_2;
            [intros Hin;
             repeat (apply elem_of_cons in Hin as [Heq|Hin]; [injection Heq; lia|]);
             apply elem_of_nil in Hin; exact Hin|]).
    apply NoDup_nil_2.
  - intros n. rewrite HexCell_distance_norm, <- hex_norm_opp, hex_norm_one.
    unfold HexCell.get_neighbors, HexCell.directions, HexCell.coords.
    destruct c as [q r t i], n as [q' r' t' i']. simpl.
    rewrite !elem_of_cons, elem_of_nil. split.
    + intros Hin.
      repeat (destruct Hin as [[= -> ->]|Hin]; [lia|]). destruct Hin.
    + intros Hcases.
      assert (Hc : (q' = q + 1 /\ r' = r + 0) \/ (q' = q + 1 /\ r' = r + -1)
                   \/ (q' = q + 0 /\ r' = r + -1) \/ (q' = q + -1 /\ r' = r + 0)
                   \/ (q' = q + -1 /\ r' = r + 1) \/ (q' = q + 0 /\ r' = r + 1))
        by lia.
      destruct Hc as [[-> ->]|[[-> ->]|[[-> ->]|[[-> ->]|[[-> ->]|[-> ->]]]]]];
        tauto.
Qed.

(** X17. [HexCell.get_neighbors] lists six different coordinates, and a
    cell has one of them exactly when it is at distance one. *)
Theorem hex_cell_neighbors_at_distance_one (c n : HexCell.t) :
  length (HexCell.get_neighbors c) = 6%nat
  /\ NoDup (HexCell.get_neighbors c)
  /\ (HexCell.coords n ∈ HexCell.get_neighbors c <-> HexCell.distance c n = 1).
Proof.
  destruct (hex_cell_neighbors_spec c) as (Hlen & Hnd & Hdist).
  split; [exact Hlen|]. split; [exact Hnd | apply Hdist].
Qed.

(** X18. [add_cell] followed by [get_cell] at the same coordinates gives
    the new cell, and the cells at other coordinates stay as they were.
    A start cell becomes the start of the map and an end cell its end;
    adding any other cell leaves the recorded start and end as they were,
    also when the new cell replaces the very cell that was recorded. *)
Theorem hex_map_add_then_get (m : HexMap.t) (q r : Z)
    (terrain_type : HexTerrainType.t) (addr : Z) :
  let cell := HexCell.mk q r terrain_type addr in
  let m' := HexMap.add_cell m q r terrain_type addr in
  HexMap.get_cell m' q r = Some cell
  /\ (forall q' r', (q', r') <> (q, r) ->
        HexMap.get_cell m' q' r' = HexMap.get_cell m q' r')
  /\ (terrain_type = HexTerrainType.START ->
      HexMap.start m' = Some cell /\ HexMap.end_ m' = HexMap.end_ m)
  /\ (terrain_type = HexTerrainType.END ->
      HexMap.start m' = HexMap.start m /\ HexMap.end_ m' = Some cell)
  /\ (terrain_type <> HexTerrainType.START ->
      terrain_type <> HexTerrainType.END ->
      HexMap.start m' = HexMap.start m /\ HexMap.end_ m' = HexMap.end_ m).
Proof.
  intros cell m'. unfold m', HexMap.add_cell, HexMap.get_cell.
  repeat split.
  - destruct (decide (terrain_type = HexTerrainType.START));
      [|destruct (decide (terrain_type = HexTerrainType.END))];
      simpl; apply lookup_insert_eq.
  - intros q' r' Hne.
    destruct (decide (terrain_type = HexTerrainType.START));
      [|destruct (decide (terrain_type = HexTerrainType.END))];
      simpl; apply lookup_insert_ne; congruence.
  - subst terrain_type. reflexivity.
  - subst terrain_type. reflexivity.
  - subst terrain_type. reflexivity.
  - subst terrain_type. reflexivity.
  - destruct (decide (terrain_type = HexTerrainType.START)); [tauto|].
    destruct (decide (terrain_type = HexTerrainType.END)); [tauto | reflexivity].
  - destruct (decide (terrain_type = HexTerrainType.START)); [tauto|].
    destruct (decide (terrain_type = HexTerrainType.END)); [tauto | reflexivity].
Qed.

Lemma well_keyed_empty : well_keyed HexMap.empty.
Proof. intros k c Hk. simpl in Hk. rewrite lookup_empty in Hk. discriminate. Qed.

Lemma well_keyed_add_cell m q r terrain_type addr :
  well_keyed m -> well_keyed (HexMap.add_cell m q r terrain_type addr).
Proof.
  intros Hm k c. unfold HexMap.add_cell.
  assert (Hins : <[(q, r) := HexCell.mk q r terrain_type addr]> (HexMap.cells m) !! k
                 = Some c -> HexCell.coords c = k).
  { destruct (decide (k = (q, r))) as [->|Hne].
    - rewrite lookup_insert_eq. intros [= <-]. reflexivity.
    - rewrite lookup_insert_ne by congruence. apply Hm. }
  destruct (decide (terrain_type = HexTerrainType.START));
    [|destruct (decide (terrain_type = HexTerrainType.END))]; exact Hins.
Qed.

Lemma elem_of_omap_NoDup {A B : Type} (f : A -> option B) (l : list A) :
  NoDup l ->
  (forall x y b, x ∈ l -> y ∈ l -> f x = Some b -> f y = Some b -> x = y) ->
  NoDup (omap f l).
Proof.
  intros Hnd. induction Hnd as [|x l Hx Hnd IH]; intros Hinj; [constructor|].
  cbn [omap list_omap]. fold (omap f l).
  assert (IH' : NoDup (omap f l)).
  { apply IH. intros a b c Ha Hb. apply Hinj; right; assumption. }
  destruct (f x) as [b|] eqn:Efx; [|exact IH'].
  apply NoDup_cons_2; [|exact IH'].
  intros Hin. apply list_elem_of_omap in Hin as (y & Hy & Hfy).
  apply Hx. rewrite (Hinj x y b); [exact Hy|left|right; exact Hy|exact Efx|exact Hfy].
Qed.

Lemma omap_length_le {A B : Type} (f : A -> option B) (l : list A) :
  (length (omap f l) <= length l)%nat.
Proof.
  induction l as [|x l IH]; [reflexivity|].
  cbn [omap list_omap]. fold (omap f l). destruct (f x); simpl; lia.
Qed.

(** X19. On a map that [add_cell] built, the neighbours [get_neighbors]
    returns for a cell are the cells of the map at distance one from it:
    at most six, and none twice. *)
Theorem hex_map_neighbors_at_distance_one (m : HexMap.t) (c n : HexCell.t) :
  well_keyed m ->
  (n ∈ HexMap.get_neighbors m c <->
   HexMap.get_cell m (HexCell.q n) (HexCell.r n) = Some n
   /\ HexCell.distance c n = 1)
  /\ NoDup (HexMap.get_neighbors m c)
  /\ (length (HexMap.get_neighbors m c) <= 6)%nat.
Proof.
  intros Hm. unfold HexMap.get_neighbors, HexMap.get_cell.
  destruct (hex_cell_neighbors_spec c) as (Hlen & Hnd & Hdist).
  split; [|split].
  - rewrite list_elem_of_omap. split.
    + intros ([q r] & Hin & Hget). simpl in Hget.
      pose proof (Hm _ _ Hget) as Hk. unfold HexCell.coords in Hk.
      injection Hk as Hq Hr. rewrite Hq, Hr. split; [exact Hget|].
      apply Hdist. unfold HexCell.coords. rewrite Hq, Hr. exact Hin.
    + intros [Hget Hd]. exists (HexCell.coords n). split; [|exact Hget].
      apply Hdist. exact Hd.
  - apply elem_of_omap_NoDup; [exact Hnd|].
    intros [q1 r1] [q2 r2] b _ _ H1 H2. simpl in *.
    rewrite <- (Hm _ _ H1), <- (Hm _ _ H2). reflexivity.
  - etransitivity; [apply omap_length_le|]. rewrite Hlen. reflexivity.
Qed.

Lemma hex_map_neighbors_at_distance_one_witness :
  HexMap.get_neighbors (diamond 20 30) cell_start
  = [HexCell.mk 1 0 HexTerrainType.GRASS 20; HexCell.mk 0 1 HexTerrainType.GRASS 30]
  /\ HexCell.distance cell_start (HexCell.mk 0 1 HexTerrainType.GRASS 30) = 1.
Proof.
  split; [vm_compute; reflexivity|].
  destruct (hex_map_neighbors_at_distance_one (diamond 20 30) cell_start
              (HexCell.mk 0 1 HexTerrainType.GRASS 30)) as (Hspec & _ & _).
  - unfold diamond. repeat apply well_keyed_add_cell. apply well_keyed_empty.
  - apply Hspec. vm_compute. right. left.
Defined.

(** ** Hexagonal coordinates *)

(** X20. The constructor of [HexCoordinate] raises [ValueError] exactly
    when the three coordinates do not add up to zero, and computes the
    third one when it is left out.  [from_offset] never raises, and
    converting to offset coordinates and back, either way round, gives
    the coordinate one started from. *)
Theorem hex_coordinate_offset_round_trip :
  (forall q r, HexCoordinate.init q r None = Ok (q, r, - q - r))
  /\ (forall q r s,
        (q + r + s = 0 -> HexCoordinate.init q r (Some s) = Ok (q, r, s))
        /\ (q + r + s <> 0 -> HexCoordinate.init q r (Some s) = Raise ValueError))
  /\ (forall col row,
        exists c, HexCoordinate.from_offset col row = Ok c
                  /\ cubic c /\ HexCoordinate.to_offset c = (col, row))
  /\ (forall c, cubic c ->
        HexCoordinate.from_offset (HexCoordinate.to_offset c).1
                                  (HexCoordinate.to_offset c).2 = Ok c).
Proof.
  split; [|split; [|split]].
  - intros q r. unfold HexCoordinate.init.
    destruct (decide (q + r + (- q - r) <> 0)); [lia | reflexivity].
  - intros q r s. unfold HexCoordinate.init. split; intros Hs.
    + destruct (decide (q + r + s <> 0)); [lia | reflexivity].
    + destruct (decide (q + r + s <> 0)); [reflexivity | lia].
  - intros col row. unfold HexCoordinate.from_offset, HexCoordinate.init.
    set (q := col - (row - Z.land row 1) / 2).
    destruct (decide (q + row + (- q - row) <> 0)); [lia|].
    eexists. split; [reflexivity|]. split; [unfold cubic; simpl; lia|].
    unfold HexCoordinate.to_offset, q. f_equal. lia.
  - intros [[q r] s] Hc. unfold cubic in Hc. simpl in Hc.
    unfold HexCoordinate.to_offset, HexCoordinate.from_offset, HexCoordinate.init.
    cbn [fst snd].
    set (q' := q + (r - Z.land r 1) / 2 - (r - Z.land r 1) / 2).
    assert (Hq : q' = q) by (unfold q'; lia).
    destruct (decide (q' + r + (- q' - r) <> 0)); [lia|].
    do 2 f_equal; [f_equal; exact Hq | lia].
Qed.

Lemma HexCoordinate_distance_norm (a b : HexCoordinate.t) :
  cubic a -> cubic b ->
  HexCoordinate.distance a b = hex_norm (a.1.1 - b.1.1) (a.1.2 - b.1.2).
Proof.
  unfold cubic, HexCoordinate.distance, hex_norm. intros Ha Hb. do 2 f_equal. lia.
Qed.

Lemma HexCoordinate_init_cubic q r s :
  q + r + s = 0 -> HexCoordinate.init q r (Some s) = Ok (q, r, s).
Proof.
  intros Hs. unfold HexCoordinate.init.
  destruct (decide (q + r + s <> 0)); [lia | reflexivity].
Qed.

Lemma HexCoordinate_neighbor_spec (c : HexCoordinate.t) (direction : Z) :
  cubic c ->
  (-6 <= direction < 6 ->
   exists n, HexCoordinate.neighbor c direction = Ok n
             /\ cubic n /\ HexCoordinate.distance c n = 1
             /\ HexCoordinate.neighbor c (direction mod 6) = Ok n)
  /\ (direction < -6 \/ 6 <= direction ->
      HexCoordinate.neighbor c direction = Raise IndexError).
Proof.
  destruct c as [[q r] s]. unfold cubic. cbn [fst snd]. intros Hc. split.
  - intros Hd.
    assert (Hcases : direction = -6 \/ direction = -5 \/ direction = -4
                     \/ direction = -3 \/ direction = -2 \/ direction = -1
                     \/ direction = 0 \/ direction = 1 \/ direction = 2
                     \/ direction = 3 \/ direction = 4 \/ direction = 5) by lia.
    unfold HexCoordinate.neighbor.
    repeat (destruct Hcases as [->|Hcases]);
      [..|subst direction];
      cbn [list_index HexCoordinate.DIRECTIONS length Z.of_nat mbind result_bind];
      simpl;
      rewrite HexCoordinate_init_cubic by lia;
      (eexists; split; [reflexivity|]; split; [unfold cubic; simpl; lia|];
       split; [unfold HexCoordinate.distance; simpl; lia | reflexivity]).
  - intros Hd. unfold HexCoordinate.neighbor, list_index.
    cbn [HexCoordinate.DIRECTIONS length]. 
    destruct (Z.ltb_spec direction 0).
    + destruct (Z.leb_spec 0 (direction + Z.of_nat 6)); [lia | reflexivity].
    + destruct (Z.leb_spec 0 direction); [|lia].
      destruct (Z.ltb_spec direction (Z.of_nat 6)); [lia | reflexivity].
Qed.

Lemma HexCoordinate_neighbors_list q r s :
  q + r + s = 0 ->
  HexCoordinate.neighbors (q, r, s)
  = Ok [(q + 1, r + -1, s + 0); (q + 0, r + -1, s + 1); (q + -1, r + 0, s + 1);
        (q + -1, r + 1, s + 0); (q + 0, r + 1, s + -1); (q + 1, r + 0, s + -1)].
Proof.
  intros Hc. unfold HexCoordinate.neighbors, py_range.
  change (seqZ 0 (6 - 0)) with [0; 1; 2; 3; 4; 5].
  cbn [foldl mbind result_bind]. unfold HexCoordinate.neighbor.
  cbn [list_index HexCoordinate.DIRECTIONS length Z.of_nat mbind result_bind].
  simpl. rewrite !HexCoordinate_init_cubic by lia. reflexivity.
Qed.

(** X21. For a coordinate whose attributes add up to zero, [neighbor]
    returns for each direction from -6 to 5 a coordinate at distance one,
    a negative direction counting from the end of the list of directions,
    and raises [IndexError] for every other direction; it never raises
    [ValueError].  [neighbors] returns six different coordinates, which
    are exactly the coordinates at distance one. *)
Theorem hex_coordinate_neighbors (c : HexCoordinate.t) :
  cubic c ->
  (forall direction,
      (-6 <= direction < 6 ->
       exists n, HexCoordinate.neighbor c direction = Ok n
                 /\ cubic n /\ HexCoordinate.distance c n = 1
                 /\ HexCoordinate.neighbor c (direction mod 6) = Ok n)
      /\ (direction < -6 \/ 6 <= direction ->
          HexCoordinate.neighbor c direction = Raise IndexError))
  /\ exists l, HexCoordinate.neighbors c = Ok l
       /\ length l = 6%nat /\ NoDup l
       /\ forall n, n ∈ l <-> cubic n /\ HexCoordinate.distance c n = 1.
Proof.
  intros Hc. split; [intros direction; apply HexCoordinate_neighbor_spec; exact Hc|].
  destruct c as [[q r] s]. unfold cubic in Hc. cbn [fst snd] in Hc.
  eexists. split; [apply HexCoordinate_neighbors_list; exact Hc|].
  split; [reflexivity|]. split.
  - repeat (apply NoDup_cons_2;
            [intros Hin;
             repeat (apply elem_of_cons in Hin as [Heq|Hin]; [injection Heq; lia|]);
             apply elem_of_nil in Hin; exact Hin|]).
    apply NoDup_nil_2.
  - intros [[q' r'] s']. rewrite !elem_of_cons, elem_of_nil. split.
    + intros Hin.
      repeat (destruct Hin as [[= -> -> ->]|Hin];
              [split; [unfold cubic; simpl; lia
                      |unfold HexCoordinate.distance; simpl; lia]|]).
      destruct Hin.
    + intros [Hn Hd]. unfold cubic in Hn. cbn [fst snd] in Hn.
      rewrite HexCoordinate_distance_norm in Hd by (unfold cubic; simpl; lia).
      cbn [fst snd] in Hd. rewrite <- hex_norm_opp in Hd. apply hex_norm_one in Hd.
      assert (Hcases : (q' = q + 1 /\ r' = r + -1 /\ s' = s + 0)
                       \/ (q' = q + 0 /\ r' = r + -1 /\ s' = s + 1)
                       \/ (q' = q + -1 /\ r' = r + 0 /\ s' = s + 1)
                       \/ (q' = q + -1 /\ r' = r + 1 /\ s' = s + 0)
                       \/ (q' = q + 0 /\ r' = r + 1 /\ s' = s + -1)
                       \/ (q' = q + 1 /\ r' = r + 0 /\ s' = s + -1)) by lia.
      destruct Hcases as [(-> & -> & ->)|[(-> & -> & ->)|[(-> & -> & ->)
                         |[(-> & -> & ->)|[(-> & -> & ->)|(-> & -> & ->)]]]]]; tauto.
Qed.

Lemma hex_coordinate_neighbors_witness :
  HexCoordinate.neighbor (0, 0, 0) (-1) = Ok (1, 0, -1)
  /\ HexCoordinate.neighbor (0, 0, 0) 6 = Raise IndexError.
Proof.
  destruct (hex_coordinate_neighbors (0, 0, 0) eq_refl) as [Hdir _].
  split.
  - destruct (Hdir (-1)) as [Hin _].
    destruct (Hin ltac:(lia)) as (n & Hn & _). rewrite Hn. vm_compute in Hn.
    symmetry. exact Hn.
  - destruct (Hdir 6) as [_ Hout]. apply Hout. lia.
Defined.

(** *** Ranges *)

Lemma range_row_list (center : HexCoordinate.t) radius q results :
  cubic center ->
  HexCoordinate.range_row center radius q results
  = Ok (results
        ++ map (fun r => (center.1.1 + q, center.1.2 + r, center.2 + (- q - r)))
               (py_range (Z.max (- radius) (- q - radius))
                         (Z.min radius (- q + radius) + 1))).
Proof.
  intros Hc. unfold HexCoordinate.range_row.
  generalize (py_range (Z.max (- radius) (- q - radius))
                       (Z.min radius (- q + radius) + 1)).
  intros rs. revert results. induction rs as [|r rs IH]; intros results.
  - simpl. rewrite app_nil_r. reflexivity.
  - cbn [foldl mbind result_bind].
    rewrite HexCoordinate_init_cubic by (unfold cubic in Hc; lia).
    cbn [mbind result_bind]. rewrite IH, <- app_assoc. reflexivity.
Qed.

Lemma range_list (center : HexCoordinate.t) radius :
  cubic center ->
  HexCoordinate.range center radius
  = Ok (q ← py_range (- radius) (radius + 1);
        map (fun r => (center.1.1 + q, center.1.2 + r, center.2 + (- q - r)))
            (py_range (Z.max (- radius) (- q - radius))
                      (Z.min radius (- q + radius) + 1))).
Proof.
  intros Hc. unfold HexCoordinate.range.
  generalize (py_range (- radius) (radius + 1)). intros qs.
  assert (Hgen : forall acc,
             foldl (fun acc q => results ← acc;
                                 HexCoordinate.range_row center radius q results)
                   (Ok acc) qs
             = Ok (acc ++ (q ← qs;
                     map (fun r => (center.1.1 + q, center.1.2 + r,
                                    center.2 + (- q - r)))
                         (py_range (Z.max (- radius) (- q - radius))
                                   (Z.min radius (- q + radius) + 1))))).
  { induction qs as [|q qs IH]; intros acc.
    - simpl. rewrite app_nil_r. reflexivity.
    - cbn [foldl mbind result_bind]. rewrite range_row_list by exact Hc.
      rewrite IH, <- app_assoc. reflexivity. }
  apply (Hgen []).
Qed.

Lemma length_bind_Z {A B : Type} (f : A -> list B) (l : list A) :
  Z.of_nat (length (l ≫= f))
  = foldr (fun x acc => Z.of_nat (length (f x)) + acc) 0 l.
Proof.
  induction l as [|x l IH]; [reflexivity|].
  change ((x :: l) ≫= f) with (f x ++ (l ≫= f)).
  rewrite length_app, Nat2Z.inj_add, IH. reflexivity.
Qed.

(** Twice the number of coordinates of the rows before row [x]. *)
Lemma range_rows_step radius x :
  (2 * (2 * radius + 1) * (x + 1) - Z.abs (x + 1) * x)
  - (2 * (2 * radius + 1) * x - Z.abs x * (x - 1))
  = 2 * (2 * radius + 1 - Z.abs x).
Proof.
  destruct (Z.le_gt_cases 0 x) as [Hx|Hx].
  - rewrite (Z.abs_eq x), (Z.abs_eq (x + 1)) by lia. ring.
  - rewrite (Z.abs_neq x), (Z.abs_neq (x + 1)) by lia. ring.
Qed.

Lemma range_rows_sum radius (g : Z -> Z) :
  forall (k : nat) (a : Z),
    (forall q, a <= q < a + Z.of_nat k -> g q = 2 * radius + 1 - Z.abs q) ->
    2 * foldr (fun q acc => g q + acc) 0 (seqZ a (Z.of_nat k))
    = (2 * (2 * radius + 1) * (a + Z.of_nat k)
       - Z.abs (a + Z.of_nat k) * (a + Z.of_nat k - 1))
      - (2 * (2 * radius + 1) * a - Z.abs a * (a - 1)).
Proof.
  induction k as [|k IH]; intros a Hg.
  - simpl. replace (a + 0) with a by lia. lia.
  - rewrite seqZ_cons by lia. cbn [foldr].
    replace (Z.pred (Z.of_nat (S k))) with (Z.of_nat k) by lia.
    rewrite Z.mul_add_distr_l, (IH (Z.succ a)) by (intros q Hq; apply Hg; lia).
    rewrite (Hg a) by lia.
    replace (Z.succ a + Z.of_nat k) with (a + Z.of_nat (S k)) by lia.
    pose proof (range_rows_step radius a) as Hstep.
    replace (Z.succ a) with (a + 1) by lia.
    replace (a + 1 - 1) with a by lia. lia.
Qed.

(** X22. For a centre whose attributes add up to zero, [range] raises
    nothing and lists, each once, exactly the coordinates within the
    radius of the centre; for a negative radius the list is empty. *)
Theorem hex_coordinate_range (center : HexCoordinate.t) (radius : Z) :
  cubic center ->
  exists l, HexCoordinate.range center radius = Ok l
    /\ NoDup l
    /\ (forall c, c ∈ l <-> cubic c /\ HexCoordinate.distance center c <= radius)
    /\ (radius < 0 -> l = [])
    /\ (0 <= radius ->
        Z.of_nat (length l) = 3 * radius * radius + 3 * radius + 1).
Proof.
  intros Hc. eexists. split; [apply range_list; exact Hc|].
  destruct center as [[cq cr] cs]. unfold cubic in Hc. cbn [fst snd] in *.
  split; [|split; [|split]].
  - unfold py_range. apply NoDup_bind; [| |apply NoDup_seqZ].
    + intros q1 q2 c _ _ H1 H2.
      apply list_elem_of_fmap in H1 as (r1 & -> & _).
      apply list_elem_of_fmap in H2 as (r2 & Heq & _).
      injection Heq. lia.
    + intros q _. apply NoDup_fmap_2; [|apply NoDup_seqZ].
      intros r1 r2 Heq. injection Heq. lia.
  - intros [[q' r'] s']. unfold py_range. rewrite list_elem_of_bind. split.
    + intros (q & Hin & Hq). apply list_elem_of_fmap in Hin as (r & [= -> -> ->] & Hr).
      apply elem_of_seqZ in Hq, Hr.
      split; [unfold cubic; simpl; lia|].
      unfold HexCoordinate.distance. simpl. lia.
    + intros [Hn Hd]. unfold cubic in Hn. cbn [fst snd] in Hn.
      unfold HexCoordinate.distance in Hd. cbn [fst snd] in Hd.
      exists (q' - cq). split.
      * apply list_elem_of_fmap. exists (r' - cr).
        split; [f_equal; [f_equal|]; lia|]. apply elem_of_seqZ. lia.
      * apply elem_of_seqZ. lia.
  - intros Hneg. unfold py_range. rewrite seqZ_nil by lia. reflexivity.
  - intros Hpos. rewrite length_bind_Z. unfold py_range.
    replace (radius + 1 - - radius) with (Z.of_nat (Z.to_nat (2 * radius + 1))) by lia.
    apply (Z.mul_reg_l _ _ 2); [lia|].
    rewrite (range_rows_sum radius).
    + rewrite Z2Nat.id by lia.
      replace (- radius + (2 * radius + 1)) with (radius + 1) by lia.
      rewrite (Z.abs_eq (radius + 1)), (Z.abs_neq (- radius)) by lia. ring.
    + intros q Hq. rewrite length_map, length_seqZ. lia.
Qed.

Lemma hex_coordinate_range_witness :
  HexCoordinate.range (0, 0, 0) 1
  = Ok [(-1, 0, 1); (-1, 1, 0); (0, -1, 1); (0, 0, 0); (0, 1, -1); (1, -1, 0);
        (1, 0, -1)].
Proof.
  destruct (hex_coordinate_range (0, 0, 0) 1 eq_refl) as (l & Hl & _).
  vm_compute. reflexivity.
Defined.

(** ** The hexagonal maze *)

Lemma HexMaze_is_passable_valid m p :
  HexMaze.is_valid_position m p = true ->
  HexMaze.is_passable m p = Raise AttributeError.
Proof. intros Hv. unfold HexMaze.is_passable. rewrite Hv. reflexivity. Qed.

(** X23. [HexMaze.is_passable] answers [False] outside the maze and
    raises [AttributeError] inside it, so that [HexMaze.get_neighbors]
    never returns a neighbour: it raises [AttributeError] as soon as one
    of the six coordinates around the position is in the maze, and
    returns the empty list when none is. *)
Theorem hex_maze_neighbors_never_listed (m : HexMaze.t)
    (position : HexCoordinate.t) :
  cubic position ->
  (forall p, HexMaze.is_passable m p
             = if HexMaze.is_valid_position m p
               then Raise AttributeError else Ok (VBool false))
  /\ exists around,
       HexCoordinate.neighbors position = Ok around
       /\ ((Exists (fun n => HexMaze.is_valid_position m n = true) around
            /\ HexMaze_get_neighbors m position = Raise AttributeError)
           \/ (Forall (fun n => HexMaze.is_valid_position m n = false) around
               /\ HexMaze_get_neighbors m position = Ok [])).
Proof.
  intros Hc. split.
  { intros p. unfold HexMaze.is_passable.
    destruct (HexMaze.is_valid_position m p); reflexivity. }
  destruct position as [[q r] s]. unfold cubic in Hc. cbn [fst snd] in Hc.
  eexists. split; [apply HexCoordinate_neighbors_list; exact Hc|].
  unfold HexMaze_get_neighbors, py_range.
  change (seqZ 0 (6 - 0)) with [0; 1; 2; 3; 4; 5].
  cbn [foldl mbind result_bind]. unfold HexCoordinate.neighbor.
  cbn [list_index HexCoordinate.DIRECTIONS length Z.of_nat mbind result_bind].
  simpl. rewrite !HexCoordinate_init_cubic by lia. cbn [mbind result_bind].
  repeat match goal with
         | |- context [HexMaze.is_valid_position m ?n] =>
             let E := fresh "E" in
             destruct (HexMaze.is_valid_position m n) eqn:E;
             [rewrite (HexMaze_is_passable_valid m n E); cbn [mbind result_bind];
              left; split; [|reflexivity];
              repeat first [apply Exists_cons_hd; assumption | apply Exists_cons_tl]
             |cbn [mbind result_bind]]
         end.
  right. split; [|reflexivity]. repeat constructor; assumption.
Qed.

Lemma hex_maze_neighbors_never_listed_witness :
  HexMaze_get_neighbors one_cell_hex_maze (0, 0, 0) = Raise AttributeError
  /\ HexMaze_get_neighbors (HexMaze.mk ∅ None None) (0, 0, 0) = Ok [].
Proof.
  split.
  - destruct (hex_maze_neighbors_never_listed one_cell_hex_maze (0, 0, 0) eq_refl)
      as (_ & around & _ & [[_ Hraise]|[Hall _]]); [exact Hraise|].
    vm_compute. reflexivity.
  - destruct (hex_maze_neighbors_never_listed (HexMaze.mk ∅ None None) (0, 0, 0) eq_refl)
      as (_ & around & _ & [[_ Hraise]|[_ Hnone]]); [|exact Hnone].
    vm_compute. reflexivity.
Defined.

(** ** A* on a hex map *)

Lemma hex_neighbors_coords (m : HexMap.t) (a b : HexCell.t) :
  HexCell.coords a = HexCell.coords b ->
  HexMap.get_neighbors m a = HexMap.get_neighbors m b.
Proof.
  destruct a as [qa ra ta ia], b as [qb rb tb ib].
  unfold HexCell.coords. simpl. intros [= -> ->]. reflexivity.
Qed.

Lemma hex_neighbor_keyed (m : HexMap.t) (c n : HexCell.t) :
  well_keyed m ->
  n ∈ HexMap.get_neighbors m c ->
  HexMap.cells m !! HexCell.coords n = Some n.
Proof.
  intros Hkey Hn. unfold HexMap.get_neighbors in Hn.
  apply list_elem_of_omap in Hn as ([q r] & _ & Hget).
  unfold HexMap.get_cell in Hget. simpl in Hget.
  rewrite (Hkey _ _ Hget). exact Hget.
Qed.

Lemma hex_neighbors_length (m : HexMap.t) (c : HexCell.t) :
  (length (HexMap.get_neighbors m c) <= 6)%nat.
Proof.
  unfold HexMap.get_neighbors.
  etransitivity; [apply omap_length_le | reflexivity].
Qed.

Lemma HexCell_eqb_true (a b : HexCell.t) :
  HexCell.eqb a b = true <-> HexCell.coords a = HexCell.coords b.
Proof.
  unfold HexCell.eqb, HexCell.coords. rewrite andb_true_iff, !Z.eqb_eq.
  split; [intros [-> ->]; reflexivity | intros [= -> ->]; tauto].
Qed.

Lemma astar_pop h e rest :
  heappop HexAStar.entry_ltb h = Some (e, rest) -> h ≡ₚ e :: rest.
Proof.
  intros Hpop.
  apply (heappop_spec HexAStar.entry_ltb (fun _ _ => True)) in Hpop; tauto.
Qed.

Lemma is_hex_walk_snoc m race path a c :
  is_hex_walk m race path ->
  last path = Some a ->
  c ∈ HexMap.get_neighbors m a ->
  num_eqb (step_cost race c) Inf = false ->
  is_hex_walk m race (path ++ [c]).
Proof.
  intros Hwalk Hlast Hc Hcost.
  induction path as [|x path IH]; [discriminate|].
  destruct path as [|y path].
  - injection Hlast as ->. simpl. tauto.
  - destruct Hwalk as (Hy & Hcy & Hrest).
    change ((x :: y :: path) ++ [c]) with (x :: ((y :: path) ++ [c])).
    change (is_hex_walk m race (x :: ((y :: path) ++ [c])))
      with (y ∈ HexMap.get_neighbors m x
            /\ num_eqb (step_cost race y) Inf = false
            /\ is_hex_walk m race ((y :: path) ++ [c])).
    split; [exact Hy|]. split; [exact Hcy|]. apply IH; [exact Hrest|exact Hlast].
Qed.

Lemma hex_path_cost_snoc race x path c :
  hex_path_cost race ((x :: path) ++ [c])
  = num_add (hex_path_cost race (x :: path)) (step_cost race c).
Proof. unfold hex_path_cost. simpl. rewrite foldl_app. reflexivity. Qed.

Section AStar.
Variables (m : HexMap.t) (race : Race.t) (start end_ : HexCell.t).
Hypothesis Hkey : well_keyed m.

Local Abbreviation inv := (astar_inv m race start end_).

Lemma astar_inv_init :
  inv (fun _ => 0%nat) None (astar_initial start end_).
Proof.
  unfold astar_initial, heappush. constructor; simpl.
  - rewrite lookup_singleton_eq, lookup_empty. tauto.
  - right. intros f i n Hin. apply list_elem_of_singleton in Hin.
    injection Hin as _ _ ->. reflexivity.
  - intros f i n Hin. apply list_elem_of_singleton in Hin.
    injection Hin as _ _ ->. split; [left; reflexivity|].
    rewrite lookup_singleton_eq. eauto.
  - intros k prev Hk. rewrite lookup_empty in Hk. discriminate.
  - intros k Hk. apply elem_of_empty in Hk. destruct Hk.
  - intros k [g Hg]. apply lookup_singleton_Some in Hg as [<- _].
    right. exists (num_of_Z (HexCell.distance start end_)), (HexCell.oid start), start.
    split; [apply list_elem_of_singleton; reflexivity | reflexivity].
  - intros c n Hc. apply elem_of_empty in Hc. destruct Hc.
  - intros co ns [=].
Qed.

Lemma known_cell_universe depth cur st c :
  inv depth cur st ->
  known_cell m start (HexAStar.came_from st) c ->
  HexCell.coords c ∈ astar_universe m start.
Proof.
  intros Hinv [->|[Hc _]]; unfold astar_universe.
  - apply elem_of_union_l, elem_of_singleton. reflexivity.
  - apply elem_of_union_r, elem_of_dom. eauto.
Qed.

Lemma astar_closed_universe depth cur st :
  inv depth cur st -> HexAStar.closed_set st ⊆ astar_universe m start.
Proof.
  intros Hinv k Hk. unfold astar_universe.
  destruct (ai_closed _ _ _ _ _ _ _ Hinv k Hk) as (_ & [->|[prev Hprev]] & _).
  - apply elem_of_union_l, elem_of_singleton. reflexivity.
  - destruct (ai_link _ _ _ _ _ _ _ Hinv k prev Hprev) as (_ & _ & _ & n & gp & Hn & _).
    apply elem_of_union_r, elem_of_dom. eauto.
Qed.

Lemma known_cell_depth depth cur st c :
  inv depth cur st ->
  known_cell m start (HexAStar.came_from st) c ->
  (depth (HexCell.coords c) <= size (HexAStar.closed_set st))%nat.
Proof.
  intros Hinv [->|[_ [prev Hprev]]].
  - destruct (ai_start _ _ _ _ _ _ _ Hinv) as (_ & _ & ->). lia.
  - destruct (ai_link _ _ _ _ _ _ _ Hinv _ prev Hprev) as (_ & Hcl & -> & _).
    destruct (ai_closed _ _ _ _ _ _ _ Hinv _ Hcl) as (_ & _ & Hlt). lia.
Qed.

(** *** Walking back *)

Lemma walk_back_spec depth cur st :
  inv depth cur st ->
  forall fuel c acc,
    known_cell m start (HexAStar.came_from st) c ->
    (depth (HexCell.coords c) <= fuel)%nat ->
    exists chain,
      HexAStar.walk_back fuel (HexAStar.came_from st) c acc = Ok (acc ++ chain)
      /\ is_hex_walk m race (start :: reverse chain)
      /\ last (start :: reverse chain) = Some c
      /\ HexAStar.g_score st !! HexCell.coords c
         = Some (hex_path_cost race (start :: reverse chain)).
Proof.
  intros Hinv. destruct (ai_start _ _ _ _ _ _ _ Hinv) as (Hg0 & Hroot & Hd0).
  induction fuel as [|fuel IH]; intros c acc Hknown Hdepth.
  - destruct (HexAStar.came_from st !! HexCell.coords c) as [prev|] eqn:Ecf.
    + destruct (ai_link _ _ _ _ _ _ _ Hinv _ prev Ecf) as (_ & _ & Hd & _). lia.
    + exists []. simpl. rewrite Ecf, app_nil_r.
      destruct Hknown as [->|[_ [prev Hprev]]]; [|congruence].
      split; [reflexivity|]. split; [exact Logic.I|]. split; [reflexivity|exact Hg0].
  - destruct (HexAStar.came_from st !! HexCell.coords c) as [prev|] eqn:Ecf.
    + destruct (ai_link _ _ _ _ _ _ _ Hinv _ prev Ecf)
        as (Hkprev & _ & Hd & n & gp & Hn & Hnb & Hcost & Hgp & Hgc).
      assert (Hc : HexMap.cells m !! HexCell.coords c = Some c).
      { destruct Hknown as [->|[Hc _]]; [congruence | exact Hc]. }
      assert (n = c) by congruence. subst n.
      destruct (IH prev (acc ++ [c]) Hkprev ltac:(lia))
        as (chain & Hrun & Hwalk & Hlast & Hcostp).
      exists (c :: chain). split.
      { simpl. rewrite Ecf, Hrun, <- app_assoc. reflexivity. }
      rewrite reverse_cons.
      change (start :: reverse chain ++ [c]) with ((start :: reverse chain) ++ [c]).
      split; [eapply is_hex_walk_snoc; eauto|].
      split; [apply last_snoc|].
      rewrite hex_path_cost_snoc, Hgc. rewrite Hgp in Hcostp.
      injection Hcostp as ->. reflexivity.
    + exists []. simpl. rewrite Ecf, app_nil_r.
      destruct Hknown as [->|[_ [prev Hprev]]]; [|congruence].
      split; [reflexivity|]. split; [exact Logic.I|]. split; [reflexivity|exact Hg0].
Qed.

(** *** Taking an entry from the queue *)

Lemma astar_inv_pop depth st f i current rest :
  inv depth None st ->
  heappop HexAStar.entry_ltb (HexAStar.open_set st) = Some ((f, i, current), rest) ->
  HexCell.eqb current end_ = false ->
  inv depth (Some (current, []))
      {| HexAStar.open_set := rest;
         HexAStar.g_score := HexAStar.g_score st;
         HexAStar.f_score := HexAStar.f_score st;
         HexAStar.came_from := HexAStar.came_from st;
         HexAStar.closed_set := {[HexCell.coords current]} ∪ HexAStar.closed_set st |}.
Proof.
  intros Hinv Hpop Hneq. apply astar_pop in Hpop.
  assert (Hcur : (f, i, current) ∈ HexAStar.open_set st).
  { rewrite Hpop. left. }
  assert (Hrest : forall e, e ∈ rest -> e ∈ HexAStar.open_set st).
  { intros e He. rewrite Hpop. right. exact He. }
  destruct (ai_open _ _ _ _ _ _ _ Hinv f i current Hcur) as [Hknown Hg].
  assert (Hstart : HexCell.coords start
                   ∈ ({[HexCell.coords current]} ∪ HexAStar.closed_set st : gset (Z * Z))).
  { destruct (ai_first _ _ _ _ _ _ _ Hinv) as [Hs|Hall].
    - apply elem_of_union_r. exact Hs.
    - apply elem_of_union_l, elem_of_singleton. rewrite (Hall f i current Hcur). reflexivity. }
  assert (Hsize : (size (HexAStar.closed_set st)
                   <= size ({[HexCell.coords current]} ∪ HexAStar.closed_set st : gset (Z * Z)))%nat).
  { apply subseteq_size. apply union_subseteq_r. }
  constructor; simpl.
  - exact (ai_start _ _ _ _ _ _ _ Hinv).
  - left. exact Hstart.
  - intros f' i' n Hin. apply (ai_open _ _ _ _ _ _ _ Hinv f' i' n). apply Hrest. exact Hin.
  - intros k prev Hk.
    destruct (ai_link _ _ _ _ _ _ _ Hinv k prev Hk) as (H1 & H2 & H3 & H4).
    split; [exact H1|]. split; [apply elem_of_union_r; exact H2|]. split; [exact H3|exact H4].
  - intros k Hk. apply elem_of_union in Hk as [Hk|Hk].
    + apply elem_of_singleton in Hk. subst k. split.
      * intros Heq. apply HexCell_eqb_true in Heq. congruence.
      * split.
        -- destruct Hknown as [->|[_ Hcf]]; [left; reflexivity | right; exact Hcf].
        -- destruct (decide (HexCell.coords current ∈ HexAStar.closed_set st)) as [Hin|Hnin].
           ++ destruct (ai_closed _ _ _ _ _ _ _ Hinv _ Hin) as (_ & _ & Hlt). lia.
           ++ rewrite size_union by (apply disjoint_singleton_l; exact Hnin).
              rewrite size_singleton.
              pose proof (known_cell_depth depth None st current Hinv Hknown). lia.
    + destruct (ai_closed _ _ _ _ _ _ _ Hinv k Hk) as (H1 & H2 & H3).
      split; [exact H1|]. split; [exact H2|lia].
  - intros k Hk. destruct (ai_frontier _ _ _ _ _ _ _ Hinv k Hk) as [Hcl|(f' & i' & n & Hin & Hn)].
    + left. apply elem_of_union_r. exact Hcl.
    + rewrite Hpop in Hin. apply elem_of_cons in Hin as [Heq|Hin].
      * injection Heq as -> -> ->. left. apply elem_of_union_l, elem_of_singleton.
        symmetry. exact Hn.
      * right. exists f', i', n. split; [exact Hin|exact Hn].
  - intros c n Hc Hn Hprem.
    destruct (decide (HexCell.coords current = HexCell.coords c)) as [Heq|Hne].
    + specialize (Hprem current [] eq_refl Heq). apply elem_of_nil in Hprem. destruct Hprem.
    + assert (Hc' : HexCell.coords c ∈ HexAStar.closed_set st).
      { apply elem_of_union in Hc as [Hc|Hc]; [|exact Hc].
        apply elem_of_singleton in Hc. congruence. }
      destruct (ai_expanded _ _ _ _ _ _ _ Hinv c n Hc' Hn) as [H1|[H2|H3]].
      * intros co ns [=].
      * left. simpl. apply elem_of_union_r. exact H1.
      * right. left. exact H2.
      * right. right. exact H3.
  - intros co ns [= <- <-].
    split; [apply elem_of_union_l, elem_of_singleton; reflexivity|].
    split; [exact Hstart|]. split; [exact Hknown|exact Hg].
Qed.

(** *** Looking at one neighbour *)

Lemma astar_inv_skip depth current ns st x :
  inv depth (Some (current, ns)) st ->
  settled race st (HexCell.coords current) x ->
  inv depth (Some (current, ns ++ [x])) st.
Proof.
  intros Hinv Hset. constructor.
  - exact (ai_start _ _ _ _ _ _ _ Hinv).
  - exact (ai_first _ _ _ _ _ _ _ Hinv).
  - exact (ai_open _ _ _ _ _ _ _ Hinv).
  - exact (ai_link _ _ _ _ _ _ _ Hinv).
  - exact (ai_closed _ _ _ _ _ _ _ Hinv).
  - exact (ai_frontier _ _ _ _ _ _ _ Hinv).
  - intros c n Hc Hn Hprem.
    destruct (decide (HexCell.coords current = HexCell.coords c)) as [Heq|Hne].
    + specialize (Hprem current (ns ++ [x]) eq_refl Heq).
      apply elem_of_app in Hprem as [Hin|Hin].
      * apply (ai_expanded _ _ _ _ _ _ _ Hinv c n Hc Hn).
        intros co ns' [= <- <-] _. exact Hin.
      * apply list_elem_of_singleton in Hin. subst n. rewrite <- Heq. exact Hset.
    + apply (ai_expanded _ _ _ _ _ _ _ Hinv c n Hc Hn).
      intros co ns' [= <- <-] Heq. contradiction.
  - intros co ns' [= <- <-]. exact (ai_cur _ _ _ _ _ _ _ Hinv current ns eq_refl).
Qed.

Lemma visit_settled st current x :
  settled race st (HexCell.coords current) x ->
  HexAStar.visit race end_ current (Ok st) x = Ok st.
Proof.
  intros Hset. unfold HexAStar.visit. cbn [mbind result_bind].
  destruct (bool_decide (HexCell.coords x ∈ HexAStar.closed_set st)) eqn:Ecl; [reflexivity|].
  apply bool_decide_eq_false in Ecl.
  fold (step_cost race x).
  destruct (num_eqb (step_cost race x) Inf) eqn:Ecost; [reflexivity|].
  destruct Hset as [H1|[H2|(gk & gn & Hgk & Hgn & Hlt)]]; [contradiction|congruence|].
  rewrite Hgk, Hgn, Hlt. reflexivity.
Qed.

Lemma astar_visit depth current ns st x :
  inv depth (Some (current, ns)) st ->
  x ∈ HexMap.get_neighbors m current ->
  exists st' depth',
    HexAStar.visit race end_ current (Ok st) x = Ok st'
    /\ inv depth' (Some (current, ns ++ [x])) st'
    /\ HexAStar.closed_set st' = HexAStar.closed_set st
    /\ (length (HexAStar.open_set st') <= S (length (HexAStar.open_set st)))%nat.
Proof.
  intros Hinv Hx.
  destruct (ai_cur _ _ _ _ _ _ _ Hinv current ns eq_refl) as (Hcc & Hsc & Hknown & [gc Hgc]).
  destruct (ai_start _ _ _ _ _ _ _ Hinv) as (Hg0 & Hroot & Hd0).
  assert (Hskip : settled race st (HexCell.coords current) x ->
                  exists st' depth',
                    HexAStar.visit race end_ current (Ok st) x = Ok st'
                    /\ inv depth' (Some (current, ns ++ [x])) st'
                    /\ HexAStar.closed_set st' = HexAStar.closed_set st
                    /\ (length (HexAStar.open_set st') <= S (length (HexAStar.open_set st)))%nat).
  { intros Hset. exists st, depth. split; [apply visit_settled; exact Hset|].
    split; [apply astar_inv_skip; assumption|]. split; [reflexivity|lia]. }
  destruct (decide (HexCell.coords x ∈ HexAStar.closed_set st)) as [Hcl|Hncl].
  { apply Hskip. left. exact Hcl. }
  destruct (num_eqb (step_cost race x) Inf) eqn:Ecost.
  { apply Hskip. right. left. exact Ecost. }
  set (t := num_add gc (step_cost race x)).
  assert (Hupd : match HexAStar.g_score st !! HexCell.coords x with
                 | Some g => negb (num_ltb t g)
                 | None => false
                 end = true
                 \/ forall gx, HexAStar.g_score st !! HexCell.coords x = Some gx ->
                               num_ltb t gx = true).
  { destruct (HexAStar.g_score st !! HexCell.coords x) as [gx|].
    - destruct (num_ltb t gx) eqn:Elt; [right; intros ? [= <-]; exact Elt | left; reflexivity].
    - right. intros gx [=]. }
  destruct Hupd as [Hold|Hnew].
  { apply Hskip. right. right.
    destruct (HexAStar.g_score st !! HexCell.coords x) as [gx|] eqn:Egx; [|discriminate].
    exists gc, gx. split; [exact Hgc|]. split; [reflexivity|].
    apply negb_true_iff in Hold. exact Hold. }
  assert (Hxcell : HexMap.cells m !! HexCell.coords x = Some x)
    by (eapply hex_neighbor_keyed; eauto).
  assert (Hxs : HexCell.coords x <> HexCell.coords start) by congruence.
  assert (Hxc : HexCell.coords x <> HexCell.coords current) by congruence.
  set (f := num_add t (num_of_Z (HexCell.distance x end_))).
  set (st' := {| HexAStar.open_set :=
                   heappush (HexAStar.open_set st) (f, HexCell.oid x, x);
                 HexAStar.g_score := <[HexCell.coords x := t]> (HexAStar.g_score st);
                 HexAStar.f_score := <[HexCell.coords x := f]> (HexAStar.f_score st);
                 HexAStar.came_from :=
                   <[HexCell.coords x := current]> (HexAStar.came_from st);
                 HexAStar.closed_set := HexAStar.closed_set st |}).
  set (depth' := fun k => if decide (k = HexCell.coords x)
                          then S (depth (HexCell.coords current)) else depth k).
  assert (Hknown' : forall c, known_cell m start (HexAStar.came_from st) c ->
                              known_cell m start (HexAStar.came_from st') c).
  { intros c [->|[Hc Hcf]]; [left; reflexivity|]. right. split; [exact Hc|].
    unfold st'. simpl. apply lookup_insert_is_Some'. right. exact Hcf. }
  assert (Hdepth' : forall k, k ∈ HexAStar.closed_set st -> depth' k = depth k).
  { intros k Hk. unfold depth'. destruct (decide (k = HexCell.coords x)); [congruence|reflexivity]. }
  exists st', depth'. split.
  { unfold HexAStar.visit. cbn [mbind result_bind].
    rewrite bool_decide_eq_false_2 by exact Hncl.
    fold (step_cost race x). rewrite Ecost, Hgc. fold t.
    destruct (HexAStar.g_score st !! HexCell.coords x) as [gx|] eqn:Egx.
    - rewrite (Hnew gx eq_refl). reflexivity.
    - reflexivity. }
  split; [|split; [reflexivity | unfold st', heappush; simpl; lia]].
  constructor.
  - unfold st'. simpl. rewrite !lookup_insert_ne by congruence.
    unfold depth'. destruct (decide (HexCell.coords start = HexCell.coords x)); [congruence|].
    tauto.
  - left. exact Hsc.
  - intros f' i' n Hin. unfold st', heappush in Hin. simpl in Hin.
    apply elem_of_cons in Hin as [Heq|Hin].
    + injection Heq as -> -> ->. split.
      * right. split; [exact Hxcell|]. unfold st'. simpl. rewrite lookup_insert_eq. eauto.
      * unfold st'. simpl. rewrite lookup_insert_eq. eauto.
    + destruct (ai_open _ _ _ _ _ _ _ Hinv f' i' n Hin) as [Hk Hg]. split.
      * apply Hknown'. exact Hk.
      * unfold st'. simpl. apply lookup_insert_is_Some'. right. exact Hg.
  - intros k prev Hk. unfold st' in Hk. simpl in Hk.
    destruct (decide (k = HexCell.coords x)) as [->|Hne].
    + rewrite lookup_insert_eq in Hk. injection Hk as <-.
      split; [apply Hknown'; exact Hknown|]. split; [exact Hcc|].
      split.
      { unfold depth'. rewrite decide_True by reflexivity.
        rewrite decide_False by congruence. reflexivity. }
      exists x, gc. split; [exact Hxcell|]. split; [exact Hx|]. split; [exact Ecost|].
      unfold st'. simpl. rewrite lookup_insert_ne by congruence.
      rewrite lookup_insert_eq. split; [exact Hgc|reflexivity].
    + rewrite lookup_insert_ne in Hk by congruence.
      destruct (ai_link _ _ _ _ _ _ _ Hinv k prev Hk)
        as (H1 & H2 & H3 & n & gp & H4 & H5 & H6 & H7 & H8).
      split; [apply Hknown'; exact H1|]. split; [exact H2|].
      split.
      { rewrite (Hdepth' _ H2). unfold depth'. rewrite decide_False by exact Hne. exact H3. }
      exists n, gp. split; [exact H4|]. split; [exact H5|]. split; [exact H6|].
      unfold st'. simpl. rewrite !lookup_insert_ne by congruence. tauto.
  - intros k Hk. change (HexAStar.closed_set st') with (HexAStar.closed_set st) in *.
    destruct (ai_closed _ _ _ _ _ _ _ Hinv k Hk) as (H1 & H2 & H3).
    split; [exact H1|]. split.
    + destruct H2 as [->|Hcf]; [left; reflexivity|]. right.
      unfold st'. simpl. apply lookup_insert_is_Some'. right. exact Hcf.
    + rewrite (Hdepth' _ Hk). exact H3.
  - intros k Hk. unfold st' in Hk. simpl in Hk.
    apply lookup_insert_is_Some' in Hk as [<-|Hk].
    + right. exists f, (HexCell.oid x), x. split; [|reflexivity].
      unfold st', heappush. simpl. left.
    + destruct (ai_frontier _ _ _ _ _ _ _ Hinv k Hk) as [Hcl|(f' & i' & n & Hin & Hn)].
      * left. exact Hcl.
      * right. exists f', i', n. split; [|exact Hn].
        unfold st', heappush. simpl. right. exact Hin.
  - intros c n Hc Hn Hprem. change (HexAStar.closed_set st') with (HexAStar.closed_set st) in Hc.
    assert (Hcx : HexCell.coords c <> HexCell.coords x) by congruence.
    assert (Hmono : settled race st (HexCell.coords c) n ->
                    settled race st' (HexCell.coords c) n).
    { intros [H1|[H2|(gk & gn & Hgk & Hgn & Hlt)]].
      - left. exact H1.
      - right. left. exact H2.
      - right. right. unfold st'. simpl.
        rewrite lookup_insert_ne by congruence.
        destruct (decide (HexCell.coords n = HexCell.coords x)) as [Heq|Hne].
        + exists gk, t. split; [exact Hgk|]. rewrite Heq, lookup_insert_eq.
          split; [reflexivity|].
          rewrite Heq in Hgn. specialize (Hnew gn Hgn).
          apply num_ltb_false. apply num_ltb_false in Hlt. apply num_ltb_true in Hnew.
          eapply num_le_trans; [apply num_lt_le; exact Hnew | exact Hlt].
        + exists gk, gn. split; [exact Hgk|]. rewrite lookup_insert_ne by congruence.
          split; [exact Hgn|exact Hlt]. }
    destruct (decide (HexCell.coords current = HexCell.coords c)) as [Heq|Hne].
    + specialize (Hprem current (ns ++ [x]) eq_refl Heq).
      apply elem_of_app in Hprem as [Hin|Hin].
      * apply Hmono. apply (ai_expanded _ _ _ _ _ _ _ Hinv c n Hc Hn).
        intros co ns' [= <- <-] _. exact Hin.
      * apply list_elem_of_singleton in Hin. subst n. right. right.
        exists gc, t. unfold st'. simpl. rewrite <- Heq.
        rewrite lookup_insert_ne by congruence. rewrite lookup_insert_eq.
        split; [exact Hgc|]. split; [reflexivity|].
        apply num_ltb_false. apply num_le_refl.
    + apply Hmono. apply (ai_expanded _ _ _ _ _ _ _ Hinv c n Hc Hn).
      intros co ns' [= <- <-] Heq. contradiction.
  - intros co ns' [= <- <-]. split; [exact Hcc|]. split; [exact Hsc|].
    split; [apply Hknown'; exact Hknown|].
    unfold st'. simpl. apply lookup_insert_is_Some'. right. eauto.
Qed.

Lemma astar_fold todo :
  forall depth current ns st,
    inv depth (Some (current, ns)) st ->
    (forall x, x ∈ todo -> x ∈ HexMap.get_neighbors m current) ->
    exists st' depth',
      foldl (HexAStar.visit race end_ current) (Ok st) todo = Ok st'
      /\ inv depth' (Some (current, ns ++ todo)) st'
      /\ HexAStar.closed_set st' = HexAStar.closed_set st
      /\ (length (HexAStar.open_set st')
          <= length (HexAStar.open_set st) + length todo)%nat.
Proof.
  induction todo as [|x todo IH]; intros depth current ns st Hinv Hsub.
  - exists st, depth. rewrite app_nil_r. simpl. split; [reflexivity|].
    split; [exact Hinv|]. split; [reflexivity|lia].
  - destruct (astar_visit depth current ns st x Hinv) as (st1 & depth1 & Hrun & Hinv1 & Hcl1 & Hlen1).
    { apply Hsub. left. }
    destruct (IH depth1 current (ns ++ [x]) st1 Hinv1) as (st2 & depth2 & Hrun2 & Hinv2 & Hcl2 & Hlen2).
    { intros y Hy. apply Hsub. right. exact Hy. }
    exists st2, depth2. cbn [foldl]. rewrite Hrun. split; [exact Hrun2|].
    rewrite <- app_assoc in Hinv2. split; [exact Hinv2|].
    split; [congruence|]. simpl. lia.
Qed.

Lemma astar_inv_done depth current ns st :
  inv depth (Some (current, ns)) st ->
  (forall n, n ∈ HexMap.get_neighbors m current ->
             n ∈ ns \/ settled race st (HexCell.coords current) n) ->
  inv depth None st.
Proof.
  intros Hinv Hall. constructor.
  - exact (ai_start _ _ _ _ _ _ _ Hinv).
  - exact (ai_first _ _ _ _ _ _ _ Hinv).
  - exact (ai_open _ _ _ _ _ _ _ Hinv).
  - exact (ai_link _ _ _ _ _ _ _ Hinv).
  - exact (ai_closed _ _ _ _ _ _ _ Hinv).
  - exact (ai_frontier _ _ _ _ _ _ _ Hinv).
  - intros c n Hc Hn _.
    destruct (decide (HexCell.coords current = HexCell.coords c)) as [Heq|Hne].
    + rewrite <- (hex_neighbors_coords m current c Heq) in Hn.
      destruct (Hall n Hn) as [Hin|Hset].
      * apply (ai_expanded _ _ _ _ _ _ _ Hinv c n Hc).
        -- rewrite <- (hex_neighbors_coords m current c Heq). exact Hn.
        -- intros co ns' [= <- <-] _. exact Hin.
      * rewrite <- Heq. exact Hset.
    + apply (ai_expanded _ _ _ _ _ _ _ Hinv c n Hc Hn).
      intros co ns' [= <- <-] Heq. contradiction.
  - intros co ns' [=].
Qed.

Lemma settled_fold st current l :
  (forall x, x ∈ l -> settled race st (HexCell.coords current) x) ->
  foldl (HexAStar.visit race end_ current) (Ok st) l = Ok st.
Proof.
  induction l as [|x l IH]; intros Hall; [reflexivity|].
  cbn [foldl]. rewrite visit_settled by (apply Hall; left).
  apply IH. intros y Hy. apply Hall. right. exact Hy.
Qed.

(** *** One turn of the loop *)

Lemma astar_step depth st f i current rest :
  inv depth None st ->
  heappop HexAStar.entry_ltb (HexAStar.open_set st) = Some ((f, i, current), rest) ->
  HexCell.eqb current end_ = false ->
  exists st2 depth2,
    foldl (HexAStar.visit race end_ current)
          (Ok {| HexAStar.open_set := rest;
                 HexAStar.g_score := HexAStar.g_score st;
                 HexAStar.f_score := HexAStar.f_score st;
                 HexAStar.came_from := HexAStar.came_from st;
                 HexAStar.closed_set :=
                   {[HexCell.coords current]} ∪ HexAStar.closed_set st |})
          (HexMap.get_neighbors m current) = Ok st2
    /\ inv depth2 None st2
    /\ (astar_budget m start st2 < astar_budget m start st)%nat.
Proof.
  intros Hinv Hpop Hneq.
  pose proof (astar_inv_pop depth st f i current rest Hinv Hpop Hneq) as Hinv1.
  pose proof (astar_pop _ _ _ Hpop) as Hperm.
  assert (Hlen : length (HexAStar.open_set st) = S (length rest)).
  { rewrite Hperm. reflexivity. }
  set (st1 := {| HexAStar.open_set := rest;
                 HexAStar.g_score := HexAStar.g_score st;
                 HexAStar.f_score := HexAStar.f_score st;
                 HexAStar.came_from := HexAStar.came_from st;
                 HexAStar.closed_set :=
                   {[HexCell.coords current]} ∪ HexAStar.closed_set st |}) in *.
  destruct (decide (HexCell.coords current ∈ HexAStar.closed_set st)) as [Hin|Hnin].
  - assert (Hall : forall x, x ∈ HexMap.get_neighbors m current ->
                             settled race st1 (HexCell.coords current) x).
    { intros x Hx.
      destruct (ai_expanded _ _ _ _ _ _ _ Hinv current x Hin Hx) as [H1|[H2|H3]].
      - intros co ns [=].
      - left. unfold st1. simpl. apply elem_of_union_r. exact H1.
      - right. left. exact H2.
      - right. right. exact H3. }
    exists st1, depth. split; [apply settled_fold; exact Hall|].
    split.
    + apply (astar_inv_done depth current [] st1 Hinv1).
      intros n Hn. right. apply Hall. exact Hn.
    + unfold astar_budget. rewrite Hlen. unfold st1. simpl.
      assert ((size (astar_universe m start
                     ∖ ({[HexCell.coords current]} ∪ HexAStar.closed_set st))
               <= size (astar_universe m start ∖ HexAStar.closed_set st))%nat).
      { apply subseteq_size. intros k Hk.
        apply elem_of_difference in Hk as [Hk1 Hk2]. apply elem_of_difference.
        split; [exact Hk1|]. intros Hk3. apply Hk2, elem_of_union_r. exact Hk3. }
      lia.
  - destruct (astar_fold (HexMap.get_neighbors m current) depth current [] st1 Hinv1)
      as (st2 & depth2 & Hrun & Hinv2 & Hcl & Hlen2).
    { intros x Hx. exact Hx. }
    exists st2, depth2. split; [exact Hrun|]. split.
    + apply (astar_inv_done depth2 current _ st2 Hinv2).
      intros n Hn. left. exact Hn.
    + unfold astar_budget. rewrite Hcl, Hlen. unfold st1 in *. simpl in *.
      pose proof (hex_neighbors_length m current) as H6.
      assert (Hu : HexCell.coords current ∈ astar_universe m start).
      { destruct (ai_open _ _ _ _ _ _ _ Hinv f i current) as [Hknown _].
        - rewrite Hperm. left.
        - exact (known_cell_universe depth None st current Hinv Hknown). }
      assert (Hsz : size (astar_universe m start ∖ HexAStar.closed_set st)
                    = S (size (astar_universe m start
                               ∖ ({[HexCell.coords current]} ∪ HexAStar.closed_set st)))).
      { assert (Heq : astar_universe m start ∖ HexAStar.closed_set st
                      = {[HexCell.coords current]}
                        ∪ (astar_universe m start
                           ∖ ({[HexCell.coords current]} ∪ HexAStar.closed_set st))).
        { apply set_eq. intros k. rewrite elem_of_union, !elem_of_difference,
            elem_of_union, elem_of_singleton.
          destruct (decide (k = HexCell.coords current)) as [->|Hne]; [tauto|tauto]. }
        rewrite Heq at 1. rewrite size_union.
        2:{ apply disjoint_singleton_l. intros Hk.
            apply elem_of_difference in Hk as [_ Hk].
            apply Hk, elem_of_union_l, elem_of_singleton. reflexivity. }
        rewrite size_singleton. reflexivity. }
      lia.
Qed.

(** *** The loop *)

Lemma astar_no_path depth st :
  inv depth None st ->
  HexAStar.open_set st = [] ->
  forall path, ~ hex_path_between m race start end_ path.
Proof.
  intros Hinv Hempty path (Hhead & (l & Hlast & Heq) & Hwalk).
  assert (Hfront : forall k, is_Some (HexAStar.g_score st !! k) ->
                             k ∈ HexAStar.closed_set st).
  { intros k Hk. destruct (ai_frontier _ _ _ _ _ _ _ Hinv k Hk) as [Hcl|(f & i & n & Hin & _)].
    - exact Hcl.
    - rewrite Hempty in Hin. apply elem_of_nil in Hin. destruct Hin. }
  assert (Hall : forall p a, is_hex_walk m race (a :: p) ->
                   HexCell.coords a ∈ HexAStar.closed_set st ->
                   forall z, last (a :: p) = Some z ->
                             HexCell.coords z ∈ HexAStar.closed_set st).
  { induction p as [|b p IH]; intros a Hw Ha z Hz.
    - injection Hz as <-. exact Ha.
    - destruct Hw as (Hb & Hcost & Hrest).
      apply (IH b Hrest); [|exact Hz].
      destruct (ai_expanded _ _ _ _ _ _ _ Hinv a b Ha Hb) as [H1|[H2|(gk & gn & _ & Hgn & _)]].
      + intros co ns [=].
      + exact H1.
      + congruence.
      + apply Hfront. eauto. }
  destruct path as [|a p]; [discriminate|]. injection Hhead as ->.
  assert (Hs : HexCell.coords start ∈ HexAStar.closed_set st).
  { apply Hfront. destruct (ai_start _ _ _ _ _ _ _ Hinv) as (Hg & _). eauto. }
  pose proof (Hall p start Hwalk Hs l Hlast) as Hl.
  destruct (ai_closed _ _ _ _ _ _ _ Hinv _ Hl) as (Hne & _).
  apply HexCell_eqb_true in Heq. contradiction.
Qed.

Lemma astar_loop_spec fuel0 :
  forall fuel depth st,
    inv depth None st ->
    (astar_budget m start st <= fuel)%nat ->
    (size (astar_universe m start) <= fuel0)%nat ->
    exists r, HexAStar.loop fuel0 fuel m race start end_ st = Ok r
              /\ astar_result_ok m race start end_ r.
Proof.
  induction fuel as [|fuel IH]; intros depth st Hinv Hbud Hfuel0.
  - assert (Hempty : HexAStar.open_set st = []).
    { unfold astar_budget in Hbud. destruct (HexAStar.open_set st); [reflexivity|simpl in Hbud; lia]. }
    exists (None, Inf). simpl. rewrite Hempty. simpl. split; [reflexivity|].
    split; [reflexivity|]. eapply astar_no_path; eauto.
  - simpl. destruct (heappop HexAStar.entry_ltb (HexAStar.open_set st))
      as [[[[f i] current] rest]|] eqn:Epop.
    + destruct (HexCell.eqb current end_) eqn:Eend.
      * pose proof (astar_pop _ _ _ Epop) as Hperm.
        destruct (ai_open _ _ _ _ _ _ _ Hinv f i current) as [Hknown Hg].
        { rewrite Hperm. left. }
        destruct (walk_back_spec depth None st Hinv fuel0 current [] Hknown)
          as (chain & Hrun & Hwalk & Hlast & Hcost).
        { pose proof (known_cell_depth depth None st current Hinv Hknown).
          pose proof (subseteq_size _ _ (astar_closed_universe depth None st Hinv)). lia. }
        rewrite Hrun. cbn [mbind result_bind].
        apply HexCell_eqb_true in Eend. rewrite <- Eend, Hcost.
        eexists. split; [reflexivity|]. simpl.
        rewrite reverse_snoc. split; [|reflexivity].
        split; [reflexivity|]. split; [|exact Hwalk].
        exists current. split; [exact Hlast|]. apply HexCell_eqb_true. exact Eend.
      * destruct (astar_step depth st f i current rest Hinv Epop Eend)
          as (st2 & depth2 & Hrun & Hinv2 & Hlt).
        rewrite Hrun. cbn [mbind result_bind].
        apply (IH depth2 st2 Hinv2); [lia|exact Hfuel0].
    + apply heappop_None in Epop.
      exists (None, Inf). split; [reflexivity|].
      split; [reflexivity|]. eapply astar_no_path; eauto.
Qed.

End AStar.

Lemma astar_universe_size (m : HexMap.t) (start : HexCell.t) :
  (size (astar_universe m start) <= S (size (HexMap.cells m)))%nat.
Proof.
  unfold astar_universe. rewrite size_union_alt, size_singleton.
  rewrite <- (size_dom (D := gset (Z * Z)) (HexMap.cells m)).
  pose proof (subseteq_size (dom (HexMap.cells m) ∖ {[HexCell.coords start]})
                            (dom (HexMap.cells m))) as Hle.
  assert (Hsub : dom (HexMap.cells m) ∖ {[HexCell.coords start]}
                 ⊆ dom (HexMap.cells m)).
  { intros k Hk. apply elem_of_difference in Hk. tauto. }
  specialize (Hle Hsub). simpl. lia.
Qed.

Lemma find_path_spec (m : HexMap.t) (race : Race.t) (start end_ : HexCell.t)
    (fuel : nat) :
  well_keyed m ->
  (6 * (size (HexMap.cells m) + 1) < fuel)%nat ->
  exists r, HexAStar.find_path fuel m (Some start) (Some end_) race = Ok r
            /\ astar_result_ok m race start end_ r.
Proof.
  intros Hkey Hfuel. unfold HexAStar.find_path.
  pose proof (astar_universe_size m start) as Hsize.
  apply (astar_loop_spec m race start end_ Hkey fuel fuel (fun _ => 0%nat)
           (astar_initial start end_)).
  - apply astar_inv_init.
  - unfold astar_budget, astar_initial, heappush. simpl.
    assert ((size (astar_universe m start ∖ (∅ : gset (Z * Z)))
             <= size (astar_universe m start))%nat).
    { apply subseteq_size. intros k Hk. apply elem_of_difference in Hk. tauto. }
    lia.
  - lia.
Qed.

(** X24. On a map that [add_cell] built, A* returns once its fuel covers
    six queue entries for every cell.  A path it returns begins with the
    start object, ends in a cell equal to the end, leads through
    neighbouring cells of the map that the race can enter, and the cost
    returned with it is the sum of the movement costs of its cells after
    the first.  It returns [(None, inf)] exactly when there is no such
    path. *)
Theorem astar_path_is_walk (m : HexMap.t) (race : Race.t)
    (start end_ : HexCell.t) (fuel : nat) :
  well_keyed m ->
  (6 * (size (HexMap.cells m) + 1) < fuel)%nat ->
  exists r,
    HexAStar.find_path fuel m (Some start) (Some end_) race = Ok r
    /\ match r with
       | (Some path, cost) =>
           hex_path_between m race start end_ path
           /\ cost = hex_path_cost race path
       | (None, cost) =>
           cost = Inf
           /\ forall path, ~ hex_path_between m race start end_ path
       end.
Proof.
  intros Hkey Hfuel.
  destruct (find_path_spec m race start end_ fuel Hkey Hfuel) as (r & Hrun & Hok).
  exists r. split; [exact Hrun | exact Hok].
Qed.

Lemma astar_path_is_walk_witness :
  exists r,
    HexAStar.find_path 40 walled_row (Some cell_start)
      (Some (HexCell.mk 2 0 HexTerrainType.END 30)) wall_shy = Ok r
    /\ match r with
       | (Some path, cost) =>
           hex_path_between walled_row wall_shy cell_start
             (HexCell.mk 2 0 HexTerrainType.END 30) path
           /\ cost = hex_path_cost wall_shy path
       | (None, cost) =>
           cost = Inf
           /\ forall path,
                ~ hex_path_between walled_row wall_shy cell_start
                    (HexCell.mk 2 0 HexTerrainType.END 30) path
       end.
Proof.
  apply (astar_path_is_walk walled_row wall_shy cell_start
           (HexCell.mk 2 0 HexTerrainType.END 30) 40).
  - unfold walled_row. repeat apply well_keyed_add_cell. apply well_keyed_empty.
  - vm_compute. lia.
Defined.

(** ** Maps loaded from text *)

Lemma enumerate_snoc {A : Type} (l : list A) (x : A) :
  enumerate (l ++ [x]) = enumerate l ++ [(length l, x)].
Proof.
  unfold enumerate. rewrite length_app. simpl.
  rewrite Nat.add_1_r, seq_S. simpl.
  rewrite zip_with_app by (rewrite length_seq; reflexivity). reflexivity.
Qed.

Section TextFacts.
Variable int_of_char : Z -> option Z.
Hypothesis int_of_char_digit : forall c v, int_of_char c = Some v -> 0 <= v <= 9.

Local Abbreviation kind := (terrain_of_char int_of_char).

Lemma terrain_of_char_value c :
  match int_of_char c with
  | Some v => HexTerrainType_value (kind c) = Some v
  | None => kind c = HexTerrainType.GRASS
  end.
Proof.
  unfold terrain_of_char. destruct (int_of_char c) as [v|] eqn:Ev; [|reflexivity].
  apply int_of_char_digit in Ev.
  assert (Hv : v = 0 \/ v = 1 \/ v = 2 \/ v = 3 \/ v = 4 \/ v = 5 \/ v = 6
               \/ v = 7 \/ v = 8 \/ v = 9) by lia.
  destruct Hv as [->|[->|[->|[->|[->|[->|[->|[->|[->| ->]]]]]]]]]; reflexivity.
Qed.

Lemma terrain_of_char_plain c :
  kind c <> HexTerrainType.START /\ kind c <> HexTerrainType.END.
Proof.
  pose proof (terrain_of_char_value c) as Hval.
  destruct (int_of_char c) as [v|] eqn:Ev.
  - apply int_of_char_digit in Ev.
    split; intros Heq; rewrite Heq in Hval; simpl in Hval; injection Hval; lia.
  - rewrite Hval. split; discriminate.
Qed.

Lemma add_cell_plain m q r tt addr :
  tt <> HexTerrainType.START -> tt <> HexTerrainType.END ->
  HexMap.start (HexMap.add_cell m q r tt addr) = HexMap.start m
  /\ HexMap.end_ (HexMap.add_cell m q r tt addr) = HexMap.end_ m.
Proof.
  intros Hs He. unfold HexMap.add_cell.
  rewrite decide_False by exact Hs. rewrite decide_False by exact He.
  split; reflexivity.
Qed.

Lemma add_cell_terrain m q r tt addr q' r' :
  HexCell.terrain_type <$> HexMap.get_cell (HexMap.add_cell m q r tt addr) q' r'
  = if decide ((q', r') = (q, r)) then Some tt
    else HexCell.terrain_type <$> HexMap.get_cell m q' r'.
Proof.
  assert (Hcells : HexMap.cells (HexMap.add_cell m q r tt addr)
                   = <[(q, r) := HexCell.mk q r tt addr]> (HexMap.cells m)).
  { unfold HexMap.add_cell.
    destruct (decide (tt = HexTerrainType.START)); [reflexivity|].
    destruct (decide (tt = HexTerrainType.END)); reflexivity. }
  unfold HexMap.get_cell. rewrite Hcells.
  destruct (decide ((q', r') = (q, r))) as [->|Hne].
  - rewrite lookup_insert_eq. reflexivity.
  - rewrite lookup_insert_ne by congruence. reflexivity.
Qed.

(** The state after the characters of [line] made their cells in row [r]. *)
Lemma load_line_spec alloc (r : nat) (line : list Z) (m : HexMap.t) (n : nat) :
  let m' := (foldl (load_char int_of_char alloc r) (m, n) (enumerate line)).1 in
  HexMap.start m' = HexMap.start m
  /\ HexMap.end_ m' = HexMap.end_ m
  /\ (well_keyed m -> well_keyed m')
  /\ forall q r',
       HexCell.terrain_type <$> HexMap.get_cell m' q r'
       = match (if decide (r' = Z.of_nat r)
                then char_in_line line (q + Z.of_nat r / 2) else None) with
         | Some char => Some (kind char)
         | None => HexCell.terrain_type <$> HexMap.get_cell m q r'
         end.
Proof.
  induction line as [|char line IH] using rev_ind.
  - simpl. split; [reflexivity|]. split; [reflexivity|]. split; [tauto|].
    intros q r'. unfold char_in_line.
    destruct (decide (r' = Z.of_nat r)); [|reflexivity].
    destruct (q + Z.of_nat r / 2 <? 0); reflexivity.
  - rewrite enumerate_snoc, foldl_app. cbn [foldl].
    destruct (foldl (load_char int_of_char alloc r) (m, n) (enumerate line))
      as [m1 n1] eqn:Efold.
    simpl in IH. destruct IH as (Hs & He & Hk & Hcells).
    unfold load_char. cbn beta iota zeta. cbn [fst snd].
    assert (Hat : forall col,
               char_in_line (line ++ [char]) col
               = if decide (col = Z.of_nat (length line))
                 then (if char =? 32 then None else Some char)
                 else char_in_line line col).
    { intros col. unfold char_in_line.
      destruct (col <? 0) eqn:Eneg.
      - apply Z.ltb_lt in Eneg. rewrite decide_False by lia. reflexivity.
      - apply Z.ltb_ge in Eneg.
        destruct (decide (col = Z.of_nat (length line))) as [->|Hne].
        + rewrite Nat2Z.id, lookup_app_r by lia.
          rewrite Nat.sub_diag. reflexivity.
        + destruct (decide (Z.to_nat col < length line)%nat) as [Hlt|Hge].
          * rewrite lookup_app_l by exact Hlt. reflexivity.
          * assert (H1 : (line ++ [char]) !! Z.to_nat col = None).
            { apply lookup_ge_None_2. rewrite length_app. simpl. lia. }
            assert (H2 : line !! Z.to_nat col = None).
            { apply lookup_ge_None_2. lia. }
            rewrite H1, H2. reflexivity. }
    destruct (char =? 32) eqn:Espace.
    + simpl. split; [exact Hs|]. split; [exact He|]. split; [exact Hk|].
      intros q r'. rewrite Hcells.
      destruct (decide (r' = Z.of_nat r)); [|reflexivity].
      rewrite Hat. destruct (decide (q + Z.of_nat r / 2 = Z.of_nat (length line))) as [Heq|Hne];
        [|reflexivity].
      unfold char_in_line. rewrite Heq.
      destruct (Z.of_nat (length line) <? 0); [reflexivity|].
      rewrite Nat2Z.id, lookup_ge_None_2 by lia. reflexivity.
    + simpl. destruct (terrain_of_char_plain char) as [Hns Hne].
      destruct (add_cell_plain m1 (Z.of_nat (length line) - Z.of_nat r / 2)
                  (Z.of_nat r) (kind char) (alloc n1) Hns Hne) as [Hs' He'].
      split; [congruence|]. split; [congruence|].
      split; [intros Hm; apply well_keyed_add_cell, Hk, Hm|].
      intros q r'. rewrite add_cell_terrain, Hcells.
      destruct (decide ((q, r') = (Z.of_nat (length line) - Z.of_nat r / 2, Z.of_nat r)))
        as [Heq|Hneq].
      * injection Heq as -> ->. rewrite decide_True by reflexivity.
        rewrite Hat, decide_True by lia. reflexivity.
      * destruct (decide (r' = Z.of_nat r)) as [->|Hr]; [|reflexivity].
        rewrite Hat, decide_False; [reflexivity|].
        intros Hcol. apply Hneq. f_equal. lia.
Qed.

Lemma load_lines_spec alloc (lines : list (list Z)) :
  let m := (foldl (load_line int_of_char alloc) (HexMap.empty, 0%nat)
                  (enumerate lines)).1 in
  HexMap.start m = None
  /\ HexMap.end_ m = None
  /\ well_keyed m
  /\ forall q r,
       HexCell.terrain_type <$> HexMap.get_cell m q r = kind <$> char_at lines q r.
Proof.
  induction lines as [|line lines IH] using rev_ind.
  - simpl. split; [reflexivity|]. split; [reflexivity|].
    split; [apply well_keyed_empty|].
    intros q r. unfold char_at. destruct (r <? 0); reflexivity.
  - rewrite enumerate_snoc, foldl_app. cbn [foldl].
    destruct (foldl (load_line int_of_char alloc) (HexMap.empty, 0%nat)
                    (enumerate lines)) as [m1 n1] eqn:Efold.
    simpl in IH. destruct IH as (Hs & He & Hk & Hcells).
    unfold load_line. cbn beta iota zeta. cbn [fst snd].
    destruct (load_line_spec alloc (length lines) line m1 n1)
      as (Hs' & He' & Hk' & Hcells').
    cbn zeta in *.
    split; [congruence|]. split; [congruence|]. split; [apply Hk', Hk|].
    intros q r. rewrite Hcells', Hcells. unfold char_at.
    destruct (r <? 0) eqn:Eneg.
    + apply Z.ltb_lt in Eneg. rewrite decide_False by lia. reflexivity.
    + apply Z.ltb_ge in Eneg.
      destruct (decide (r = Z.of_nat (length lines))) as [->|Hne].
      * rewrite Nat2Z.id, lookup_app_r by lia. rewrite Nat.sub_diag.
        rewrite lookup_ge_None_2 by lia. simpl.
        destruct (char_in_line line (q + Z.of_nat (length lines) / 2)); reflexivity.
      * destruct (decide (Z.to_nat r < length lines)%nat) as [Hlt|Hge].
        -- rewrite lookup_app_l by exact Hlt. reflexivity.
        -- assert (H1 : (lines ++ [line]) !! Z.to_nat r = None).
           { apply lookup_ge_None_2. rewrite length_app. simpl. lia. }
           assert (H2 : lines !! Z.to_nat r = None).
           { apply lookup_ge_None_2. lia. }
           rewrite H1, H2. reflexivity.
Qed.

End TextFacts.

(** X25. A map that [load_from_text] builds has a cell at [(q, r)] exactly
    where line [r] of the stripped text has a character other than a
    space at column [q + r // 2]; the terrain of the cell is the kind whose
    value is the digit, and grass for any other character.  As one
    character is never more than the digit 9, such a map has no start and
    no end, and a search between its start and its end raises
    [AttributeError]. *)
Theorem load_from_text_cells (isspace : Z -> bool) (int_of_char : Z -> option Z)
    (alloc : nat -> Z) (map_text : list Z) :
  (forall c v, int_of_char c = Some v -> 0 <= v <= 9) ->
  let m := load_from_text isspace int_of_char alloc map_text in
  (forall q r,
      HexCell.terrain_type <$> HexMap.get_cell m q r
      = terrain_of_char int_of_char <$> char_at (text_lines isspace map_text) q r)
  /\ (forall char,
        match int_of_char char with
        | Some v => HexTerrainType_value (terrain_of_char int_of_char char) = Some v
        | None => terrain_of_char int_of_char char = HexTerrainType.GRASS
        end)
  /\ well_keyed m
  /\ HexMap.start m = None
  /\ HexMap.end_ m = None
  /\ forall fuel race,
       HexAStar.find_path fuel m (HexMap.start m) (HexMap.end_ m) race
       = Raise AttributeError.
Proof.
  intros Hdigit m.
  destruct (load_lines_spec int_of_char Hdigit alloc (text_lines isspace map_text))
    as (Hs & He & Hk & Hcells).
  fold (load_from_text isspace int_of_char alloc map_text) in Hs, He, Hk, Hcells.
  fold m in Hs, He, Hk, Hcells.
  split; [exact Hcells|].
  split; [intros char; apply terrain_of_char_value; exact Hdigit|].
  split; [exact Hk|]. split; [exact Hs|]. split; [exact He|].
  intros fuel race. rewrite Hs, He. reflexivity.
Qed.

Lemma load_from_text_cells_witness :
  let m := load_from_text ascii_isspace ascii_int_of_char Z.of_nat sample_text in
  HexCell.terrain_type <$> HexMap.get_cell m 1 0 = Some HexTerrainType.WATER
  /\ HexCell.terrain_type <$> HexMap.get_cell m 0 2 = Some HexTerrainType.MOUNTAIN
  /\ HexMap.start m = None.
Proof.
  assert (Hdigit : forall c v, ascii_int_of_char c = Some v -> 0 <= v <= 9).
  { intros c v. unfold ascii_int_of_char.
    destruct (48 <=? c) eqn:E1; [|discriminate].
    destruct (c <=? 57) eqn:E2; [|discriminate].
    simpl. intros [= <-]. lia. }
  destruct (load_from_text_cells ascii_isspace ascii_int_of_char Z.of_nat
              sample_text Hdigit) as (Hcells & _ & _ & Hs & _).
  split; [rewrite Hcells; reflexivity|].
  split; [rewrite Hcells; reflexivity|exact Hs].
Defined.
